(** * Relative-dispersion moments and the NetCDF downcast: a Rocq model

    The source file [paper/compress.ipynb] holds two notebooks.  The first
    narrows the numeric types of a trajectory dataset and writes it to a
    new NetCDF file.  The second derives, with a computer-algebra system,
    the moments of the separation density [p(r,t)] for several dispersion
    regimes.

    The symbolic part is modelled over the real numbers: a density is a
    function [R -> R], [integrate f (r, lo, hi)] is the improper integral of
    [f] between two bounds, [diff] is the derivative.  Floating-point
    literals of the notebook ([1.0], [2.0**5], [3.28125]) are read as the
    real numbers they denote. *)

From Stdlib Require Import Reals Lra Lia ClassicalEpsilon FunctionalExtensionality.
From Stdlib Require Import List String Ascii ZArith Bool.
From Stdlib Require Import Floats.SpecFloat.
From Stdlib Require Import Ranalysis5.

Local Open Scope R_scope.

(** ** Bounds of integration and one-sided limits *)

(** The bounds that occur in the notebook: a finite number, [-oo], [oo]. *)
Inductive bound : Type :=
| Finite (a : R)
| MInf
| PInf.

Definition oo : bound := PInf.

Definition above (lo : bound) (x : R) : Prop :=
  match lo with
  | Finite a => a < x
  | MInf => True
  | PInf => False
  end.

Definition below (hi : bound) (x : R) : Prop :=
  match hi with
  | Finite b => x < b
  | PInf => True
  | MInf => False
  end.

Definition inside (lo hi : bound) (x : R) : Prop := above lo x /\ below hi x.

(** [F] tends to [l] when its argument approaches the lower bound from
    inside the interval. *)
Definition tends_lower (lo : bound) (F : R -> R) (l : R) : Prop :=
  forall eps, 0 < eps ->
    exists c, above lo c /\ forall x, above lo x -> x < c -> Rabs (F x - l) < eps.

Definition tends_upper (hi : bound) (F : R -> R) (l : R) : Prop :=
  forall eps, 0 < eps ->
    exists c, below hi c /\ forall x, below hi x -> c < x -> Rabs (F x - l) < eps.

(** ** The improper integral

    [is_integral f lo hi l]: [f] has an antiderivative on the open interval
    whose one-sided limits at the two bounds differ by [l]. *)
Definition antiderivative_on (lo hi : bound) (F f : R -> R) : Prop :=
  forall x, inside lo hi x -> derivable_pt_lim F x (f x).

Definition is_integral (f : R -> R) (lo hi : bound) (l : R) : Prop :=
  exists F la lb,
    antiderivative_on lo hi F f /\
    tends_lower lo F la /\ tends_upper hi F lb /\ l = lb - la.

(** sympy's [integrate(f, (r, lo, hi))]. *)
Definition integrate (f : R -> R) (lo hi : bound) : R :=
  epsilon (inhabits 0) (is_integral f lo hi).

(** sympy's [diff(g, t)]: the derivative of [g] at [t]. *)
Definition diff (g : R -> R) (t : R) : R :=
  epsilon (inhabits 0) (derivable_pt_lim g t).

(** sympy's [gamma]: Euler's integral. *)
Definition gamma (z : R) : R :=
  integrate (fun u => Rpower u (z - 1) * exp (- u)) (Finite 0) oo.

(** [phi] grows without bound. *)
Definition grows_oo (phi : R -> R) : Prop :=
  forall M, exists c, 0 < c /\ forall r, c < r -> M < phi r.

(** The antiderivative of [u^m * exp(-c*u)] obtained by repeated
    integration by parts. *)
Fixpoint gamma_prim (c : R) (m : nat) (u : R) : R :=
  match m with
  | O => - exp (- (c * u)) / c
  | S k => - (u ^ S k * exp (- (c * u))) / c + INR (S k) / c * gamma_prim c k u
  end.


(** The factorial as a real number. *)
Fixpoint Rfact (n : nat) : R :=
  match n with
  | O => 1
  | S k => INR (S k) * Rfact k
  end.


(** The sum of a series. *)
Definition series_sum (a : nat -> R) : R :=
  epsilon (inhabits 0) (infinite_sum a).

(** [gamma_prim 1 n], shifted to vanish at the origin. *)
Definition gamma_prim0 (n : nat) (u : R) : R := gamma_prim 1 n u + INR (fact n).

(** The terms of [exp(-u) * sum_k c_k u^(k+m)], those of its antiderivative,
    their sums and partial sums. *)
Definition lap_term (c : nat -> R) (m k : nat) (u : R) : R :=
  c k * (u ^ (k + m) * exp (- (1 * u))).
Definition lap_prim (c : nat -> R) (m k : nat) (u : R) : R :=
  c k * gamma_prim0 (k + m) u.
Definition lap_f (c : nat -> R) (m : nat) (u : R) : R :=
  series_sum (fun k => lap_term c m k u).
Definition lap_F (c : nat -> R) (m : nat) (u : R) : R :=
  series_sum (fun k => lap_prim c m k u).
Definition lap_fn (c : nat -> R) (m n : nat) (u : R) : R :=
  sum_f_R0 (fun k => lap_term c m k u) n.
Definition lap_Fn (c : nat -> R) (m n : nat) (u : R) : R :=
  sum_f_R0 (fun k => lap_prim c m k u) n.

(** sympy's [besseli(nu, z)]: the modified Bessel function of the first
    kind, by its series. *)
Definition besseli (nu z : R) : R :=
  series_sum (fun k => Rpower (z / 2) (2 * INR k + nu)
                       / (INR (fact k) * gamma (INR k + nu + 1))).

(** The series of [besseli] of integer order [n] without the factor
    [(z/2)^n], as a function of [w = (z/2)^2]. *)
Definition bessel_core (n : nat) (w : R) : R :=
  series_sum (fun k => w ^ k / (INR (fact k) * INR (fact (k + n)))).

(** ** Change of variable between two intervals *)

(** [phi] approaches the lower bound [lo'] as its argument approaches [lo]. *)
Definition approaches_lower (lo lo' : bound) (phi : R -> R) : Prop :=
  forall c', above lo' c' ->
    exists c, above lo c /\ forall x, above lo x -> x < c -> phi x < c'.

Definition approaches_upper (hi hi' : bound) (phi : R -> R) : Prop :=
  forall c', below hi' c' ->
    exists c, below hi c /\ forall x, below hi x -> c < x -> c' < phi x.

(** ** The integrals of [(1 + x^2)^(-q)] *)

Definition hq (q x : R) : R := Rpower (1 + x ^ 2) (- q).

(** Wallis' products. *)
Fixpoint wallis_odd (n : nat) : R :=
  match n with
  | O => 1
  | S k => wallis_odd k * ((2 * INR (S k) - 1) / (2 * INR (S k)))
  end.

Fixpoint wallis_even (n : nat) : R :=
  match n with
  | O => 1
  | S k => wallis_even k * (2 * INR (S k) / (2 * INR (S k) + 1))
  end.

(** The Gaussian [exp(-x^2)]. *)
Definition gauss (x : R) : R := exp (- x ^ 2).

(** The falling factorial [x (x-1) ... (x-j+1)]. *)
Fixpoint falling (x : R) (j : nat) : R :=
  match j with
  | O => 1
  | S i => falling x i * (x - INR i)
  end.

(** The integrand after the substitution [u = exp s]. *)
Definition gamma_log (z s : R) : R := exp (z * s - exp s).

(** ** The regimes of the notebook *)

(** *** 2.2 Asymptotic diffusive regime *)
Module AsymptoticDiffusive.
Definition p (k2 t r : R) : R :=
  1 / (4 * PI * k2 * t) * exp (- (r ^ 2) / (4 * k2 * t)).
Definition ra (k2 t : R) : R :=
  2 * PI * integrate (fun r => p k2 t r * r) (Finite 0) oo.
Definition r2 (k2 t : R) : R :=
  2 * PI * integrate (fun r => p k2 t r * r ^ 3) (Finite 0) oo.
Definition r4 (k2 t : R) : R :=
  2 * PI * integrate (fun r => p k2 t r * r ^ 5) (Finite 0) oo.
Definition rn (k2 t n : R) : R :=
  2 * PI * integrate (fun r => p k2 t r * Rpower r (n + 1)) (Finite 0) oo.
Definition Ku (k2 t : R) : R := r4 k2 t / Rpower (r2 k2 t) 2.
Definition K2 (k2 t : R) : R := diff (fun t => r2 k2 t) t / 2.
End AsymptoticDiffusive.

(** *** 2.3 Full diffusive regime *)
Module FullDiffusive.
Definition p (k2 t r0 r : R) : R :=
  1 / (4 * PI * k2 * t) * exp (- (r0 ^ 2 + r ^ 2) / (4 * k2 * t))
  * besseli 0 ((r0 * r) / (2 * k2 * t)).
Definition ra (k2 t r0 : R) : R :=
  2 * PI * integrate (fun r => p k2 t r0 r * r) (Finite 0) oo.
Definition r2 (k2 t r0 : R) : R :=
  2 * PI * integrate (fun r => p k2 t r0 r * r ^ 3) (Finite 0) oo.
Definition r4 (k2 t r0 : R) : R :=
  2 * PI * integrate (fun r => p k2 t r0 r * r ^ 5) (Finite 0) oo.
Definition rn (k2 t r0 n : R) : R :=
  2 * PI * integrate (fun r => p k2 t r0 r * Rpower r (n + 1)) (Finite 0) oo.
Definition Ku (k2 t r0 : R) : R := r4 k2 t r0 / Rpower (r2 k2 t r0) 2.
Definition K2 (k2 t r0 : R) : R := diff (fun t => r2 k2 t r0) t / 2.
End FullDiffusive.

(** *** 2.4 Asymptotic GM regime *)
Module AsymptoticGM.
Definition fst (lmbd t : R) : R := 2 ^ 5 / (3 * PI * Rpower (lmbd * t) 4).
Definition scd (lmbd t r : R) : R := exp (- 4 * Rpower r (1 / 2) / (lmbd * t)).
Definition p (lmbd t r : R) : R := fst lmbd t * scd lmbd t r.
Definition ra (lmbd t : R) : R :=
  2 * PI * integrate (fun r => p lmbd t r * r) (Finite 0) oo.
Definition r2 (lmbd t : R) : R :=
  2 * PI * integrate (fun r => p lmbd t r * r ^ 3) (Finite 0) oo.
Definition r4 (lmbd t : R) : R :=
  2 * PI * integrate (fun r => p lmbd t r * r ^ 5) (Finite 0) oo.
Definition rn (lmbd t n : R) : R :=
  2 * PI * integrate (fun r => p lmbd t r * Rpower r (n + 1)) (Finite 0) oo.
Definition Ku (lmbd t : R) : R := r4 lmbd t / Rpower (r2 lmbd t) 2.
Definition K2 (lmbd t : R) : R := diff (fun t => r2 lmbd t) t / 2.
Definition a : R := 3.28125.
Definition b : R := 4.
Definition K (lmbd r : R) : R :=
  1 / 2 * Rpower a (1 / b) * b * lmbd * Rpower r ((2 * b - 2) / b).
End AsymptoticGM.

(** *** 2.5 Full GM regime *)
Module FullGM.
Definition fst (lmbd t r0 r : R) : R := 1 / (PI * lmbd * t * Rpower (r0 * r) (3 / 4)).
Definition scd (lmbd t r0 r : R) : R :=
  exp (- 4 * (Rpower r0 (1 / 2) + Rpower r (1 / 2)) / (lmbd * t)).
Definition tmp (lmbd t r0 r : R) : R := 8 * Rpower (r0 * r) (1 / 4) / (lmbd * t).
Definition trd (lmbd t r0 r : R) : R := besseli 3 (tmp lmbd t r0 r).
Definition p (lmbd t r0 r : R) : R :=
  fst lmbd t r0 r * scd lmbd t r0 r * trd lmbd t r0 r.
Definition ra (lmbd t r0 : R) : R :=
  2 * PI * integrate (fun r => p lmbd t r0 r * r) (Finite 0) oo.
Definition r2 (lmbd t r0 : R) : R :=
  2 * PI * integrate (fun r => p lmbd t r0 r * r ^ 3) (Finite 0) oo.
Definition r4 (lmbd t r0 : R) : R :=
  2 * PI * integrate (fun r => p lmbd t r0 r * r ^ 5) (Finite 0) oo.
Definition Ku (lmbd t r0 : R) : R := r4 lmbd t r0 / Rpower (r2 lmbd t r0) 2.
Definition K2 (lmbd t r0 : R) : R := diff (fun t => r2 lmbd t r0) t / 2.
End FullGM.

(** *** 2.6 Generalized asymptotic regime *)
Module GeneralizedAsymptotic.
Definition a : R := 2.
Definition b : R := 3 - a.
Definition fst (lmbd t : R) : R :=
  b / (4 * PI * gamma (4 / b) * Rpower (b ^ 2 / 4 * lmbd * t) (4 / b)).
Definition scd (lmbd t r : R) : R :=
  exp (- 4 / b ^ 2 * Rpower r (b / 2) / (lmbd * t)).
Definition p (lmbd t r : R) : R := fst lmbd t * scd lmbd t r.
Definition ra (lmbd t : R) : R :=
  2 * PI * integrate (fun r => p lmbd t r * r) (Finite 0) oo.
Definition r2 (lmbd t : R) : R :=
  2 * PI * integrate (fun r => p lmbd t r * r ^ 3) (Finite 0) oo.
Definition r4 (lmbd t : R) : R :=
  2 * PI * integrate (fun r => p lmbd t r * r ^ 5) (Finite 0) oo.
Definition rn (lmbd t n : R) : R :=
  2 * PI * integrate (fun r => p lmbd t r * Rpower r (n + 1)) (Finite 0) oo.
Definition Ku (lmbd t : R) : R := r4 lmbd t / Rpower (r2 lmbd t) 2.
Definition K2 (lmbd t : R) : R := diff (fun t => r2 lmbd t) t / 2.
End GeneralizedAsymptotic.

(** *** 2.7 Generalized full regime *)
Module GeneralizedFull.
Definition a : R := 1.
Definition fst (kappa t r0 r : R) : R :=
  1 / (4 * PI * kappa * t * Rpower r (a / 2) * Rpower r0 (a / 2)).
Definition snd (kappa t r0 r : R) : R :=
  exp (- (1 / (a - 2) ^ 2) * (Rpower r (2 - a) + Rpower r0 (2 - a)) / (kappa * t)).
Definition trd (kappa t r0 r : R) : R :=
  besseli (a / (2 - a)) (2 / (a - 2) ^ 2 * Rpower (r * r0) (1 - a / 2) / (kappa * t)).
Definition p (kappa t r0 r : R) : R :=
  fst kappa t r0 r * snd kappa t r0 r * trd kappa t r0 r.
Definition ra (kappa t r0 : R) : R :=
  2 * PI * integrate (fun r => p kappa t r0 r * r) (Finite 0) oo.
Definition r2 (kappa t r0 : R) : R :=
  2 * PI * integrate (fun r => p kappa t r0 r * r ^ 3) (Finite 0) oo.
Definition r4 (kappa t r0 : R) : R :=
  2 * PI * integrate (fun r => p kappa t r0 r * r ^ 5) (Finite 0) oo.
Definition Ku (kappa t r0 : R) : R := r4 kappa t r0 / Rpower (r2 kappa t r0) 2.
Definition K2 (kappa t r0 : R) : R := diff (fun t => r2 kappa t r0) t / 2.
End GeneralizedFull.

(** *** 2.8 Asymptotic Richardson regime *)
Module AsymptoticRichardson.
Definition fst (beta t : R) : R := 1.5 ^ 5 / (4 * PI * Rpower (beta * t) 3).
Definition scd (beta t r : R) : R := exp (- 9 * Rpower r (2 / 3) / (4 * beta * t)).
Definition p (beta t r : R) : R := fst beta t * scd beta t r.
Definition ra (beta t : R) : R :=
  2 * PI * integrate (fun r => p beta t r * r) (Finite 0) oo.
Definition r2 (beta t : R) : R :=
  2 * PI * integrate (fun r => p beta t r * r ^ 3) (Finite 0) oo.
Definition r4 (beta t : R) : R :=
  2 * PI * integrate (fun r => p beta t r * r ^ 5) (Finite 0) oo.
Definition rn (beta t n : R) : R :=
  2 * PI * integrate (fun r => p beta t r * Rpower r (n + 1)) (Finite 0) oo.
Definition Ku (beta t : R) : R := r4 beta t / Rpower (r2 beta t) 2.
Definition K2 (beta t : R) : R := diff (fun t => r2 beta t) t / 2.
Definition a : R := 5.267489.
Definition b : R := 3.
Definition K (beta r : R) : R :=
  1 / 2 * Rpower a (1 / b) * b * beta * Rpower r ((2 * b - 2) / b).
End AsymptoticRichardson.

(** *** 2.9 Full Richardson regime *)
Module FullRichardson.
Definition fst (beta t r0 r : R) : R := 3 / (4 * PI * beta * t * Rpower (r0 * r) (2 / 3)).
Definition scd (beta t r0 r : R) : R :=
  exp (- 9 * (Rpower r0 (2 / 3) + Rpower r (2 / 3)) / (4 * beta * t)).
Definition tmp (beta t r0 r : R) : R := 9 * Rpower (r0 * r) (1 / 3) / (2 * beta * t).
Definition trd (beta t r0 r : R) : R := besseli 2 (tmp beta t r0 r).
Definition p (beta t r0 r : R) : R :=
  fst beta t r0 r * scd beta t r0 r * trd beta t r0 r.
Definition ra (beta t r0 : R) : R :=
  2 * PI * integrate (fun r => p beta t r0 r * r) (Finite 0) oo.
Definition r2 (beta t r0 : R) : R :=
  2 * PI * integrate (fun r => p beta t r0 r * r ^ 3) (Finite 0) oo.
Definition r4 (beta t r0 : R) : R :=
  2 * PI * integrate (fun r => p beta t r0 r * r ^ 5) (Finite 0) oo.
Definition Ku (beta t r0 : R) : R := r4 beta t r0 / Rpower (r2 beta t r0) 2.
Definition K2 (beta t r0 : R) : R := diff (fun t => r2 beta t r0) t / 2.
End FullRichardson.

(** *** 2.10 Full Lundgren regime, raw radius *)
Module FullLundgrenRaw.
Definition p (t r : R) : R :=
  1 / (4 * Rpower PI 1.5 * Rpower t 0.5) * exp (- (ln r + 2 * t) ^ 2 / (4 * t)).
Definition ra (t : R) : R :=
  2 * PI * integrate (fun r => p t r * r) (Finite 0) oo.
Definition r2 (t : R) : R :=
  2 * PI * integrate (fun r => p t r * r ^ 3) (Finite 0) oo.
Definition r4 (t : R) : R :=
  2 * PI * integrate (fun r => p t r * r ^ 5) (Finite 0) oo.
Definition Ku (t : R) : R := r4 t / Rpower (r2 t) 2.
Definition K2 (t : R) : R := diff (fun t => r2 t) t / 2.
End FullLundgrenRaw.

(** *** 2.10 Full Lundgren regime, after the change of variable
    [x = ln (r / r0)] *)
Module FullLundgren.
Definition p (r0 T t x : R) : R :=
  1 / (4 * Rpower PI 1.5 * r0 ^ 2 * Rpower (t / T) 0.5)
  * exp (- (x + 2 * (t / T)) ^ 2 / (4 * (t / T))).
Definition ra (r0 T t : R) : R :=
  2 * PI * integrate (fun x => p r0 T t x * (r0 * exp x) ^ 2) MInf oo.
Definition r2 (r0 T t : R) : R :=
  2 * PI * integrate (fun x => p r0 T t x * (r0 * exp x) ^ 4) MInf oo.
Definition r4 (r0 T t : R) : R :=
  2 * PI * integrate (fun x => p r0 T t x * (r0 * exp x) ^ 6) MInf oo.
Definition Ku (r0 T t : R) : R := r4 r0 T t / Rpower (r2 r0 T t) 2.
Definition K2 (r0 T t : R) : R := diff (fun t => r2 r0 T t) t / 2.
End FullLundgren.

(** ** The dtype downcast of [compress.ipynb]

    The cell reads a dataset, casts six named variables to 32-bit types,
    merges them into a new dataset, sets its title and writes it out.  The
    array library is modelled as far as the cell uses it: a dataset is a
    dictionary of named variables, some of them coordinates, with
    attributes; exceptions are values of an error monad; the file system is
    a dictionary from paths to datasets. *)

Module Downcast.

Local Open Scope string_scope.
Local Open Scope list_scope.
Local Open Scope Z_scope.

Inductive dtype : Type := int32 | int64 | float32 | float64 | datetime64.

(** An array element: an integer (also the tick count of a datetime) or a
    binary floating-point number. *)
Inductive scalar : Type :=
| SInt (z : Z)
| SFloat (f : spec_float).

(** xarray's [Variable]: dimensions with their sizes, element type, the
    elements in row-major order, attributes. *)
Record Var : Type := mkVar {
  dims : list (string * nat);
  dtype_of : dtype;
  values : list scalar;
  vattrs : list (string * string)
}.

(** xarray's [DataArray]: a named variable with the coordinates attached
    to it. *)
Record DataArray : Type := mkDataArray {
  name : string;
  variable : Var;
  da_coords : list (string * Var)
}.

(** An attribute value of a dataset: text or a numeric array. *)
Inductive attr_value : Type :=
| AStr (s : string)
| ANum (dt : dtype) (xs : list scalar).

(** xarray's [Dataset], as it stores itself: one dictionary of variables,
    the set of names that are coordinates, the attributes. *)
Record Dataset : Type := mkDataset {
  variables : list (string * Var);
  coord_names : list string;
  attrs : list (string * attr_value)
}.

(** What attribute access on a dataset can return. *)
Inductive pyobj : Type :=
| PDataArray (da : DataArray)
| PAttr (v : attr_value)
| PNdarray (dt : dtype) (xs : list scalar).

Inductive exn : Type :=
| FileNotFoundError
| AttributeError
| TypeError
| ValueError
| KeyError
| MergeError.

Inductive result (A : Type) : Type :=
| Ok (a : A)
| Raise (e : exn).
Arguments Ok {A} a.
Arguments Raise {A} e.

Definition bind {A B : Type} (r : result A) (k : A -> result B) : result B :=
  match r with
  | Ok a => k a
  | Raise e => Raise e
  end.

Notation "x <- c ;; k" := (bind c (fun x => k))
  (at level 61, c at next level, right associativity).

(** *** Dictionaries as association lists (the first binding counts) *)

Fixpoint lookup {A : Type} (k : string) (l : list (string * A)) : option A :=
  match l with
  | nil => None
  | (k', v) :: l' => if String.eqb k k' then Some v else lookup k l'
  end.

Definition mem (k : string) (l : list string) : bool :=
  existsb (String.eqb k) l.

Fixpoint remove_key {A : Type} (k : string) (l : list (string * A)) : list (string * A) :=
  match l with
  | nil => nil
  | (k', v) :: l' => if String.eqb k k' then remove_key k l' else (k', v) :: remove_key k l'
  end.

(** [d[k] = v]: replace the binding in place, or append a new one. *)
Fixpoint set_item {A : Type} (k : string) (v : A) (l : list (string * A)) : list (string * A) :=
  match l with
  | nil => (k, v) :: nil
  | (k', v') :: l' => if String.eqb k k' then (k, v) :: l' else (k', v') :: set_item k v l'
  end.

(** *** Equality tests *)

Definition dtype_eqb (a b : dtype) : bool :=
  match a, b with
  | int32, int32 | int64, int64 | float32, float32
  | float64, float64 | datetime64, datetime64 => true
  | _, _ => false
  end.

Definition spec_float_eqb (a b : spec_float) : bool :=
  match a, b with
  | S754_zero s, S754_zero s' => Bool.eqb s s'
  | S754_infinity s, S754_infinity s' => Bool.eqb s s'
  | S754_nan, S754_nan => true
  | S754_finite s m e, S754_finite s' m' e' =>
      Bool.eqb s s' && Pos.eqb m m' && Z.eqb e e'
  | _, _ => false
  end.

Definition scalar_eqb (a b : scalar) : bool :=
  match a, b with
  | SInt x, SInt y => Z.eqb x y
  | SFloat x, SFloat y => spec_float_eqb x y
  | _, _ => false
  end.

Fixpoint list_eqb {A : Type} (eqb : A -> A -> bool) (l l' : list A) : bool :=
  match l, l' with
  | nil, nil => true
  | x :: t, y :: t' => eqb x y && list_eqb eqb t t'
  | _, _ => false
  end.

Definition pair_eqb {A B : Type} (ea : A -> A -> bool) (eb : B -> B -> bool)
  (p q : A * B) : bool :=
  ea (fst p) (fst q) && eb (snd p) (snd q).

(** Identity of two variables, bit for bit. *)
Definition var_eqb (v w : Var) : bool :=
  list_eqb (pair_eqb String.eqb Nat.eqb) (dims v) (dims w)
  && dtype_eqb (dtype_of v) (dtype_of w)
  && list_eqb scalar_eqb (values v) (values w)
  && list_eqb (pair_eqb String.eqb String.eqb) (vattrs v) (vattrs w).

(** *** Casts: numpy's [astype] *)

Definition wrap32 (z : Z) : Z := (z + 2 ^ 31) mod 2 ^ 32 - 2 ^ 31.
Definition wrap64 (z : Z) : Z := (z + 2 ^ 63) mod 2 ^ 64 - 2 ^ 63.

(** Rounding to nearest, ties to even, into binary32 and binary64. *)
Definition round_float32 (f : spec_float) : spec_float :=
  match f with
  | S754_finite s m e => binary_round 24 128 s m e
  | _ => f
  end.

Definition round_float64 (f : spec_float) : spec_float :=
  match f with
  | S754_finite s m e => binary_round 53 1024 s m e
  | _ => f
  end.

(** Float to integer: truncation toward zero; what is out of range, an
    infinity or a NaN gives the least integer of the type (the result of the
    conversion instruction of x86-64). *)
Definition float_to_int (bits : Z) (f : spec_float) : Z :=
  match f with
  | S754_zero _ => 0
  | S754_finite s m e =>
      let a := Z.shiftl (Zpos m) e in
      let z := if s then - a else a in
      if (- 2 ^ (bits - 1) <=? z) && (z <? 2 ^ (bits - 1)) then z else - 2 ^ (bits - 1)
  | _ => - 2 ^ (bits - 1)
  end.

Definition cast_scalar (T : dtype) (x : scalar) : scalar :=
  match T, x with
  | int32, SInt z => SInt (wrap32 z)
  | int32, SFloat f => SInt (float_to_int 32 f)
  | int64, SInt z => SInt (wrap64 z)
  | int64, SFloat f => SInt (float_to_int 64 f)
  | datetime64, SInt z => SInt (wrap64 z)
  | datetime64, SFloat f => SInt (float_to_int 64 f)
  | float32, SInt z => SFloat (binary_normalize 24 128 z 0 false)
  | float32, SFloat f => SFloat (round_float32 f)
  | float64, SInt z => SFloat (binary_normalize 53 1024 z 0 false)
  | float64, SFloat f => SFloat (round_float64 f)
  end.

(** [v.astype(T)]: a new variable; the dimensions and the attributes are
    kept.  A variable already of type [T] keeps its elements. *)
Definition astype (T : dtype) (v : Var) : Var :=
  if dtype_eqb (dtype_of v) T then v
  else mkVar (dims v) T (map (cast_scalar T) (values v)) (vattrs v).

(** *** Attribute access on a dataset: [dset.NAME] *)

(** The dimensions of a dataset with their sizes. *)
Definition sizes (ds : Dataset) : list (string * nat) :=
  flat_map (fun kv => dims (snd kv)) (variables ds).

Definition subset_dims (v w : Var) : bool :=
  forallb (fun d => mem (fst d) (map fst (dims w))) (dims v).

(** The coordinates a data array carries along: those of the dataset whose
    dimensions are among the array's own. *)
Definition attached_coords (ds : Dataset) (v : Var) : list (string * Var) :=
  filter (fun kv => mem (fst kv) (coord_names ds) && subset_dims (snd kv) v)
         (variables ds).

Definition construct_dataarray (ds : Dataset) (nm : string) (v : Var) : DataArray :=
  mkDataArray nm v (attached_coords ds v).

(** A dimension without coordinate reads as the index [0, 1, ..., n-1]. *)
Definition virtual_variable (nm : string) (n : nat) : Var :=
  mkVar ((nm, n) :: nil) int64 (map (fun i => SInt (Z.of_nat i)) (seq 0 n)) nil.

Definition attr_obj (a : attr_value) : pyobj :=
  match a with
  | AStr s => PAttr (AStr s)
  | ANum dt xs => PNdarray dt xs
  end.

(** [dset.NAME] looks the name up among the variables, then among the
    dimensions, then among the attributes, and raises [AttributeError]
    when nothing answers. *)
Definition getattr (ds : Dataset) (nm : string) : result pyobj :=
  match lookup nm (variables ds) with
  | Some v => Ok (PDataArray (construct_dataarray ds nm v))
  | None =>
      match lookup nm (sizes ds) with
      | Some n => Ok (PDataArray (construct_dataarray ds nm (virtual_variable nm n)))
      | None =>
          match lookup nm (attrs ds) with
          | Some a => Ok (attr_obj a)
          | None => Raise AttributeError
          end
      end
  end.

(** [obj.astype(T)]: defined on data arrays and on numpy arrays; text has
    no such method. *)
Definition astype_obj (T : dtype) (o : pyobj) : result pyobj :=
  match o with
  | PDataArray da =>
      Ok (PDataArray (mkDataArray (name da) (astype T (variable da)) (da_coords da)))
  | PNdarray dt xs =>
      Ok (PNdarray T (if dtype_eqb dt T then xs else map (cast_scalar T) xs))
  | PAttr _ => Raise AttributeError
  end.

(** *** [xr.merge] *)

(** [da.to_dataset(promote_attrs=True)]. *)
Definition to_dataset (da : DataArray) : result Dataset :=
  if mem (name da) (map fst (da_coords da)) then Raise ValueError
  else Ok (mkDataset (da_coords da ++ (name da, variable da) :: nil)
                     (map fst (da_coords da))
                     (map (fun kv => (fst kv, AStr (snd kv))) (vattrs (variable da)))).

(** Union of two dictionaries of variables; a name bound in both must be
    bound to identical variables. *)
Fixpoint merge_variables (acc new : list (string * Var)) : result (list (string * Var)) :=
  match new with
  | nil => Ok acc
  | (k, v) :: rest =>
      match lookup k acc with
      | Some v' => if var_eqb v v' then merge_variables acc rest else Raise MergeError
      | None => merge_variables (acc ++ (k, v) :: nil) rest
      end
  end.

Definition union_names (a b : list string) : list string :=
  a ++ filter (fun k => negb (mem k a)) b.

(** The loop of [xr.merge] over its arguments: a data array is converted
    to a dataset, anything that is not a data array is refused. *)
Definition as_dataset (o : pyobj) : result Dataset :=
  match o with
  | PDataArray da => to_dataset da
  | _ => Raise TypeError
  end.

Fixpoint to_datasets (objs : list pyobj) : result (list Dataset) :=
  match objs with
  | nil => Ok nil
  | o :: rest => d <- as_dataset o ;; ds <- to_datasets rest ;; Ok (d :: ds)
  end.

(** The variables of all the datasets, collected from left to right. *)
Fixpoint merge_collected (acc : list (string * Var)) (ds : list Dataset)
  : result (list (string * Var)) :=
  match ds with
  | nil => Ok acc
  | d :: rest => vars <- merge_variables acc (variables d) ;; merge_collected vars rest
  end.

(** The coordinates and the data variables of a dataset, by name. *)
Definition coords (d : Dataset) : list string :=
  filter (fun k => mem k (coord_names d)) (map fst (variables d)).

Definition data_vars (d : Dataset) : list string :=
  filter (fun k => negb (mem k (coord_names d))) (map fst (variables d)).

(** The names that are coordinates in some dataset, and the names that
    are data variables in some dataset. *)
Definition determine_coords (ds : list Dataset) : list string * list string :=
  (fold_left union_names (map coords ds) nil,
   fold_left union_names (map data_vars ds) nil).

(** The variables that are named after a dimension: they are
    coordinates of the dataset that holds them. *)
Definition dimension_variables (vars : list (string * Var)) : list string :=
  filter (fun k => mem k (map fst (flat_map (fun kv => dims (snd kv)) vars)))
         (map fst vars).

(** [merge_core]: the variables are merged; the coordinates are those of
    the datasets and the variables named after a dimension; a name that is
    a coordinate on one side and a data variable on the other is refused.
    The attributes of the result are those of the first object
    ([combine_attrs="override"]). *)
Definition merge_core (ds : list Dataset) : result Dataset :=
  vars <- merge_collected nil ds ;;
  let cs := union_names (fst (determine_coords ds)) (dimension_variables vars) in
  let ncs := snd (determine_coords ds) in
  if existsb (fun k => mem k ncs) cs then Raise MergeError
  else Ok (mkDataset vars cs (match ds with d :: _ => attrs d | nil => nil end)).

Definition merge (objs : list pyobj) : result Dataset :=
  ds <- to_datasets objs ;; merge_core ds.

(** *** Files *)

Definition filesystem : Type := list (string * Dataset).

(** [xr.open_dataset(path)]: the dataset is built from what the file
    holds; a variable named after a dimension is a coordinate of it. *)
Definition open_dataset (fs : filesystem) (path : string) : result Dataset :=
  match lookup path fs with
  | Some ds =>
      Ok (mkDataset (variables ds)
                    (union_names (coord_names ds) (dimension_variables (variables ds)))
                    (attrs ds))
  | None => Raise FileNotFoundError
  end.

(** The per-variable [encoding] of [to_netcdf]: the type to store the
    variable in (the [zlib] flag selects a lossless compression and does
    not change what is read back). *)
Fixpoint encode (enc : list (string * dtype)) (vars : list (string * Var))
  : result (list (string * Var)) :=
  match enc with
  | nil => Ok vars
  | (k, T) :: rest =>
      match lookup k vars with
      | Some v => encode rest (set_item k (astype T v) vars)
      | None => Raise KeyError
      end
  end.

(** [ds.to_netcdf(path, encoding=enc)]: the file is created first, then
    filled; a failure while encoding leaves an empty file behind. *)
Definition to_netcdf (ds : Dataset) (path : string) (enc : list (string * dtype))
  (fs : filesystem) : result unit * filesystem :=
  match encode enc (variables ds) with
  | Ok vars => (Ok tt, set_item path (mkDataset vars (coord_names ds) (attrs ds)) fs)
  | Raise e => (Raise e, set_item path (mkDataset nil nil nil) fs)
  end.

(** *** The cell *)

Definition upper_ascii (c : Ascii.ascii) : Ascii.ascii :=
  let n := Ascii.nat_of_ascii c in
  if (Nat.leb 97 n && Nat.leb n 122)%bool then Ascii.ascii_of_nat (n - 32) else c.

Definition lower_ascii (c : Ascii.ascii) : Ascii.ascii :=
  let n := Ascii.nat_of_ascii c in
  if (Nat.leb 65 n && Nat.leb n 90)%bool then Ascii.ascii_of_nat (n + 32) else c.

Fixpoint map_string (f : Ascii.ascii -> Ascii.ascii) (s : string) : string :=
  match s with
  | EmptyString => EmptyString
  | String c s' => String (f c) (map_string f s')
  end.

Definition upper (s : string) : string := map_string upper_ascii s.
Definition lower (s : string) : string := map_string lower_ascii s.

Definition dname : string := "laser".
Definition suffix : string := "_drogued_remove_first".

Definition input_path : string :=
  "/Data/" ++ upper dname ++ "/" ++ dname ++ "64" ++ suffix ++ ".nc".

Definition output_path : string :=
  "../data/" ++ dname ++ "32" ++ suffix ++ ".nc".

(** The variables to narrow, with their target types. *)
Definition targets : list (string * dtype) :=
  ("ID", int32) :: ("rowsize", int32) :: ("ve", float32) :: ("vn", float32)
  :: ("longitude", float32) :: ("latitude", float32) :: nil.

Definition encoding : list (string * dtype) :=
  ("ve", float32) :: ("vn", float32) :: ("longitude", float32)
  :: ("latitude", float32) :: nil.

(** [dset.NAME.astype(T)] *)
Definition narrowed (dset : Dataset) (nm : string) (T : dtype) : result pyobj :=
  o <- getattr dset nm ;; astype_obj T o.

(** The argument list of [xr.merge], evaluated from left to right. *)
Definition merge_arguments (dset : Dataset) : result (list pyobj) :=
  a1 <- narrowed dset "ID" int32 ;;
  a2 <- narrowed dset "rowsize" int32 ;;
  a3 <- narrowed dset "ve" float32 ;;
  a4 <- narrowed dset "vn" float32 ;;
  a5 <- narrowed dset "longitude" float32 ;;
  a6 <- narrowed dset "latitude" float32 ;;
  Ok (a1 :: a2 :: a3 :: a4 :: a5 :: a6 :: nil).

Definition set_title (d : Dataset) : Dataset :=
  mkDataset (variables d) (coord_names d)
            (set_item "title" (AStr (dname ++ " experiment")) (attrs d)).

Definition make_dset2 (dset : Dataset) : result Dataset :=
  args <- merge_arguments dset ;;
  d <- merge args ;;
  Ok (set_title d).

(** The whole cell, as a function of the file system. *)
Definition cell (fs : filesystem) : result unit * filesystem :=
  match open_dataset fs input_path with
  | Raise e => (Raise e, fs)
  | Ok dset =>
      match make_dset2 dset with
      | Raise e => (Raise e, fs)
      | Ok dset2 => to_netcdf dset2 output_path encoding fs
      end
  end.

(** *** Auxiliary notions for the statements *)

(** [agrees ref l]: every binding of [l] is the one [ref] prescribes. *)
Definition agrees (ref : string -> option Var) (l : list (string * Var)) : Prop :=
  forall k v, In (k, v) l -> ref k = Some v.

(** The dictionary a successful cell is expected to write: the targeted
    variables cast, the coordinates as they are. *)
Definition expected (dset : Dataset) (k : string) : option Var :=
  match lookup k targets with
  | Some T => option_map (astype T) (lookup k (variables dset))
  | None => if mem k (coord_names dset) then lookup k (variables dset) else None
  end.

(** The data array the cell builds for a targeted data variable. *)
Definition narrowed_array (dset : Dataset) (nm : string) (T : dtype) (v : Var) : DataArray :=
  mkDataArray nm (astype T v) (attached_coords dset v).

(** *** A small dataset in the shape of the notebook's *)

Definition example_dataset : Dataset :=
  mkDataset
    (("ids", mkVar (("obs", 3%nat) :: nil) int64
               (SInt 4 :: SInt 4 :: SInt 5 :: nil) nil)
     :: ("time", mkVar (("obs", 3%nat) :: nil) datetime64
               (SInt 1453403700000000000 :: SInt 1453404600000000000
                :: SInt 1453405500000000000 :: nil) nil)
     :: ("ID", mkVar (("traj", 2%nat) :: nil) int64
               (SInt 4 :: SInt 4294967301 :: nil)
               (("long_name", "Buoy ID") :: ("units", "-") :: nil))
     :: ("rowsize", mkVar (("traj", 2%nat) :: nil) int64
               (SInt 2 :: SInt 1 :: nil) nil)
     :: ("ve", mkVar (("obs", 3%nat) :: nil) float64
               (SFloat (S754_finite false 6341068275337658 (-57))
                :: SFloat (S754_finite false 6196953087261802 (-57))
                :: SFloat (S754_finite false 5620492334958379 (-57)) :: nil) nil)
     :: ("vn", mkVar (("obs", 3%nat) :: nil) float64
               (SFloat (S754_finite false 6611284252979888 (-54))
                :: SFloat (S754_finite false 6431140267885068 (-54))
                :: SFloat (S754_finite false 6287025079809212 (-54)) :: nil) nil)
     :: ("longitude", mkVar (("obs", 3%nat) :: nil) float64
               (SFloat (S754_finite true 6170635176939356 (-46))
                :: SFloat (S754_finite true 6170635176939356 (-46))
                :: SFloat (S754_finite true 6170635176939356 (-46)) :: nil) nil)
     :: ("latitude", mkVar (("obs", 3%nat) :: nil) float64
               (SFloat (S754_finite false 8174033323677450 (-48))
                :: SFloat (S754_finite false 8176848073444557 (-48))
                :: SFloat (S754_finite false 8176848073444557 (-48)) :: nil) nil)
     :: ("depth", mkVar (("obs", 3%nat) :: nil) float64
               (SFloat (S754_finite false 4503599627370496 (-52))
                :: SFloat (S754_finite false 4503599627370496 (-51))
                :: SFloat (S754_finite false 6755399441055744 (-51)) :: nil) nil)
     :: nil)
    ("ids" :: "time" :: nil)
    (("title", AStr "LASER experiment") :: nil).

Definition example_fs : filesystem := (input_path, example_dataset) :: nil.

(** The same dataset without its variable [rowsize]. *)
Definition example_dataset_incomplete : Dataset :=
  mkDataset (remove_key "rowsize" (variables example_dataset))
            (coord_names example_dataset) (attrs example_dataset).

Definition example_fs_incomplete : filesystem :=
  (input_path, example_dataset_incomplete) :: nil.

(** A dataset without a variable [rowsize], in which [ID] lies along a
    dimension of that name. *)
Definition example_dataset_dimension : Dataset :=
  mkDataset
    (("ids", mkVar (("obs", 3%nat) :: nil) int64
               (SInt 4 :: SInt 4 :: SInt 5 :: nil) nil)
     :: ("ID", mkVar (("rowsize", 2%nat) :: nil) int64
               (SInt 4 :: SInt 5 :: nil) nil)
     :: ("ve", mkVar (("obs", 3%nat) :: nil) float64
               (SFloat (S754_finite false 6341068275337658 (-57))
                :: SFloat (S754_finite false 6196953087261802 (-57))
                :: SFloat (S754_finite false 5620492334958379 (-57)) :: nil) nil)
     :: ("vn", mkVar (("obs", 3%nat) :: nil) float64
               (SFloat (S754_finite false 6611284252979888 (-54))
                :: SFloat (S754_finite false 6431140267885068 (-54))
                :: SFloat (S754_finite false 6287025079809212 (-54)) :: nil) nil)
     :: ("longitude", mkVar (("obs", 3%nat) :: nil) float64
               (SFloat (S754_finite true 6170635176939356 (-46))
                :: SFloat (S754_finite true 6170635176939356 (-46))
                :: SFloat (S754_finite true 6170635176939356 (-46)) :: nil) nil)
     :: ("latitude", mkVar (("obs", 3%nat) :: nil) float64
               (SFloat (S754_finite false 8174033323677450 (-48))
                :: SFloat (S754_finite false 8176848073444557 (-48))
                :: SFloat (S754_finite false 8176848073444557 (-48)) :: nil) nil)
     :: nil)
    ("ids" :: nil)
    (("title", AStr "LASER experiment") :: nil).

Definition example_fs_dimension : filesystem :=
  (input_path, example_dataset_dimension) :: nil.

End Downcast.
(** ** Basic facts about the one-sided limits *)

Lemma above_lower_point lo hi x0 c1 c2 :
  inside lo hi x0 -> above lo c1 -> above lo c2 ->
  exists x, inside lo hi x /\ x < c1 /\ x < c2.
Proof.
  intros [Ha Hb] H1 H2.
  destruct lo as [a| |]; simpl in *; try contradiction.
  - exists (Rmin x0 ((a + Rmin c1 c2) / 2)).
    assert (Hm : a < Rmin c1 c2) by (apply Rmin_glb_lt; assumption).
    assert (Hl1 := Rmin_l c1 c2). assert (Hl2 := Rmin_r c1 c2).
    assert (Hx1 := Rmin_l x0 ((a + Rmin c1 c2) / 2)).
    assert (Hx2 := Rmin_r x0 ((a + Rmin c1 c2) / 2)).
    repeat split.
    + apply Rmin_glb_lt; lra.
    + destruct hi; simpl in *; try tauto; lra.
    + lra.
    + lra.
  - exists (Rmin x0 (Rmin c1 c2 - 1)).
    assert (Hl1 := Rmin_l c1 c2). assert (Hl2 := Rmin_r c1 c2).
    assert (Hx1 := Rmin_l x0 (Rmin c1 c2 - 1)).
    assert (Hx2 := Rmin_r x0 (Rmin c1 c2 - 1)).
    repeat split.
    + destruct hi; simpl in *; try tauto; lra.
    + lra.
    + lra.
Qed.

Lemma below_upper_point lo hi x0 c1 c2 :
  inside lo hi x0 -> below hi c1 -> below hi c2 ->
  exists x, inside lo hi x /\ c1 < x /\ c2 < x.
Proof.
  intros [Ha Hb] H1 H2.
  destruct hi as [b| |]; simpl in *; try contradiction.
  - exists (Rmax x0 ((b + Rmax c1 c2) / 2)).
    assert (Hm : Rmax c1 c2 < b) by (apply Rmax_lub_lt; assumption).
    assert (Hl1 := Rmax_l c1 c2). assert (Hl2 := Rmax_r c1 c2).
    assert (Hx1 := Rmax_l x0 ((b + Rmax c1 c2) / 2)).
    assert (Hx2 := Rmax_r x0 ((b + Rmax c1 c2) / 2)).
    repeat split.
    + destruct lo; simpl in *; try tauto; lra.
    + apply Rmax_lub_lt; lra.
    + lra.
    + lra.
  - exists (Rmax x0 (Rmax c1 c2 + 1)).
    assert (Hl1 := Rmax_l c1 c2). assert (Hl2 := Rmax_r c1 c2).
    assert (Hx1 := Rmax_l x0 (Rmax c1 c2 + 1)).
    assert (Hx2 := Rmax_r x0 (Rmax c1 c2 + 1)).
    repeat split.
    + destruct lo; simpl in *; try tauto; lra.
    + lra.
    + lra.
Qed.

(** On the open interval, two antiderivatives of one function differ by a
    constant. *)
Lemma antiderivative_diff_const lo hi F G f x y :
  antiderivative_on lo hi F f -> antiderivative_on lo hi G f ->
  inside lo hi x -> inside lo hi y ->
  F x - G x = F y - G y.
Proof.
  assert (Hord : forall x y, x < y ->
    antiderivative_on lo hi F f -> antiderivative_on lo hi G f ->
    inside lo hi x -> inside lo hi y -> F x - G x = F y - G y).
  { clear x y. intros x y Hxy HF HG Hx Hy.
    destruct (MVT_cor2 (fun z => F z - G z) (fun _ => 0) x y Hxy) as [c [Hc _]].
    - intros c Hc.
      assert (Hin : inside lo hi c).
      { destruct Hx as [Hx1 Hx2], Hy as [Hy1 Hy2]. split.
        - destruct lo; simpl in *; try tauto; lra.
        - destruct hi; simpl in *; try tauto; lra. }
      replace 0 with (f c - f c) by ring.
      apply (derivable_pt_lim_minus F G c); [apply HF | apply HG]; assumption.
    - lra. }
  intros HF HG Hx Hy.
  destruct (Rtotal_order x y) as [H | [H | H]].
  - apply Hord; assumption.
  - subst; reflexivity.
  - symmetry; apply Hord; assumption.
Qed.

Lemma Rabs_small_eq a b : (forall eps, 0 < eps -> Rabs (a - b) < eps) -> a = b.
Proof.
  intros H. destruct (Req_dec a b) as [E | N]; [assumption | exfalso].
  assert (Hp : 0 < Rabs (a - b)) by (apply Rabs_pos_lt; lra).
  specialize (H _ Hp). lra.
Qed.

(** The value of the improper integral is unique. *)
Lemma is_integral_unique f lo hi l1 l2 :
  (exists x0, inside lo hi x0) ->
  is_integral f lo hi l1 -> is_integral f lo hi l2 -> l1 = l2.
Proof.
  intros [x0 Hx0] (F & la & lb & HF & HFa & HFb & ->) (G & ma & mb & HG & HGa & HGb & ->).
  set (k := F x0 - G x0).
  assert (Hk : forall x, inside lo hi x -> F x - G x = k).
  { intros x Hx. apply (antiderivative_diff_const lo hi F G f); assumption. }
  assert (Ea : la - ma = k).
  { apply Rabs_small_eq. intros eps He.
    destruct (HFa (eps / 2)) as [c1 [Hc1 H1]]; [lra|].
    destruct (HGa (eps / 2)) as [c2 [Hc2 H2]]; [lra|].
    destruct (above_lower_point lo hi x0 c1 c2 Hx0 Hc1 Hc2) as [x [Hx [Hx1 Hx2]]].
    specialize (H1 x (proj1 Hx) Hx1). specialize (H2 x (proj1 Hx) Hx2).
    rewrite <- (Hk x Hx).
    replace (la - ma - (F x - G x)) with (- (F x - la) + (G x - ma)) by ring.
    eapply Rle_lt_trans; [apply Rabs_triang|].
    rewrite Rabs_Ropp. lra. }
  assert (Eb : lb - mb = k).
  { apply Rabs_small_eq. intros eps He.
    destruct (HFb (eps / 2)) as [c1 [Hc1 H1]]; [lra|].
    destruct (HGb (eps / 2)) as [c2 [Hc2 H2]]; [lra|].
    destruct (below_upper_point lo hi x0 c1 c2 Hx0 Hc1 Hc2) as [x [Hx [Hx1 Hx2]]].
    specialize (H1 x (proj2 Hx) Hx1). specialize (H2 x (proj2 Hx) Hx2).
    rewrite <- (Hk x Hx).
    replace (lb - mb - (F x - G x)) with (- (F x - lb) + (G x - mb)) by ring.
    eapply Rle_lt_trans; [apply Rabs_triang|].
    rewrite Rabs_Ropp. lra. }
  lra.
Qed.

Lemma integrate_eq f lo hi l :
  (exists x0, inside lo hi x0) ->
  is_integral f lo hi l -> integrate f lo hi = l.
Proof.
  intros Hne H.
  apply (is_integral_unique f lo hi); [assumption | | assumption].
  unfold integrate. apply epsilon_spec. exists l. exact H.
Qed.

Lemma inside_0_oo x : 0 < x -> inside (Finite 0) oo x.
Proof. intros H; split; simpl; auto. Qed.

Lemma nonempty_0_oo : exists x0, inside (Finite 0) oo x0.
Proof. exists 1. apply inside_0_oo. lra. Qed.

Lemma nonempty_moo_oo : exists x0, inside MInf oo x0.
Proof. exists 0. split; simpl; auto. Qed.

Lemma diff_eq g t l : derivable_pt_lim g t l -> diff g t = l.
Proof.
  intros H. unfold diff.
  apply (uniqueness_limite g t); [|assumption].
  apply epsilon_spec. exists l. exact H.
Qed.

(** ** Algebra of the one-sided limits *)

Lemma tends_upper_ext lo hi F G l :
  (forall x, inside lo hi x -> F x = G x) ->
  (exists x0, inside lo hi x0) ->
  tends_upper hi F l -> tends_upper hi G l.
Proof.
  intros E [x0 Hx0] H eps He.
  destruct (H eps He) as [c [Hc Hl]].
  destruct (below_upper_point lo hi x0 c c Hx0 Hc Hc) as [c' [Hc' [Hcc _]]].
  exists c'. split; [apply Hc'|].
  intros x Hx Hcx. rewrite <- E.
  - apply Hl; [assumption | lra].
  - split; [|assumption].
    destruct Hc' as [Hc1 _]. destruct lo; simpl in *; try tauto; lra.
Qed.

Lemma tends_lower_ext lo hi F G l :
  (forall x, inside lo hi x -> F x = G x) ->
  (exists x0, inside lo hi x0) ->
  tends_lower lo F l -> tends_lower lo G l.
Proof.
  intros E [x0 Hx0] H eps He.
  destruct (H eps He) as [c [Hc Hl]].
  destruct (above_lower_point lo hi x0 c c Hx0 Hc Hc) as [c' [Hc' [Hcc _]]].
  exists c'. split; [apply Hc'|].
  intros x Hx Hcx. rewrite <- E.
  - apply Hl; [assumption | lra].
  - split; [assumption|].
    destruct Hc' as [_ Hc2]. destruct hi; simpl in *; try tauto; lra.
Qed.

Lemma above_min lo c1 c2 : above lo c1 -> above lo c2 -> above lo (Rmin c1 c2).
Proof. destruct lo; simpl; auto. intros; apply Rmin_glb_lt; assumption. Qed.

Lemma below_max hi c1 c2 : below hi c1 -> below hi c2 -> below hi (Rmax c1 c2).
Proof. destruct hi; simpl; auto. intros; apply Rmax_lub_lt; assumption. Qed.

Lemma tends_upper_plus hi F G l m :
  tends_upper hi F l -> tends_upper hi G m ->
  tends_upper hi (fun x => F x + G x) (l + m).
Proof.
  intros HF HG eps He.
  destruct (HF (eps / 2)) as [c1 [Hc1 H1]]; [lra|].
  destruct (HG (eps / 2)) as [c2 [Hc2 H2]]; [lra|].
  exists (Rmax c1 c2). split; [apply below_max; assumption|].
  intros x Hx Hc.
  assert (Hl1 := Rmax_l c1 c2). assert (Hl2 := Rmax_r c1 c2).
  replace (F x + G x - (l + m)) with ((F x - l) + (G x - m)) by ring.
  eapply Rle_lt_trans; [apply Rabs_triang|].
  specialize (H1 x Hx). specialize (H2 x Hx). lra.
Qed.

Lemma tends_lower_plus lo F G l m :
  tends_lower lo F l -> tends_lower lo G m ->
  tends_lower lo (fun x => F x + G x) (l + m).
Proof.
  intros HF HG eps He.
  destruct (HF (eps / 2)) as [c1 [Hc1 H1]]; [lra|].
  destruct (HG (eps / 2)) as [c2 [Hc2 H2]]; [lra|].
  exists (Rmin c1 c2). split; [apply above_min; assumption|].
  intros x Hx Hc.
  assert (Hl1 := Rmin_l c1 c2). assert (Hl2 := Rmin_r c1 c2).
  replace (F x + G x - (l + m)) with ((F x - l) + (G x - m)) by ring.
  eapply Rle_lt_trans; [apply Rabs_triang|].
  specialize (H1 x Hx). specialize (H2 x Hx). lra.
Qed.

Lemma tends_upper_scal hi F l k :
  tends_upper hi F l -> tends_upper hi (fun x => k * F x) (k * l).
Proof.
  intros HF eps He.
  destruct (Req_dec k 0) as [-> | Hk].
  - destruct (HF 1) as [c [Hc _]]; [lra|].
    exists c. split; [assumption|]. intros x _ _.
    replace (0 * F x - 0 * l) with 0 by ring. rewrite Rabs_R0. assumption.
  - assert (Hak : 0 < Rabs k) by (apply Rabs_pos_lt; assumption).
    destruct (HF (eps / Rabs k)) as [c [Hc H1]].
    { apply Rdiv_lt_0_compat; assumption. }
    exists c. split; [assumption|]. intros x Hx Hcx.
    replace (k * F x - k * l) with (k * (F x - l)) by ring.
    rewrite Rabs_mult.
    specialize (H1 x Hx Hcx).
    apply (Rmult_lt_compat_l (Rabs k)) in H1; [|assumption].
    replace (Rabs k * (eps / Rabs k)) with eps in H1 by (field; lra).
    assumption.
Qed.

Lemma tends_lower_scal lo F l k :
  tends_lower lo F l -> tends_lower lo (fun x => k * F x) (k * l).
Proof.
  intros HF eps He.
  destruct (Req_dec k 0) as [-> | Hk].
  - destruct (HF 1) as [c [Hc _]]; [lra|].
    exists c. split; [assumption|]. intros x _ _.
    replace (0 * F x - 0 * l) with 0 by ring. rewrite Rabs_R0. assumption.
  - assert (Hak : 0 < Rabs k) by (apply Rabs_pos_lt; assumption).
    destruct (HF (eps / Rabs k)) as [c [Hc H1]].
    { apply Rdiv_lt_0_compat; assumption. }
    exists c. split; [assumption|]. intros x Hx Hcx.
    replace (k * F x - k * l) with (k * (F x - l)) by ring.
    rewrite Rabs_mult.
    specialize (H1 x Hx Hcx).
    apply (Rmult_lt_compat_l (Rabs k)) in H1; [|assumption].
    replace (Rabs k * (eps / Rabs k)) with eps in H1 by (field; lra).
    assumption.
Qed.

(** A function continuous at a finite bound tends to its value there. *)
Lemma tends_lower_continuous a F :
  continuity_pt F a -> tends_lower (Finite a) F (F a).
Proof.
  intros HC eps He.
  destruct (HC eps He) as [d [Hd H]].
  exists (a + d). split; [simpl; lra|].
  intros x Hx Hxd. simpl in Hx.
  apply H. split.
  - split; [exact I | lra].
  - simpl. unfold Rdist. rewrite Rabs_right; lra.
Qed.

Lemma tends_upper_continuous b F :
  continuity_pt F b -> tends_upper (Finite b) F (F b).
Proof.
  intros HC eps He.
  destruct (HC eps He) as [d [Hd H]].
  exists (b - d). split; [simpl; lra|].
  intros x Hx Hxd. simpl in Hx.
  apply H. split.
  - split; [exact I | lra].
  - simpl. unfold Rdist. rewrite Rabs_left; lra.
Qed.

Lemma derivable_continuity_pt F x l : derivable_pt_lim F x l -> continuity_pt F x.
Proof.
  intros H. apply derivable_continuous_pt. exists l. exact H.
Qed.

(** ** Linearity and extensionality of the integral *)

Lemma is_integral_ext f g lo hi l :
  (forall x, inside lo hi x -> f x = g x) ->
  is_integral f lo hi l -> is_integral g lo hi l.
Proof.
  intros E (F & la & lb & HF & Ha & Hb & ->).
  exists F, la, lb. repeat split; try assumption.
  intros x Hx. rewrite <- E by assumption. apply HF; assumption.
Qed.

Lemma is_integral_scal f lo hi l k :
  is_integral f lo hi l -> is_integral (fun x => k * f x) lo hi (k * l).
Proof.
  intros (F & la & lb & HF & Ha & Hb & ->).
  exists (fun x => k * F x), (k * la), (k * lb). repeat split.
  - intros x Hx. apply (derivable_pt_lim_scal F k x). apply HF; assumption.
  - apply tends_lower_scal; assumption.
  - apply tends_upper_scal; assumption.
  - ring.
Qed.

Lemma is_integral_plus f g lo hi l m :
  is_integral f lo hi l -> is_integral g lo hi m ->
  is_integral (fun x => f x + g x) lo hi (l + m).
Proof.
  intros (F & la & lb & HF & Ha & Hb & ->) (G & ma & mb & HG & Hma & Hmb & ->).
  exists (fun x => F x + G x), (la + ma), (lb + mb). repeat split.
  - intros x Hx. apply (derivable_pt_lim_plus F G x); [apply HF | apply HG]; assumption.
  - apply tends_lower_plus; assumption.
  - apply tends_upper_plus; assumption.
  - ring.
Qed.

(** ** Decay of [u^m * exp(-c*u)] and the integrals of Gamma type *)

Lemma exp_INR_mult n x : exp (INR n * x) = exp x ^ n.
Proof.
  induction n as [|n IH].
  - simpl. rewrite Rmult_0_l. apply exp_0.
  - rewrite S_INR, Rmult_plus_distr_r, Rmult_1_l, exp_plus, IH. simpl. ring.
Qed.

Lemma exp_neg_le_inv x : 0 < x -> exp (- x) <= / x.
Proof.
  intros Hx. rewrite exp_Ropp.
  apply Rinv_le_contravar; [assumption|].
  assert (H := exp_ineq1_le x). lra.
Qed.

(** [u^m * exp(-c*u) <= K / u] on the positive axis. *)
Lemma pow_exp_bound m c :
  0 < c -> exists K, 0 < K /\ forall u, 0 < u -> u ^ m * exp (- (c * u)) <= K / u.
Proof.
  intros Hc.
  remember (INR (S m)) as k eqn:Ek.
  assert (Hn : 0 < k) by (subst k; apply lt_0_INR; lia).
  exists ((k / c) ^ S m). split.
  - apply pow_lt. apply Rdiv_lt_0_compat; assumption.
  - intros u Hu.
    assert (Hy : 0 < c * u / k).
    { apply Rdiv_lt_0_compat; [apply Rmult_lt_0_compat|]; assumption. }
    replace (- (c * u)) with (k * (- (c * u / k))) by (field; lra).
    rewrite Ek at 1. rewrite exp_INR_mult.
    assert (Hb := exp_neg_le_inv _ Hy).
    assert (He : 0 <= exp (- (c * u / k))) by (left; apply exp_pos).
    assert (Hpow := pow_incr _ _ (S m) (conj He Hb)).
    assert (Hum : 0 <= u ^ m) by (apply pow_le; lra).
    apply Rle_trans with (u ^ m * (/ (c * u / k)) ^ S m).
    + apply Rmult_le_compat_l; assumption.
    + right.
      replace (/ (c * u / k)) with (k / c * / u) by (field; lra).
      rewrite Rpow_mult_distr.
      assert (E : u ^ m * (/ u) ^ S m = / u).
      { simpl. rewrite <- Rmult_assoc, (Rmult_comm (u ^ m)), Rmult_assoc.
        rewrite <- Rpow_mult_distr, Rinv_r, pow1; [ring | lra]. }
      transitivity ((k / c) ^ S m * (u ^ m * (/ u) ^ S m)); [ring|].
      rewrite E. reflexivity.
Qed.

Lemma tends_upper_pow_exp m c :
  0 < c -> tends_upper oo (fun u => u ^ m * exp (- (c * u))) 0.
Proof.
  intros Hc eps He.
  destruct (pow_exp_bound m c Hc) as [K [HK Hb]].
  exists (Rmax 1 (K / eps)). split; [exact I|].
  intros u _ Hu.
  assert (H1 := Rmax_l 1 (K / eps)). assert (H2 := Rmax_r 1 (K / eps)).
  assert (Hu0 : 0 < u) by lra.
  rewrite Rminus_0_r, Rabs_right.
  - apply Rle_lt_trans with (K / u); [apply Hb; assumption|].
    apply (Rmult_lt_reg_r u); [assumption|].
    replace (K / u * u) with K by (field; lra).
    assert (K / eps < u) by lra.
    apply (Rmult_lt_compat_r eps) in H; [|assumption].
    replace (K / eps * eps) with K in H by (field; lra). lra.
  - apply Rle_ge. apply Rmult_le_pos; [apply pow_le; lra | left; apply exp_pos].
Qed.

Lemma derivable_pt_lim_exp_lin c u :
  derivable_pt_lim (fun u => exp (- (c * u))) u (- c * exp (- (c * u))).
Proof.
  replace (- c * exp (- (c * u))) with (exp (- (c * u)) * (- c)) by ring.
  apply (derivable_pt_lim_comp (fun u => - (c * u)) exp).
  - replace (- c) with (- (c * 1)) by ring.
    apply (derivable_pt_lim_opp (fun u => c * u)).
    apply (derivable_pt_lim_scal id c u). apply derivable_pt_lim_id.
  - apply derivable_pt_lim_exp.
Qed.

Lemma derivable_pt_lim_pow_exp c m u :
  derivable_pt_lim (fun u => u ^ m * exp (- (c * u))) u
    (INR m * u ^ pred m * exp (- (c * u)) + u ^ m * (- c * exp (- (c * u)))).
Proof.
  apply (derivable_pt_lim_mult (fun u => u ^ m) (fun u => exp (- (c * u)))).
  - apply derivable_pt_lim_pow.
  - apply derivable_pt_lim_exp_lin.
Qed.

Lemma gamma_prim_derivative c m u :
  c <> 0 -> derivable_pt_lim (gamma_prim c m) u (u ^ m * exp (- (c * u))).
Proof.
  intros Hc. revert u. induction m as [|m IH]; intros u.
  - simpl gamma_prim.
    replace (u ^ 0 * exp (- (c * u))) with (- / c * (- c * exp (- (c * u))))
      by (simpl; field; assumption).
    eapply derivable_pt_lim_ext.
    2:{ apply (derivable_pt_lim_scal (fun u => exp (- (c * u))) (- / c) u).
        apply derivable_pt_lim_exp_lin. }
    intros z. unfold mult_real_fct. field; assumption.
  - change (gamma_prim c (S m)) with
      (fun u => - (u ^ S m * exp (- (c * u))) / c + INR (S m) / c * gamma_prim c m u).
    replace (u ^ S m * exp (- (c * u))) with
      (- / c * (INR (S m) * u ^ pred (S m) * exp (- (c * u))
                + u ^ S m * (- c * exp (- (c * u))))
       + INR (S m) / c * (u ^ m * exp (- (c * u))))
      by (simpl pred; simpl pow; field; assumption).
    apply (derivable_pt_lim_plus
             (fun u => - (u ^ S m * exp (- (c * u))) / c)
             (fun u => INR (S m) / c * gamma_prim c m u)).
    + eapply derivable_pt_lim_ext.
      2:{ apply (derivable_pt_lim_scal (fun u => u ^ S m * exp (- (c * u))) (- / c) u).
          apply derivable_pt_lim_pow_exp. }
      intros z. unfold mult_real_fct. field; assumption.
    + apply (derivable_pt_lim_scal (gamma_prim c m) (INR (S m) / c) u). apply IH.
Qed.

Lemma gamma_prim_0 c m : c <> 0 -> gamma_prim c m 0 = - (INR (fact m) / c ^ S m).
Proof.
  intros Hc. induction m as [|m IH].
  - simpl. rewrite Rmult_0_r, Ropp_0, exp_0. field; assumption.
  - change (gamma_prim c (S m) 0) with
      (- (0 ^ S m * exp (- (c * 0))) / c + INR (S m) / c * gamma_prim c m 0).
    rewrite IH. rewrite fact_simpl, mult_INR.
    rewrite pow_ne_zero by lia.
    simpl pow. field. split; [|assumption]. apply pow_nonzero; assumption.
Qed.

Lemma gamma_prim_tends_oo c m : 0 < c -> tends_upper oo (gamma_prim c m) 0.
Proof.
  intros Hc. induction m as [|m IH].
  - apply (tends_upper_ext (Finite 0) oo (fun u => - / c * (u ^ 0 * exp (- (c * u))))).
    + intros x _. simpl. field; lra.
    + apply nonempty_0_oo.
    + replace 0 with (- / c * 0) by ring.
      apply tends_upper_scal. apply tends_upper_pow_exp; assumption.
  - apply (tends_upper_ext (Finite 0) oo
             (fun u => - / c * (u ^ S m * exp (- (c * u)))
                       + INR (S m) / c * gamma_prim c m u)).
    + intros x _.
      change (gamma_prim c (S m) x) with
        (- (x ^ S m * exp (- (c * x))) / c + INR (S m) / c * gamma_prim c m x).
      unfold Rdiv. ring.
    + apply nonempty_0_oo.
    + replace 0 with (- / c * 0 + INR (S m) / c * 0) by ring.
      apply tends_upper_plus; apply tends_upper_scal;
        [apply tends_upper_pow_exp|]; assumption.
Qed.

(** [integrate(u**m * exp(-c*u), (u, 0, oo)) = m! / c**(m+1)]. *)
Lemma is_integral_pow_exp m c :
  0 < c ->
  is_integral (fun u => u ^ m * exp (- (c * u))) (Finite 0) oo
    (INR (fact m) / c ^ S m).
Proof.
  intros Hc.
  exists (gamma_prim c m), (- (INR (fact m) / c ^ S m)), 0.
  repeat split.
  - intros x _. apply gamma_prim_derivative. lra.
  - rewrite <- gamma_prim_0 by lra.
    apply tends_lower_continuous.
    apply derivable_continuity_pt with (0 ^ m * exp (- (c * 0))).
    apply gamma_prim_derivative. lra.
  - apply gamma_prim_tends_oo; assumption.
  - ring.
Qed.

(** ** Change of variable *)


Lemma is_integral_subst g l phi dphi :
  is_integral g (Finite 0) oo l ->
  (forall r, 0 < r -> derivable_pt_lim phi r (dphi r)) ->
  (forall r, 0 < r -> 0 < phi r) ->
  tends_lower (Finite 0) phi 0 ->
  grows_oo phi ->
  is_integral (fun r => g (phi r) * dphi r) (Finite 0) oo l.
Proof.
  intros (G & la & lb & HG & Ha & Hb & ->) Hd Hpos H0 Hoo.
  exists (fun r => G (phi r)), la, lb. repeat split.
  - intros r [Hr _]. simpl in Hr.
    apply (derivable_pt_lim_comp phi G r (dphi r) (g (phi r))).
    + apply Hd; assumption.
    + apply HG. apply inside_0_oo. apply Hpos; assumption.
  - intros eps He.
    destruct (Ha eps He) as [c [Hc H1]]. simpl in Hc.
    destruct (H0 c Hc) as [c' [Hc' H2]]. simpl in Hc'.
    exists c'. split; [assumption|].
    intros r Hr Hrc. simpl in Hr.
    apply H1; simpl.
    + apply Hpos; assumption.
    + specialize (H2 r Hr Hrc). rewrite Rminus_0_r in H2.
      apply Rle_lt_trans with (Rabs (phi r)); [apply Rle_abs | assumption].
  - intros eps He.
    destruct (Hb eps He) as [c [_ H1]].
    destruct (Hoo c) as [c' [Hc' H2]].
    exists c'. split; [exact I|].
    intros r _ Hr. apply H1; [exact I|]. apply H2; assumption.
Qed.

(** Real powers on the positive axis. *)
Lemma Rpower_pos x y : 0 < Rpower x y.
Proof. unfold Rpower. apply exp_pos. Qed.

Lemma Rpower_nat_mult x y n : Rpower x (INR n * y) = Rpower x y ^ n.
Proof.
  rewrite Rmult_comm, <- Rpower_mult. apply Rpower_pow. apply Rpower_pos.
Qed.

Lemma Rpower_root_pow x n : 0 < x -> (0 < n)%nat -> Rpower x (/ INR n) ^ n = x.
Proof.
  intros Hx Hn. rewrite <- Rpower_pow by apply Rpower_pos.
  rewrite Rpower_mult, Rinv_l, Rpower_1; [reflexivity | assumption |].
  apply not_0_INR. lia.
Qed.

Lemma Rpower_tends_0 q : 0 < q -> tends_lower (Finite 0) (fun r => Rpower r q) 0.
Proof.
  intros Hq eps He.
  exists (Rpower eps (/ q)). split; [apply Rpower_pos|].
  intros r Hr Hlt. simpl in Hr.
  rewrite Rminus_0_r, Rabs_right by (left; apply Rpower_pos).
  apply Rlt_le_trans with (Rpower (Rpower eps (/ q)) q).
  - apply Rlt_Rpower_l; [assumption | split; assumption].
  - rewrite Rpower_mult, Rinv_l, Rpower_1; [apply Rle_refl | assumption | lra].
Qed.

Lemma Rpower_grows_oo q : 0 < q -> grows_oo (fun r => Rpower r q).
Proof.
  intros Hq M.
  set (M' := Rmax M 1).
  assert (HM : 0 < M') by (unfold M'; assert (H := Rmax_r M 1); lra).
  exists (Rpower M' (/ q)). split; [apply Rpower_pos|].
  intros r Hr.
  apply Rle_lt_trans with M'; [apply Rmax_l|].
  apply Rle_lt_trans with (Rpower (Rpower M' (/ q)) q).
  - rewrite Rpower_mult, Rinv_l, Rpower_1; [apply Rle_refl | assumption | lra].
  - apply Rlt_Rpower_l; [assumption | split; [apply Rpower_pos | assumption]].
Qed.

(** The integral of [u^m * exp(-c*u)] after the substitution [u = r^q]. *)
Lemma is_integral_rpower_moment q c m :
  0 < q -> 0 < c ->
  is_integral
    (fun r => (Rpower r q ^ m * exp (- (c * Rpower r q))) * (q * Rpower r (q - 1)))
    (Finite 0) oo (INR (fact m) / c ^ S m).
Proof.
  intros Hq Hc.
  apply (is_integral_subst (fun u => u ^ m * exp (- (c * u))) _
           (fun r => Rpower r q) (fun r => q * Rpower r (q - 1))).
  - apply is_integral_pow_exp; assumption.
  - intros r Hr. apply derivable_pt_lim_power; assumption.
  - intros r _. apply Rpower_pos.
  - apply Rpower_tends_0; assumption.
  - apply Rpower_grows_oo; assumption.
Qed.


Lemma Rpower_minus_1 r q : 0 < r -> Rpower r (q - 1) = Rpower r q / r.
Proof.
  intros Hr. unfold Rminus. rewrite Rpower_plus, Rpower_Ropp, Rpower_1 by assumption.
  reflexivity.
Qed.

Lemma Rpower_2 r : 0 < r -> Rpower r 2 = r ^ 2.
Proof. intros Hr. replace 2 with (INR 2) by (simpl; ring). apply Rpower_pow; assumption. Qed.

Lemma is_integral_moment A c q m f :
  0 < q -> 0 < c ->
  (forall r, 0 < r ->
     f r = A * ((Rpower r q ^ m * exp (- (c * Rpower r q))) * (q * Rpower r (q - 1)))) ->
  is_integral f (Finite 0) oo (A * (INR (fact m) / c ^ S m)).
Proof.
  intros Hq Hc E.
  apply (is_integral_ext
    (fun r => A * ((Rpower r q ^ m * exp (- (c * Rpower r q))) * (q * Rpower r (q - 1))))).
  - intros r [Hr _]. symmetry. apply E. exact Hr.
  - apply is_integral_scal. apply is_integral_rpower_moment; assumption.
Qed.

Lemma integrate_moment A c q m f l :
  0 < q -> 0 < c ->
  (forall r, 0 < r ->
     f r = A * ((Rpower r q ^ m * exp (- (c * Rpower r q))) * (q * Rpower r (q - 1)))) ->
  l = A * (INR (fact m) / c ^ S m) ->
  integrate f (Finite 0) oo = l.
Proof.
  intros Hq Hc E ->. apply integrate_eq; [apply nonempty_0_oo|].
  apply (is_integral_moment A c q m); assumption.
Qed.

Section Diffusive.
Import AsymptoticDiffusive.

Lemma asym_diffusive_is_integral k2 t m :
  0 < k2 -> 0 < t ->
  is_integral (fun r => p k2 t r * r ^ (2 * m + 1)) (Finite 0) oo
    (/ (8 * PI * k2 * t) * (INR (fact m) / (/ (4 * k2 * t)) ^ S m)).
Proof.
  intros Hk Ht.
  assert (HPI := PI_RGT_0).
  apply (is_integral_moment (/ (8 * PI * k2 * t)) (/ (4 * k2 * t)) 2 m).
  - lra.
  - apply Rinv_0_lt_compat. nra.
  - intros r Hr. unfold p.
    rewrite Rpower_minus_1, Rpower_2 by assumption.
    replace (- r ^ 2 / (4 * k2 * t)) with (- (/ (4 * k2 * t) * r ^ 2)) by (field; lra).
    rewrite <- pow_mult. replace (r ^ (2 * m + 1)) with (r ^ (2 * m) * r).
    2:{ rewrite pow_add. simpl. ring. }
    field. split; [|split;[|split]]; lra.
Qed.

Lemma integrate_0_oo_eq f g l v :
  is_integral g (Finite 0) oo l ->
  (forall r, 0 < r -> g r = f r) -> l = v ->
  integrate f (Finite 0) oo = v.
Proof.
  intros H E <-. apply integrate_eq; [apply nonempty_0_oo|].
  apply (is_integral_ext g); [|assumption].
  intros x [Hx _]. apply E. exact Hx.
Qed.


Lemma asym_diffusive_ra k2 t : 0 < k2 -> 0 < t -> ra k2 t = 1.
Proof.
  intros Hk Ht. unfold ra. assert (HPI := PI_RGT_0).
  rewrite (integrate_0_oo_eq _ _ _ (/ (2 * PI)) (asym_diffusive_is_integral k2 t 0 Hk Ht)).
  - field. lra.
  - intros r _. simpl. ring.
  - simpl. field. lra.
Qed.

Lemma asym_diffusive_r2 k2 t : 0 < k2 -> 0 < t -> r2 k2 t = 4 * k2 * t.
Proof.
  intros Hk Ht. unfold r2. assert (HPI := PI_RGT_0).
  rewrite (integrate_0_oo_eq _ _ _ (2 * k2 * t / PI) (asym_diffusive_is_integral k2 t 1 Hk Ht)).
  - field. lra.
  - intros r _. simpl. ring.
  - simpl. field. lra.
Qed.

Lemma asym_diffusive_r4 k2 t : 0 < k2 -> 0 < t -> r4 k2 t = 32 * k2 ^ 2 * t ^ 2.
Proof.
  intros Hk Ht. unfold r4. assert (HPI := PI_RGT_0).
  rewrite (integrate_0_oo_eq _ _ _ (16 * k2 ^ 2 * t ^ 2 / PI)
             (asym_diffusive_is_integral k2 t 2 Hk Ht)).
  - field. lra.
  - intros r _. simpl. ring.
  - simpl. field. lra.
Qed.

Lemma asym_diffusive_Ku k2 t : 0 < k2 -> 0 < t -> Ku k2 t = 2.
Proof.
  intros Hk Ht. unfold Ku.
  rewrite asym_diffusive_r2, asym_diffusive_r4 by assumption.
  rewrite Rpower_2 by nra. field. lra.
Qed.

Lemma diff_locally g h t l a b :
  a < t < b -> (forall z, a < z < b -> h z = g z) ->
  derivable_pt_lim h t l -> diff g t = l.
Proof.
  intros Hab E Hd. apply diff_eq.
  apply (derivable_pt_lim_locally_ext h g t a b); assumption.
Qed.

Lemma asym_diffusive_K2 k2 t : 0 < k2 -> 0 < t -> K2 k2 t = 2 * k2.
Proof.
  intros Hk Ht. unfold K2.
  rewrite (diff_locally _ (fun t => 4 * k2 * t) t (4 * k2) 0 (t + 1)).
  - field.
  - lra.
  - intros z Hz. symmetry. apply asym_diffusive_r2; lra.
  - assert (H := derivable_pt_lim_scal id (4 * k2) t 1 (derivable_pt_lim_id t)).
    rewrite Rmult_1_r in H. exact H.
Qed.



End Diffusive.

Lemma Rpower_nat x n : 0 < x -> Rpower x (INR n) = x ^ n.
Proof. apply Rpower_pow. Qed.

Lemma Rpower_3 r : 0 < r -> Rpower r 3 = r ^ 3.
Proof. intros Hr. replace 3 with (INR 3) by (simpl; ring). apply Rpower_pow; assumption. Qed.

Lemma Rpower_4 r : 0 < r -> Rpower r 4 = r ^ 4.
Proof. intros Hr. replace 4 with (INR 4) by (simpl; ring). apply Rpower_pow; assumption. Qed.

Lemma Rpower_half_sqr r : 0 < r -> Rpower r (1 / 2) * Rpower r (1 / 2) = r.
Proof.
  intros Hr. rewrite <- Rpower_plus.
  replace (1 / 2 + 1 / 2) with 1 by field. apply Rpower_1; assumption.
Qed.

Lemma Rpower_third r :
  0 < r ->
  Rpower r (2 / 3) = Rpower r (1 / 3) * Rpower r (1 / 3) /\
  r = Rpower r (1 / 3) * Rpower r (1 / 3) * Rpower r (1 / 3).
Proof.
  intros Hr. rewrite <- !Rpower_plus.
  replace (1 / 3 + 1 / 3) with (2 / 3) by field.
  replace (2 / 3 + 1 / 3) with 1 by field.
  rewrite Rpower_1 by assumption. split; reflexivity.
Qed.

Section GM.
Import AsymptoticGM.

Lemma asym_GM_is_integral lmbd t j :
  0 < lmbd -> 0 < t ->
  is_integral (fun r => p lmbd t r * r ^ j) (Finite 0) oo
    (2 * fst lmbd t * (INR (fact (2 * j + 1)) / (4 / (lmbd * t)) ^ S (2 * j + 1))).
Proof.
  intros Hl Ht.
  assert (HPI := PI_RGT_0).
  assert (Hlt : 0 < lmbd * t) by nra.
  apply (is_integral_moment (2 * fst lmbd t) (4 / (lmbd * t)) (1 / 2) (2 * j + 1)).
  - lra.
  - apply Rdiv_lt_0_compat; lra.
  - intros r Hr. unfold p, scd.
    rewrite Rpower_minus_1 by assumption.
    assert (Hv := Rpower_half_sqr r Hr).
    assert (Hv0 : 0 < Rpower r (1 / 2)) by apply Rpower_pos.
    set (v := Rpower r (1 / 2)) in *. clearbody v. subst r.
    replace (- 4 * v / (lmbd * t)) with (- (4 / (lmbd * t) * v)) by (field; lra).
    replace ((v * v) ^ j) with (v ^ (2 * j)).
    2:{ rewrite pow_mult. f_equal. simpl. ring. }
    rewrite pow_add. simpl (v ^ 1). field. lra.
Qed.


Lemma INR_fact n : INR (fact n) = Rfact n.
Proof.
  induction n as [|n IH]; [reflexivity|].
  rewrite fact_simpl, mult_INR, IH. reflexivity.
Qed.


Lemma fst_GM lmbd t : 0 < lmbd -> 0 < t -> fst lmbd t = 32 / (3 * PI * (lmbd * t) ^ 4).
Proof.
  intros Hl Ht. unfold fst. rewrite Rpower_4 by nra.
  assert (HPI := PI_RGT_0). field. split; nra.
Qed.

Lemma asym_GM_ra lmbd t : 0 < lmbd -> 0 < t -> ra lmbd t = 1.
Proof.
  intros Hl Ht. unfold ra. assert (HPI := PI_RGT_0).
  rewrite (integrate_0_oo_eq _ _ _ (/ (2 * PI)) (asym_GM_is_integral lmbd t 1 Hl Ht)).
  - field. lra.
  - intros r _. simpl. ring.
  - rewrite INR_fact, fst_GM by assumption.
    change (2 * 1 + 1)%nat with 3%nat. simpl. field. lra.
Qed.

Lemma asym_GM_r2 lmbd t : 0 < lmbd -> 0 < t -> r2 lmbd t = 3.28125 * lmbd ^ 4 * t ^ 4.
Proof.
  intros Hl Ht. unfold r2. assert (HPI := PI_RGT_0).
  rewrite (integrate_0_oo_eq _ _ _ (3.28125 * lmbd ^ 4 * t ^ 4 / (2 * PI))
             (asym_GM_is_integral lmbd t 3 Hl Ht)).
  - field. lra.
  - intros r _. reflexivity.
  - rewrite INR_fact, fst_GM by assumption.
    change (2 * 3 + 1)%nat with 7%nat. simpl.
    replace 3.28125 with (105 / 32) by lra. field. lra.
Qed.

Lemma asym_GM_r4 lmbd t :
  0 < lmbd -> 0 < t -> r4 lmbd t = 101.513671875 * lmbd ^ 8 * t ^ 8.
Proof.
  intros Hl Ht. unfold r4. assert (HPI := PI_RGT_0).
  rewrite (integrate_0_oo_eq _ _ _ (101.513671875 * lmbd ^ 8 * t ^ 8 / (2 * PI))
             (asym_GM_is_integral lmbd t 5 Hl Ht)).
  - field. lra.
  - intros r _. reflexivity.
  - rewrite INR_fact, fst_GM by assumption.
    change (2 * 5 + 1)%nat with 11%nat. simpl.
    replace 101.513671875 with (51975 / 512) by lra. field. lra.
Qed.

Lemma asym_GM_Ku lmbd t : 0 < lmbd -> 0 < t -> Ku lmbd t = 66 / 7.
Proof.
  intros Hl Ht. unfold Ku.
  rewrite asym_GM_r2, asym_GM_r4 by assumption.
  assert (H4 : 0 < lmbd ^ 4 * t ^ 4) by (apply Rmult_lt_0_compat; apply pow_lt; assumption).
  rewrite Rpower_2 by lra.
  replace 3.28125 with (105 / 32) by lra.
  replace 101.513671875 with (51975 / 512) by lra. field. lra.
Qed.

Lemma asym_GM_K2 lmbd t : 0 < lmbd -> 0 < t -> K2 lmbd t = 6.5625 * lmbd ^ 4 * t ^ 3.
Proof.
  intros Hl Ht. unfold K2.
  rewrite (diff_locally _ (fun t => 3.28125 * lmbd ^ 4 * t ^ 4) t
             (3.28125 * lmbd ^ 4 * (INR 4 * t ^ pred 4)) 0 (t + 1)).
  - simpl. replace 3.28125 with (105 / 32) by lra.
    replace 6.5625 with (105 / 16) by lra. field.
  - lra.
  - intros z Hz. symmetry. apply asym_GM_r2; lra.
  - apply (derivable_pt_lim_scal (fun t => t ^ 4) (3.28125 * lmbd ^ 4) t).
    apply derivable_pt_lim_pow.
Qed.
End GM.

Section Richardson.
Import AsymptoticRichardson.

Lemma asym_Richardson_is_integral beta t i :
  0 < beta -> 0 < t ->
  is_integral (fun r => p beta t r * r ^ (2 * i + 1)) (Finite 0) oo
    (3 / 2 * fst beta t * (INR (fact (3 * i + 2)) / (9 / (4 * beta * t)) ^ S (3 * i + 2))).
Proof.
  intros Hb Ht.
  assert (HPI := PI_RGT_0).
  assert (Hbt : 0 < beta * t) by nra.
  apply (is_integral_moment (3 / 2 * fst beta t) (9 / (4 * beta * t)) (2 / 3) (3 * i + 2)).
  - lra.
  - apply Rdiv_lt_0_compat; lra.
  - intros r Hr. unfold p, scd.
    rewrite Rpower_minus_1 by assumption.
    destruct (Rpower_third r Hr) as [Hv Hw].
    assert (Hw0 : 0 < Rpower r (1 / 3)) by apply Rpower_pos.
    rewrite Hv. set (w := Rpower r (1 / 3)) in *. clearbody w. clear Hv. subst r.
    replace (- 9 * (w * w) / (4 * beta * t)) with (- (9 / (4 * beta * t) * (w * w)))
      by (field; lra).
    replace (w * w * w) with (w ^ 3) by ring.
    replace (w * w) with (w ^ 2) by ring.
    rewrite <- !pow_mult.
    replace (3 * (2 * i + 1))%nat with (6 * i + 3)%nat by lia.
    replace (2 * (3 * i + 2))%nat with (6 * i + 4)%nat by lia.
    rewrite !pow_add. field. lra.
Qed.

Lemma fst_Richardson beta t :
  0 < beta -> 0 < t -> fst beta t = 243 / (128 * PI * (beta * t) ^ 3).
Proof.
  intros Hb Ht. unfold fst. rewrite Rpower_3 by nra.
  assert (HPI := PI_RGT_0). replace 1.5 with (3 / 2) by lra. field. split; nra.
Qed.

Lemma asym_Richardson_ra beta t : 0 < beta -> 0 < t -> ra beta t = 1.
Proof.
  intros Hb Ht. unfold ra. assert (HPI := PI_RGT_0).
  rewrite (integrate_0_oo_eq _ _ _ (/ (2 * PI)) (asym_Richardson_is_integral beta t 0 Hb Ht)).
  - field. lra.
  - intros r _. simpl. ring.
  - rewrite INR_fact, fst_Richardson by assumption.
    change (3 * 0 + 2)%nat with 2%nat. simpl. field. lra.
Qed.

Lemma asym_Richardson_r2 beta t :
  0 < beta -> 0 < t -> r2 beta t = 1280 / 243 * beta ^ 3 * t ^ 3.
Proof.
  intros Hb Ht. unfold r2. assert (HPI := PI_RGT_0).
  rewrite (integrate_0_oo_eq _ _ _ (1280 / 243 * beta ^ 3 * t ^ 3 / (2 * PI))
             (asym_Richardson_is_integral beta t 1 Hb Ht)).
  - field. lra.
  - intros r _. reflexivity.
  - rewrite INR_fact, fst_Richardson by assumption.
    change (3 * 1 + 2)%nat with 5%nat. simpl. field. lra.
Qed.

Lemma asym_Richardson_r4 beta t :
  0 < beta -> 0 < t -> r4 beta t = 82575360 / 531441 * beta ^ 6 * t ^ 6.
Proof.
  intros Hb Ht. unfold r4. assert (HPI := PI_RGT_0).
  rewrite (integrate_0_oo_eq _ _ _ (82575360 / 531441 * beta ^ 6 * t ^ 6 / (2 * PI))
             (asym_Richardson_is_integral beta t 2 Hb Ht)).
  - field. lra.
  - intros r _. reflexivity.
  - rewrite INR_fact, fst_Richardson by assumption.
    change (3 * 2 + 2)%nat with 8%nat. simpl. field. lra.
Qed.

Lemma asym_Richardson_Ku beta t : 0 < beta -> 0 < t -> Ku beta t = 5.6.
Proof.
  intros Hb Ht. unfold Ku.
  rewrite asym_Richardson_r2, asym_Richardson_r4 by assumption.
  assert (H3 : 0 < beta ^ 3 * t ^ 3) by (apply Rmult_lt_0_compat; apply pow_lt; assumption).
  rewrite Rpower_2 by lra.
  replace 5.6 with (28 / 5) by lra. field. lra.
Qed.

Lemma asym_Richardson_K2 beta t :
  0 < beta -> 0 < t -> K2 beta t = 640 / 81 * beta ^ 3 * t ^ 2.
Proof.
  intros Hb Ht. unfold K2.
  rewrite (diff_locally _ (fun t => 1280 / 243 * beta ^ 3 * t ^ 3) t
             (1280 / 243 * beta ^ 3 * (INR 3 * t ^ pred 3)) 0 (t + 1)).
  - simpl. field.
  - lra.
  - intros z Hz. symmetry. apply asym_Richardson_r2; lra.
  - apply (derivable_pt_lim_scal (fun t => t ^ 3) (1280 / 243 * beta ^ 3) t).
    apply derivable_pt_lim_pow.
Qed.
End Richardson.



Lemma gamma_nat n : gamma (INR (S n)) = INR (fact n).
Proof.
  unfold gamma.
  apply (integrate_moment 1 1 1 n); try lra.
  - intros u Hu. rewrite S_INR.
    replace (INR n + 1 - 1) with (INR n) by ring.
    replace (1 - 1) with 0 by ring.
    rewrite Rpower_O, Rpower_1, Rpower_pow by assumption.
    replace (- (1 * u)) with (- u) by ring. ring.
  - rewrite pow1. field.
Qed.

Lemma gamma_4 : gamma 4 = 6.
Proof.
  replace 4 with (INR 4) by (simpl; ring). rewrite gamma_nat. simpl. ring.
Qed.

Lemma generalized_p_eq_GM lmbd t :
  0 < lmbd -> 0 < t ->
  GeneralizedAsymptotic.p lmbd t = AsymptoticGM.p lmbd t.
Proof.
  intros Hl Ht. apply functional_extensionality. intros r.
  unfold GeneralizedAsymptotic.p, AsymptoticGM.p.
  unfold GeneralizedAsymptotic.fst, GeneralizedAsymptotic.scd,
    GeneralizedAsymptotic.b, GeneralizedAsymptotic.a,
    AsymptoticGM.fst, AsymptoticGM.scd.
  assert (HPI := PI_RGT_0).
  replace (4 / (3 - 2)) with 4 by field.
  replace ((3 - 2) / 2) with (1 / 2) by field.
  rewrite gamma_4, !Rpower_4 by nra.
  f_equal.
  - field. split; nra.
  - f_equal. field. nra.
Qed.

(** ** Series *)


(** ** Series with nonnegative terms *)

Lemma series_sum_eq a l : infinite_sum a l -> series_sum a = l.
Proof.
  intros H. unfold series_sum.
  apply (uniqueness_sum a); [|exact H].
  apply epsilon_spec. exists l. exact H.
Qed.

Lemma infinite_sum_ext a b l :
  (forall k, a k = b k) -> infinite_sum a l -> infinite_sum b l.
Proof.
  intros E H eps He. destruct (H eps He) as [N HN]. exists N. intros n Hn.
  rewrite <- (sum_eq a b n); [apply HN; exact Hn | intros; apply E].
Qed.

Lemma infinite_sum_scal a l c :
  infinite_sum a l -> infinite_sum (fun k => c * a k) (c * l).
Proof.
  intros H.
  assert (Hcv : Un_cv (fun n => c * sum_f_R0 a n) (c * l)).
  { apply (CV_mult (fun _ => c) (sum_f_R0 a) c l); [|exact H].
    intros eps He. exists O. intros n _. unfold Rdist. rewrite Rminus_diag, Rabs_R0. exact He. }
  intros eps He. destruct (Hcv eps He) as [N HN]. exists N. intros n Hn.
  specialize (HN n Hn). rewrite scal_sum in HN.
  rewrite (sum_eq (fun k => c * a k) (fun i => a i * c) n); [exact HN|].
  intros; ring.
Qed.

Lemma infinite_sum_plus a b la lb :
  infinite_sum a la -> infinite_sum b lb ->
  infinite_sum (fun k => a k + b k) (la + lb).
Proof.
  intros Ha Hb.
  assert (Hcv := CV_plus (sum_f_R0 a) (sum_f_R0 b) la lb Ha Hb).
  intros eps He. destruct (Hcv eps He) as [N HN]. exists N. intros n Hn.
  rewrite sum_plus. apply HN. exact Hn.
Qed.

Lemma sum_scal_l a x n : sum_f_R0 (fun k => x * a k) n = x * sum_f_R0 a n.
Proof.
  induction n as [|n IH]; simpl; [reflexivity|]. rewrite IH. ring.
Qed.

(** Prepending a term. *)
Lemma infinite_sum_cons a l x0 :
  infinite_sum a l ->
  infinite_sum (fun k => match k with O => x0 | S j => a j end) (x0 + l).
Proof.
  intros H eps He. destruct (H eps He) as [N HN]. exists (S N). intros n Hn.
  rewrite decomp_sum by lia. cbv beta iota.
  specialize (HN (pred n)). unfold Rdist in *.
  rewrite (sum_eq (fun i => a i) a) by reflexivity.
  replace (x0 + sum_f_R0 a (pred n) - (x0 + l))
    with (sum_f_R0 a (pred n) - l) by ring.
  apply HN. lia.
Qed.

Lemma partial_sums_growing a :
  (forall k, 0 <= a k) -> Un_growing (sum_f_R0 a).
Proof.
  intros H n. simpl. specialize (H (S n)). lra.
Qed.

Lemma partial_sum_le_sum a l n :
  (forall k, 0 <= a k) -> infinite_sum a l -> sum_f_R0 a n <= l.
Proof.
  intros H Hl. apply (growing_ineq (sum_f_R0 a)); [apply partial_sums_growing; exact H | exact Hl].
Qed.

Lemma partial_sum_nonneg a n : (forall k, 0 <= a k) -> 0 <= sum_f_R0 a n.
Proof.
  intros H. induction n as [|n IH]; simpl; [apply H|].
  specialize (H (S n)). lra.
Qed.

(** Comparison test. *)
Lemma series_comparison a b la :
  (forall k, 0 <= b k <= a k) -> infinite_sum a la ->
  exists lb, infinite_sum b lb.
Proof.
  intros H Ha.
  destruct (Rseries_CV_comp b a H) as [lb Hlb].
  - exists la. exact Ha.
  - exists lb. exact Hlb.
Qed.

(** The tail of the smaller series is below the tail of the larger. *)
Lemma series_tail_le a b la lb n :
  (forall k, 0 <= b k <= a k) -> infinite_sum a la -> infinite_sum b lb ->
  lb - sum_f_R0 b n <= la - sum_f_R0 a n.
Proof.
  intros H Ha Hb.
  assert (Hd : infinite_sum (fun k => a k - b k) (la + (-1) * lb)).
  { apply (infinite_sum_ext (fun k => a k + (-1) * b k)); [intros; ring|].
    apply infinite_sum_plus; [exact Ha | apply infinite_sum_scal; exact Hb]. }
  assert (Hle : sum_f_R0 (fun k => a k - b k) n <= la + (-1) * lb).
  { apply partial_sum_le_sum; [|exact Hd]. intros k. specialize (H k). lra. }
  rewrite minus_sum in Hle. lra.
Qed.

Lemma series_le a b la lb :
  (forall k, 0 <= b k <= a k) -> infinite_sum a la -> infinite_sum b lb ->
  0 <= lb <= la.
Proof.
  intros H Ha Hb. split.
  - apply Rle_trans with (sum_f_R0 b 0).
    + simpl. apply H.
    + apply partial_sum_le_sum; [intros k; apply H | exact Hb].
  - assert (Ht := series_tail_le a b la lb 0 H Ha Hb). simpl in Ht.
    specialize (H O). lra.
Qed.

(** The tails of a convergent series tend to zero. *)
Lemma series_tail_small a l eps :
  infinite_sum a l -> 0 < eps -> exists N, forall n, (N <= n)%nat -> Rabs (l - sum_f_R0 a n) < eps.
Proof.
  intros H He. destruct (H eps He) as [N HN]. exists N. intros n Hn.
  rewrite Rabs_minus_sym. apply HN. exact Hn.
Qed.

(** The exponential series. *)
Lemma exp_series x : infinite_sum (fun k => x ^ k / INR (fact k)) (exp x).
Proof.
  apply (infinite_sum_ext (fun i => / INR (fact i) * x ^ i)).
  - intros k. unfold Rdiv. ring.
  - exact (proj2_sig (exist_exp x)).
Qed.

(** ** Monotone antiderivatives *)

Lemma antiderivative_nondecreasing F f a b :
  a <= b ->
  (forall x, a <= x <= b -> derivable_pt_lim F x (f x)) ->
  (forall x, a <= x <= b -> 0 <= f x) ->
  F a <= F b.
Proof.
  intros Hab HF Hf. destruct Hab as [Hlt | ->]; [|apply Rle_refl].
  destruct (MVT_cor2 F f a b Hlt HF) as [c [Hc Hin]].
  assert (0 <= f c * (b - a)).
  { apply Rmult_le_pos; [apply Hf|]; lra. }
  lra.
Qed.


Lemma gamma_prim0_derivative n u :
  derivable_pt_lim (gamma_prim0 n) u (u ^ n * exp (- (1 * u))).
Proof.
  unfold gamma_prim0.
  replace (u ^ n * exp (- (1 * u))) with (u ^ n * exp (- (1 * u)) + 0) by ring.
  apply (derivable_pt_lim_plus (gamma_prim 1 n) (fun _ => INR (fact n))).
  - apply gamma_prim_derivative. lra.
  - apply (derivable_pt_lim_const (INR (fact n))).
Qed.

Lemma gamma_prim0_0 n : gamma_prim0 n 0 = 0.
Proof.
  unfold gamma_prim0. rewrite gamma_prim_0 by lra. rewrite pow1. field.
Qed.

Lemma gamma_prim0_tends_oo n : tends_upper oo (gamma_prim0 n) (INR (fact n)).
Proof.
  assert (H : tends_upper oo (fun u => gamma_prim 1 n u + INR (fact n)) (0 + INR (fact n))).
  { apply (tends_upper_plus oo (gamma_prim 1 n) (fun _ => INR (fact n))).
    - apply gamma_prim_tends_oo. lra.
    - intros eps He. exists 0. split; [exact I|]. intros x _ _.
      rewrite Rminus_diag, Rabs_R0. exact He. }
  rewrite Rplus_0_l in H. exact H.
Qed.

Lemma pow_exp_nonneg n u : 0 <= u -> 0 <= u ^ n * exp (- (1 * u)).
Proof.
  intros Hu. apply Rmult_le_pos; [apply pow_le; exact Hu | left; apply exp_pos].
Qed.

Lemma gamma_prim0_nonneg n u : 0 <= u -> 0 <= gamma_prim0 n u.
Proof.
  intros Hu. rewrite <- (gamma_prim0_0 n).
  apply (antiderivative_nondecreasing _ (fun u => u ^ n * exp (- (1 * u)))); [exact Hu | |].
  - intros x _. apply gamma_prim0_derivative.
  - intros x Hx. apply pow_exp_nonneg. lra.
Qed.

Lemma gamma_prim0_le n u : 0 <= u -> gamma_prim0 n u <= INR (fact n).
Proof.
  intros Hu.
  destruct (Rle_lt_dec (gamma_prim0 n u) (INR (fact n))) as [H | H]; [exact H | exfalso].
  set (eps := gamma_prim0 n u - INR (fact n)).
  assert (He : 0 < eps) by (unfold eps; lra).
  destruct (gamma_prim0_tends_oo n eps He) as [c [_ Hc]].
  set (x := Rmax u c + 1).
  assert (Hx1 : u <= x) by (unfold x; assert (H1 := Rmax_l u c); lra).
  assert (Hx2 : c < x) by (unfold x; assert (H1 := Rmax_r u c); lra).
  specialize (Hc x I Hx2).
  assert (Hmono : gamma_prim0 n u <= gamma_prim0 n x).
  { apply (antiderivative_nondecreasing _ (fun u => u ^ n * exp (- (1 * u)))); [exact Hx1 | |].
    - intros y _. apply gamma_prim0_derivative.
    - intros y Hy. apply pow_exp_nonneg. lra. }
  apply Rabs_def2 in Hc. unfold eps in Hc. lra.
Qed.

(** [R^n / n! <= exp R] for nonnegative [R]. *)
Lemma pow_le_fact_exp n x : 0 <= x -> x ^ n <= INR (fact n) * exp x.
Proof.
  intros Hx.
  assert (Hf : 0 < INR (fact n)) by (apply lt_0_INR, lt_O_fact).
  assert (Hterm : x ^ n / INR (fact n) <= exp x).
  { apply Rle_trans with (sum_f_R0 (fun k => x ^ k / INR (fact k)) n).
    - destruct n as [|n]; [simpl; lra|].
      rewrite tech5.
      assert (H0 := partial_sum_nonneg (fun k => x ^ k / INR (fact k)) n).
      assert (0 <= sum_f_R0 (fun k => x ^ k / INR (fact k)) n).
      { apply H0. intros k. apply Rmult_le_pos; [apply pow_le; exact Hx|].
        left. apply Rinv_0_lt_compat. apply lt_0_INR, lt_O_fact. }
      lra.
    - apply partial_sum_le_sum; [|apply exp_series].
      intros k. apply Rmult_le_pos; [apply pow_le; exact Hx|].
      left. apply Rinv_0_lt_compat. apply lt_0_INR, lt_O_fact. }
  apply (Rmult_le_compat_l (INR (fact n))) in Hterm; [|lra].
  replace (INR (fact n) * (x ^ n / INR (fact n))) with (x ^ n) in Hterm by (field; lra).
  exact Hterm.
Qed.

(** ** Integration of [exp(-u) * sum_k c_k u^(k+m)] term by term *)

Section Laplace.
Variable c : nat -> R.
Variable m : nat.
Variable L : R.
Hypothesis c_nonneg : forall k, 0 <= c k.
Hypothesis HL : infinite_sum (fun k => c k * INR (fact (k + m))) L.


Lemma lap_a_nonneg k : 0 <= c k * INR (fact (k + m)).
Proof. apply Rmult_le_pos; [apply c_nonneg | apply pos_INR]. Qed.

Lemma lap_prim_bounds k u : 0 <= u -> 0 <= (lap_prim c m) k u <= c k * INR (fact (k + m)).
Proof.
  intros Hu. unfold lap_prim. split.
  - apply Rmult_le_pos; [apply c_nonneg | apply gamma_prim0_nonneg; exact Hu].
  - apply Rmult_le_compat_l; [apply c_nonneg | apply gamma_prim0_le; exact Hu].
Qed.

Lemma lap_term_bounds k u R0 :
  0 <= u <= R0 -> 0 <= (lap_term c m) k u <= exp R0 * (c k * INR (fact (k + m))).
Proof.
  intros [Hu HR]. unfold lap_term. split.
  - apply Rmult_le_pos; [apply c_nonneg | apply pow_exp_nonneg; exact Hu].
  - assert (H1 : u ^ (k + m) <= R0 ^ (k + m)) by (apply pow_incr; split; assumption).
    assert (H2 : R0 ^ (k + m) <= INR (fact (k + m)) * exp R0) by (apply pow_le_fact_exp; lra).
    assert (H3 : exp (- (1 * u)) <= 1).
    { apply Rle_trans with (exp 0); [|rewrite exp_0; lra].
      destruct Hu as [Hu | <-].
      - left. apply exp_increasing. lra.
      - right. f_equal. ring. }
    assert (H4 : 0 < exp (- (1 * u))) by apply exp_pos.
    assert (H5 : 0 <= u ^ (k + m)) by (apply pow_le; exact Hu).
    assert (H6 : u ^ (k + m) * exp (- (1 * u)) <= INR (fact (k + m)) * exp R0) by nra.
    assert (H7 := c_nonneg k).
    replace (exp R0 * (c k * INR (fact (k + m)))) with (c k * (INR (fact (k + m)) * exp R0)) by ring.
    apply Rmult_le_compat_l; assumption.
Qed.

Lemma lap_F_sum u : 0 <= u -> infinite_sum (fun k => (lap_prim c m) k u) ((lap_F c m) u).
Proof.
  intros Hu.
  destruct (series_comparison _ (fun k => (lap_prim c m) k u) L (fun k => lap_prim_bounds k u Hu) HL)
    as [l Hl].
  unfold lap_F. rewrite (series_sum_eq _ _ Hl). exact Hl.
Qed.

Lemma lap_f_sum u : 0 <= u -> infinite_sum (fun k => (lap_term c m) k u) ((lap_f c m) u).
Proof.
  intros Hu.
  destruct (series_comparison (fun k => exp u * (c k * INR (fact (k + m))))
              (fun k => (lap_term c m) k u) (exp u * L)) as [l Hl].
  - intros k. apply lap_term_bounds. lra.
  - apply infinite_sum_scal. exact HL.
  - unfold lap_f. rewrite (series_sum_eq _ _ Hl). exact Hl.
Qed.


Lemma lap_prim_derivative k u : derivable_pt_lim ((lap_prim c m) k) u ((lap_term c m) k u).
Proof.
  unfold lap_prim, lap_term.
  apply (derivable_pt_lim_scal (gamma_prim0 (k + m)) (c k) u).
  apply gamma_prim0_derivative.
Qed.

Lemma lap_Fn_derivative n u : derivable_pt_lim ((lap_Fn c m) n) u ((lap_fn c m) n u).
Proof.
  induction n as [|n IH].
  - apply lap_prim_derivative.
  - change ((lap_Fn c m) (S n)) with (fun u => (lap_Fn c m) n u + (lap_prim c m) (S n) u).
    change ((lap_fn c m) (S n) u) with ((lap_fn c m) n u + (lap_term c m) (S n) u).
    apply (derivable_pt_lim_plus ((lap_Fn c m) n) ((lap_prim c m) (S n))); [exact IH|].
    apply lap_prim_derivative.
Qed.

Lemma lap_term_continuity k u : continuity_pt ((lap_term c m) k) u.
Proof.
  apply derivable_continuity_pt with
    (c k * (INR (k + m) * u ^ pred (k + m) * exp (- (1 * u))
            + u ^ (k + m) * (- 1 * exp (- (1 * u))))).
  unfold lap_term.
  apply (derivable_pt_lim_scal (fun u => u ^ (k + m) * exp (- (1 * u))) (c k) u).
  apply derivable_pt_lim_pow_exp.
Qed.

Lemma lap_fn_continuity n u : continuity_pt ((lap_fn c m) n) u.
Proof.
  induction n as [|n IH].
  - apply lap_term_continuity.
  - change ((lap_fn c m) (S n)) with ((lap_fn c m) n + (lap_term c m) (S n))%F.
    apply continuity_pt_plus; [exact IH | apply lap_term_continuity].
Qed.

(** Uniform convergence of the integrand on [0, R0]. *)
Lemma lap_f_uniform R0 eps :
  0 < eps -> exists N, forall n u, (N <= n)%nat -> 0 <= u <= R0 ->
    Rabs ((lap_f c m) u - (lap_fn c m) n u) < eps.
Proof.
  intros He.
  assert (HeR : 0 < eps / exp R0) by (apply Rdiv_lt_0_compat; [exact He | apply exp_pos]).
  destruct (series_tail_small _ L _ HL HeR) as [N HN].
  exists N. intros n u Hn Hu.
  assert (Ht := series_tail_le (fun k => exp R0 * (c k * INR (fact (k + m))))
                  (fun k => (lap_term c m) k u) (exp R0 * L) ((lap_f c m) u) n
                  (fun k => lap_term_bounds k u R0 Hu)
                  (infinite_sum_scal _ _ _ HL) (lap_f_sum u (proj1 Hu))).
  assert (Hlow : (lap_fn c m) n u <= (lap_f c m) u).
  { apply partial_sum_le_sum; [|apply lap_f_sum; tauto].
    intros k. apply (lap_term_bounds k u R0 Hu). }
  rewrite sum_scal_l in Ht.
  specialize (HN n Hn). apply Rabs_def2 in HN.
  assert (Hexp := exp_pos R0).
  rewrite Rabs_right by lra.
  unfold lap_fn in *.
  assert (Hs : exp R0 * (L - sum_f_R0 (fun k => c k * INR (fact (k + m))) n) < eps).
  { apply (Rmult_lt_reg_r (/ exp R0)); [apply Rinv_0_lt_compat; exact Hexp|].
    replace (exp R0 * (L - sum_f_R0 (fun k => c k * INR (fact (k + m))) n) * / exp R0)
      with (L - sum_f_R0 (fun k => c k * INR (fact (k + m))) n) by (field; lra).
    unfold Rdiv in HN. lra. }
  lra.
Qed.
Lemma lap_F_derivative x : 0 < x -> derivable_pt_lim (lap_F c m) x ((lap_f c m) x).
Proof.
  intros Hx.
  assert (Hr : 0 < x / 2) by lra.
  set (r := mkposreal (x / 2) Hr).
  assert (Hball : forall y, Boule x r y -> 0 <= y <= x + x / 2).
  { intros y Hy. unfold Boule in Hy. simpl in Hy. apply Rabs_def2 in Hy. lra. }
  assert (Hcvu : CVU (lap_fn c m) (lap_f c m) x r).
  { intros eps He. destruct (lap_f_uniform (x + x / 2) eps He) as [N HN].
    exists N. intros n y Hn Hy. apply HN; [exact Hn | apply Hball; exact Hy]. }
  apply (derivable_pt_lim_CVU (lap_Fn c m) (lap_fn c m) (lap_F c m) (lap_f c m) x x r).
  - unfold Boule. simpl. rewrite Rminus_diag, Rabs_R0. lra.
  - intros y n _. apply lap_Fn_derivative.
  - intros y Hy. apply lap_F_sum. apply Hball. exact Hy.
  - exact Hcvu.
  - intros y Hy. apply (CVU_continuity (lap_fn c m) (lap_f c m) x r); [exact Hcvu | | exact Hy].
    intros n z _. apply lap_fn_continuity.
Qed.

Lemma lap_Fn_0 n : (lap_Fn c m) n 0 = 0.
Proof.
  unfold lap_Fn. induction n as [|n IH]; simpl.
  - unfold lap_prim. rewrite gamma_prim0_0. ring.
  - rewrite IH. unfold lap_prim. rewrite gamma_prim0_0. ring.
Qed.

Lemma lap_F_bounds u : 0 <= u -> 0 <= (lap_F c m) u <= L.
Proof.
  intros Hu.
  apply (series_le (fun k => c k * INR (fact (k + m))) (fun k => (lap_prim c m) k u)).
  - intros k. apply lap_prim_bounds. exact Hu.
  - exact HL.
  - apply lap_F_sum. exact Hu.
Qed.

Lemma lap_F_tends_0 : tends_lower (Finite 0) (lap_F c m) 0.
Proof.
  intros eps He.
  assert (He2 : 0 < eps / 2) by lra.
  destruct (series_tail_small _ L _ HL He2) as [N HN].
  assert (Hc : continuity_pt ((lap_Fn c m) N) 0).
  { apply derivable_continuity_pt with ((lap_fn c m) N 0). apply lap_Fn_derivative. }
  destruct (tends_lower_continuous 0 ((lap_Fn c m) N) Hc _ He2) as [d [Hd Hsmall]].
  exists d. split; [exact Hd|]. intros u Hu Hud. simpl in Hu.
  assert (Hu0 : 0 <= u) by lra.
  assert (Ht := series_tail_le (fun k => c k * INR (fact (k + m))) (fun k => (lap_prim c m) k u)
                  L ((lap_F c m) u) N (fun k => lap_prim_bounds k u Hu0) HL (lap_F_sum u Hu0)).
  specialize (HN N (Nat.le_refl N)). apply Rabs_def2 in HN.
  specialize (Hsmall u Hu Hud). rewrite lap_Fn_0 in Hsmall. apply Rabs_def2 in Hsmall.
  destruct (lap_F_bounds u Hu0) as [Hlo _].
  rewrite Rminus_0_r, Rabs_right by lra.
  unfold lap_Fn in Hsmall. lra.
Qed.

Lemma lap_Fn_tends_oo n :
  tends_upper oo ((lap_Fn c m) n) (sum_f_R0 (fun k => c k * INR (fact (k + m))) n).
Proof.
  assert (Hterm : forall k, tends_upper oo ((lap_prim c m) k) (c k * INR (fact (k + m)))).
  { intros k. apply (tends_upper_scal oo (gamma_prim0 (k + m))). apply gamma_prim0_tends_oo. }
  induction n as [|n IH].
  - apply Hterm.
  - apply (tends_upper_plus oo ((lap_Fn c m) n) ((lap_prim c m) (S n))); [exact IH | apply Hterm].
Qed.

Lemma lap_F_tends_oo : tends_upper oo (lap_F c m) L.
Proof.
  intros eps He.
  assert (He2 : 0 < eps / 2) by lra.
  destruct (series_tail_small _ L _ HL He2) as [N HN].
  destruct (lap_Fn_tends_oo N _ He2) as [c0 [_ Hc0]].
  exists (Rmax c0 0). split; [exact I|]. intros u _ Hu.
  assert (Hu0 : 0 <= u) by (assert (H := Rmax_r c0 0); lra).
  assert (Huc : c0 < u) by (assert (H := Rmax_l c0 0); lra).
  assert (Hb : forall k, 0 <= c k * INR (fact (k + m)) - (lap_prim c m) k u
                         <= c k * INR (fact (k + m))).
  { intros k. destruct (lap_prim_bounds k u Hu0). lra. }
  assert (Hsum : infinite_sum (fun k => c k * INR (fact (k + m)) - (lap_prim c m) k u)
                   (L + (-1) * (lap_F c m) u)).
  { apply (infinite_sum_ext (fun k => c k * INR (fact (k + m)) + (-1) * (lap_prim c m) k u));
      [intros; ring|].
    apply infinite_sum_plus; [exact HL|]. apply infinite_sum_scal. apply lap_F_sum. exact Hu0. }
  assert (Ht := series_tail_le _ _ L _ N Hb HL Hsum).
  rewrite minus_sum in Ht.
  specialize (HN N (Nat.le_refl N)). apply Rabs_def2 in HN.
  specialize (Hc0 u I Huc). apply Rabs_def2 in Hc0. unfold lap_Fn in Hc0.
  destruct (lap_F_bounds u Hu0) as [_ Hhi].
  rewrite Rabs_left1 by lra. lra.
Qed.

Theorem is_integral_lap : is_integral (lap_f c m) (Finite 0) oo L.
Proof.
  exists (lap_F c m), 0, L. split; [|split; [|split]].
  - intros x [Hx _]. apply lap_F_derivative. exact Hx.
  - exact lap_F_tends_0.
  - exact lap_F_tends_oo.
  - ring.
Qed.

Lemma lap_f_closed u :
  0 <= u -> (lap_f c m) u = exp (- u) * series_sum (fun k => c k * u ^ (k + m)).
Proof.
  intros Hu.
  destruct (series_comparison (fun k => exp u * (c k * INR (fact (k + m))))
              (fun k => c k * u ^ (k + m)) (exp u * L)) as [l Hl].
  - intros k. split.
    + apply Rmult_le_pos; [apply c_nonneg | apply pow_le; exact Hu].
    + replace (exp u * (c k * INR (fact (k + m))))
        with (c k * (INR (fact (k + m)) * exp u)) by ring.
      apply Rmult_le_compat_l; [apply c_nonneg | apply pow_le_fact_exp; exact Hu].
  - apply infinite_sum_scal. exact HL.
  - rewrite (series_sum_eq _ _ Hl). unfold lap_f. apply series_sum_eq.
    apply (infinite_sum_ext (fun k => exp (- u) * (c k * u ^ (k + m)))).
    + intros k. unfold lap_term. replace (- (1 * u)) with (- u) by ring. ring.
    + apply infinite_sum_scal. exact Hl.
Qed.
End Laplace.

(** [integrate(exp(-u) * sum_k c_k u**(k+m), (u, 0, oo)) = sum_k c_k (k+m)!]
    for nonnegative coefficients. *)
Lemma is_integral_exp_series c m L :
  (forall k, 0 <= c k) ->
  infinite_sum (fun k => c k * INR (fact (k + m))) L ->
  is_integral (fun u => exp (- u) * series_sum (fun k => c k * u ^ (k + m)))
    (Finite 0) oo L.
Proof.
  intros Hc HL.
  apply (is_integral_ext (lap_f c m)).
  - intros u [Hu _]. simpl in Hu. apply (lap_f_closed c m L Hc HL). lra.
  - apply is_integral_lap; assumption.
Qed.


Lemma INR_fact_pos n : 0 < INR (fact n).
Proof. apply lt_0_INR, lt_O_fact. Qed.

Lemma INR_fact_ge_1 n : 1 <= INR (fact n).
Proof.
  replace 1 with (INR 1) by reflexivity. apply le_INR.
  assert (H := lt_O_fact n). lia.
Qed.

Lemma series_sum_scal a l x :
  infinite_sum a l -> series_sum (fun k => x * a k) = x * series_sum a.
Proof.
  intros H. rewrite (series_sum_eq a l H).
  apply series_sum_eq. apply infinite_sum_scal. exact H.
Qed.

Lemma bessel_core_sum n w :
  0 <= w ->
  infinite_sum (fun k => w ^ k / (INR (fact k) * INR (fact (k + n)))) (bessel_core n w).
Proof.
  intros Hw.
  destruct (series_comparison (fun k => w ^ k / INR (fact k))
              (fun k => w ^ k / (INR (fact k) * INR (fact (k + n)))) (exp w)) as [l Hl].
  - intros k.
    assert (H1 := INR_fact_pos k). assert (H2 := INR_fact_ge_1 (k + n)).
    assert (H3 : 0 <= w ^ k) by (apply pow_le; exact Hw).
    assert (H4 : 0 < INR (fact k) * INR (fact (k + n))) by nra.
    split.
    + apply Rmult_le_pos; [exact H3 | left; apply Rinv_0_lt_compat; exact H4].
    + apply Rmult_le_compat_l; [exact H3|].
      apply Rinv_le_contravar; [exact H1 | nra].
  - apply exp_series.
  - unfold bessel_core. rewrite (series_sum_eq _ _ Hl). exact Hl.
Qed.

Lemma besseli_nat n z :
  0 < z -> besseli (INR n) z = (z / 2) ^ n * bessel_core n ((z / 2) ^ 2).
Proof.
  intros Hz.
  assert (Hz2 : 0 < z / 2) by lra.
  assert (Hw : 0 <= (z / 2) ^ 2) by (apply pow_le; lra).
  unfold besseli.
  unfold bessel_core. rewrite <- (series_sum_scal _ _ _ (bessel_core_sum n _ Hw)).
  f_equal. apply functional_extensionality. intros k.
  replace (2 * INR k + INR n) with (INR (2 * k + n))
    by (rewrite plus_INR, mult_INR; simpl; ring).
  rewrite Rpower_pow by exact Hz2.
  replace (INR k + INR n + 1) with (INR (S (k + n)))
    by (rewrite S_INR, plus_INR; ring).
  rewrite gamma_nat.
  rewrite <- pow_mult, pow_add.
  assert (H1 := INR_fact_pos k). assert (H2 := INR_fact_pos (k + n)).
  field. lra.
Qed.

(** [integrate(exp(-u) * u**m * B_n(u0*u), (u, 0, oo))], term by term. *)
Lemma is_integral_bessel_core n m u0 L :
  0 <= u0 ->
  infinite_sum (fun k => u0 ^ k / (INR (fact k) * INR (fact (k + n))) * INR (fact (k + m))) L ->
  is_integral (fun u => exp (- u) * (u ^ m * bessel_core n (u0 * u))) (Finite 0) oo L.
Proof.
  intros Hu0 HL.
  apply (is_integral_ext
           (fun u => exp (- u)
                     * series_sum (fun k => u0 ^ k / (INR (fact k) * INR (fact (k + n)))
                                           * u ^ (k + m)))).
  - intros u [Hu _]. simpl in Hu. f_equal.
    assert (Hw : 0 <= u0 * u) by (apply Rmult_le_pos; lra).
    unfold bessel_core. rewrite <- (series_sum_scal _ _ _ (bessel_core_sum n _ Hw)).
    f_equal. apply functional_extensionality. intros k.
    rewrite Rpow_mult_distr, pow_add.
    assert (H1 := INR_fact_pos k). assert (H2 := INR_fact_pos (k + n)).
    field. lra.
  - apply is_integral_exp_series; [|exact HL].
    intros k. assert (H1 := INR_fact_pos k). assert (H2 := INR_fact_pos (k + n)).
    apply Rmult_le_pos; [apply pow_le; exact Hu0|].
    left. apply Rinv_0_lt_compat. nra.
Qed.

(** The two sums that occur: the normalization and the second moment. *)
Lemma bessel_norm_sum n u0 :
  infinite_sum (fun k => u0 ^ k / (INR (fact k) * INR (fact (k + n))) * INR (fact (k + n)))
    (exp u0).
Proof.
  apply (infinite_sum_ext (fun k => u0 ^ k / INR (fact k))); [|apply exp_series].
  intros k. assert (H1 := INR_fact_pos k). assert (H2 := INR_fact_pos (k + n)).
  field. lra.
Qed.

Lemma bessel_second_sum u0 :
  infinite_sum (fun k => u0 ^ k / (INR (fact k) * INR (fact (k + 0))) * INR (fact (k + 1)))
    ((1 + u0) * exp u0).
Proof.
  apply (infinite_sum_ext
           (fun k => u0 ^ k / INR (fact k)
                     + match k with O => 0 | S j => u0 * (u0 ^ j / INR (fact j)) end)).
  - intros k. assert (H1 := INR_fact_pos k).
    replace (k + 0)%nat with k by lia. replace (k + 1)%nat with (S k) by lia.
    rewrite fact_simpl, mult_INR, S_INR.
    destruct k as [|j].
    + simpl. field.
    + assert (H2 := INR_fact_pos j). rewrite fact_simpl, mult_INR, S_INR in *.
      assert (H3 := pos_INR j). simpl pow. field. split; lra.
  - replace ((1 + u0) * exp u0) with (exp u0 + (0 + u0 * exp u0)) by ring.
    apply infinite_sum_plus; [apply exp_series|].
    apply (infinite_sum_cons (fun j => u0 * (u0 ^ j / INR (fact j)))).
    apply infinite_sum_scal. apply exp_series.
Qed.

(** ** The full regimes *)


(** The substitution [u = A * r^q]. *)
Lemma is_integral_subst_power g l A q :
  0 < A -> 0 < q ->
  is_integral g (Finite 0) oo l ->
  is_integral (fun r => g (A * Rpower r q) * (A * (q * Rpower r (q - 1)))) (Finite 0) oo l.
Proof.
  intros HA Hq Hg.
  apply (is_integral_subst g l (fun r => A * Rpower r q)
           (fun r => A * (q * Rpower r (q - 1)))); [exact Hg | | | |].
  - intros r Hr.
    apply (derivable_pt_lim_scal (fun r => Rpower r q) A r).
    apply derivable_pt_lim_power. exact Hr.
  - intros r _. apply Rmult_lt_0_compat; [exact HA | apply Rpower_pos].
  - assert (H := tends_lower_scal (Finite 0) (fun r => Rpower r q) 0 A (Rpower_tends_0 q Hq)).
    rewrite Rmult_0_r in H. exact H.
  - intros M. destruct (Rpower_grows_oo q Hq (M / A)) as [c [Hc H]].
    exists c. split; [exact Hc|]. intros r Hr. specialize (H r Hr).
    apply (Rmult_lt_compat_l A) in H; [|exact HA].
    replace (A * (M / A)) with M in H by (field; lra). exact H.
Qed.

Section FullDiffusiveLemmas.
Import FullDiffusive.

(** The density in the variables [u = r^2/(4*k2*t)], [u0 = r0^2/(4*k2*t)]. *)
Lemma full_diffusive_p k2 t r0 r :
  0 < k2 -> 0 < t -> 0 < r0 -> 0 < r ->
  p k2 t r0 r =
  1 / (4 * PI * k2 * t) * exp (- (r0 ^ 2 / (4 * k2 * t)))
  * (exp (- (/ (4 * k2 * t) * Rpower r 2))
     * bessel_core 0 (r0 ^ 2 / (4 * k2 * t) * (/ (4 * k2 * t) * Rpower r 2))).
Proof.
  intros Hk Ht Hr0 Hr. unfold p.
  assert (Hkt : 0 < k2 * t) by nra.
  assert (Hz : 0 < r0 * r / (2 * k2 * t)).
  { apply Rdiv_lt_0_compat; nra. }
  replace 0 with (INR 0) at 1 by reflexivity.
  rewrite (besseli_nat 0 _ Hz), Rpower_2 by exact Hr.
  replace (- (r0 ^ 2 + r ^ 2) / (4 * k2 * t))
    with (- (r0 ^ 2 / (4 * k2 * t)) + - (/ (4 * k2 * t) * r ^ 2)) by (field; lra).
  rewrite exp_plus.
  replace ((r0 * r / (2 * k2 * t) / 2) ^ 2)
    with (r0 ^ 2 / (4 * k2 * t) * (/ (4 * k2 * t) * r ^ 2)) by (field; lra).
  simpl pow. ring.
Qed.

Lemma full_diffusive_is_integral k2 t r0 m L :
  0 < k2 -> 0 < t -> 0 < r0 ->
  infinite_sum (fun k => (r0 ^ 2 / (4 * k2 * t)) ^ k
                         / (INR (fact k) * INR (fact (k + 0))) * INR (fact (k + m))) L ->
  is_integral (fun r => p k2 t r0 r * r ^ (2 * m + 1)) (Finite 0) oo
    (1 / (4 * PI * k2 * t) * exp (- (r0 ^ 2 / (4 * k2 * t)))
     * (4 * k2 * t) ^ S m / 2 * L).
Proof.
  intros Hk Ht Hr0 HL.
  assert (HPI := PI_RGT_0).
  assert (Hkt : 0 < k2 * t) by nra.
  assert (HA : 0 < / (4 * k2 * t)) by (apply Rinv_0_lt_compat; lra).
  assert (Hu0 : 0 <= r0 ^ 2 / (4 * k2 * t)).
  { apply Rmult_le_pos; [apply pow_le; lra | lra]. }
  assert (Hint := is_integral_subst_power _ L (/ (4 * k2 * t)) 2 HA ltac:(lra)
                    (is_integral_bessel_core 0 m _ L Hu0 HL)).
  apply (is_integral_scal _ _ _ _
           (1 / (4 * PI * k2 * t) * exp (- (r0 ^ 2 / (4 * k2 * t)))
            * (4 * k2 * t) ^ S m / 2)) in Hint.
  eapply is_integral_ext; [|exact Hint].
  intros r [Hr _]. simpl in Hr. cbv beta.
  rewrite (full_diffusive_p k2 t r0 r Hk Ht Hr0 Hr).
  rewrite Rpower_minus_1, Rpower_2 by exact Hr.
  rewrite (Rpow_mult_distr (/ (4 * k2 * t)) (r ^ 2) m), pow_inv, <- pow_mult, pow_add.
  simpl (r ^ 1). simpl ((4 * k2 * t) ^ S m).
  assert (Hp : (4 * k2 * t) ^ m <> 0) by (apply pow_nonzero; lra).
  field. repeat split; lra.
Qed.
End FullDiffusiveLemmas.

Section FullDiffusiveValues.
Import FullDiffusive.

Lemma full_diffusive_ra k2 t r0 : 0 < k2 -> 0 < t -> 0 < r0 -> ra k2 t r0 = 1.
Proof.
  intros Hk Ht Hr0. unfold ra. assert (HPI := PI_RGT_0).
  rewrite (integrate_0_oo_eq _ _ _ (/ (2 * PI))
             (full_diffusive_is_integral k2 t r0 0 _ Hk Ht Hr0 (bessel_norm_sum 0 _))).
  - field. lra.
  - intros r _. simpl. ring.
  - rewrite exp_Ropp. simpl pow.
    assert (He := exp_pos (r0 * (r0 * 1) / (4 * k2 * t))).
    field. repeat split; lra.
Qed.

Lemma full_diffusive_r2 k2 t r0 :
  0 < k2 -> 0 < t -> 0 < r0 -> r2 k2 t r0 = 4 * k2 * t + r0 ^ 2.
Proof.
  intros Hk Ht Hr0. unfold r2. assert (HPI := PI_RGT_0).
  rewrite (integrate_0_oo_eq _ _ _ ((4 * k2 * t + r0 ^ 2) / (2 * PI))
             (full_diffusive_is_integral k2 t r0 1 _ Hk Ht Hr0 (bessel_second_sum _))).
  - field. lra.
  - intros r _. reflexivity.
  - rewrite exp_Ropp. simpl pow.
    assert (He := exp_pos (r0 * (r0 * 1) / (4 * k2 * t))).
    field. repeat split; lra.
Qed.

Lemma full_diffusive_r2_limit k2 t :
  0 < k2 -> 0 < t -> tends_lower (Finite 0) (fun r0 => r2 k2 t r0) (4 * k2 * t).
Proof.
  intros Hk Ht.
  apply (tends_lower_ext (Finite 0) oo (fun r0 => 4 * k2 * t + r0 ^ 2)).
  - intros x [Hx _]. simpl in Hx. symmetry. apply full_diffusive_r2; assumption.
  - apply nonempty_0_oo.
  - assert (H : continuity_pt (fun r0 => 4 * k2 * t + r0 ^ 2) 0).
    { apply derivable_continuity_pt with (0 + INR 2 * 0 ^ pred 2).
      apply (derivable_pt_lim_plus (fun _ => 4 * k2 * t) (fun r0 => r0 ^ 2)).
      - apply (derivable_pt_lim_const (4 * k2 * t)).
      - apply derivable_pt_lim_pow. }
    apply tends_lower_continuous in H. simpl in H.
    replace (4 * k2 * t + 0 * (0 * 1)) with (4 * k2 * t) in H by ring. exact H.
Qed.
End FullDiffusiveValues.


Section GeneralizedFullLemmas.
Import GeneralizedFull.

(** The density in the variables [u = r/(kappa*t)], [u0 = r0/(kappa*t)]. *)
Lemma generalized_full_p kappa t r0 r :
  0 < kappa -> 0 < t -> 0 < r0 -> 0 < r ->
  p kappa t r0 r * r =
  / (4 * PI) * exp (- (/ (kappa * t) * r0))
  * ((exp (- (/ (kappa * t) * Rpower r 1))
      * ((/ (kappa * t) * Rpower r 1) ^ 1
         * bessel_core 1 (/ (kappa * t) * r0 * (/ (kappa * t) * Rpower r 1))))
     * (/ (kappa * t) * (1 * Rpower r (1 - 1)))).
Proof.
  intros Hk Ht Hr0 Hr. unfold p, fst, snd, trd, a.
  assert (HPI := PI_RGT_0).
  assert (Hkt : 0 < kappa * t) by nra.
  assert (Hrr : 0 < r * r0) by nra.
  replace (1 - 1) with 0 by ring.
  replace (2 - 1) with 1 by ring.
  replace (1 - 1 / 2) with (1 / 2) by field.
  replace (1 / 1) with (INR 1) by (simpl; field).
  rewrite Rpower_O, !Rpower_1 by assumption.
  assert (Hz : 0 < 2 / (1 - 2) ^ 2 * Rpower (r * r0) (1 / 2) / (kappa * t)).
  { apply Rdiv_lt_0_compat; [|exact Hkt].
    apply Rmult_lt_0_compat; [|apply Rpower_pos]. simpl. lra. }
  rewrite (besseli_nat 1 _ Hz).
  rewrite <- (Rpower_mult_distr r r0) by assumption.
  assert (Hs := Rpower_half_sqr r Hr). assert (Hs0 := Rpower_half_sqr r0 Hr0).
  assert (Hw : 0 < Rpower r (1 / 2)) by apply Rpower_pos.
  assert (Hw0 : 0 < Rpower r0 (1 / 2)) by apply Rpower_pos.
  set (w := Rpower r (1 / 2)) in *. set (w0 := Rpower r0 (1 / 2)) in *.
  clearbody w w0. subst r r0.
  replace (- (1 / (1 - 2) ^ 2) * (w * w + w0 * w0) / (kappa * t))
    with (- (/ (kappa * t) * (w0 * w0)) + - (/ (kappa * t) * (w * w))) by (field; lra).
  rewrite exp_plus.
  replace ((2 / (1 - 2) ^ 2 * (w * w0) / (kappa * t) / 2) ^ 2)
    with (/ (kappa * t) * (w0 * w0) * (/ (kappa * t) * (w * w))) by (field; lra).
  field. repeat split; lra.
Qed.

Lemma generalized_full_is_integral kappa t r0 :
  0 < kappa -> 0 < t -> 0 < r0 ->
  is_integral (fun r => p kappa t r0 r * r) (Finite 0) oo (/ (4 * PI)).
Proof.
  intros Hk Ht Hr0.
  assert (HPI := PI_RGT_0).
  assert (Hkt : 0 < kappa * t) by nra.
  assert (HA : 0 < / (kappa * t)) by (apply Rinv_0_lt_compat; lra).
  assert (Hu0 : 0 <= / (kappa * t) * r0) by (apply Rmult_le_pos; lra).
  assert (Hint := is_integral_subst_power _ _ (/ (kappa * t)) 1 HA ltac:(lra)
                    (is_integral_bessel_core 1 1 _ _ Hu0 (bessel_norm_sum 1 _))).
  apply (is_integral_scal _ _ _ _ (/ (4 * PI) * exp (- (/ (kappa * t) * r0)))) in Hint.
  replace (/ (4 * PI)) with
    (/ (4 * PI) * exp (- (/ (kappa * t) * r0)) * exp (/ (kappa * t) * r0)).
  2:{ rewrite exp_Ropp. assert (He := exp_pos (/ (kappa * t) * r0)). field. lra. }
  eapply is_integral_ext; [|exact Hint].
  intros r [Hr _]. simpl in Hr. cbv beta.
  symmetry. apply generalized_full_p; assumption.
Qed.

Lemma generalized_full_ra kappa t r0 :
  0 < kappa -> 0 < t -> 0 < r0 -> ra kappa t r0 = 1 / 2.
Proof.
  intros Hk Ht Hr0. unfold ra. assert (HPI := PI_RGT_0).
  rewrite (integrate_eq _ _ _ _ nonempty_0_oo (generalized_full_is_integral kappa t r0 Hk Ht Hr0)).
  field. lra.
Qed.
End GeneralizedFullLemmas.



Lemma besseli_2 z : 0 < z -> besseli 2 z = (z / 2) ^ 2 * bessel_core 2 ((z / 2) ^ 2).
Proof.
  intros Hz. rewrite <- (besseli_nat 2 z Hz). f_equal; simpl; try ring.
Qed.

Lemma besseli_3 z : 0 < z -> besseli 3 z = (z / 2) ^ 3 * bessel_core 3 ((z / 2) ^ 2).
Proof.
  intros Hz. rewrite <- (besseli_nat 3 z Hz). f_equal; simpl; try ring.
Qed.

Lemma Rpower_quarter r :
  0 < r ->
  Rpower r (1 / 2) = Rpower r (1 / 4) * Rpower r (1 / 4) /\
  Rpower r (3 / 4) = Rpower r (1 / 4) * Rpower r (1 / 4) * Rpower r (1 / 4) /\
  r = Rpower r (1 / 4) * Rpower r (1 / 4) * Rpower r (1 / 4) * Rpower r (1 / 4).
Proof.
  intros Hr. rewrite <- !Rpower_plus.
  replace (1 / 4 + 1 / 4) with (1 / 2) by field.
  replace (1 / 2 + 1 / 4) with (3 / 4) by field.
  replace (3 / 4 + 1 / 4) with 1 by field.
  rewrite Rpower_1 by assumption. repeat split; reflexivity.
Qed.

Section FullGMLemmas.
Import FullGM.

Lemma full_GM_p lmbd t r0 r :
  0 < lmbd -> 0 < t -> 0 < r0 -> 0 < r ->
  p lmbd t r0 r * r =
  / (2 * PI) * exp (- (4 / (lmbd * t) * Rpower r0 (1 / 2)))
  * ((exp (- (4 / (lmbd * t) * Rpower r (1 / 2)))
      * ((4 / (lmbd * t) * Rpower r (1 / 2)) ^ 3
         * bessel_core 3 (4 / (lmbd * t) * Rpower r0 (1 / 2)
                          * (4 / (lmbd * t) * Rpower r (1 / 2)))))
     * (4 / (lmbd * t) * (1 / 2 * Rpower r (1 / 2 - 1)))).
Proof.
  intros Hl Ht Hr0 Hr. unfold p, fst, scd, trd, tmp.
  assert (HPI := PI_RGT_0).
  assert (Hlt : 0 < lmbd * t) by nra.
  assert (Hz : 0 < 8 * Rpower (r0 * r) (1 / 4) / (lmbd * t)).
  { apply Rdiv_lt_0_compat; [|exact Hlt].
    apply Rmult_lt_0_compat; [lra | apply Rpower_pos]. }
  rewrite (besseli_3 _ Hz).
  rewrite Rpower_minus_1 by exact Hr.
  rewrite <- !(Rpower_mult_distr r0 r) by assumption.
  destruct (Rpower_quarter r Hr) as (E1 & E2 & E3).
  destruct (Rpower_quarter r0 Hr0) as (F1 & F2 & F3).
  rewrite E1, E2, F1, F2.
  assert (Hw : 0 < Rpower r (1 / 4)) by apply Rpower_pos.
  assert (Hw0 : 0 < Rpower r0 (1 / 4)) by apply Rpower_pos.
  set (w := Rpower r (1 / 4)) in *. set (w0 := Rpower r0 (1 / 4)) in *.
  clearbody w w0. clear E1 E2 F1 F2. subst r r0.
  replace (- 4 * (w0 * w0 + w * w) / (lmbd * t))
    with (- (4 / (lmbd * t) * (w0 * w0)) + - (4 / (lmbd * t) * (w * w))) by (field; lra).
  rewrite exp_plus.
  replace ((8 * (w0 * w) / (lmbd * t) / 2) ^ 2)
    with (4 / (lmbd * t) * (w0 * w0) * (4 / (lmbd * t) * (w * w))) by (field; lra).
  field. repeat split; lra.
Qed.

Lemma full_GM_is_integral lmbd t r0 :
  0 < lmbd -> 0 < t -> 0 < r0 ->
  is_integral (fun r => p lmbd t r0 r * r) (Finite 0) oo (/ (2 * PI)).
Proof.
  intros Hl Ht Hr0.
  assert (HPI := PI_RGT_0).
  assert (Hlt : 0 < lmbd * t) by nra.
  assert (HA : 0 < 4 / (lmbd * t)) by (apply Rdiv_lt_0_compat; lra).
  assert (Hu0 : 0 <= 4 / (lmbd * t) * Rpower r0 (1 / 2)).
  { apply Rmult_le_pos; [lra | left; apply Rpower_pos]. }
  assert (Hint := is_integral_subst_power _ _ (4 / (lmbd * t)) (1 / 2) HA ltac:(lra)
                    (is_integral_bessel_core 3 3 _ _ Hu0 (bessel_norm_sum 3 _))).
  apply (is_integral_scal _ _ _ _
           (/ (2 * PI) * exp (- (4 / (lmbd * t) * Rpower r0 (1 / 2))))) in Hint.
  replace (/ (2 * PI)) with
    (/ (2 * PI) * exp (- (4 / (lmbd * t) * Rpower r0 (1 / 2)))
     * exp (4 / (lmbd * t) * Rpower r0 (1 / 2))).
  2:{ rewrite exp_Ropp. assert (He := exp_pos (4 / (lmbd * t) * Rpower r0 (1 / 2))).
      field. lra. }
  eapply is_integral_ext; [|exact Hint].
  intros r [Hr _]. simpl in Hr. cbv beta.
  symmetry. apply full_GM_p; assumption.
Qed.

Lemma full_GM_ra lmbd t r0 : 0 < lmbd -> 0 < t -> 0 < r0 -> ra lmbd t r0 = 1.
Proof.
  intros Hl Ht Hr0. unfold ra. assert (HPI := PI_RGT_0).
  rewrite (integrate_eq _ _ _ _ nonempty_0_oo (full_GM_is_integral lmbd t r0 Hl Ht Hr0)).
  field. lra.
Qed.
End FullGMLemmas.

Section FullRichardsonLemmas.
Import FullRichardson.

Lemma full_Richardson_p beta t r0 r :
  0 < beta -> 0 < t -> 0 < r0 -> 0 < r ->
  p beta t r0 r * r =
  / (2 * PI) * exp (- (9 / (4 * beta * t) * Rpower r0 (2 / 3)))
  * ((exp (- (9 / (4 * beta * t) * Rpower r (2 / 3)))
      * ((9 / (4 * beta * t) * Rpower r (2 / 3)) ^ 2
         * bessel_core 2 (9 / (4 * beta * t) * Rpower r0 (2 / 3)
                          * (9 / (4 * beta * t) * Rpower r (2 / 3)))))
     * (9 / (4 * beta * t) * (2 / 3 * Rpower r (2 / 3 - 1)))).
Proof.
  intros Hb Ht Hr0 Hr. unfold p, fst, scd, trd, tmp.
  assert (HPI := PI_RGT_0).
  assert (Hbt : 0 < beta * t) by nra.
  assert (Hz : 0 < 9 * Rpower (r0 * r) (1 / 3) / (2 * beta * t)).
  { apply Rdiv_lt_0_compat; [|lra].
    apply Rmult_lt_0_compat; [lra | apply Rpower_pos]. }
  rewrite (besseli_2 _ Hz).
  rewrite Rpower_minus_1 by exact Hr.
  rewrite <- !(Rpower_mult_distr r0 r) by assumption.
  destruct (Rpower_third r Hr) as (E1 & E2).
  destruct (Rpower_third r0 Hr0) as (F1 & F2).
  rewrite E1, F1.
  assert (Hw : 0 < Rpower r (1 / 3)) by apply Rpower_pos.
  assert (Hw0 : 0 < Rpower r0 (1 / 3)) by apply Rpower_pos.
  set (w := Rpower r (1 / 3)) in *. set (w0 := Rpower r0 (1 / 3)) in *.
  clearbody w w0. clear E1 F1. subst r r0.
  replace (- 9 * (w0 * w0 + w * w) / (4 * beta * t))
    with (- (9 / (4 * beta * t) * (w0 * w0)) + - (9 / (4 * beta * t) * (w * w)))
    by (field; lra).
  rewrite exp_plus.
  replace ((9 * (w0 * w) / (2 * beta * t) / 2) ^ 2)
    with (9 / (4 * beta * t) * (w0 * w0) * (9 / (4 * beta * t) * (w * w))) by (field; lra).
  field. repeat split; lra.
Qed.

Lemma full_Richardson_is_integral beta t r0 :
  0 < beta -> 0 < t -> 0 < r0 ->
  is_integral (fun r => p beta t r0 r * r) (Finite 0) oo (/ (2 * PI)).
Proof.
  intros Hb Ht Hr0.
  assert (HPI := PI_RGT_0).
  assert (Hbt : 0 < beta * t) by nra.
  assert (HA : 0 < 9 / (4 * beta * t)) by (apply Rdiv_lt_0_compat; lra).
  assert (Hu0 : 0 <= 9 / (4 * beta * t) * Rpower r0 (2 / 3)).
  { apply Rmult_le_pos; [lra | left; apply Rpower_pos]. }
  assert (Hint := is_integral_subst_power _ _ (9 / (4 * beta * t)) (2 / 3) HA ltac:(lra)
                    (is_integral_bessel_core 2 2 _ _ Hu0 (bessel_norm_sum 2 _))).
  apply (is_integral_scal _ _ _ _
           (/ (2 * PI) * exp (- (9 / (4 * beta * t) * Rpower r0 (2 / 3))))) in Hint.
  replace (/ (2 * PI)) with
    (/ (2 * PI) * exp (- (9 / (4 * beta * t) * Rpower r0 (2 / 3)))
     * exp (9 / (4 * beta * t) * Rpower r0 (2 / 3))).
  2:{ rewrite exp_Ropp. assert (He := exp_pos (9 / (4 * beta * t) * Rpower r0 (2 / 3))).
      field. lra. }
  eapply is_integral_ext; [|exact Hint].
  intros r [Hr _]. simpl in Hr. cbv beta.
  symmetry. apply full_Richardson_p; assumption.
Qed.

Lemma full_Richardson_ra beta t r0 : 0 < beta -> 0 < t -> 0 < r0 -> ra beta t r0 = 1.
Proof.
  intros Hb Ht Hr0. unfold ra. assert (HPI := PI_RGT_0).
  rewrite (integrate_eq _ _ _ _ nonempty_0_oo
             (full_Richardson_is_integral beta t r0 Hb Ht Hr0)).
  field. lra.
Qed.
End FullRichardsonLemmas.

(** ** Change of variable between two intervals *)

Lemma is_integral_change g l lo hi lo' hi' phi dphi :
  is_integral g lo' hi' l ->
  (exists x0, inside lo hi x0) ->
  (forall x, inside lo hi x -> derivable_pt_lim phi x (dphi x)) ->
  (forall x, inside lo hi x -> inside lo' hi' (phi x)) ->
  approaches_lower lo lo' phi ->
  approaches_upper hi hi' phi ->
  is_integral (fun x => g (phi x) * dphi x) lo hi l.
Proof.
  intros (G & la & lb & HG & Ha & Hb & ->) [x0 Hx0] Hd Hin Hlo Hhi.
  exists (fun x => G (phi x)), la, lb. split; [|split; [|split; [|reflexivity]]].
  - intros x Hx.
    apply (derivable_pt_lim_comp phi G x (dphi x) (g (phi x))).
    + apply Hd; exact Hx.
    + apply HG. apply Hin. exact Hx.
  - intros eps He.
    destruct (Ha eps He) as [c' [Hc' H1]].
    destruct (Hlo c' Hc') as [c [Hc H2]].
    destruct (above_lower_point lo hi x0 c c Hx0 Hc Hc) as [c1 [Hc1 [Hlt _]]].
    exists c1. split; [apply Hc1|].
    intros x Hx Hxc.
    assert (Hix : inside lo hi x).
    { split; [exact Hx|]. destruct Hc1 as [_ Hb1].
      destruct hi; simpl in *; try tauto; lra. }
    apply H1; [apply (Hin x Hix) | apply H2; [exact Hx | lra]].
  - intros eps He.
    destruct (Hb eps He) as [c' [Hc' H1]].
    destruct (Hhi c' Hc') as [c [Hc H2]].
    destruct (below_upper_point lo hi x0 c c Hx0 Hc Hc) as [c1 [Hc1 [Hlt _]]].
    exists c1. split; [apply Hc1|].
    intros x Hx Hxc.
    assert (Hix : inside lo hi x).
    { split; [|exact Hx]. destruct Hc1 as [Ha1 _].
      destruct lo; simpl in *; try tauto; lra. }
    apply H1; [apply (Hin x Hix) | apply H2; [exact Hx | lra]].
Qed.

(** ** Comparison of integrals *)

Lemma limits_ordered lo hi H a b :
  (exists x0, inside lo hi x0) ->
  (forall x y, inside lo hi x -> inside lo hi y -> x < y -> H x <= H y) ->
  tends_lower lo H a -> tends_upper hi H b -> a <= b.
Proof.
  intros [x0 Hx0] Hmono Ha Hb.
  destruct (Rle_lt_dec a b) as [Hle | Hlt]; [exact Hle | exfalso].
  assert (He : 0 < (a - b) / 3) by lra.
  destruct (Ha _ He) as [c1 [Hc1 H1]].
  destruct (Hb _ He) as [c2 [Hc2 H2]].
  destruct (above_lower_point lo hi x0 c1 x0 Hx0 Hc1 (proj1 Hx0)) as [x [Hx [Hxc Hxx]]].
  destruct (below_upper_point lo hi x0 c2 x0 Hx0 Hc2 (proj2 Hx0)) as [y [Hy [Hyc Hyy]]].
  specialize (H1 x (proj1 Hx) Hxc). specialize (H2 y (proj2 Hy) Hyc).
  apply Rabs_def2 in H1. apply Rabs_def2 in H2.
  assert (Hxy := Hmono x y Hx Hy ltac:(lra)). lra.
Qed.

Lemma is_integral_le f g lo hi l l' :
  (exists x0, inside lo hi x0) ->
  (forall x, inside lo hi x -> f x <= g x) ->
  is_integral f lo hi l -> is_integral g lo hi l' -> l <= l'.
Proof.
  intros Hne Hfg (F & la & lb & HF & HFa & HFb & ->) (G & ma & mb & HG & HGa & HGb & ->).
  assert (Hord : ma + (-1) * la <= mb + (-1) * lb).
  { apply (limits_ordered lo hi (fun x => G x + (-1) * F x)); [exact Hne | | |].
    - intros x y Hx Hy Hxy.
      apply (antiderivative_nondecreasing (fun x => G x + (-1) * F x)
               (fun z => g z + (-1) * f z) x y); [lra | |].
      + intros z Hz.
        assert (Hiz : inside lo hi z).
        { destruct Hx as [Hx1 Hx2], Hy as [Hy1 Hy2]. split.
          - destruct lo; simpl in *; try tauto; lra.
          - destruct hi; simpl in *; try tauto; lra. }
        apply (derivable_pt_lim_plus G (fun x => (-1) * F x)); [apply HG; exact Hiz|].
        apply (derivable_pt_lim_scal F (-1) z). apply HF. exact Hiz.
      + intros z Hz.
        assert (Hiz : inside lo hi z).
        { destruct Hx as [Hx1 Hx2], Hy as [Hy1 Hy2]. split.
          - destruct lo; simpl in *; try tauto; lra.
          - destruct hi; simpl in *; try tauto; lra. }
        specialize (Hfg z Hiz). lra.
    - apply tends_lower_plus; [exact HGa | apply tends_lower_scal; exact HFa].
    - apply tends_upper_plus; [exact HGb | apply tends_upper_scal; exact HFb]. }
  lra.
Qed.

Lemma is_integral_nonneg f lo hi l :
  (exists x0, inside lo hi x0) ->
  (forall x, inside lo hi x -> 0 <= f x) ->
  is_integral f lo hi l -> 0 <= l.
Proof.
  intros Hne Hf Hl.
  apply (is_integral_le (fun _ => 0) f lo hi 0 l Hne Hf); [|exact Hl].
  exists (fun _ => 0), 0, 0. split; [|split; [|split; [|ring]]].
  - intros x _. apply (derivable_pt_lim_const 0).
  - intros eps He. destruct Hne as [x0 [Hx0 _]]. exists x0. split; [exact Hx0|].
    intros. rewrite Rminus_diag, Rabs_R0. exact He.
  - intros eps He. destruct Hne as [x0 [_ Hx0]]. exists x0. split; [exact Hx0|].
    intros. rewrite Rminus_diag, Rabs_R0. exact He.
Qed.

(** ** Antiderivatives of continuous functions *)

Lemma continuous_antiderivative f :
  (forall x, continuity_pt f x) ->
  exists F, (forall x, derivable_pt_lim F x (f x)) /\ F 0 = 0.
Proof.
  intros Hc.
  assert (X : forall a b, Riemann_integrable f a b).
  { intros a b. destruct (Rle_dec a b) as [H | H].
    - apply continuity_implies_RiemannInt; [exact H | intros; apply Hc].
    - apply RiemannInt_P1. apply continuity_implies_RiemannInt; [lra | intros; apply Hc]. }
  exists (fun x => RiemannInt (X 0 x)). split.
  - intros x.
    assert (h : x - 1 <= x + 1) by lra.
    assert (C0 : forall y, x - 1 <= y <= x + 1 -> continuity_pt f y) by (intros; apply Hc).
    apply (derivable_pt_lim_locally_ext
             (fun y => RiemannInt (X 0 (x - 1)) + primitive h (FTC_P1 h C0) y)
             _ x (x - 1) (x + 1)).
    + lra.
    + intros z Hz. unfold primitive.
      destruct (Rle_dec (x - 1) z) as [Hl | Hl]; [|lra].
      destruct (Rle_dec z (x + 1)) as [Hr | Hr]; [|lra].
      apply RiemannInt_P26.
    + replace (f x) with (0 + f x) by ring.
      apply (derivable_pt_lim_plus (fun _ => RiemannInt (X 0 (x - 1)))
               (primitive h (FTC_P1 h C0))).
      * apply (derivable_pt_lim_const (RiemannInt (X 0 (x - 1)))).
      * apply RiemannInt_P27. lra.
  - apply RiemannInt_P9.
Qed.

(** ** Limits of monotone functions *)

Lemma nondecreasing_bounded_tends F B :
  (forall x y, 0 <= x -> x <= y -> F x <= F y) ->
  (forall x, 0 <= x -> F x <= B) ->
  exists l, tends_upper oo F l /\ (forall x, 0 <= x -> F x <= l) /\ l <= B.
Proof.
  intros Hmono Hb.
  destruct (completeness (fun v => exists x, 0 <= x /\ v = F x)) as [l [Hub Hlub]].
  - exists B. intros v [x [Hx ->]]. apply Hb. exact Hx.
  - exists (F 0), 0. split; [lra | reflexivity].
  - exists l. split; [|split].
    + intros eps He.
      assert (Hex : exists x, 0 <= x /\ l - eps < F x).
      { destruct (classic (exists x, 0 <= x /\ l - eps < F x)) as [H | H]; [exact H|].
        exfalso.
        assert (Hl : l <= l - eps).
        { apply Hlub. intros v [x [Hx ->]].
          destruct (Rle_lt_dec (F x) (l - eps)) as [H1 | H1]; [exact H1|].
          exfalso. apply H. exists x. split; assumption. }
        lra. }
      destruct Hex as [x1 [Hx1 Hl1]].
      exists x1. split; [exact I|]. intros x _ Hx.
      assert (H1 : F x1 <= F x) by (apply Hmono; lra).
      assert (H2 : F x <= l) by (apply Hub; exists x; split; [lra | reflexivity]).
      apply Rabs_def1; lra.
    + intros x Hx. apply Hub. exists x. split; [exact Hx | reflexivity].
    + apply Hlub. intros v [x [Hx ->]]. apply Hb. exact Hx.
Qed.

(** ** The integrals of [(1 + x^2)^(-q)] *)

Lemma one_plus_sqr_pos x : 0 < 1 + x ^ 2.
Proof. assert (H := pow2_ge_0 x). lra. Qed.

Lemma hq_pos q x : 0 < hq q x.
Proof. apply Rpower_pos. Qed.

Lemma hq_succ q x : hq q x = (1 + x ^ 2) * hq (q + 1) x.
Proof.
  unfold hq. replace (- q) with (1 + - (q + 1)) by ring.
  rewrite Rpower_plus, Rpower_1 by apply one_plus_sqr_pos. reflexivity.
Qed.

Lemma hq_derivative q x :
  derivable_pt_lim (hq q) x (- q * hq (q + 1) x * (2 * x)).
Proof.
  unfold hq.
  assert (H1 : derivable_pt_lim (fun x => 1 + x ^ 2) x (2 * x)).
  { replace (2 * x) with (0 + INR 2 * x ^ pred 2) by (simpl; ring).
    apply (derivable_pt_lim_plus (fun _ => 1) (fun x => x ^ 2)).
    - apply (derivable_pt_lim_const 1).
    - apply derivable_pt_lim_pow. }
  assert (H2 := derivable_pt_lim_power (1 + x ^ 2) (- q) (one_plus_sqr_pos x)).
  assert (H3 := derivable_pt_lim_comp (fun x => 1 + x ^ 2) (fun y => Rpower y (- q)) x _ _ H1 H2).
  replace (- (q + 1)) with (- q - 1) by ring. exact H3.
Qed.

Lemma x_hq_derivative q x :
  derivable_pt_lim (fun x => x * hq q x) x ((1 - 2 * q) * hq q x + 2 * q * hq (q + 1) x).
Proof.
  assert (H := derivable_pt_lim_mult id (hq q) x 1 _ (derivable_pt_lim_id x) (hq_derivative q x)).
  replace ((1 - 2 * q) * hq q x + 2 * q * hq (q + 1) x)
    with (1 * hq q x + id x * (- q * hq (q + 1) x * (2 * x))).
  - exact H.
  - unfold id. rewrite (hq_succ q x). ring.
Qed.

(** [x * (1 + x^2)^(-q)] vanishes at infinity when [q > 1/2]. *)
Lemma x_hq_tends_oo q : 1 / 2 < q -> tends_upper oo (fun x => x * hq q x) 0.
Proof.
  intros Hq eps He.
  destruct (Rpower_grows_oo (2 * q - 1) ltac:(lra) (/ eps)) as [c [Hc H]].
  exists c. split; [exact I|]. intros x _ Hx.
  assert (Hx0 : 0 < x) by lra.
  specialize (H x Hx).
  assert (Hh := hq_pos q x).
  rewrite Rminus_0_r, Rabs_right by (apply Rle_ge, Rmult_le_pos; lra).
  assert (Hle : hq q x <= Rpower x (- (2 * q))).
  { unfold hq. rewrite !Rpower_Ropp.
    apply Rinv_le_contravar; [apply Rpower_pos|].
    replace (2 * q) with (q + q) by ring. rewrite Rpower_plus.
    rewrite (Rpower_mult_distr x x q Hx0 Hx0).
    apply Rle_Rpower_l; [lra|]. split; [nra | simpl; nra]. }
  assert (Hxq : x * Rpower x (- (2 * q)) = / Rpower x (2 * q - 1)).
  { rewrite <- (Rpower_1 x Hx0) at 1. rewrite <- Rpower_plus, <- Rpower_Ropp.
    f_equal. ring. }
  apply Rle_lt_trans with (x * Rpower x (- (2 * q))).
  - apply Rmult_le_compat_l; lra.
  - rewrite Hxq. rewrite <- (Rinv_inv eps).
    apply Rinv_lt_contravar; [|exact H].
    apply Rmult_lt_0_compat; [apply Rinv_0_lt_compat; exact He | apply Rpower_pos].
Qed.

Lemma x_hq_tends_0 q : tends_lower (Finite 0) (fun x => x * hq q x) 0.
Proof.
  assert (H : continuity_pt (fun x => x * hq q x) 0).
  { eapply derivable_continuity_pt. apply x_hq_derivative. }
  apply tends_lower_continuous in H. rewrite Rmult_0_l in H. exact H.
Qed.

(** From [q] to [q + 1]. *)
Lemma hq_step q l :
  1 / 2 < q ->
  is_integral (hq q) (Finite 0) oo l ->
  is_integral (hq (q + 1)) (Finite 0) oo ((2 * q - 1) / (2 * q) * l).
Proof.
  intros Hq (F & la & lb & HF & Ha & Hb & ->).
  exists (fun x => / (2 * q) * (x * hq q x) + (2 * q - 1) / (2 * q) * F x),
         (/ (2 * q) * 0 + (2 * q - 1) / (2 * q) * la),
         (/ (2 * q) * 0 + (2 * q - 1) / (2 * q) * lb).
  split; [|split; [|split]].
  - intros x Hx.
    replace (hq (q + 1) x)
      with (/ (2 * q) * ((1 - 2 * q) * hq q x + 2 * q * hq (q + 1) x)
            + (2 * q - 1) / (2 * q) * hq q x) by (field; lra).
    apply (derivable_pt_lim_plus (fun x => / (2 * q) * (x * hq q x))
             (fun x => (2 * q - 1) / (2 * q) * F x)).
    + apply (derivable_pt_lim_scal (fun x => x * hq q x) (/ (2 * q)) x).
      apply x_hq_derivative.
    + apply (derivable_pt_lim_scal F ((2 * q - 1) / (2 * q)) x). apply HF. exact Hx.
  - apply tends_lower_plus; apply tends_lower_scal; [apply x_hq_tends_0 | exact Ha].
  - apply tends_upper_plus; apply tends_upper_scal; [apply x_hq_tends_oo; exact Hq | exact Hb].
  - field. lra.
Qed.

Lemma atan_le_id x : 0 <= x -> atan x <= x.
Proof.
  intros Hx.
  assert (H : (fun y => y + (-1) * atan y) 0 <= (fun y => y + (-1) * atan y) x).
  { apply (antiderivative_nondecreasing (fun y => y + (-1) * atan y)
             (fun y => 1 + (-1) * (/ (1 + y ^ 2))) 0 x Hx).
    - intros y _.
      apply (derivable_pt_lim_plus id (fun y => (-1) * atan y)); [apply derivable_pt_lim_id|].
      apply (derivable_pt_lim_scal atan (-1) y). apply derivable_pt_lim_atan.
    - intros y _. assert (H1 := one_plus_sqr_pos y). assert (H2 := pow2_ge_0 y).
      assert (/ (1 + y ^ 2) <= 1).
      { rewrite <- Rinv_1 at 2. apply Rinv_le_contravar; lra. }
      lra. }
  cbv beta in H. rewrite atan_0 in H. lra.
Qed.

Lemma atan_tends_oo : tends_upper oo atan (PI / 2).
Proof.
  intros eps He.
  exists (/ eps). split; [exact I|]. intros x _ Hx.
  assert (Hie : 0 < / eps) by (apply Rinv_0_lt_compat; exact He).
  assert (Hx0 : 0 < x) by lra.
  assert (Hinv := atan_inv x Hx0).
  assert (Hix : 0 < / x) by (apply Rinv_0_lt_compat; exact Hx0).
  assert (H1 := atan_le_id (/ x) ltac:(lra)).
  assert (H2 : 0 < atan (/ x)).
  { rewrite <- atan_0. apply atan_increasing. exact Hix. }
  assert (H3 : / x < eps).
  { rewrite <- (Rinv_inv eps). apply Rinv_lt_contravar; [|exact Hx].
    apply Rmult_lt_0_compat; assumption. }
  apply Rabs_def1; lra.
Qed.

Lemma hq_1 x : hq 1 x = / (1 + x ^ 2).
Proof.
  unfold hq. rewrite Rpower_Ropp, Rpower_1 by apply one_plus_sqr_pos. reflexivity.
Qed.

Lemma is_integral_hq_1 : is_integral (hq 1) (Finite 0) oo (PI / 2).
Proof.
  exists atan, 0, (PI / 2). split; [|split; [|split; [|ring]]].
  - intros x _. rewrite hq_1. apply derivable_pt_lim_atan.
  - rewrite <- atan_0 at 2. apply tends_lower_continuous.
    eapply derivable_continuity_pt. apply derivable_pt_lim_atan.
  - exact atan_tends_oo.
Qed.

(** [x / sqrt(1 + x^2)] tends to [1]. *)
Lemma x_hq_half_tends_oo : tends_upper oo (fun x => x * hq (1 / 2) x) 1.
Proof.
  intros eps He.
  exists (Rmax 1 (/ eps)). split; [exact I|]. intros x _ Hx.
  assert (Hie : 0 < / eps) by (apply Rinv_0_lt_compat; exact He).
  assert (Hx1 : 1 < x) by (assert (H := Rmax_l 1 (/ eps)); lra).
  assert (Hxe : / eps < x) by (assert (H := Rmax_r 1 (/ eps)); lra).
  assert (Hp := one_plus_sqr_pos x).
  assert (Hs : hq (1 / 2) x = / sqrt (1 + x ^ 2)).
  { unfold hq. rewrite Rpower_Ropp. f_equal.
    replace (1 / 2) with (/ 2) by field. apply Rpower_sqrt. exact Hp. }
  rewrite Hs.
  assert (Hs0 : 0 < sqrt (1 + x ^ 2)) by (apply sqrt_lt_R0; exact Hp).
  assert (Hss : sqrt (1 + x ^ 2) * sqrt (1 + x ^ 2) = 1 + x ^ 2) by (apply sqrt_sqrt; lra).
  set (s := sqrt (1 + x ^ 2)) in *.
  assert (Hsx : x < s) by nra.
  assert (Hsu : s <= x + / (2 * x)).
  { assert (Hi : 0 < / (2 * x)) by (apply Rinv_0_lt_compat; lra).
    destruct (Rle_lt_dec s (x + / (2 * x))) as [H | H]; [exact H | exfalso].
    assert (Hsq : (x + / (2 * x)) * (x + / (2 * x)) < s * s) by nra.
    assert (Hexp : (x + / (2 * x)) * (x + / (2 * x)) = x ^ 2 + 1 + / (2 * x) * / (2 * x)).
    { field. lra. }
    nra. }
  assert (Hix : / x < eps).
  { rewrite <- (Rinv_inv eps). apply Rinv_lt_contravar; [|exact Hxe].
    apply Rmult_lt_0_compat; lra. }
  assert (Hdiff : 1 - x * / s = (s - x) * / s) by (field; lra).
  assert (Hinvs : / s < / x) by (apply Rinv_lt_contravar; nra).
  assert (Hinvs0 : 0 < / s) by (apply Rinv_0_lt_compat; exact Hs0).
  assert (H2x : / (2 * x) < / x).
  { apply Rinv_lt_contravar; nra. }
  assert (Hix1 : / x < 1).
  { rewrite <- Rinv_1. apply Rinv_lt_contravar; lra. }
  assert (Hix0 : 0 < / x) by (apply Rinv_0_lt_compat; lra).
  assert (Hi2 : 0 < / (2 * x)) by (apply Rinv_0_lt_compat; lra).
  assert (Hb : (s - x) * / s < / x) by nra.
  apply Rabs_def1; nra.
Qed.

Lemma is_integral_hq_3_2 : is_integral (hq (3 / 2)) (Finite 0) oo 1.
Proof.
  exists (fun x => x * hq (1 / 2) x), 0, 1. split; [|split; [|split; [|ring]]].
  - intros x _.
    assert (H := x_hq_derivative (1 / 2) x).
    replace ((1 - 2 * (1 / 2)) * hq (1 / 2) x + 2 * (1 / 2) * hq (1 / 2 + 1) x)
      with (hq (3 / 2) x) in H.
    + exact H.
    + replace (1 / 2 + 1) with (3 / 2) by field. field.
  - apply x_hq_tends_0.
  - exact x_hq_half_tends_oo.
Qed.

Lemma wallis_odd_S n :
  wallis_odd (S n) = wallis_odd n * ((2 * INR (S n) - 1) / (2 * INR (S n))).
Proof. reflexivity. Qed.

Lemma wallis_even_S n :
  wallis_even (S n) = wallis_even n * (2 * INR (S n) / (2 * INR (S n) + 1)).
Proof. reflexivity. Qed.

Lemma is_integral_hq_odd n :
  is_integral (hq (INR n + 1)) (Finite 0) oo (PI / 2 * wallis_odd n).
Proof.
  induction n as [|n IH].
  - simpl INR. replace (0 + 1) with 1 by ring. simpl wallis_odd.
    rewrite Rmult_1_r. exact is_integral_hq_1.
  - assert (Hn := pos_INR n).
    apply (hq_step (INR n + 1)) in IH; [|lra].
    rewrite S_INR.
    replace (PI / 2 * wallis_odd (S n))
      with ((2 * (INR n + 1) - 1) / (2 * (INR n + 1)) * (PI / 2 * wallis_odd n)).
    + exact IH.
    + rewrite wallis_odd_S, S_INR. field. lra.
Qed.

Lemma is_integral_hq_even n :
  is_integral (hq (INR n + 3 / 2)) (Finite 0) oo (wallis_even n).
Proof.
  induction n as [|n IH].
  - simpl INR. replace (0 + 3 / 2) with (3 / 2) by ring. exact is_integral_hq_3_2.
  - assert (Hn := pos_INR n).
    apply (hq_step (INR n + 3 / 2)) in IH; [|lra].
    rewrite S_INR.
    replace (INR n + 1 + 3 / 2) with (INR n + 3 / 2 + 1) by ring.
    replace (wallis_even (S n))
      with ((2 * (INR n + 3 / 2) - 1) / (2 * (INR n + 3 / 2)) * wallis_even n).
    + exact IH.
    + rewrite wallis_even_S, S_INR. field. lra.
Qed.

(** The integrals decrease with the exponent. *)
Lemma hq_decreasing q q' x : q <= q' -> hq q' x <= hq q x.
Proof.
  intros Hq. unfold hq. apply Rle_Rpower; [|lra].
  assert (H := pow2_ge_0 x). lra.
Qed.

Lemma wallis_even_le_odd n : wallis_even n <= PI / 2 * wallis_odd n.
Proof.
  apply (is_integral_le (hq (INR n + 3 / 2)) (hq (INR n + 1)) (Finite 0) oo).
  - apply nonempty_0_oo.
  - intros x _. apply hq_decreasing. lra.
  - apply is_integral_hq_even.
  - apply is_integral_hq_odd.
Qed.

Lemma wallis_odd_le_even n : PI / 2 * wallis_odd (S n) <= wallis_even n.
Proof.
  apply (is_integral_le (hq (INR (S n) + 1)) (hq (INR n + 3 / 2)) (Finite 0) oo).
  - apply nonempty_0_oo.
  - intros x _. apply hq_decreasing. rewrite S_INR. lra.
  - apply is_integral_hq_odd.
  - apply is_integral_hq_even.
Qed.

Lemma wallis_product n : wallis_even n * wallis_odd n = / (2 * INR n + 1).
Proof.
  induction n as [|n IH].
  - simpl. field.
  - assert (Hn := pos_INR n).
    replace (wallis_even (S n) * wallis_odd (S n))
      with (wallis_even n * wallis_odd n
            * ((2 * INR (S n) - 1) / (2 * INR (S n) + 1))).
    + rewrite IH, S_INR. field. lra.
    + rewrite wallis_even_S, wallis_odd_S, !S_INR. field. lra.
Qed.

Lemma wallis_even_pos n : 0 < wallis_even n.
Proof.
  induction n as [|n IH]; [simpl; lra|].
  rewrite wallis_even_S, S_INR. assert (H := pos_INR n).
  apply Rmult_lt_0_compat; [exact IH|]. apply Rdiv_lt_0_compat; lra.
Qed.

Lemma wallis_odd_pos n : 0 < wallis_odd n.
Proof.
  induction n as [|n IH]; [simpl; lra|].
  rewrite wallis_odd_S, S_INR. assert (H := pos_INR n).
  apply Rmult_lt_0_compat; [exact IH|]. apply Rdiv_lt_0_compat; lra.
Qed.

(** ** The integral of [exp(-x^2)] over the half line *)

Lemma gauss_derivative x : derivable_pt_lim gauss x (exp (- x ^ 2) * (- (2 * x))).
Proof.
  unfold gauss.
  apply (derivable_pt_lim_comp (fun x => - x ^ 2) exp).
  - replace (- (2 * x)) with (- (INR 2 * x ^ pred 2)) by (simpl; ring).
    apply (derivable_pt_lim_opp (fun x => x ^ 2)). apply derivable_pt_lim_pow.
  - apply derivable_pt_lim_exp.
Qed.

Lemma gauss_continuity x : continuity_pt gauss x.
Proof.
  eapply derivable_continuity_pt. apply gauss_derivative.
Qed.

Lemma gauss_pos x : 0 < gauss x.
Proof. apply exp_pos. Qed.

Lemma exp_nondecreasing x y : x <= y -> exp x <= exp y.
Proof.
  intros [H | ->]; [left; apply exp_increasing; exact H | apply Rle_refl].
Qed.

Lemma ln_one_plus_le y : 0 <= y -> ln (1 + y) <= y.
Proof.
  intros Hy.
  apply Rle_trans with (ln (exp y)); [|rewrite ln_exp; apply Rle_refl].
  destruct (exp_ineq1_le y) as [H | H].
  - left. apply ln_increasing; lra.
  - rewrite H. apply Rle_refl.
Qed.

(** [exp(-q*x^2) <= (1+x^2)^(-q)] for nonnegative [q]. *)
Lemma gauss_le_hq q x : 0 <= q -> exp (- (q * x ^ 2)) <= hq q x.
Proof.
  intros Hq. unfold hq, Rpower. apply exp_nondecreasing.
  assert (H := ln_one_plus_le (x ^ 2) (pow2_ge_0 x)). nra.
Qed.

Lemma gauss_primitive :
  exists E l, (forall x, derivable_pt_lim E x (gauss x)) /\ E 0 = 0 /\
    tends_upper oo E l /\ 0 <= l.
Proof.
  destruct (continuous_antiderivative gauss gauss_continuity) as [E [HE E0]].
  assert (Hmono : forall x y, 0 <= x -> x <= y -> E x <= E y).
  { intros x y _ Hxy. apply (antiderivative_nondecreasing E gauss x y Hxy).
    - intros z _. apply HE.
    - intros z _. left. apply gauss_pos. }
  assert (Hbound : forall x, 0 <= x -> E x <= PI / 2).
  { intros x Hx.
    assert (H : (fun y => atan y + (-1) * E y) 0 <= (fun y => atan y + (-1) * E y) x).
    { apply (antiderivative_nondecreasing (fun y => atan y + (-1) * E y)
               (fun y => / (1 + y ^ 2) + (-1) * gauss y) 0 x Hx).
      - intros y _.
        apply (derivable_pt_lim_plus atan (fun y => (-1) * E y)).
        + apply derivable_pt_lim_atan.
        + apply (derivable_pt_lim_scal E (-1)). apply HE.
      - intros y _. assert (H := gauss_le_hq 1 y ltac:(lra)).
        rewrite hq_1, Rmult_1_l in H. unfold gauss. lra. }
    simpl in H. rewrite atan_0, E0 in H.
    assert (Hb := atan_bound x). lra. }
  destruct (nondecreasing_bounded_tends E (PI / 2) Hmono Hbound) as [l [Hl [Hle _]]].
  exists E, l. repeat split; try assumption.
  rewrite <- E0. apply Hle. lra.
Qed.

Lemma is_integral_scale g l c :
  0 < c -> is_integral g (Finite 0) oo l ->
  is_integral (fun x => g (c * x)) (Finite 0) oo (l / c).
Proof.
  intros Hc H.
  apply (is_integral_ext (fun x => / c * (g (c * x) * c))).
  { intros x _. field. lra. }
  replace (l / c) with (/ c * l) by (field; lra).
  apply is_integral_scal.
  apply (is_integral_change g l (Finite 0) oo (Finite 0) oo (fun x => c * x) (fun _ => c)).
  - exact H.
  - apply nonempty_0_oo.
  - intros x _.
    assert (Hd := derivable_pt_lim_scal id c x 1 (derivable_pt_lim_id x)).
    rewrite Rmult_1_r in Hd. exact Hd.
  - intros x [Hx _]. split; simpl in *; [nra | exact I].
  - intros c' Hc'. simpl in Hc'. exists (c' / c). split.
    + simpl. apply Rdiv_lt_0_compat; assumption.
    + intros x Hx Hxc. simpl in Hx.
      apply (Rmult_lt_compat_l c) in Hxc; [|exact Hc].
      replace (c * (c' / c)) with c' in Hxc by (field; lra). exact Hxc.
  - intros c' _. exists (c' / c). split; [exact I|].
    intros x _ Hxc.
    apply (Rmult_lt_compat_l c) in Hxc; [|exact Hc].
    replace (c * (c' / c)) with c' in Hxc by (field; lra). exact Hxc.
Qed.

(** Restriction of the integral of a nonnegative function to [(0,b)]. *)
Lemma is_integral_restrict f l b :
  0 < b ->
  (forall x, 0 < x -> 0 <= f x) ->
  is_integral f (Finite 0) oo l ->
  exists l1, is_integral f (Finite 0) (Finite b) l1 /\ l1 <= l.
Proof.
  intros Hb Hf (F & la & lb & HF & Ha & Hlb & ->).
  exists (F b - la). split.
  - exists F, la, (F b). split; [|split; [|split; [|reflexivity]]].
    + intros x [Hx _]. apply HF. split; [exact Hx | exact I].
    + exact Ha.
    + apply tends_upper_continuous.
      eapply derivable_continuity_pt. apply (HF b). split; simpl; [exact Hb | exact I].
  - assert (Hle : F b <= lb); [|lra].
    destruct (Rle_lt_dec (F b) lb) as [Hle | Hgt]; [exact Hle|].
    exfalso.
    destruct (Hlb (F b - lb) ltac:(lra)) as [c [_ Hc]].
    set (y := Rmax c b + 1).
    assert (H1 := Rmax_l c b). assert (H2 := Rmax_r c b).
    assert (Hy := Hc y I ltac:(unfold y; lra)).
    assert (Hmono : F b <= F y).
    { apply (antiderivative_nondecreasing F f b y ltac:(unfold y; lra)).
      - intros z Hz. apply HF. split; simpl; [lra | exact I].
      - intros z Hz. apply Hf. lra. }
    apply Rabs_def2 in Hy. lra.
Qed.

Lemma exp_pow a n : exp a ^ n = exp (INR n * a).
Proof.
  induction n as [|n IH].
  - simpl. rewrite Rmult_0_l, exp_0. reflexivity.
  - rewrite S_INR. change (exp a ^ S n) with (exp a * exp a ^ n).
    rewrite IH, <- exp_plus. f_equal. ring.
Qed.

Lemma hq_plus p q x : hq (p + q) x = hq p x * hq q x.
Proof.
  unfold hq. rewrite <- Rpower_plus. f_equal. ring.
Qed.

Lemma hq_pow q x n : hq q x ^ n = hq (INR n * q) x.
Proof.
  unfold hq. rewrite <- Rpower_pow by (unfold Rpower; apply exp_pos).
  rewrite Rpower_mult. f_equal. ring.
Qed.

(** The substitution [y = x / sqrt (1 + x^2)] maps the half line to [(0,1)]. *)
Lemma x_hq_half_sqr x : (x * hq (1 / 2) x) ^ 2 = 1 - hq 1 x.
Proof.
  rewrite Rpow_mult_distr, hq_pow. simpl INR.
  replace ((1 + 1) * (1 / 2)) with 1 by field.
  rewrite hq_1. field. assert (H := one_plus_sqr_pos x). lra.
Qed.

Lemma x_hq_half_inside x : 0 < x -> 0 < x * hq (1 / 2) x < 1.
Proof.
  intros Hx. assert (Hh := hq_pos (1 / 2) x).
  assert (Hp : 0 < x * hq (1 / 2) x) by (apply Rmult_lt_0_compat; assumption).
  split; [exact Hp|].
  assert (Hs := x_hq_half_sqr x). assert (H1 := hq_pos 1 x).
  destruct (Rlt_le_dec (x * hq (1 / 2) x) 1) as [Hlt | Hge]; [exact Hlt|].
  exfalso. nra.
Qed.

Lemma hq_le_1 q x : 0 <= q -> hq q x <= 1.
Proof.
  intros Hq. unfold hq, Rpower.
  apply Rle_trans with (exp 0); [|rewrite exp_0; apply Rle_refl].
  apply exp_nondecreasing.
  assert (H : 0 <= ln (1 + x ^ 2)).
  { rewrite <- ln_1. assert (Hx := pow2_ge_0 x).
    destruct Hx as [Hx | Hx].
    - left. apply ln_increasing; lra.
    - rewrite <- Hx, Rplus_0_r. apply Rle_refl. }
  nra.
Qed.

Lemma scaled_gauss c x : 0 <= c -> gauss (sqrt c * x) = exp (- (c * x ^ 2)).
Proof.
  intros Hc. unfold gauss. f_equal.
  rewrite Rpow_mult_distr, pow2_sqrt by exact Hc. reflexivity.
Qed.

(** Upper bound: [l / sqrt (n+1) <= (pi/2) * wallis_odd n]. *)
Lemma gauss_upper n l :
  is_integral gauss (Finite 0) oo l ->
  l / sqrt (INR (S n)) <= PI / 2 * wallis_odd n.
Proof.
  intros H.
  assert (Hn : 0 < INR (S n)) by (apply lt_0_INR; lia).
  assert (Hc : 0 < sqrt (INR (S n))) by (apply sqrt_lt_R0; exact Hn).
  apply (is_integral_le (fun x => gauss (sqrt (INR (S n)) * x)) (hq (INR n + 1))
           (Finite 0) oo).
  - apply nonempty_0_oo.
  - intros x _. rewrite scaled_gauss by lra. rewrite <- S_INR.
    apply gauss_le_hq. lra.
  - apply is_integral_scale; assumption.
  - apply is_integral_hq_odd.
Qed.

(** Lower bound: [wallis_even n <= l / sqrt n]. *)
Lemma gauss_lower n l :
  (0 < n)%nat ->
  is_integral gauss (Finite 0) oo l ->
  wallis_even n <= l / sqrt (INR n).
Proof.
  intros Hn0 H.
  assert (Hn : 0 < INR n) by (apply lt_0_INR; exact Hn0).
  assert (Hc : 0 < sqrt (INR n)) by (apply sqrt_lt_R0; exact Hn).
  apply (is_integral_scale gauss l (sqrt (INR n)) Hc) in H.
  destruct (is_integral_restrict _ _ 1 ltac:(lra) (fun x _ => Rlt_le _ _ (gauss_pos _)) H)
    as [l1 [H1 Hl1]].
  apply Rle_trans with l1; [|exact Hl1].
  assert (H2 := is_integral_change _ l1 (Finite 0) oo (Finite 0) (Finite 1)
                  (fun t => t * hq (1 / 2) t)
                  (fun t => (1 - 2 * (1 / 2)) * hq (1 / 2) t + 2 * (1 / 2) * hq (1 / 2 + 1) t)
                  H1 nonempty_0_oo).
  lapply H2; [clear H2; intros H2 | intros x _; apply x_hq_derivative].
  lapply H2; [clear H2; intros H2 |].
  2:{ intros x [Hx _]. simpl in Hx. destruct (x_hq_half_inside x Hx). split; simpl; assumption. }
  lapply H2; [clear H2; intros H2 |].
  2:{ intros c' Hc'. simpl in Hc'. exists c'. split; [exact Hc'|].
      intros x Hx Hxc. simpl in Hx.
      assert (Hh := hq_le_1 (1 / 2) x ltac:(lra)). assert (Hp := hq_pos (1 / 2) x). nra. }
  lapply H2; [clear H2; intros H2 |].
  2:{ intros c' Hc'. simpl in Hc'.
      destruct (x_hq_half_tends_oo (1 - c') ltac:(lra)) as [c [_ Hcx]].
      exists c. split; [exact I|]. intros x _ Hx.
      specialize (Hcx x I Hx). apply Rabs_def2 in Hcx. lra. }
  refine (is_integral_le (hq (INR n + 3 / 2)) _ (Finite 0) oo _ _ nonempty_0_oo
            _ (is_integral_hq_even n) H2).
  intros x [Hx _]. simpl in Hx. cbv beta.
  rewrite scaled_gauss by lra.
  replace ((1 - 2 * (1 / 2)) * hq (1 / 2) x + 2 * (1 / 2) * hq (1 / 2 + 1) x)
    with (hq (3 / 2) x) by (replace (1 / 2 + 1) with (3 / 2) by field; field).
  rewrite hq_plus.
  replace (INR n) with (INR n * 1) at 1 by ring. rewrite <- hq_pow.
  apply Rmult_le_compat_r; [left; apply hq_pos|].
  rewrite x_hq_half_sqr.
  replace (- (INR n * (1 - hq 1 x))) with (INR n * (- (1 - hq 1 x))) by ring.
  rewrite <- exp_pow.
  apply pow_incr. split; [left; apply hq_pos|].
  assert (He := exp_ineq1_le (- (1 - hq 1 x))). lra.
Qed.

(** ** The value of the Gaussian integral *)

Lemma gauss_sqr_bounds n l :
  is_integral gauss (Finite 0) oo l ->
  INR (S n) * (PI / 2) / (2 * INR (S n) + 2) <= l ^ 2 <=
  (INR (S n) + 2) * (PI / 2) / (2 * INR (S n) + 2).
Proof.
  intros H.
  set (m := S n).
  assert (Hm : 1 <= INR m) by (unfold m; rewrite S_INR; assert (X := pos_INR n); lra).
  assert (Hl0 : 0 <= l).
  { apply (is_integral_nonneg gauss (Finite 0) oo l nonempty_0_oo); [|exact H].
    intros x _. left. apply gauss_pos. }
  assert (HL := gauss_lower m l ltac:(unfold m; lia) H).
  assert (HU := gauss_upper (S m) l H).
  assert (Hc : 0 < sqrt (INR m)) by (apply sqrt_lt_R0; lra).
  assert (Hc2 : sqrt (INR m) * sqrt (INR m) = INR m) by (apply sqrt_sqrt; lra).
  assert (Hd : 0 < sqrt (INR (S (S m)))).
  { apply sqrt_lt_R0. rewrite !S_INR. lra. }
  assert (Hd2 : sqrt (INR (S (S m))) * sqrt (INR (S (S m))) = INR m + 2).
  { rewrite sqrt_sqrt; rewrite !S_INR; lra. }
  assert (Ha := wallis_even_pos m). assert (Hb := wallis_odd_pos m).
  assert (Hb' := wallis_odd_pos (S m)).
  assert (Hab := wallis_odd_le_even m).
  assert (Hprod := wallis_product m).
  assert (HbS := wallis_odd_S m). rewrite S_INR in HbS.
  assert (HPI := PI_RGT_0).
  set (a := wallis_even m) in *. set (b := wallis_odd m) in *.
  set (b' := wallis_odd (S m)) in *.
  set (c := sqrt (INR m)) in *. set (d := sqrt (INR (S (S m)))) in *.
  set (N := INR m) in *. set (P := PI / 2) in *.
  assert (HP : 0 < P) by (unfold P; lra).
  (* a * (P * b') = P / (2 N + 2) *)
  assert (Hkey : a * (P * b') = P / (2 * N + 2)).
  { rewrite HbS.
    transitivity (P * (a * b) * ((2 * (N + 1) - 1) / (2 * (N + 1)))); [ring|].
    rewrite Hprod. field. lra. }
  assert (HL' : c * a <= l).
  { apply (Rmult_le_compat_l c) in HL; [|lra].
    replace (c * (l / c)) with l in HL by (field; lra). exact HL. }
  assert (HU' : l <= d * (P * b')).
  { apply (Rmult_le_compat_l d) in HU; [|lra].
    replace (d * (l / d)) with l in HU by (field; lra). exact HU. }
  split.
  - apply Rle_trans with ((c * a) ^ 2).
    + replace ((c * a) ^ 2) with (N * (a * a)) by (rewrite <- Hc2; ring).
      replace (N * P / (2 * N + 2)) with (N * (a * (P * b'))).
      * apply Rmult_le_compat_l; [lra|]. apply Rmult_le_compat_l; [lra | exact Hab].
      * rewrite Hkey. field. lra.
    + apply pow_incr. split; [|exact HL'].
      apply Rmult_le_pos; lra.
  - apply Rle_trans with ((d * (P * b')) ^ 2).
    + apply pow_incr. split; assumption.
    + replace ((d * (P * b')) ^ 2) with ((N + 2) * ((P * b') * (P * b')))
        by (rewrite <- Hd2; ring).
      apply Rle_trans with ((N + 2) * (a * (P * b'))).
      * apply Rmult_le_compat_l; [lra|]. apply Rmult_le_compat_r; [|exact Hab].
        apply Rmult_le_pos; lra.
      * rewrite Hkey. right. field. lra.
Qed.

Lemma gauss_sqr l : is_integral gauss (Finite 0) oo l -> l ^ 2 = PI / 4.
Proof.
  intros H.
  assert (HPI := PI_RGT_0).
  destruct (Req_dec (l ^ 2) (PI / 4)) as [E | NE]; [exact E | exfalso].
  assert (He : 0 < Rabs (l ^ 2 - PI / 4)) by (apply Rabs_pos_lt; lra).
  set (eps := Rabs (l ^ 2 - PI / 4)) in *.
  destruct (archimed_cor1 (eps / PI)) as [N [HN HN0]].
  { apply Rdiv_lt_0_compat; lra. }
  destruct N as [|n]; [lia|].
  assert (Hb := gauss_sqr_bounds n l H).
  assert (Hn : 1 <= INR (S n)) by (rewrite S_INR; assert (X := pos_INR n); lra).
  set (M := INR (S n)) in *.
  assert (Hsmall : PI / 2 / (2 * M + 2) < eps).
  { apply Rlt_trans with (PI * / M).
    - apply (Rmult_lt_reg_r (M * (2 * M + 2))); [nra|].
      replace (PI / 2 / (2 * M + 2) * (M * (2 * M + 2))) with (PI / 2 * M) by (field; lra).
      replace (PI * / M * (M * (2 * M + 2))) with (PI * (2 * M + 2)) by (field; lra).
      nra.
    - apply (Rmult_lt_compat_l PI) in HN; [|lra].
      replace (PI * (eps / PI)) with eps in HN by (field; lra). exact HN. }
  assert (E1 : M * (PI / 2) / (2 * M + 2) = PI / 4 - PI / 2 / (2 * M + 2)) by (field; lra).
  assert (E2 : (M + 2) * (PI / 2) / (2 * M + 2) = PI / 4 + PI / 2 / (2 * M + 2)) by (field; lra).
  rewrite E1, E2 in Hb.
  assert (Habs : Rabs (l ^ 2 - PI / 4) <= PI / 2 / (2 * M + 2)).
  { apply Rabs_le. lra. }
  fold eps in Habs. lra.
Qed.

Lemma sqrt_PI_4 : sqrt (PI / 4) = sqrt PI / 2.
Proof.
  assert (HPI := PI_RGT_0).
  rewrite sqrt_div by lra. f_equal.
  replace 4 with (2 * 2) by ring. apply sqrt_square. lra.
Qed.

Lemma primitive_is_integral E f l :
  (forall x, derivable_pt_lim E x (f x)) -> E 0 = 0 -> tends_upper oo E l ->
  is_integral f (Finite 0) oo l.
Proof.
  intros HE E0 Hl.
  exists E, 0, l. split; [|split; [|split; [|ring]]].
  - intros x _. apply HE.
  - assert (X := tends_lower_continuous 0 E).
    rewrite E0 in X. apply X.
    eapply derivable_continuity_pt. apply HE.
  - exact Hl.
Qed.

Theorem is_integral_gauss : is_integral gauss (Finite 0) oo (sqrt PI / 2).
Proof.
  destruct gauss_primitive as (E & l & HE & E0 & Hl & Hl0).
  assert (H := primitive_is_integral E gauss l HE E0 Hl).
  assert (Hs := gauss_sqr l H).
  replace (sqrt PI / 2) with l; [exact H|].
  rewrite <- sqrt_PI_4, <- Hs. symmetry. apply sqrt_pow2. exact Hl0.
Qed.

(** The whole line: [integral of exp(-x^2) over (-oo, oo) = sqrt pi]. *)
Theorem is_integral_gauss_line : is_integral gauss MInf oo (sqrt PI).
Proof.
  destruct gauss_primitive as (E & l & HE & E0 & Hl & Hl0).
  assert (H := primitive_is_integral E gauss l HE E0 Hl).
  assert (Hv : l = sqrt PI / 2).
  { apply (is_integral_unique gauss (Finite 0) oo); [apply nonempty_0_oo | exact H |].
    exact is_integral_gauss. }
  assert (Hodd : forall x, E (- x) = - E x).
  { intros x.
    assert (Hc := antiderivative_diff_const MInf oo E (fun y => - E (- y)) gauss x 0).
    lapply Hc; [clear Hc; intros Hc | intros y _; apply HE].
    lapply Hc; [clear Hc; intros Hc |].
    2:{ intros y _.
        assert (Hd := derivable_pt_lim_comp (fun y => - y) E y (-1) (gauss (- y))).
        lapply Hd; [clear Hd; intros Hd |].
        2:{ replace (-1) with (- 1) by ring.
            apply (derivable_pt_lim_opp id). apply derivable_pt_lim_id. }
        specialize (Hd (HE (- y))).
        apply (derivable_pt_lim_opp (fun y => E (- y))) in Hd.
        replace (gauss y) with (- (gauss (- y) * -1)).
        - exact Hd.
        - unfold gauss. replace (- (- y) ^ 2) with (- y ^ 2) by ring. ring. }
    specialize (Hc (conj I I) (conj I I)). cbv beta in Hc.
    rewrite Ropp_0, E0 in Hc. lra. }
  exists E, (- l), l. split; [|split; [|split; [|lra]]].
  - intros x _. apply HE.
  - intros eps He. destruct (Hl eps He) as [c [_ Hc]].
    exists (- c). split; [exact I|]. intros x _ Hx.
    specialize (Hc (- x) I ltac:(lra)). rewrite Hodd in Hc.
    rewrite <- Rabs_Ropp. replace (- (E x - - l)) with (- E x - l) by ring. exact Hc.
  - exact Hl.
Qed.

(** ** Gaussian integrals with shift and scale *)

Lemma Rpower_0_5 x : 0 < x -> Rpower x 0.5 = sqrt x.
Proof.
  intros Hx. replace 0.5 with (/ 2) by lra. apply Rpower_sqrt. exact Hx.
Qed.

Lemma Rpower_1_5 x : 0 < x -> Rpower x 1.5 = x * sqrt x.
Proof.
  intros Hx. replace 1.5 with (1 + / 2) by lra.
  rewrite Rpower_plus, Rpower_1, Rpower_sqrt by exact Hx. reflexivity.
Qed.

Lemma is_integral_gauss_affine m s :
  0 < s ->
  is_integral (fun x => exp (- (x - m) ^ 2 / (4 * s))) MInf oo (2 * sqrt s * sqrt PI).
Proof.
  intros Hs.
  assert (Hc : 0 < sqrt s) by (apply sqrt_lt_R0; exact Hs).
  assert (Hc2 : sqrt s * sqrt s = s) by (apply sqrt_sqrt; lra).
  set (c := sqrt s) in *.
  apply (is_integral_ext (fun x => 2 * c * (gauss ((x - m) / (2 * c)) * / (2 * c)))).
  { intros x _. unfold gauss.
    replace (- ((x - m) / (2 * c)) ^ 2) with (- (x - m) ^ 2 / (4 * s)).
    - field. lra.
    - rewrite <- Hc2. field. lra. }
  replace (2 * c * sqrt PI) with (2 * c * sqrt PI) by ring.
  apply is_integral_scal.
  apply (is_integral_change gauss (sqrt PI) MInf oo MInf oo
           (fun x => (x - m) / (2 * c)) (fun _ => / (2 * c))).
  - exact is_integral_gauss_line.
  - apply nonempty_moo_oo.
  - intros x _.
    assert (Hd : derivable_pt_lim (fun x => (x + - m) * / (2 * c)) x ((1 + 0) * / (2 * c))).
    { apply (derivable_pt_lim_scal_right (fun x => x + - m)).
      apply (derivable_pt_lim_plus id (fun _ => - m)).
      - apply derivable_pt_lim_id.
      - apply derivable_pt_lim_const. }
    replace ((1 + 0) * / (2 * c)) with (/ (2 * c)) in Hd by ring.
    exact Hd.
  - intros x _. split; exact I.
  - intros c' _. exists (2 * c * c' + m). split; [exact I|].
    intros x _ Hx.
    apply (Rmult_lt_reg_r (2 * c)); [lra|].
    replace ((x - m) / (2 * c) * (2 * c)) with (x - m) by (field; lra). lra.
  - intros c' _. exists (2 * c * c' + m). split; [exact I|].
    intros x _ Hx.
    apply (Rmult_lt_reg_r (2 * c)); [lra|].
    replace ((x - m) / (2 * c) * (2 * c)) with (x - m) by (field; lra). lra.
Qed.

(** The moments of the log-normal density in the variable [x]. *)
Lemma is_integral_lognormal k s :
  0 < s ->
  is_integral (fun x => exp (- (x + 2 * s) ^ 2 / (4 * s)) * exp x ^ k) MInf oo
    (2 * sqrt s * sqrt PI * exp ((INR k * INR k - 2 * INR k) * s)).
Proof.
  intros Hs.
  apply (is_integral_ext
    (fun x => exp ((INR k * INR k - 2 * INR k) * s)
              * exp (- (x - (2 * INR k - 2) * s) ^ 2 / (4 * s)))).
  { intros x _. rewrite exp_pow, <- !exp_plus. f_equal.
    generalize (INR k). intros K. field_simplify_eq; [ring | lra]. }
  rewrite (Rmult_comm _ (exp _)).
  apply is_integral_scal. apply is_integral_gauss_affine. exact Hs.
Qed.

Lemma full_Lundgren_moment k r0 T t :
  0 < r0 -> 0 < T -> 0 < t ->
  2 * PI * integrate (fun x => FullLundgren.p r0 T t x * (r0 * exp x) ^ k) MInf oo
  = r0 ^ k / r0 ^ 2 * exp ((INR k * INR k - 2 * INR k) * (t / T)).
Proof.
  intros Hr0 HT Ht.
  assert (Hs : 0 < t / T) by (apply Rdiv_lt_0_compat; assumption).
  assert (HPI := PI_RGT_0).
  assert (Hq : 0 < sqrt PI) by (apply sqrt_lt_R0; exact HPI).
  assert (Hq2 : sqrt PI * sqrt PI = PI) by (apply sqrt_sqrt; lra).
  assert (Hc : 0 < sqrt (t / T)) by (apply sqrt_lt_R0; exact Hs).
  assert (Hrk : 0 < r0 ^ k) by (apply pow_lt; exact Hr0).
  rewrite (integrate_eq _ MInf oo
    (r0 ^ k / (4 * (PI * sqrt PI) * r0 ^ 2 * sqrt (t / T))
     * (2 * sqrt (t / T) * sqrt PI * exp ((INR k * INR k - 2 * INR k) * (t / T))))).
  - set (q := sqrt PI) in *. rewrite <- Hq2.
    set (E := exp _). set (c := sqrt _) in *. set (rk := r0 ^ k) in *.
    field. repeat split; lra.
  - apply nonempty_moo_oo.
  - apply (is_integral_ext
      (fun x => r0 ^ k / (4 * (PI * sqrt PI) * r0 ^ 2 * sqrt (t / T))
                * (exp (- (x + 2 * (t / T)) ^ 2 / (4 * (t / T))) * exp x ^ k))).
    + intros x _. unfold FullLundgren.p.
      rewrite Rpower_1_5, Rpower_0_5 by assumption.
      rewrite Rpow_mult_distr.
      set (c := sqrt _) in *. set (rk := r0 ^ k) in *. set (ek := exp x ^ k).
      field. repeat split; lra.
    + apply is_integral_scal. apply is_integral_lognormal. exact Hs.
Qed.

Lemma full_Lundgren_ra r0 T t :
  0 < r0 -> 0 < T -> 0 < t -> FullLundgren.ra r0 T t = 1.
Proof.
  intros Hr0 HT Ht. unfold FullLundgren.ra.
  rewrite (full_Lundgren_moment 2) by assumption.
  simpl INR. replace (((1 + 1) * (1 + 1) - 2 * (1 + 1)) * (t / T)) with 0 by (field; lra).
  rewrite exp_0. field. lra.
Qed.

Lemma full_Lundgren_r2 r0 T t :
  0 < r0 -> 0 < T -> 0 < t -> FullLundgren.r2 r0 T t = r0 ^ 2 * exp (8 * t / T).
Proof.
  intros Hr0 HT Ht. unfold FullLundgren.r2.
  rewrite (full_Lundgren_moment 4) by assumption.
  replace ((INR 4 * INR 4 - 2 * INR 4) * (t / T)) with (8 * t / T) by (simpl; field; lra).
  field. lra.
Qed.

Lemma full_Lundgren_r4 r0 T t :
  0 < r0 -> 0 < T -> 0 < t -> FullLundgren.r4 r0 T t = r0 ^ 4 * exp (24 * t / T).
Proof.
  intros Hr0 HT Ht. unfold FullLundgren.r4.
  rewrite (full_Lundgren_moment 6) by assumption.
  replace ((INR 6 * INR 6 - 2 * INR 6) * (t / T)) with (24 * t / T) by (simpl; field; lra).
  field. lra.
Qed.

Lemma full_Lundgren_Ku r0 T t :
  0 < r0 -> 0 < T -> 0 < t -> FullLundgren.Ku r0 T t = exp (8 * t / T).
Proof.
  intros Hr0 HT Ht. unfold FullLundgren.Ku.
  rewrite full_Lundgren_r2, full_Lundgren_r4 by assumption.
  assert (He := exp_pos (8 * t / T)).
  assert (Hr := pow_lt r0 2 Hr0).
  rewrite Rpower_2 by (apply Rmult_lt_0_compat; assumption).
  replace (24 * t / T) with (8 * t / T + (8 * t / T + 8 * t / T)) by (field; lra).
  rewrite !exp_plus. field. split; lra.
Qed.

Lemma full_Lundgren_K2 r0 T t :
  0 < r0 -> 0 < T -> 0 < t ->
  FullLundgren.K2 r0 T t = 4 * r0 ^ 2 * exp (8 * t / T) / T.
Proof.
  intros Hr0 HT Ht. unfold FullLundgren.K2.
  rewrite (diff_locally _ (fun t => r0 ^ 2 * exp (8 / T * t)) t
             (r0 ^ 2 * (exp (8 / T * t) * (8 / T))) (t / 2) (t + 1)).
  - replace (8 / T * t) with (8 * t / T) by (field; lra). field. lra.
  - lra.
  - intros z Hz. rewrite full_Lundgren_r2 by lra.
    f_equal. f_equal. field. lra.
  - apply (derivable_pt_lim_scal (fun t => exp (8 / T * t))).
    apply (derivable_pt_lim_comp (fun t => 8 / T * t) exp).
    + assert (Hd := derivable_pt_lim_scal id (8 / T) t 1 (derivable_pt_lim_id t)).
      rewrite Rmult_1_r in Hd. exact Hd.
    + apply derivable_pt_lim_exp.
Qed.

(** The raw-radius density: the substitution [x = ln r]. *)
Lemma full_Lundgren_raw_is_integral t :
  0 < t ->
  is_integral (fun r => FullLundgrenRaw.p t r * r) (Finite 0) oo (/ (2 * PI)).
Proof.
  intros Ht.
  assert (HPI := PI_RGT_0).
  assert (Hq : 0 < sqrt PI) by (apply sqrt_lt_R0; exact HPI).
  assert (Hq2 : sqrt PI * sqrt PI = PI) by (apply sqrt_sqrt; lra).
  assert (Hc : 0 < sqrt t) by (apply sqrt_lt_R0; exact Ht).
  assert (H := is_integral_lognormal 2 t Ht).
  simpl INR in H.
  replace (((1 + 1) * (1 + 1) - 2 * (1 + 1)) * t) with 0 in H by ring.
  rewrite exp_0, Rmult_1_r in H.
  apply (is_integral_scal _ _ _ _ (/ (4 * (PI * sqrt PI) * sqrt t))) in H.
  replace (/ (4 * (PI * sqrt PI) * sqrt t) * (2 * sqrt t * sqrt PI)) with (/ (2 * PI)) in H.
  2:{ set (q := sqrt PI) in *. rewrite <- Hq2. field. repeat split; lra. }
  apply (is_integral_change _ _ (Finite 0) oo MInf oo ln (fun r => / r)) in H.
  - revert H. apply is_integral_ext.
    intros r [Hr _]. simpl in Hr. unfold FullLundgrenRaw.p.
    rewrite Rpower_1_5, Rpower_0_5 by assumption.
    rewrite exp_ln by exact Hr. field. repeat split; lra.
  - apply nonempty_0_oo.
  - intros r [Hr _]. simpl in Hr. apply derivable_pt_lim_ln. exact Hr.
  - intros r _. split; exact I.
  - intros c' _. exists (exp c'). split; [simpl; apply exp_pos|].
    intros x Hx Hxc. simpl in Hx.
    rewrite <- (ln_exp c'). apply ln_increasing; assumption.
  - intros c' _. exists (exp c'). split; [exact I|].
    intros x _ Hxc. rewrite <- (ln_exp c') at 1.
    apply ln_increasing; [apply exp_pos | exact Hxc].
Qed.

Lemma full_Lundgren_raw_ra t : 0 < t -> FullLundgrenRaw.ra t = 1.
Proof.
  intros Ht. unfold FullLundgrenRaw.ra.
  rewrite (integrate_eq _ _ _ _ nonempty_0_oo (full_Lundgren_raw_is_integral t Ht)).
  field. assert (HPI := PI_RGT_0). lra.
Qed.

(** ** Sums of [w^k / k!] against a polynomial in [k] *)

Lemma falling_S x j : falling x (S j) = falling x j * (x - INR j).
Proof. reflexivity. Qed.

Lemma falling_succ x j : falling (x + 1) (S j) = (x + 1) * falling x j.
Proof.
  induction j as [|j IH].
  - simpl. ring.
  - rewrite falling_S, IH, (falling_S x j), S_INR. ring.
Qed.

Lemma falling_0 j : falling 0 (S j) = 0.
Proof.
  induction j as [|j IH].
  - simpl. ring.
  - rewrite falling_S, IH. ring.
Qed.

Lemma exp_series_falling w j :
  infinite_sum (fun k => w ^ k / INR (fact k) * falling (INR k) j) (w ^ j * exp w).
Proof.
  induction j as [|j IH].
  - apply (infinite_sum_ext (fun k => w ^ k / INR (fact k))).
    + intros k. simpl. ring.
    + rewrite pow_O, Rmult_1_l. apply exp_series.
  - apply (infinite_sum_ext
             (fun k => match k with
                       | O => 0
                       | S i => w * (w ^ i / INR (fact i) * falling (INR i) j)
                       end)).
    + intros [|i].
      * change (INR 0) with 0. rewrite falling_0. ring.
      * rewrite S_INR, falling_succ, fact_simpl, mult_INR, S_INR.
        assert (H1 := INR_fact_pos i). assert (H2 := pos_INR i).
        simpl pow. field. split; lra.
    + replace (w ^ S j * exp w) with (0 + w * (w ^ j * exp w)) by (simpl; ring).
      apply infinite_sum_cons. apply infinite_sum_scal. exact IH.
Qed.

(** The fourth moment of the full diffusive regime: [(k+1)(k+2)]. *)
Lemma bessel_sum_0_2 w :
  infinite_sum (fun k => w ^ k / (INR (fact k) * INR (fact (k + 0))) * INR (fact (k + 2)))
    ((w ^ 2 + 4 * w + 2) * exp w).
Proof.
  apply (infinite_sum_ext
           (fun k => w ^ k / INR (fact k) * falling (INR k) 2
                     + (4 * (w ^ k / INR (fact k) * falling (INR k) 1)
                        + 2 * (w ^ k / INR (fact k) * falling (INR k) 0)))).
  - intros k. assert (H1 := INR_fact_pos k).
    replace (k + 0)%nat with k by lia. replace (k + 2)%nat with (S (S k)) by lia.
    rewrite !fact_simpl, !mult_INR, !S_INR. simpl falling. simpl INR.
    field. lra.
  - replace ((w ^ 2 + 4 * w + 2) * exp w)
      with (w ^ 2 * exp w + (4 * (w ^ 1 * exp w) + 2 * (w ^ 0 * exp w))) by ring.
    repeat first [apply infinite_sum_plus | apply infinite_sum_scal | apply exp_series_falling].
Qed.

(** The second moment of the generalized full regime: [(k+2)(k+3)]. *)
Lemma bessel_sum_1_3 w :
  infinite_sum (fun k => w ^ k / (INR (fact k) * INR (fact (k + 1))) * INR (fact (k + 3)))
    ((w ^ 2 + 6 * w + 6) * exp w).
Proof.
  apply (infinite_sum_ext
           (fun k => w ^ k / INR (fact k) * falling (INR k) 2
                     + (6 * (w ^ k / INR (fact k) * falling (INR k) 1)
                        + 6 * (w ^ k / INR (fact k) * falling (INR k) 0)))).
  - intros k. assert (H1 := INR_fact_pos k). assert (H2 := INR_fact_pos (k + 1)).
    replace (k + 3)%nat with (S (S (k + 1))) by lia.
    rewrite !fact_simpl, !mult_INR, !S_INR, plus_INR. simpl falling. simpl INR.
    field. lra.
  - replace ((w ^ 2 + 6 * w + 6) * exp w)
      with (w ^ 2 * exp w + (6 * (w ^ 1 * exp w) + 6 * (w ^ 0 * exp w))) by ring.
    repeat first [apply infinite_sum_plus | apply infinite_sum_scal | apply exp_series_falling].
Qed.

(** The second moment of the full Richardson regime: [(k+3)(k+4)(k+5)]. *)
Lemma bessel_sum_2_5 w :
  infinite_sum (fun k => w ^ k / (INR (fact k) * INR (fact (k + 2))) * INR (fact (k + 5)))
    ((w ^ 3 + 15 * w ^ 2 + 60 * w + 60) * exp w).
Proof.
  apply (infinite_sum_ext
           (fun k => w ^ k / INR (fact k) * falling (INR k) 3
                     + (15 * (w ^ k / INR (fact k) * falling (INR k) 2)
                        + (60 * (w ^ k / INR (fact k) * falling (INR k) 1)
                           + 60 * (w ^ k / INR (fact k) * falling (INR k) 0))))).
  - intros k. assert (H1 := INR_fact_pos k). assert (H2 := INR_fact_pos (k + 2)).
    replace (k + 5)%nat with (S (S (S (k + 2)))) by lia.
    rewrite !fact_simpl, !mult_INR, !S_INR, plus_INR. simpl falling. simpl INR.
    field. lra.
  - replace ((w ^ 3 + 15 * w ^ 2 + 60 * w + 60) * exp w)
      with (w ^ 3 * exp w + (15 * (w ^ 2 * exp w) + (60 * (w ^ 1 * exp w) + 60 * (w ^ 0 * exp w))))
      by ring.
    repeat first [apply infinite_sum_plus | apply infinite_sum_scal | apply exp_series_falling].
Qed.

(** The second moment of the full Garrett-Munk regime:
    [(k+4)(k+5)(k+6)(k+7)]. *)
Lemma bessel_sum_3_7 w :
  infinite_sum (fun k => w ^ k / (INR (fact k) * INR (fact (k + 3))) * INR (fact (k + 7)))
    ((w ^ 4 + 28 * w ^ 3 + 252 * w ^ 2 + 840 * w + 840) * exp w).
Proof.
  apply (infinite_sum_ext
           (fun k => w ^ k / INR (fact k) * falling (INR k) 4
                     + (28 * (w ^ k / INR (fact k) * falling (INR k) 3)
                        + (252 * (w ^ k / INR (fact k) * falling (INR k) 2)
                           + (840 * (w ^ k / INR (fact k) * falling (INR k) 1)
                              + 840 * (w ^ k / INR (fact k) * falling (INR k) 0)))))).
  - intros k. assert (H1 := INR_fact_pos k). assert (H2 := INR_fact_pos (k + 3)).
    replace (k + 7)%nat with (S (S (S (S (k + 3))))) by lia.
    rewrite !fact_simpl, !mult_INR, !S_INR, plus_INR. simpl falling. simpl INR.
    field. lra.
  - replace ((w ^ 4 + 28 * w ^ 3 + 252 * w ^ 2 + 840 * w + 840) * exp w)
      with (w ^ 4 * exp w + (28 * (w ^ 3 * exp w) + (252 * (w ^ 2 * exp w)
            + (840 * (w ^ 1 * exp w) + 840 * (w ^ 0 * exp w))))) by ring.
    repeat first [apply infinite_sum_plus | apply infinite_sum_scal | apply exp_series_falling].
Qed.

(** ** Higher moments of the full regimes *)

Lemma tends_lower_const lo c : (exists x, above lo x) -> tends_lower lo (fun _ => c) c.
Proof.
  intros [x Hx] eps He. exists x. split; [exact Hx|].
  intros y _ _. rewrite Rminus_diag, Rabs_R0. exact He.
Qed.

Lemma full_diffusive_r4 k2 t r0 :
  0 < k2 -> 0 < t -> 0 < r0 ->
  FullDiffusive.r4 k2 t r0 = 32 * k2 ^ 2 * t ^ 2 + 16 * k2 * r0 ^ 2 * t + r0 ^ 4.
Proof.
  intros Hk Ht Hr0. unfold FullDiffusive.r4. assert (HPI := PI_RGT_0).
  rewrite (integrate_0_oo_eq _ _ _
             ((32 * k2 ^ 2 * t ^ 2 + 16 * k2 * r0 ^ 2 * t + r0 ^ 4) / (2 * PI))
             (full_diffusive_is_integral k2 t r0 2 _ Hk Ht Hr0 (bessel_sum_0_2 _))).
  - field. lra.
  - intros r _. reflexivity.
  - rewrite exp_Ropp.
    match goal with |- context [exp ?x] => assert (He := exp_pos x); set (E := exp x) in * end.
    field. repeat split; lra.
Qed.

Lemma full_diffusive_Ku k2 t r0 :
  0 < k2 -> 0 < t -> 0 < r0 ->
  FullDiffusive.Ku k2 t r0
  = (32 * k2 ^ 2 * t ^ 2 + 16 * k2 * r0 ^ 2 * t + r0 ^ 4) / (4 * k2 * t + r0 ^ 2) ^ 2.
Proof.
  intros Hk Ht Hr0. unfold FullDiffusive.Ku.
  rewrite full_diffusive_r4, full_diffusive_r2 by assumption.
  rewrite Rpower_2; [reflexivity|]. nra.
Qed.

Lemma full_diffusive_K2 k2 t r0 :
  0 < k2 -> 0 < t -> 0 < r0 -> FullDiffusive.K2 k2 t r0 = 2 * k2.
Proof.
  intros Hk Ht Hr0. unfold FullDiffusive.K2.
  rewrite (diff_locally _ (fun t => 4 * k2 * t + r0 ^ 2) t (4 * k2 * 1 + 0) (t / 2) (t + 1)).
  - field.
  - lra.
  - intros z Hz. symmetry. apply full_diffusive_r2; lra.
  - apply (derivable_pt_lim_plus (fun t => 4 * k2 * t) (fun _ => r0 ^ 2)).
    + apply (derivable_pt_lim_scal id (4 * k2)). apply derivable_pt_lim_id.
    + apply derivable_pt_lim_const.
Qed.

(** *** Full Garrett-Munk regime *)

Lemma full_GM_is_integral_r2 lmbd t r0 :
  0 < lmbd -> 0 < t -> 0 < r0 ->
  is_integral (fun r => FullGM.p lmbd t r0 r * r ^ 3) (Finite 0) oo
    ((r0 ^ 2 + 7 * (lmbd * t) * Rpower r0 (3 / 2) + 63 / 4 * (lmbd * t) ^ 2 * r0
      + 105 / 8 * (lmbd * t) ^ 3 * Rpower r0 (1 / 2) + 105 / 32 * (lmbd * t) ^ 4)
     / (2 * PI)).
Proof.
  intros Hl Ht Hr0.
  assert (HPI := PI_RGT_0).
  assert (Hlt : 0 < lmbd * t) by nra.
  assert (HA : 0 < 4 / (lmbd * t)) by (apply Rdiv_lt_0_compat; lra).
  assert (Hu0 : 0 <= 4 / (lmbd * t) * Rpower r0 (1 / 2)).
  { apply Rmult_le_pos; [lra | left; apply Rpower_pos]. }
  assert (Hint := is_integral_subst_power _ _ (4 / (lmbd * t)) (1 / 2) HA ltac:(lra)
                    (is_integral_bessel_core 3 7 _ _ Hu0 (bessel_sum_3_7 _))).
  apply (is_integral_scal _ _ _ _
           (/ (2 * PI) * exp (- (4 / (lmbd * t) * Rpower r0 (1 / 2)))
            / (4 / (lmbd * t)) ^ 4)) in Hint.
  match type of Hint with is_integral _ _ _ ?v =>
    replace v with
      ((r0 ^ 2 + 7 * (lmbd * t) * Rpower r0 (3 / 2) + 63 / 4 * (lmbd * t) ^ 2 * r0
        + 105 / 8 * (lmbd * t) ^ 3 * Rpower r0 (1 / 2) + 105 / 32 * (lmbd * t) ^ 4)
       / (2 * PI)) in Hint
  end.
  2:{ rewrite exp_Ropp.
      assert (E3 : Rpower r0 (3 / 2) = Rpower r0 (1 / 2) * Rpower r0 (1 / 2) * Rpower r0 (1 / 2)).
      { rewrite <- !Rpower_plus. f_equal. field. }
      rewrite E3. assert (Es := Rpower_half_sqr r0 Hr0).
      assert (Hs : 0 < Rpower r0 (1 / 2)) by apply Rpower_pos.
      set (s := Rpower r0 (1 / 2)) in *. clearbody s. subst r0.
      match goal with |- context [exp ?x] => assert (He := exp_pos x); set (E := exp x) in * end.
      field. repeat split; lra. }
  eapply is_integral_ext; [|exact Hint].
  intros r [Hr _]. simpl in Hr. cbv beta.
  replace (FullGM.p lmbd t r0 r * r ^ 3) with (FullGM.p lmbd t r0 r * r * r ^ 2) by ring.
  rewrite (full_GM_p lmbd t r0 r Hl Ht Hr0 Hr).
  assert (Es := Rpower_half_sqr r Hr).
  assert (Hs : 0 < Rpower r (1 / 2)) by apply Rpower_pos.
  assert (Er : r ^ 2 = Rpower r (1 / 2) ^ 4) by (rewrite <- Es at 1; ring).
  rewrite Er.
  set (s := Rpower r (1 / 2)) in *.
  set (B := bessel_core _ _). set (e1 := exp _). set (e2 := exp _).
  set (d := Rpower r _).
  field. repeat split; lra.
Qed.

Lemma full_GM_r2 lmbd t r0 :
  0 < lmbd -> 0 < t -> 0 < r0 ->
  FullGM.r2 lmbd t r0
  = r0 ^ 2 + 7 * (lmbd * t) * Rpower r0 (3 / 2) + 63 / 4 * (lmbd * t) ^ 2 * r0
    + 105 / 8 * (lmbd * t) ^ 3 * Rpower r0 (1 / 2) + 105 / 32 * (lmbd * t) ^ 4.
Proof.
  intros Hl Ht Hr0. unfold FullGM.r2. assert (HPI := PI_RGT_0).
  rewrite (integrate_eq _ _ _ _ nonempty_0_oo (full_GM_is_integral_r2 lmbd t r0 Hl Ht Hr0)).
  field. lra.
Qed.

Lemma tends_lower_poly_rpower c0 c1 c2 d1 q1 d2 q2 :
  0 < q1 -> 0 < q2 ->
  tends_lower (Finite 0)
    (fun x => c2 * x ^ 2 + c1 * x + c0 + d1 * Rpower x q1 + d2 * Rpower x q2) c0.
Proof.
  intros H1 H2.
  assert (H : tends_lower (Finite 0)
                (fun x => c2 * x ^ 2 + c1 * x + c0 + d1 * Rpower x q1 + d2 * Rpower x q2)
                (c0 + d1 * 0 + d2 * 0)).
  2:{ replace (c0 + d1 * 0 + d2 * 0) with c0 in H by ring. exact H. }
  apply (tends_lower_plus _ (fun x => c2 * x ^ 2 + c1 * x + c0 + d1 * Rpower x q1)
           (fun x => d2 * Rpower x q2));
    [apply (tends_lower_plus _ (fun x => c2 * x ^ 2 + c1 * x + c0)
              (fun x => d1 * Rpower x q1))|].
  - assert (Hc : continuity_pt (fun x => c2 * x ^ 2 + c1 * x + c0) 0).
    { apply derivable_continuity_pt with (c2 * (INR 2 * 0 ^ pred 2) + c1 * 1 + 0).
      apply (derivable_pt_lim_plus (fun x => c2 * x ^ 2 + c1 * x) (fun _ => c0)).
      - apply (derivable_pt_lim_plus (fun x => c2 * x ^ 2) (fun x => c1 * x)).
        + apply (derivable_pt_lim_scal (fun x => x ^ 2) c2). apply derivable_pt_lim_pow.
        + apply (derivable_pt_lim_scal id c1). apply derivable_pt_lim_id.
      - apply derivable_pt_lim_const. }
    apply tends_lower_continuous in Hc.
    replace (c2 * 0 ^ 2 + c1 * 0 + c0) with c0 in Hc by ring. exact Hc.
  - apply tends_lower_scal. apply Rpower_tends_0. exact H1.
  - apply tends_lower_scal. apply Rpower_tends_0. exact H2.
Qed.

Lemma full_GM_r2_limit lmbd t :
  0 < lmbd -> 0 < t ->
  tends_lower (Finite 0) (fun r0 => FullGM.r2 lmbd t r0) (3.28125 * lmbd ^ 4 * t ^ 4).
Proof.
  intros Hl Ht.
  apply (tends_lower_ext (Finite 0) oo
           (fun x => 63 / 4 * (lmbd * t) ^ 2 * x ^ 2 * 0 + 1 * x ^ 2
                     + 63 / 4 * (lmbd * t) ^ 2 * x + 3.28125 * lmbd ^ 4 * t ^ 4
                     + 7 * (lmbd * t) * Rpower x (3 / 2)
                     + 105 / 8 * (lmbd * t) ^ 3 * Rpower x (1 / 2))).
  - intros x [Hx _]. simpl in Hx. rewrite full_GM_r2 by assumption.
    replace 3.28125 with (105 / 32) by lra. ring.
  - apply nonempty_0_oo.
  - apply (tends_lower_ext (Finite 0) oo
             (fun x => 1 * x ^ 2 + 63 / 4 * (lmbd * t) ^ 2 * x + 3.28125 * lmbd ^ 4 * t ^ 4
                       + 7 * (lmbd * t) * Rpower x (3 / 2)
                       + 105 / 8 * (lmbd * t) ^ 3 * Rpower x (1 / 2))).
    + intros x _. ring.
    + apply nonempty_0_oo.
    + apply tends_lower_poly_rpower; lra.
Qed.

(** *** Full Richardson regime *)

Lemma full_Richardson_is_integral_r2 beta t r0 :
  0 < beta -> 0 < t -> 0 < r0 ->
  is_integral (fun r => FullRichardson.p beta t r0 r * r ^ 3) (Finite 0) oo
    ((r0 ^ 2 + 20 / 3 * (beta * t) * Rpower r0 (4 / 3)
      + 320 / 27 * (beta * t) ^ 2 * Rpower r0 (2 / 3) + 1280 / 243 * (beta * t) ^ 3)
     / (2 * PI)).
Proof.
  intros Hb Ht Hr0.
  assert (HPI := PI_RGT_0).
  assert (Hbt : 0 < beta * t) by nra.
  assert (HA : 0 < 9 / (4 * beta * t)) by (apply Rdiv_lt_0_compat; lra).
  assert (Hu0 : 0 <= 9 / (4 * beta * t) * Rpower r0 (2 / 3)).
  { apply Rmult_le_pos; [lra | left; apply Rpower_pos]. }
  assert (Hint := is_integral_subst_power _ _ (9 / (4 * beta * t)) (2 / 3) HA ltac:(lra)
                    (is_integral_bessel_core 2 5 _ _ Hu0 (bessel_sum_2_5 _))).
  apply (is_integral_scal _ _ _ _
           (/ (2 * PI) * exp (- (9 / (4 * beta * t) * Rpower r0 (2 / 3)))
            / (9 / (4 * beta * t)) ^ 3)) in Hint.
  match type of Hint with is_integral _ _ _ ?v =>
    replace v with
      ((r0 ^ 2 + 20 / 3 * (beta * t) * Rpower r0 (4 / 3)
        + 320 / 27 * (beta * t) ^ 2 * Rpower r0 (2 / 3) + 1280 / 243 * (beta * t) ^ 3)
       / (2 * PI)) in Hint
  end.
  2:{ rewrite exp_Ropp.
      assert (E4 : Rpower r0 (4 / 3) = Rpower r0 (2 / 3) * Rpower r0 (2 / 3)).
      { rewrite <- !Rpower_plus. f_equal. field. }
      assert (E6 : r0 ^ 2 = Rpower r0 (2 / 3) * Rpower r0 (2 / 3) * Rpower r0 (2 / 3)).
      { destruct (Rpower_third r0 Hr0) as (F1 & F2). rewrite F1. rewrite F2 at 1. ring. }
      rewrite E4, E6.
      assert (Hs : 0 < Rpower r0 (2 / 3)) by apply Rpower_pos.
      set (s := Rpower r0 (2 / 3)) in *.
      match goal with |- context [exp ?x] => assert (He := exp_pos x); set (E := exp x) in * end.
      field. repeat split; lra. }
  eapply is_integral_ext; [|exact Hint].
  intros r [Hr _]. simpl in Hr. cbv beta.
  replace (FullRichardson.p beta t r0 r * r ^ 3)
    with (FullRichardson.p beta t r0 r * r * r ^ 2) by ring.
  rewrite (full_Richardson_p beta t r0 r Hb Ht Hr0 Hr).
  assert (Hs : 0 < Rpower r (2 / 3)) by apply Rpower_pos.
  assert (Er : r ^ 2 = Rpower r (2 / 3) ^ 3).
  { destruct (Rpower_third r Hr) as (F1 & F2). rewrite F1. rewrite F2 at 1. ring. }
  rewrite Er.
  set (s := Rpower r (2 / 3)) in *.
  set (B := bessel_core _ _). set (e1 := exp _). set (e2 := exp _).
  set (d := Rpower r _).
  field. repeat split; lra.
Qed.

Lemma full_Richardson_r2 beta t r0 :
  0 < beta -> 0 < t -> 0 < r0 ->
  FullRichardson.r2 beta t r0
  = r0 ^ 2 + 20 / 3 * (beta * t) * Rpower r0 (4 / 3)
    + 320 / 27 * (beta * t) ^ 2 * Rpower r0 (2 / 3) + 1280 / 243 * (beta * t) ^ 3.
Proof.
  intros Hb Ht Hr0. unfold FullRichardson.r2. assert (HPI := PI_RGT_0).
  rewrite (integrate_eq _ _ _ _ nonempty_0_oo
             (full_Richardson_is_integral_r2 beta t r0 Hb Ht Hr0)).
  field. lra.
Qed.

Lemma full_Richardson_r2_limit beta t :
  0 < beta -> 0 < t ->
  tends_lower (Finite 0) (fun r0 => FullRichardson.r2 beta t r0)
    (1280 / 243 * beta ^ 3 * t ^ 3).
Proof.
  intros Hb Ht.
  apply (tends_lower_ext (Finite 0) oo
           (fun x => 1 * x ^ 2 + 0 * x + 1280 / 243 * beta ^ 3 * t ^ 3
                     + 20 / 3 * (beta * t) * Rpower x (4 / 3)
                     + 320 / 27 * (beta * t) ^ 2 * Rpower x (2 / 3))).
  - intros x [Hx _]. simpl in Hx. rewrite full_Richardson_r2 by assumption. ring.
  - apply nonempty_0_oo.
  - apply tends_lower_poly_rpower; lra.
Qed.

(** *** Generalized full regime *)

Lemma generalized_full_is_integral_r2 kappa t r0 :
  0 < kappa -> 0 < t -> 0 < r0 ->
  is_integral (fun r => GeneralizedFull.p kappa t r0 r * r ^ 3) (Finite 0) oo
    ((r0 ^ 2 + 6 * (kappa * t) * r0 + 6 * (kappa * t) ^ 2) / (4 * PI)).
Proof.
  intros Hk Ht Hr0.
  assert (HPI := PI_RGT_0).
  assert (Hkt : 0 < kappa * t) by nra.
  assert (HA : 0 < / (kappa * t)) by (apply Rinv_0_lt_compat; lra).
  assert (Hu0 : 0 <= / (kappa * t) * r0) by (apply Rmult_le_pos; lra).
  assert (Hint := is_integral_subst_power _ _ (/ (kappa * t)) 1 HA ltac:(lra)
                    (is_integral_bessel_core 1 3 _ _ Hu0 (bessel_sum_1_3 _))).
  apply (is_integral_scal _ _ _ _
           (/ (4 * PI) * exp (- (/ (kappa * t) * r0)) / (/ (kappa * t)) ^ 2)) in Hint.
  match type of Hint with is_integral _ _ _ ?v =>
    replace v with ((r0 ^ 2 + 6 * (kappa * t) * r0 + 6 * (kappa * t) ^ 2) / (4 * PI)) in Hint
  end.
  2:{ rewrite exp_Ropp.
      match goal with |- context [exp ?x] => assert (He := exp_pos x); set (E := exp x) in * end.
      field. repeat split; lra. }
  eapply is_integral_ext; [|exact Hint].
  intros r [Hr _]. simpl in Hr. cbv beta.
  replace (GeneralizedFull.p kappa t r0 r * r ^ 3)
    with (GeneralizedFull.p kappa t r0 r * r * r ^ 2) by ring.
  rewrite (generalized_full_p kappa t r0 r Hk Ht Hr0 Hr).
  rewrite !Rpower_1 by exact Hr.
  set (B := bessel_core _ _). set (e1 := exp _). set (e2 := exp _).
  set (d := Rpower r _).
  field. repeat split; lra.
Qed.

Lemma generalized_full_r2 kappa t r0 :
  0 < kappa -> 0 < t -> 0 < r0 ->
  GeneralizedFull.r2 kappa t r0 = (r0 ^ 2 + 6 * (kappa * t) * r0 + 6 * (kappa * t) ^ 2) / 2.
Proof.
  intros Hk Ht Hr0. unfold GeneralizedFull.r2. assert (HPI := PI_RGT_0).
  rewrite (integrate_eq _ _ _ _ nonempty_0_oo
             (generalized_full_is_integral_r2 kappa t r0 Hk Ht Hr0)).
  field. lra.
Qed.

(** ** The Lundgren regime in the raw radius *)

Lemma full_Lundgren_raw_moment j t :
  0 < t ->
  2 * PI * integrate (fun r => FullLundgrenRaw.p t r * r ^ j) (Finite 0) oo
  = exp ((INR j * INR j - 1) * t).
Proof.
  intros Ht.
  assert (HPI := PI_RGT_0).
  assert (Hq : 0 < sqrt PI) by (apply sqrt_lt_R0; exact HPI).
  assert (Hq2 : sqrt PI * sqrt PI = PI) by (apply sqrt_sqrt; lra).
  assert (Hc : 0 < sqrt t) by (apply sqrt_lt_R0; exact Ht).
  assert (H := is_integral_lognormal (S j) t Ht).
  replace ((INR (S j) * INR (S j) - 2 * INR (S j)) * t) with ((INR j * INR j - 1) * t) in H
    by (rewrite S_INR; ring).
  apply (is_integral_scal _ _ _ _ (/ (4 * (PI * sqrt PI) * sqrt t))) in H.
  apply (is_integral_change _ _ (Finite 0) oo MInf oo ln (fun r => / r)) in H.
  - assert (H' : is_integral (fun r => FullLundgrenRaw.p t r * r ^ j) (Finite 0) oo
                   (/ (4 * (PI * sqrt PI) * sqrt t)
                    * (2 * sqrt t * sqrt PI * exp ((INR j * INR j - 1) * t)))).
    { revert H. apply is_integral_ext.
      intros r [Hr _]. simpl in Hr. unfold FullLundgrenRaw.p.
      rewrite Rpower_1_5, Rpower_0_5 by assumption.
      rewrite exp_ln by exact Hr. change (r ^ S j) with (r * r ^ j).
      set (E := exp _). set (rj := r ^ j). field. repeat split; lra. }
    rewrite (integrate_eq _ _ _ _ nonempty_0_oo H').
    set (E := exp _). set (q := sqrt PI) in *. rewrite <- Hq2. field. repeat split; lra.
  - apply nonempty_0_oo.
  - intros r [Hr _]. simpl in Hr. apply derivable_pt_lim_ln. exact Hr.
  - intros r _. split; exact I.
  - intros c' _. exists (exp c'). split; [simpl; apply exp_pos|].
    intros x Hx Hxc. simpl in Hx.
    rewrite <- (ln_exp c'). apply ln_increasing; assumption.
  - intros c' _. exists (exp c'). split; [exact I|].
    intros x _ Hxc. rewrite <- (ln_exp c') at 1.
    apply ln_increasing; [apply exp_pos | exact Hxc].
Qed.

Lemma full_Lundgren_raw_r2 t : 0 < t -> FullLundgrenRaw.r2 t = exp (8 * t).
Proof.
  intros Ht. unfold FullLundgrenRaw.r2. rewrite (full_Lundgren_raw_moment 3 t Ht).
  f_equal. simpl. ring.
Qed.

Lemma full_Lundgren_raw_r4 t : 0 < t -> FullLundgrenRaw.r4 t = exp (24 * t).
Proof.
  intros Ht. unfold FullLundgrenRaw.r4. rewrite (full_Lundgren_raw_moment 5 t Ht).
  f_equal. simpl. ring.
Qed.

Lemma full_Lundgren_raw_Ku t : 0 < t -> FullLundgrenRaw.Ku t = exp (8 * t).
Proof.
  intros Ht. unfold FullLundgrenRaw.Ku.
  rewrite full_Lundgren_raw_r2, full_Lundgren_raw_r4 by assumption.
  assert (He := exp_pos (8 * t)).
  rewrite Rpower_2 by exact He.
  replace (24 * t) with (8 * t + (8 * t + 8 * t)) by ring.
  rewrite !exp_plus. field. lra.
Qed.

Lemma full_Lundgren_raw_K2 t : 0 < t -> FullLundgrenRaw.K2 t = 4 * exp (8 * t).
Proof.
  intros Ht. unfold FullLundgrenRaw.K2.
  rewrite (diff_locally _ (fun t => exp (8 * t)) t (exp (8 * t) * 8) (t / 2) (t + 1)).
  - field.
  - lra.
  - intros z Hz. symmetry. apply full_Lundgren_raw_r2. lra.
  - apply (derivable_pt_lim_comp (fun t => 8 * t) exp).
    + assert (Hd := derivable_pt_lim_scal id 8 t 1 (derivable_pt_lim_id t)).
      rewrite Rmult_1_r in Hd. exact Hd.
    + apply derivable_pt_lim_exp.
Qed.

(** ** The diffusivity laws [K(r)] of the Garrett-Munk and Richardson cells *)

Lemma asym_GM_K_at_rms lmbd t :
  0 < lmbd -> 0 < t ->
  AsymptoticGM.K lmbd (sqrt (AsymptoticGM.r2 lmbd t)) = AsymptoticGM.K2 lmbd t.
Proof.
  intros Hl Ht.
  rewrite asym_GM_K2, asym_GM_r2 by assumption.
  unfold AsymptoticGM.K, AsymptoticGM.a, AsymptoticGM.b.
  assert (Hlt : 0 < lmbd * t) by nra.
  assert (Ha : 0 < 3.28125) by lra.
  assert (HX : 0 < 3.28125 * lmbd ^ 4 * t ^ 4).
  { assert (H4 : 0 < lmbd ^ 4 * t ^ 4) by (apply Rmult_lt_0_compat; apply pow_lt; assumption).
    lra. }
  rewrite <- Rpower_sqrt by exact HX.
  rewrite Rpower_mult.
  replace (/ 2 * ((2 * 4 - 2) / 4)) with (3 / 4) by field.
  replace (3.28125 * lmbd ^ 4 * t ^ 4) with (3.28125 * (lmbd * t) ^ 4) by ring.
  rewrite <- Rpower_mult_distr by (try assumption; apply pow_lt; assumption).
  rewrite <- (Rpower_4 (lmbd * t)) by assumption.
  rewrite Rpower_mult.
  replace (4 * (3 / 4)) with 3 by field.
  rewrite Rpower_3 by assumption.
  transitivity (2 * (Rpower 3.28125 (1 / 4) * Rpower 3.28125 (3 / 4)) * lmbd * (lmbd * t) ^ 3);
    [field|].
  rewrite <- Rpower_plus. replace (1 / 4 + 3 / 4) with 1 by field.
  rewrite Rpower_1 by exact Ha.
  replace 3.28125 with (105 / 32) by lra. replace 6.5625 with (105 / 16) by lra. field.
Qed.

Lemma asym_Richardson_K_at_rms beta t :
  0 < beta -> 0 < t ->
  AsymptoticRichardson.K beta (sqrt (AsymptoticRichardson.r2 beta t))
  = Rpower (5.267489 / (1280 / 243)) (1 / 3) * AsymptoticRichardson.K2 beta t.
Proof.
  intros Hb Ht.
  rewrite asym_Richardson_K2, asym_Richardson_r2 by assumption.
  unfold AsymptoticRichardson.K, AsymptoticRichardson.a, AsymptoticRichardson.b.
  assert (Hbt : 0 < beta * t) by nra.
  assert (Ha : 0 < 5.267489) by lra.
  assert (HA : 0 < 1280 / 243) by lra.
  assert (HX : 0 < 1280 / 243 * beta ^ 3 * t ^ 3).
  { assert (H3 : 0 < beta ^ 3 * t ^ 3) by (apply Rmult_lt_0_compat; apply pow_lt; assumption).
    lra. }
  rewrite <- Rpower_sqrt by exact HX.
  rewrite Rpower_mult.
  replace (/ 2 * ((2 * 3 - 2) / 3)) with (2 / 3) by field.
  replace (1280 / 243 * beta ^ 3 * t ^ 3) with (1280 / 243 * (beta * t) ^ 3) by ring.
  rewrite <- Rpower_mult_distr by (try assumption; apply pow_lt; assumption).
  rewrite <- (Rpower_3 (beta * t)) by assumption.
  rewrite Rpower_mult.
  replace (3 * (2 / 3)) with 2 by field.
  rewrite Rpower_2 by assumption.
  assert (HiA : 0 < / (1280 / 243)) by (apply Rinv_0_lt_compat; exact HA).
  assert (E1 : Rpower (5.267489 / (1280 / 243)) (1 / 3)
               = Rpower 5.267489 (1 / 3) * Rpower (/ (1280 / 243)) (1 / 3)).
  { unfold Rdiv. rewrite Rpower_mult_distr by assumption. reflexivity. }
  assert (E2 : Rpower (/ (1280 / 243)) (1 / 3) * Rpower (1280 / 243) (1 / 3) = 1).
  { rewrite Rpower_mult_distr by assumption.
    rewrite Rinv_l by lra. unfold Rpower. rewrite ln_1, Rmult_0_r. apply exp_0. }
  assert (E : 640 / 81 = 3 / 2 * (Rpower (1280 / 243) (2 / 3) * Rpower (1280 / 243) (1 / 3))).
  { rewrite <- Rpower_plus. replace (2 / 3 + 1 / 3) with 1 by field.
    rewrite Rpower_1 by exact HA. field. }
  rewrite E1, E.
  set (Ra := Rpower 5.267489 (1 / 3)) in *.
  set (Ri := Rpower (/ (1280 / 243)) (1 / 3)) in *.
  set (P1 := Rpower (1280 / 243) (1 / 3)) in *.
  set (P2 := Rpower (1280 / 243) (2 / 3)) in *.
  transitivity (Ra * (Ri * P1) * (3 / 2 * P2 * beta ^ 3 * t ^ 2)); [|ring].
  rewrite E2. field.
Qed.

(** ** Euler's integral for a real argument *)

Lemma gamma_log_derivable z s : derivable_pt_lim (gamma_log z) s (exp (z * s - exp s) * (z * 1 - exp s)).
Proof.
  unfold gamma_log.
  apply (derivable_pt_lim_comp (fun s => z * s - exp s) exp).
  - apply (derivable_pt_lim_minus (fun s => z * s) exp).
    + apply (derivable_pt_lim_scal id z). apply derivable_pt_lim_id.
    + apply derivable_pt_lim_exp.
  - apply derivable_pt_lim_exp.
Qed.

Lemma gamma_log_continuity z s : continuity_pt (gamma_log z) s.
Proof. eapply derivable_continuity_pt. apply gamma_log_derivable. Qed.

Lemma gamma_log_pos z s : 0 < gamma_log z s.
Proof. apply exp_pos. Qed.

(** For [s <= 0] the integrand is below [exp (z*s)]. *)
Lemma gamma_log_le_left z s : gamma_log z s <= exp (z * s).
Proof.
  unfold gamma_log. apply exp_nondecreasing. assert (H := exp_pos s). lra.
Qed.

(** For all [s] the integrand is below [N! * exp (- (N - z) * s)]. *)
Lemma gamma_log_le_right z N s :
  gamma_log z s <= INR (fact N) * exp (- ((INR N - z) * s)).
Proof.
  unfold gamma_log.
  assert (H := pow_le_fact_exp N (exp s) (Rlt_le _ _ (exp_pos s))).
  rewrite exp_pow in H.
  replace (z * s - exp s) with (- ((INR N - z) * s) + (INR N * s - exp s)) by ring.
  rewrite exp_plus.
  rewrite (Rmult_comm (INR (fact N))).
  apply Rmult_le_compat_l; [left; apply exp_pos|].
  unfold Rminus. rewrite exp_plus, exp_Ropp.
  assert (He := exp_pos (exp s)).
  apply (Rmult_le_reg_r (exp (exp s))); [exact He|].
  replace (exp (INR N * s) * / exp (exp s) * exp (exp s)) with (exp (INR N * s))
    by (field; lra).
  exact H.
Qed.

Lemma derivable_pt_lim_exp_scal k s : derivable_pt_lim (fun s => exp (k * s)) s (exp (k * s) * k).
Proof.
  apply (derivable_pt_lim_comp (fun s => k * s) exp).
  - assert (Hd := derivable_pt_lim_scal id k s 1 (derivable_pt_lim_id s)).
    rewrite Rmult_1_r in Hd. exact Hd.
  - apply derivable_pt_lim_exp.
Qed.

Lemma gamma_log_integral z : 0 < z -> exists l, is_integral (gamma_log z) MInf oo l.
Proof.
  intros Hz.
  destruct (continuous_antiderivative (gamma_log z) (gamma_log_continuity z)) as [G [HG G0]].
  assert (Hmono : forall x y, x <= y -> G x <= G y).
  { intros x y Hxy. apply (antiderivative_nondecreasing G (gamma_log z) x y Hxy).
    - intros s _. apply HG.
    - intros s _. left. apply gamma_log_pos. }
  destruct (INR_archimed 1 z) as [N HN]; [lra|].
  assert (Hc : 0 < INR N - z) by lra.
  set (c := INR N - z) in *.
  assert (Hf := INR_fact_pos N).
  assert (Hup : forall x, 0 <= x -> G x <= INR (fact N) / c).
  { intros x Hx.
    assert (H : (fun s => - (INR (fact N) / c) * exp (- c * s) + (-1) * G s) 0
                <= (fun s => - (INR (fact N) / c) * exp (- c * s) + (-1) * G s) x).
    { apply (antiderivative_nondecreasing
               (fun s => - (INR (fact N) / c) * exp (- c * s) + (-1) * G s)
               (fun s => - (INR (fact N) / c) * (exp (- c * s) * - c) + (-1) * gamma_log z s)
               0 x Hx).
      - intros s _.
        apply (derivable_pt_lim_plus (fun s => - (INR (fact N) / c) * exp (- c * s))
                 (fun s => (-1) * G s)).
        + apply (derivable_pt_lim_scal (fun s => exp (- c * s))). apply derivable_pt_lim_exp_scal.
        + apply (derivable_pt_lim_scal G (-1)). apply HG.
      - intros s _. assert (Hb := gamma_log_le_right z N s). fold c in Hb.
        replace (- c * s) with (- (c * s)) by ring.
        replace (- (INR (fact N) / c) * (exp (- (c * s)) * - c))
          with (INR (fact N) * exp (- (c * s))) by (field; lra).
        lra. }
    cbv beta in H. rewrite Rmult_0_r, exp_0, G0 in H.
    assert (He := exp_pos (- c * x)).
    assert (Hq : 0 < INR (fact N) / c) by (apply Rdiv_lt_0_compat; assumption).
    nra. }
  assert (Hlow : forall x, 0 <= x -> - G (- x) <= / z).
  { intros x Hx.
    assert (H : (fun s => / z * exp (z * s) + (-1) * G s) (- x)
                <= (fun s => / z * exp (z * s) + (-1) * G s) 0).
    { apply (antiderivative_nondecreasing
               (fun s => / z * exp (z * s) + (-1) * G s)
               (fun s => / z * (exp (z * s) * z) + (-1) * gamma_log z s)
               (- x) 0 ltac:(lra)).
      - intros s _.
        apply (derivable_pt_lim_plus (fun s => / z * exp (z * s)) (fun s => (-1) * G s)).
        + apply (derivable_pt_lim_scal (fun s => exp (z * s))). apply derivable_pt_lim_exp_scal.
        + apply (derivable_pt_lim_scal G (-1)). apply HG.
      - intros s _. assert (Hb := gamma_log_le_left z s).
        replace (/ z * (exp (z * s) * z)) with (exp (z * s)) by (field; lra). lra. }
    cbv beta in H. rewrite Rmult_0_r, exp_0, G0 in H.
    assert (He := exp_pos (z * - x)).
    assert (Hq : 0 < / z) by (apply Rinv_0_lt_compat; assumption).
    nra. }
  destruct (nondecreasing_bounded_tends G (INR (fact N) / c)) as [lb [Hlb _]].
  { intros x y _ Hxy. apply Hmono. exact Hxy. }
  { exact Hup. }
  destruct (nondecreasing_bounded_tends (fun x => - G (- x)) (/ z)) as [la [Hla _]].
  { intros x y _ Hxy. cbv beta. assert (H := Hmono (- y) (- x) ltac:(lra)). lra. }
  { exact Hlow. }
  exists (lb - - la), G, (- la), lb. split; [|split; [|split; [|reflexivity]]].
  - intros s _. apply HG.
  - intros eps He. destruct (Hla eps He) as [c0 [_ Hc0]].
    exists (- c0). split; [exact I|]. intros x _ Hx.
    specialize (Hc0 (- x) I ltac:(lra)). cbv beta in Hc0.
    rewrite Ropp_involutive in Hc0.
    rewrite <- Rabs_Ropp. replace (- (G x - - la)) with (- G x - la) by ring. exact Hc0.
  - exact Hlb.
Qed.

(** Euler's integral converges for every positive argument. *)
Theorem is_integral_gamma z :
  0 < z -> is_integral (fun u => Rpower u (z - 1) * exp (- u)) (Finite 0) oo (gamma z).
Proof.
  intros Hz. unfold gamma, integrate. apply epsilon_spec.
  destruct (gamma_log_integral z Hz) as [l H]. exists l.
  apply (is_integral_change _ _ (Finite 0) oo MInf oo ln (fun r => / r)) in H.
  - revert H. apply is_integral_ext.
    intros u [Hu _]. simpl in Hu. unfold gamma_log.
    rewrite Rpower_minus_1 by exact Hu. unfold Rpower.
    replace (z * ln u - exp (ln u)) with (z * ln u + - u) by (rewrite exp_ln by exact Hu; ring).
    rewrite exp_plus. field. lra.
  - apply nonempty_0_oo.
  - intros r [Hr _]. simpl in Hr. apply derivable_pt_lim_ln. exact Hr.
  - intros r _. split; exact I.
  - intros c' _. exists (exp c'). split; [simpl; apply exp_pos|].
    intros x Hx Hxc. simpl in Hx.
    rewrite <- (ln_exp c'). apply ln_increasing; assumption.
  - intros c' _. exists (exp c'). split; [exact I|].
    intros x _ Hxc. rewrite <- (ln_exp c') at 1.
    apply ln_increasing; [apply exp_pos | exact Hxc].
Qed.

(** ** The general moment of the asymptotic regimes *)

Lemma Rpower_inv x y : 0 < x -> Rpower (/ x) y = / Rpower x y.
Proof.
  intros Hx. unfold Rpower. rewrite ln_Rinv by exact Hx.
  replace (y * - ln x) with (- (y * ln x)) by ring. apply exp_Ropp.
Qed.

(** [integrate(r**(n+1) * exp(-A*r**q), (r, 0, oo))
     = gamma((n+2)/q) / (q * A**((n+2)/q))]. *)
Lemma is_integral_rpower_exp A q n :
  0 < A -> 0 < q -> 0 < n + 2 ->
  is_integral (fun r => Rpower r (n + 1) * exp (- (A * Rpower r q))) (Finite 0) oo
    (gamma ((n + 2) / q) / (q * Rpower A ((n + 2) / q))).
Proof.
  intros HA Hq Hn.
  assert (Hz : 0 < (n + 2) / q) by (apply Rdiv_lt_0_compat; assumption).
  set (z := (n + 2) / q) in *.
  assert (Hint := is_integral_subst_power _ _ A q HA Hq (is_integral_gamma z Hz)).
  apply (is_integral_scal _ _ _ _ (/ (q * Rpower A z))) in Hint.
  replace (gamma z / (q * Rpower A z)) with (/ (q * Rpower A z) * gamma z)
    by (unfold Rdiv; ring).
  eapply is_integral_ext; [|exact Hint].
  intros r [Hr _]. simpl in Hr. cbv beta.
  rewrite <- Rpower_mult_distr by (try assumption; apply Rpower_pos).
  rewrite Rpower_mult.
  assert (E1 : Rpower A z = Rpower A (z - 1) * A).
  { rewrite <- (Rpower_1 A HA) at 3. rewrite <- Rpower_plus. f_equal. ring. }
  assert (E2 : Rpower r (n + 1) = Rpower r (q * (z - 1)) * Rpower r (q - 1)).
  { rewrite <- Rpower_plus. f_equal. unfold z. field. lra. }
  rewrite E1, E2.
  assert (H1 : 0 < Rpower A (z - 1)) by apply Rpower_pos.
  set (P := Rpower A (z - 1)) in *. set (X := Rpower r (q * (z - 1))).
  set (Y := Rpower r (q - 1)). set (E := exp _).
  field. repeat split; lra.
Qed.

Lemma asym_diffusive_rn k2 t n :
  0 < k2 -> 0 < t -> 0 < n ->
  AsymptoticDiffusive.rn k2 t n
  = 1 * Rpower 2 n * Rpower k2 (n / 2) * Rpower t (n / 2) * gamma (n / 2 + 1).
Proof.
  intros Hk Ht Hn. unfold AsymptoticDiffusive.rn.
  assert (HPI := PI_RGT_0).
  assert (Hkt : 0 < 4 * k2 * t) by nra.
  assert (HA : 0 < / (4 * k2 * t)) by (apply Rinv_0_lt_compat; exact Hkt).
  assert (H := is_integral_rpower_exp (/ (4 * k2 * t)) 2 n HA ltac:(lra) ltac:(lra)).
  replace ((n + 2) / 2) with (n / 2 + 1) in H by field.
  apply (is_integral_scal _ _ _ _ (1 / (4 * PI * k2 * t))) in H.
  rewrite (integrate_0_oo_eq _ _ _
             (1 / (4 * PI * k2 * t)
              * (gamma (n / 2 + 1) / (2 * Rpower (/ (4 * k2 * t)) (n / 2 + 1)))) H).
  - assert (E : Rpower (4 * k2 * t) (n / 2)
               = Rpower 2 n * Rpower k2 (n / 2) * Rpower t (n / 2)).
    { replace (4 * k2 * t) with (Rpower 2 2 * k2 * t) by (rewrite Rpower_2 by lra; ring).
      assert (H22 := Rpower_pos 2 2).
      rewrite <- Rpower_mult_distr; [|nra|exact Ht].
      rewrite <- Rpower_mult_distr; [|exact H22|exact Hk].
      rewrite Rpower_mult. replace (2 * (n / 2)) with n by field. reflexivity. }
    rewrite Rpower_plus, Rpower_1, Rpower_inv, E by assumption.
    assert (H2 := Rpower_pos 2 n). assert (H3 := Rpower_pos k2 (n / 2)).
    assert (H4 := Rpower_pos t (n / 2)).
    set (P2 := Rpower 2 n) in *. set (Pk := Rpower k2 (n / 2)) in *.
    set (Pt := Rpower t (n / 2)) in *. set (G := gamma _).
    field. repeat split; lra.
  - intros r Hr. unfold AsymptoticDiffusive.p. rewrite Rpower_2 by exact Hr.
    replace (- (/ (4 * k2 * t) * r ^ 2)) with (- r ^ 2 / (4 * k2 * t)) by (field; lra).
    ring.
  - reflexivity.
Qed.

Lemma asym_GM_rn lmbd t n :
  0 < lmbd -> 0 < t -> 0 < n ->
  AsymptoticGM.rn lmbd t n
  = 1 / 6 * Rpower (0.25 * lmbd * t) (2 * n) * gamma (2 * n + 4).
Proof.
  intros Hl Ht Hn. unfold AsymptoticGM.rn.
  assert (HPI := PI_RGT_0).
  assert (Hlt : 0 < lmbd * t) by nra.
  assert (Hq : 0 < 1 / 4 * lmbd * t) by nra.
  assert (HA : 0 < / (1 / 4 * lmbd * t)) by (apply Rinv_0_lt_compat; exact Hq).
  assert (H := is_integral_rpower_exp (/ (1 / 4 * lmbd * t)) (1 / 2) n HA ltac:(lra) ltac:(lra)).
  replace ((n + 2) / (1 / 2)) with (2 * n + 4) in H by field.
  apply (is_integral_scal _ _ _ _ (AsymptoticGM.fst lmbd t)) in H.
  rewrite (integrate_0_oo_eq _ _ _
             (AsymptoticGM.fst lmbd t
              * (gamma (2 * n + 4) / (1 / 2 * Rpower (/ (1 / 4 * lmbd * t)) (2 * n + 4)))) H).
  - unfold AsymptoticGM.fst.
    replace 0.25 with (1 / 4) by lra.
    assert (E : Rpower (/ (1 / 4 * lmbd * t)) (2 * n + 4)
                = / Rpower (1 / 4 * lmbd * t) (2 * n) * (/ (1 / 4 * lmbd * t)) ^ 4).
    { rewrite Rpower_plus, Rpower_inv by assumption. f_equal.
      rewrite <- (Rpower_pow 4) by exact HA. f_equal. simpl. ring. }
    rewrite E, Rpower_4 by assumption.
    assert (HP := Rpower_pos (1 / 4 * lmbd * t) (2 * n)).
    set (P := Rpower (1 / 4 * lmbd * t) (2 * n)) in *. set (G := gamma _).
    field. repeat split; lra.
  - intros r Hr. unfold AsymptoticGM.p, AsymptoticGM.scd.
    replace (- (/ (1 / 4 * lmbd * t) * Rpower r (1 / 2)))
      with (- 4 * Rpower r (1 / 2) / (lmbd * t)) by (field; lra).
    ring.
  - reflexivity.
Qed.

Lemma asym_Richardson_rn beta t n :
  0 < beta -> 0 < t -> 0 < n ->
  AsymptoticRichardson.rn beta t n
  = 1 / 2 * Rpower (4 / 9 * beta * t) (1.5 * n) * gamma (1.5 * n + 3).
Proof.
  intros Hb Ht Hn. unfold AsymptoticRichardson.rn.
  assert (HPI := PI_RGT_0).
  assert (Hbt : 0 < beta * t) by nra.
  assert (Hq : 0 < 4 / 9 * beta * t) by nra.
  assert (HA : 0 < / (4 / 9 * beta * t)) by (apply Rinv_0_lt_compat; exact Hq).
  assert (H := is_integral_rpower_exp (/ (4 / 9 * beta * t)) (2 / 3) n HA ltac:(lra) ltac:(lra)).
  replace ((n + 2) / (2 / 3)) with (3 / 2 * n + 3) in H by field.
  apply (is_integral_scal _ _ _ _ (AsymptoticRichardson.fst beta t)) in H.
  rewrite (integrate_0_oo_eq _ _ _
             (AsymptoticRichardson.fst beta t
              * (gamma (3 / 2 * n + 3)
                 / (2 / 3 * Rpower (/ (4 / 9 * beta * t)) (3 / 2 * n + 3)))) H).
  - unfold AsymptoticRichardson.fst.
    replace 1.5 with (3 / 2) by lra.
    assert (E : Rpower (/ (4 / 9 * beta * t)) (3 / 2 * n + 3)
                = / Rpower (4 / 9 * beta * t) (3 / 2 * n) * (/ (4 / 9 * beta * t)) ^ 3).
    { rewrite Rpower_plus, Rpower_inv by assumption. f_equal.
      rewrite <- (Rpower_pow 3) by exact HA. f_equal. simpl. ring. }
    rewrite E, Rpower_3 by assumption.
    assert (HP := Rpower_pos (4 / 9 * beta * t) (3 / 2 * n)).
    set (P := Rpower (4 / 9 * beta * t) (3 / 2 * n)) in *. set (G := gamma _).
    field. repeat split; lra.
  - intros r Hr. unfold AsymptoticRichardson.p, AsymptoticRichardson.scd.
    replace (- (/ (4 / 9 * beta * t) * Rpower r (2 / 3)))
      with (- 9 * Rpower r (2 / 3) / (4 * beta * t)) by (field; lra).
    ring.
  - reflexivity.
Qed.

(** The general moment at an integer order. *)
Lemma integrate_rpower_nat f j l :
  is_integral (fun r => f r * r ^ j) (Finite 0) oo l ->
  integrate (fun r => f r * Rpower r (INR j)) (Finite 0) oo
  = integrate (fun r => f r * r ^ j) (Finite 0) oo.
Proof.
  intros H. rewrite (integrate_eq _ _ _ _ nonempty_0_oo H).
  apply (integrate_0_oo_eq _ _ _ _ H); [|reflexivity].
  intros r Hr. rewrite Rpower_pow by exact Hr. reflexivity.
Qed.

Lemma asym_diffusive_rn_nat k2 t :
  0 < k2 -> 0 < t ->
  AsymptoticDiffusive.rn k2 t 2 = AsymptoticDiffusive.r2 k2 t /\
  AsymptoticDiffusive.rn k2 t 4 = AsymptoticDiffusive.r4 k2 t.
Proof.
  intros Hk Ht. unfold AsymptoticDiffusive.rn, AsymptoticDiffusive.r2, AsymptoticDiffusive.r4.
  replace (2 + 1) with (INR 3) by (simpl; ring).
  replace (4 + 1) with (INR 5) by (simpl; ring).
  rewrite (integrate_rpower_nat _ 3 _ (asym_diffusive_is_integral k2 t 1 Hk Ht)).
  rewrite (integrate_rpower_nat _ 5 _ (asym_diffusive_is_integral k2 t 2 Hk Ht)).
  split; reflexivity.
Qed.

Lemma full_diffusive_rn_nat k2 t r0 :
  0 < k2 -> 0 < t -> 0 < r0 ->
  FullDiffusive.rn k2 t r0 2 = FullDiffusive.r2 k2 t r0 /\
  FullDiffusive.rn k2 t r0 4 = FullDiffusive.r4 k2 t r0.
Proof.
  intros Hk Ht Hr0. unfold FullDiffusive.rn, FullDiffusive.r2, FullDiffusive.r4.
  replace (2 + 1) with (INR 3) by (simpl; ring).
  replace (4 + 1) with (INR 5) by (simpl; ring).
  rewrite (integrate_rpower_nat _ 3 _
             (full_diffusive_is_integral k2 t r0 1 _ Hk Ht Hr0 (bessel_second_sum _))).
  rewrite (integrate_rpower_nat _ 5 _
             (full_diffusive_is_integral k2 t r0 2 _ Hk Ht Hr0 (bessel_sum_0_2 _))).
  split; reflexivity.
Qed.

Lemma asym_GM_rn_nat lmbd t :
  0 < lmbd -> 0 < t ->
  AsymptoticGM.rn lmbd t 2 = AsymptoticGM.r2 lmbd t /\
  AsymptoticGM.rn lmbd t 4 = AsymptoticGM.r4 lmbd t.
Proof.
  intros Hl Ht. unfold AsymptoticGM.rn, AsymptoticGM.r2, AsymptoticGM.r4.
  replace (2 + 1) with (INR 3) by (simpl; ring).
  replace (4 + 1) with (INR 5) by (simpl; ring).
  rewrite (integrate_rpower_nat _ 3 _ (asym_GM_is_integral lmbd t 3 Hl Ht)).
  rewrite (integrate_rpower_nat _ 5 _ (asym_GM_is_integral lmbd t 5 Hl Ht)).
  split; reflexivity.
Qed.

Lemma asym_Richardson_rn_nat beta t :
  0 < beta -> 0 < t ->
  AsymptoticRichardson.rn beta t 2 = AsymptoticRichardson.r2 beta t /\
  AsymptoticRichardson.rn beta t 4 = AsymptoticRichardson.r4 beta t.
Proof.
  intros Hb Ht.
  unfold AsymptoticRichardson.rn, AsymptoticRichardson.r2, AsymptoticRichardson.r4.
  replace (2 + 1) with (INR 3) by (simpl; ring).
  replace (4 + 1) with (INR 5) by (simpl; ring).
  rewrite (integrate_rpower_nat _ 3 _ (asym_Richardson_is_integral beta t 1 Hb Ht)).
  rewrite (integrate_rpower_nat _ 5 _ (asym_Richardson_is_integral beta t 2 Hb Ht)).
  split; reflexivity.
Qed.

Lemma Richardson_K_factor : 0.9999998 < Rpower (5.267489 / (1280 / 243)) (1 / 3) < 1.
Proof.
  assert (Hx : 0.9999998 < 5.267489 / (1280 / 243) < 1) by (split; lra).
  set (x := 5.267489 / (1280 / 243)) in *.
  assert (Hx0 : 0 < x) by lra.
  assert (Hln : ln x < 0) by (rewrite <- ln_1; apply ln_increasing; lra).
  assert (H1 : Rpower x 1 < Rpower x (1 / 3)).
  { unfold Rpower. apply exp_increasing. lra. }
  assert (H2 : Rpower x (1 / 3) < exp 0).
  { unfold Rpower. apply exp_increasing. lra. }
  rewrite Rpower_1 in H1 by exact Hx0. rewrite exp_0 in H2. lra.
Qed.

(** ** Fourth moments and [K2] of the full regimes *)

(** The fourth moment of the generalized full regime:
    [(k+2)(k+3)(k+4)(k+5)]. *)
Lemma bessel_sum_1_5 w :
  infinite_sum (fun k => w ^ k / (INR (fact k) * INR (fact (k + 1))) * INR (fact (k + 5)))
    ((w ^ 4 + 20 * w ^ 3 + 120 * w ^ 2 + 240 * w + 120) * exp w).
Proof.
  apply (infinite_sum_ext
           (fun k => w ^ k / INR (fact k) * falling (INR k) 4
                     + (20 * (w ^ k / INR (fact k) * falling (INR k) 3)
                        + (120 * (w ^ k / INR (fact k) * falling (INR k) 2)
                           + (240 * (w ^ k / INR (fact k) * falling (INR k) 1)
                              + 120 * (w ^ k / INR (fact k) * falling (INR k) 0)))))).
  - intros k. assert (H1 := INR_fact_pos k). assert (H2 := INR_fact_pos (k + 1)).
    replace (k + 5)%nat with (S (S (S (S (k + 1))))) by lia.
    rewrite !fact_simpl, !mult_INR, !S_INR, plus_INR. simpl falling. simpl INR.
    field. lra.
  - replace ((w ^ 4 + 20 * w ^ 3 + 120 * w ^ 2 + 240 * w + 120) * exp w)
      with (w ^ 4 * exp w + (20 * (w ^ 3 * exp w) + (120 * (w ^ 2 * exp w)
            + (240 * (w ^ 1 * exp w) + 120 * (w ^ 0 * exp w))))) by ring.
    repeat first [apply infinite_sum_plus | apply infinite_sum_scal | apply exp_series_falling].
Qed.

(** The fourth moment of the full Richardson regime: [(k+3)...(k+8)]. *)
Lemma bessel_sum_2_8 w :
  infinite_sum (fun k => w ^ k / (INR (fact k) * INR (fact (k + 2))) * INR (fact (k + 8)))
    ((w ^ 6 + 48 * w ^ 5 + 840 * w ^ 4 + 6720 * w ^ 3 + 25200 * w ^ 2 + 40320 * w + 20160)
     * exp w).
Proof.
  apply (infinite_sum_ext
           (fun k => w ^ k / INR (fact k) * falling (INR k) 6
                     + (48 * (w ^ k / INR (fact k) * falling (INR k) 5)
                     + (840 * (w ^ k / INR (fact k) * falling (INR k) 4)
                     + (6720 * (w ^ k / INR (fact k) * falling (INR k) 3)
                     + (25200 * (w ^ k / INR (fact k) * falling (INR k) 2)
                     + (40320 * (w ^ k / INR (fact k) * falling (INR k) 1)
                     + 20160 * (w ^ k / INR (fact k) * falling (INR k) 0)))))))).
  - intros k. assert (H1 := INR_fact_pos k). assert (H2 := INR_fact_pos (k + 2)).
    replace (k + 8)%nat with (S (S (S (S (S (S (k + 2))))))) by lia.
    rewrite !fact_simpl, !mult_INR, !S_INR, plus_INR. simpl falling. simpl INR.
    field. lra.
  - replace ((w ^ 6 + 48 * w ^ 5 + 840 * w ^ 4 + 6720 * w ^ 3 + 25200 * w ^ 2 + 40320 * w
              + 20160) * exp w)
      with (w ^ 6 * exp w + (48 * (w ^ 5 * exp w) + (840 * (w ^ 4 * exp w)
            + (6720 * (w ^ 3 * exp w) + (25200 * (w ^ 2 * exp w)
            + (40320 * (w ^ 1 * exp w) + 20160 * (w ^ 0 * exp w))))))) by ring.
    repeat first [apply infinite_sum_plus | apply infinite_sum_scal | apply exp_series_falling].
Qed.

(** The fourth moment of the full Garrett-Munk regime: [(k+4)...(k+11)]. *)
Lemma bessel_sum_3_11 w :
  infinite_sum (fun k => w ^ k / (INR (fact k) * INR (fact (k + 3))) * INR (fact (k + 11)))
    ((w ^ 8 + 88 * w ^ 7 + 3080 * w ^ 6 + 55440 * w ^ 5 + 554400 * w ^ 4 + 3104640 * w ^ 3
      + 9313920 * w ^ 2 + 13305600 * w + 6652800) * exp w).
Proof.
  apply (infinite_sum_ext
           (fun k => w ^ k / INR (fact k) * falling (INR k) 8
                     + (88 * (w ^ k / INR (fact k) * falling (INR k) 7)
                     + (3080 * (w ^ k / INR (fact k) * falling (INR k) 6)
                     + (55440 * (w ^ k / INR (fact k) * falling (INR k) 5)
                     + (554400 * (w ^ k / INR (fact k) * falling (INR k) 4)
                     + (3104640 * (w ^ k / INR (fact k) * falling (INR k) 3)
                     + (9313920 * (w ^ k / INR (fact k) * falling (INR k) 2)
                     + (13305600 * (w ^ k / INR (fact k) * falling (INR k) 1)
                     + 6652800 * (w ^ k / INR (fact k) * falling (INR k) 0)))))))))).
  - intros k. assert (H1 := INR_fact_pos k). assert (H2 := INR_fact_pos (k + 3)).
    replace (k + 11)%nat with (S (S (S (S (S (S (S (S (k + 3))))))))) by lia.
    rewrite !fact_simpl, !mult_INR, !S_INR, plus_INR. simpl falling. simpl INR.
    field. lra.
  - replace ((w ^ 8 + 88 * w ^ 7 + 3080 * w ^ 6 + 55440 * w ^ 5 + 554400 * w ^ 4
              + 3104640 * w ^ 3 + 9313920 * w ^ 2 + 13305600 * w + 6652800) * exp w)
      with (w ^ 8 * exp w + (88 * (w ^ 7 * exp w) + (3080 * (w ^ 6 * exp w)
            + (55440 * (w ^ 5 * exp w) + (554400 * (w ^ 4 * exp w)
            + (3104640 * (w ^ 3 * exp w) + (9313920 * (w ^ 2 * exp w)
            + (13305600 * (w ^ 1 * exp w) + 6652800 * (w ^ 0 * exp w))))))))) by ring.
    repeat first [apply infinite_sum_plus | apply infinite_sum_scal | apply exp_series_falling].
Qed.

Lemma tends_lower_comp lo phi P a :
  tends_lower lo phi a -> continuity_pt P a ->
  tends_lower lo (fun x => P (phi x)) (P a).
Proof.
  intros Hphi HP eps He.
  destruct (HP eps He) as [d [Hd H]].
  destruct (Hphi d Hd) as [c [Hc Hx]].
  exists c. split; [exact Hc|]. intros x Hx1 Hx2.
  specialize (Hx x Hx1 Hx2).
  destruct (Req_dec (phi x) a) as [E | NE].
  - rewrite E, Rminus_diag, Rabs_R0. exact He.
  - apply H. split; [split; [exact I | congruence] | exact Hx].
Qed.

Lemma full_GM_is_integral_r4 lmbd t r0 :
  0 < lmbd -> 0 < t -> 0 < r0 ->
  is_integral (fun r => FullGM.p lmbd t r0 r * r ^ 5) (Finite 0) oo
    ((lmbd * t / 4) ^ 8
     * ((4 / (lmbd * t) * Rpower r0 (1 / 2)) ^ 8
        + 88 * (4 / (lmbd * t) * Rpower r0 (1 / 2)) ^ 7
        + 3080 * (4 / (lmbd * t) * Rpower r0 (1 / 2)) ^ 6
        + 55440 * (4 / (lmbd * t) * Rpower r0 (1 / 2)) ^ 5
        + 554400 * (4 / (lmbd * t) * Rpower r0 (1 / 2)) ^ 4
        + 3104640 * (4 / (lmbd * t) * Rpower r0 (1 / 2)) ^ 3
        + 9313920 * (4 / (lmbd * t) * Rpower r0 (1 / 2)) ^ 2
        + 13305600 * (4 / (lmbd * t) * Rpower r0 (1 / 2))
        + 6652800)
     / (2 * PI)).
Proof.
  intros Hl Ht Hr0.
  assert (HPI := PI_RGT_0).
  assert (Hlt : 0 < lmbd * t) by nra.
  assert (HA : 0 < 4 / (lmbd * t)) by (apply Rdiv_lt_0_compat; lra).
  assert (Hu0 : 0 <= 4 / (lmbd * t) * Rpower r0 (1 / 2)).
  { apply Rmult_le_pos; [lra | left; apply Rpower_pos]. }
  assert (Hint := is_integral_subst_power _ _ (4 / (lmbd * t)) (1 / 2) HA ltac:(lra)
                    (is_integral_bessel_core 3 11 _ _ Hu0 (bessel_sum_3_11 _))).
  apply (is_integral_scal _ _ _ _
           (/ (2 * PI) * exp (- (4 / (lmbd * t) * Rpower r0 (1 / 2)))
            / (4 / (lmbd * t)) ^ 8)) in Hint.
  set (w := 4 / (lmbd * t) * Rpower r0 (1 / 2)) in *.
  match type of Hint with is_integral _ _ _ ?v =>
    replace v with
      ((lmbd * t / 4) ^ 8
       * (w ^ 8 + 88 * w ^ 7 + 3080 * w ^ 6 + 55440 * w ^ 5 + 554400 * w ^ 4
          + 3104640 * w ^ 3 + 9313920 * w ^ 2 + 13305600 * w + 6652800)
       / (2 * PI)) in Hint
  end.
  2:{ rewrite exp_Ropp.
      match goal with |- context [exp ?x] => assert (He := exp_pos x); set (E := exp x) in * end.
      field. repeat split; lra. }
  eapply is_integral_ext; [|exact Hint].
  intros r [Hr _]. simpl in Hr. cbv beta.
  replace (FullGM.p lmbd t r0 r * r ^ 5) with (FullGM.p lmbd t r0 r * r * r ^ 4) by ring.
  rewrite (full_GM_p lmbd t r0 r Hl Ht Hr0 Hr).
  assert (Es := Rpower_half_sqr r Hr).
  assert (Hs : 0 < Rpower r (1 / 2)) by apply Rpower_pos.
  assert (Er : r ^ 4 = Rpower r (1 / 2) ^ 8) by (rewrite <- Es at 1; ring).
  rewrite Er. fold w.
  set (s := Rpower r (1 / 2)) in *.
  set (B := bessel_core _ _). set (e1 := exp _). set (e2 := exp _).
  set (d := Rpower r _).
  field. repeat split; lra.
Qed.

Lemma full_GM_r4 lmbd t r0 :
  0 < lmbd -> 0 < t -> 0 < r0 ->
  FullGM.r4 lmbd t r0
  = (lmbd * t / 4) ^ 8
    * ((4 / (lmbd * t) * Rpower r0 (1 / 2)) ^ 8
       + 88 * (4 / (lmbd * t) * Rpower r0 (1 / 2)) ^ 7
       + 3080 * (4 / (lmbd * t) * Rpower r0 (1 / 2)) ^ 6
       + 55440 * (4 / (lmbd * t) * Rpower r0 (1 / 2)) ^ 5
       + 554400 * (4 / (lmbd * t) * Rpower r0 (1 / 2)) ^ 4
       + 3104640 * (4 / (lmbd * t) * Rpower r0 (1 / 2)) ^ 3
       + 9313920 * (4 / (lmbd * t) * Rpower r0 (1 / 2)) ^ 2
       + 13305600 * (4 / (lmbd * t) * Rpower r0 (1 / 2))
       + 6652800).
Proof.
  intros Hl Ht Hr0. unfold FullGM.r4. assert (HPI := PI_RGT_0).
  rewrite (integrate_eq _ _ _ _ nonempty_0_oo (full_GM_is_integral_r4 lmbd t r0 Hl Ht Hr0)).
  field. split; lra.
Qed.

Lemma full_GM_r4_limit lmbd t :
  0 < lmbd -> 0 < t ->
  tends_lower (Finite 0) (fun r0 => FullGM.r4 lmbd t r0) (101.513671875 * lmbd ^ 8 * t ^ 8).
Proof.
  intros Hl Ht.
  assert (Hlt : 0 < lmbd * t) by nra.
  set (P := fun w => (lmbd * t / 4) ^ 8
                     * (w ^ 8 + 88 * w ^ 7 + 3080 * w ^ 6 + 55440 * w ^ 5 + 554400 * w ^ 4
                        + 3104640 * w ^ 3 + 9313920 * w ^ 2 + 13305600 * w + 6652800)).
  apply (tends_lower_ext (Finite 0) oo
           (fun r0 => P (4 / (lmbd * t) * Rpower r0 (1 / 2)))).
  - intros x [Hx _]. simpl in Hx. rewrite full_GM_r4 by assumption. reflexivity.
  - apply nonempty_0_oo.
  - replace (101.513671875 * lmbd ^ 8 * t ^ 8) with (P (4 / (lmbd * t) * 0)).
    2:{ unfold P. replace 101.513671875 with (51975 / 512) by lra. field. lra. }
    apply (tends_lower_comp (Finite 0) (fun r0 => 4 / (lmbd * t) * Rpower r0 (1 / 2)) P).
    + apply tends_lower_scal. apply Rpower_tends_0. lra.
    + unfold P. reg.
Qed.

Lemma full_Richardson_is_integral_r4 beta t r0 :
  0 < beta -> 0 < t -> 0 < r0 ->
  is_integral (fun r => FullRichardson.p beta t r0 r * r ^ 5) (Finite 0) oo
    ((4 * beta * t / 9) ^ 6
     * ((9 / (4 * beta * t) * Rpower r0 (2 / 3)) ^ 6
        + 48 * (9 / (4 * beta * t) * Rpower r0 (2 / 3)) ^ 5
        + 840 * (9 / (4 * beta * t) * Rpower r0 (2 / 3)) ^ 4
        + 6720 * (9 / (4 * beta * t) * Rpower r0 (2 / 3)) ^ 3
        + 25200 * (9 / (4 * beta * t) * Rpower r0 (2 / 3)) ^ 2
        + 40320 * (9 / (4 * beta * t) * Rpower r0 (2 / 3))
        + 20160)
     / (2 * PI)).
Proof.
  intros Hb Ht Hr0.
  assert (HPI := PI_RGT_0).
  assert (Hbt : 0 < beta * t) by nra.
  assert (HA : 0 < 9 / (4 * beta * t)) by (apply Rdiv_lt_0_compat; lra).
  assert (Hu0 : 0 <= 9 / (4 * beta * t) * Rpower r0 (2 / 3)).
  { apply Rmult_le_pos; [lra | left; apply Rpower_pos]. }
  assert (Hint := is_integral_subst_power _ _ (9 / (4 * beta * t)) (2 / 3) HA ltac:(lra)
                    (is_integral_bessel_core 2 8 _ _ Hu0 (bessel_sum_2_8 _))).
  apply (is_integral_scal _ _ _ _
           (/ (2 * PI) * exp (- (9 / (4 * beta * t) * Rpower r0 (2 / 3)))
            / (9 / (4 * beta * t)) ^ 6)) in Hint.
  set (w := 9 / (4 * beta * t) * Rpower r0 (2 / 3)) in *.
  match type of Hint with is_integral _ _ _ ?v =>
    replace v with
      ((4 * beta * t / 9) ^ 6
       * (w ^ 6 + 48 * w ^ 5 + 840 * w ^ 4 + 6720 * w ^ 3 + 25200 * w ^ 2 + 40320 * w
          + 20160)
       / (2 * PI)) in Hint
  end.
  2:{ rewrite exp_Ropp.
      match goal with |- context [exp ?x] => assert (He := exp_pos x); set (E := exp x) in * end.
      field. repeat split; lra. }
  eapply is_integral_ext; [|exact Hint].
  intros r [Hr _]. simpl in Hr. cbv beta.
  replace (FullRichardson.p beta t r0 r * r ^ 5)
    with (FullRichardson.p beta t r0 r * r * r ^ 4) by ring.
  rewrite (full_Richardson_p beta t r0 r Hb Ht Hr0 Hr).
  assert (Hs : 0 < Rpower r (2 / 3)) by apply Rpower_pos.
  assert (Er : r ^ 4 = Rpower r (2 / 3) ^ 6).
  { destruct (Rpower_third r Hr) as (F1 & F2). rewrite F1. rewrite F2 at 1. ring. }
  rewrite Er. fold w.
  set (s := Rpower r (2 / 3)) in *.
  set (B := bessel_core _ _). set (e1 := exp _). set (e2 := exp _).
  set (d := Rpower r _).
  field. repeat split; lra.
Qed.

Lemma full_Richardson_r4 beta t r0 :
  0 < beta -> 0 < t -> 0 < r0 ->
  FullRichardson.r4 beta t r0
  = (4 * beta * t / 9) ^ 6
    * ((9 / (4 * beta * t) * Rpower r0 (2 / 3)) ^ 6
       + 48 * (9 / (4 * beta * t) * Rpower r0 (2 / 3)) ^ 5
       + 840 * (9 / (4 * beta * t) * Rpower r0 (2 / 3)) ^ 4
       + 6720 * (9 / (4 * beta * t) * Rpower r0 (2 / 3)) ^ 3
       + 25200 * (9 / (4 * beta * t) * Rpower r0 (2 / 3)) ^ 2
       + 40320 * (9 / (4 * beta * t) * Rpower r0 (2 / 3))
       + 20160).
Proof.
  intros Hb Ht Hr0. unfold FullRichardson.r4. assert (HPI := PI_RGT_0).
  rewrite (integrate_eq _ _ _ _ nonempty_0_oo
             (full_Richardson_is_integral_r4 beta t r0 Hb Ht Hr0)).
  field. split; lra.
Qed.

Lemma full_Richardson_r4_limit beta t :
  0 < beta -> 0 < t ->
  tends_lower (Finite 0) (fun r0 => FullRichardson.r4 beta t r0)
    (82575360 / 531441 * beta ^ 6 * t ^ 6).
Proof.
  intros Hb Ht.
  assert (Hbt : 0 < beta * t) by nra.
  set (P := fun w => (4 * beta * t / 9) ^ 6
                     * (w ^ 6 + 48 * w ^ 5 + 840 * w ^ 4 + 6720 * w ^ 3 + 25200 * w ^ 2
                        + 40320 * w + 20160)).
  apply (tends_lower_ext (Finite 0) oo
           (fun r0 => P (9 / (4 * beta * t) * Rpower r0 (2 / 3)))).
  - intros x [Hx _]. simpl in Hx. rewrite full_Richardson_r4 by assumption. reflexivity.
  - apply nonempty_0_oo.
  - replace (82575360 / 531441 * beta ^ 6 * t ^ 6) with (P (9 / (4 * beta * t) * 0)).
    2:{ unfold P. field. lra. }
    apply (tends_lower_comp (Finite 0) (fun r0 => 9 / (4 * beta * t) * Rpower r0 (2 / 3)) P).
    + apply tends_lower_scal. apply Rpower_tends_0. lra.
    + unfold P. reg.
Qed.

Lemma generalized_full_is_integral_r4 kappa t r0 :
  0 < kappa -> 0 < t -> 0 < r0 ->
  is_integral (fun r => GeneralizedFull.p kappa t r0 r * r ^ 5) (Finite 0) oo
    ((r0 ^ 4 + 20 * (kappa * t) * r0 ^ 3 + 120 * (kappa * t) ^ 2 * r0 ^ 2
      + 240 * (kappa * t) ^ 3 * r0 + 120 * (kappa * t) ^ 4) / (4 * PI)).
Proof.
  intros Hk Ht Hr0.
  assert (HPI := PI_RGT_0).
  assert (Hkt : 0 < kappa * t) by nra.
  assert (HA : 0 < / (kappa * t)) by (apply Rinv_0_lt_compat; lra).
  assert (Hu0 : 0 <= / (kappa * t) * r0) by (apply Rmult_le_pos; lra).
  assert (Hint := is_integral_subst_power _ _ (/ (kappa * t)) 1 HA ltac:(lra)
                    (is_integral_bessel_core 1 5 _ _ Hu0 (bessel_sum_1_5 _))).
  apply (is_integral_scal _ _ _ _
           (/ (4 * PI) * exp (- (/ (kappa * t) * r0)) / (/ (kappa * t)) ^ 4)) in Hint.
  match type of Hint with is_integral _ _ _ ?v =>
    replace v with
      ((r0 ^ 4 + 20 * (kappa * t) * r0 ^ 3 + 120 * (kappa * t) ^ 2 * r0 ^ 2
        + 240 * (kappa * t) ^ 3 * r0 + 120 * (kappa * t) ^ 4) / (4 * PI)) in Hint
  end.
  2:{ rewrite exp_Ropp.
      match goal with |- context [exp ?x] => assert (He := exp_pos x); set (E := exp x) in * end.
      field. repeat split; lra. }
  eapply is_integral_ext; [|exact Hint].
  intros r [Hr _]. simpl in Hr. cbv beta.
  replace (GeneralizedFull.p kappa t r0 r * r ^ 5)
    with (GeneralizedFull.p kappa t r0 r * r * r ^ 4) by ring.
  rewrite (generalized_full_p kappa t r0 r Hk Ht Hr0 Hr).
  rewrite !Rpower_1 by exact Hr.
  set (B := bessel_core _ _). set (e1 := exp _). set (e2 := exp _).
  set (d := Rpower r _).
  field. repeat split; lra.
Qed.

Lemma generalized_full_r4 kappa t r0 :
  0 < kappa -> 0 < t -> 0 < r0 ->
  GeneralizedFull.r4 kappa t r0
  = (r0 ^ 4 + 20 * (kappa * t) * r0 ^ 3 + 120 * (kappa * t) ^ 2 * r0 ^ 2
     + 240 * (kappa * t) ^ 3 * r0 + 120 * (kappa * t) ^ 4) / 2.
Proof.
  intros Hk Ht Hr0. unfold GeneralizedFull.r4. assert (HPI := PI_RGT_0).
  rewrite (integrate_eq _ _ _ _ nonempty_0_oo
             (generalized_full_is_integral_r4 kappa t r0 Hk Ht Hr0)).
  field. lra.
Qed.

Lemma generalized_full_Ku kappa t r0 :
  0 < kappa -> 0 < t -> 0 < r0 ->
  GeneralizedFull.Ku kappa t r0
  = 2 * (r0 ^ 4 + 20 * (kappa * t) * r0 ^ 3 + 120 * (kappa * t) ^ 2 * r0 ^ 2
         + 240 * (kappa * t) ^ 3 * r0 + 120 * (kappa * t) ^ 4)
    / (r0 ^ 2 + 6 * (kappa * t) * r0 + 6 * (kappa * t) ^ 2) ^ 2.
Proof.
  intros Hk Ht Hr0. unfold GeneralizedFull.Ku.
  rewrite generalized_full_r4, generalized_full_r2 by assumption.
  assert (Hkt : 0 < kappa * t) by nra.
  assert (Hq : 0 < r0 ^ 2 + 6 * (kappa * t) * r0 + 6 * (kappa * t) ^ 2) by nra.
  rewrite Rpower_2 by lra. field. lra.
Qed.

(** The derivative of a polynomial of degree four. *)
Lemma derivable_pt_lim_quartic c0 c1 c2 c3 c4 t :
  derivable_pt_lim (fun t => c0 + c1 * t + c2 * t ^ 2 + c3 * t ^ 3 + c4 * t ^ 4) t
    (c1 + 2 * c2 * t + 3 * c3 * t ^ 2 + 4 * c4 * t ^ 3).
Proof.
  replace (c1 + 2 * c2 * t + 3 * c3 * t ^ 2 + 4 * c4 * t ^ 3)
    with (0 + c1 * 1 + c2 * (INR 2 * t ^ pred 2) + c3 * (INR 3 * t ^ pred 3)
          + c4 * (INR 4 * t ^ pred 4)) by (simpl; ring).
  apply (derivable_pt_lim_plus (fun t => c0 + c1 * t + c2 * t ^ 2 + c3 * t ^ 3)
           (fun t => c4 * t ^ 4)).
  - apply (derivable_pt_lim_plus (fun t => c0 + c1 * t + c2 * t ^ 2) (fun t => c3 * t ^ 3)).
    + apply (derivable_pt_lim_plus (fun t => c0 + c1 * t) (fun t => c2 * t ^ 2)).
      * apply (derivable_pt_lim_plus (fun _ => c0) (fun t => c1 * t)).
        -- apply derivable_pt_lim_const.
        -- apply (derivable_pt_lim_scal id c1). apply derivable_pt_lim_id.
      * apply (derivable_pt_lim_scal (fun t => t ^ 2) c2). apply derivable_pt_lim_pow.
    + apply (derivable_pt_lim_scal (fun t => t ^ 3) c3). apply derivable_pt_lim_pow.
  - apply (derivable_pt_lim_scal (fun t => t ^ 4) c4). apply derivable_pt_lim_pow.
Qed.

Lemma full_GM_K2 lmbd t r0 :
  0 < lmbd -> 0 < t -> 0 < r0 ->
  FullGM.K2 lmbd t r0
  = (7 * lmbd * Rpower r0 (3 / 2) + 63 / 2 * lmbd ^ 2 * t * r0
     + 315 / 8 * lmbd ^ 3 * t ^ 2 * Rpower r0 (1 / 2) + 105 / 8 * lmbd ^ 4 * t ^ 3) / 2.
Proof.
  intros Hl Ht Hr0. unfold FullGM.K2.
  rewrite (diff_locally _
             (fun t => r0 ^ 2 + 7 * lmbd * Rpower r0 (3 / 2) * t
                       + 63 / 4 * lmbd ^ 2 * r0 * t ^ 2
                       + 105 / 8 * lmbd ^ 3 * Rpower r0 (1 / 2) * t ^ 3
                       + 105 / 32 * lmbd ^ 4 * t ^ 4) t
             (7 * lmbd * Rpower r0 (3 / 2) + 2 * (63 / 4 * lmbd ^ 2 * r0) * t
              + 3 * (105 / 8 * lmbd ^ 3 * Rpower r0 (1 / 2)) * t ^ 2
              + 4 * (105 / 32 * lmbd ^ 4) * t ^ 3) (t / 2) (t + 1)).
  - field.
  - lra.
  - intros z Hz. rewrite full_GM_r2 by lra. ring.
  - apply derivable_pt_lim_quartic.
Qed.

Lemma full_Richardson_K2 beta t r0 :
  0 < beta -> 0 < t -> 0 < r0 ->
  FullRichardson.K2 beta t r0
  = (20 / 3 * beta * Rpower r0 (4 / 3) + 640 / 27 * beta ^ 2 * t * Rpower r0 (2 / 3)
     + 1280 / 81 * beta ^ 3 * t ^ 2) / 2.
Proof.
  intros Hb Ht Hr0. unfold FullRichardson.K2.
  rewrite (diff_locally _
             (fun t => r0 ^ 2 + 20 / 3 * beta * Rpower r0 (4 / 3) * t
                       + 320 / 27 * beta ^ 2 * Rpower r0 (2 / 3) * t ^ 2
                       + 1280 / 243 * beta ^ 3 * t ^ 3 + 0 * t ^ 4) t
             (20 / 3 * beta * Rpower r0 (4 / 3)
              + 2 * (320 / 27 * beta ^ 2 * Rpower r0 (2 / 3)) * t
              + 3 * (1280 / 243 * beta ^ 3) * t ^ 2 + 4 * 0 * t ^ 3) (t / 2) (t + 1)).
  - field.
  - lra.
  - intros z Hz. rewrite full_Richardson_r2 by lra. ring.
  - apply derivable_pt_lim_quartic.
Qed.

Lemma generalized_full_K2 kappa t r0 :
  0 < kappa -> 0 < t -> 0 < r0 ->
  GeneralizedFull.K2 kappa t r0 = (3 * kappa * r0 + 6 * kappa ^ 2 * t) / 2.
Proof.
  intros Hk Ht Hr0. unfold GeneralizedFull.K2.
  rewrite (diff_locally _
             (fun t => r0 ^ 2 / 2 + 3 * kappa * r0 * t + 3 * kappa ^ 2 * t ^ 2
                       + 0 * t ^ 3 + 0 * t ^ 4) t
             (3 * kappa * r0 + 2 * (3 * kappa ^ 2) * t + 3 * 0 * t ^ 2 + 4 * 0 * t ^ 3)
             (t / 2) (t + 1)).
  - field.
  - lra.
  - intros z Hz. rewrite generalized_full_r2 by lra. field.
  - apply derivable_pt_lim_quartic.
Qed.

(** ** The coefficients of the diffusivity laws *)

(** The coefficient of a power law, located by its power. *)
Lemma root_between c n x L U :
  (0 < n)%nat -> 0 <= c -> 0 <= L -> 0 <= U -> c ^ n = x -> L ^ n < x -> x < U ^ n ->
  L < c < U.
Proof.
  intros Hn Hc HL HU E H1 H2. split.
  - destruct (Rlt_le_dec L c) as [H | H]; [exact H|].
    exfalso. assert (H3 := pow_incr c L n (conj Hc H)). lra.
  - destruct (Rlt_le_dec c U) as [H | H]; [exact H|].
    exfalso. assert (H3 := pow_incr U c n (conj HU H)). lra.
Qed.

Lemma asym_GM_K_coefficient :
  exists c, (forall lmbd r, AsymptoticGM.K lmbd r = c * lmbd * Rpower r 1.5) /\
            c ^ 4 = 52.5 /\ Rabs (c - 2.69178163547765) < 0.000000000000005.
Proof.
  exists (2 * Rpower 3.28125 (1 / 4)).
  assert (Ha : 0 < 3.28125) by lra.
  assert (E4 : (2 * Rpower 3.28125 (1 / 4)) ^ 4 = 52.5).
  { destruct (Rpower_quarter 3.28125 Ha) as (_ & _ & E).
    set (P := Rpower 3.28125 (1 / 4)) in *.
    transitivity (16 * (P * P * P * P)); [ring|].
    rewrite <- E. lra. }
  split; [|split; [exact E4|]].
  - intros lmbd r. unfold AsymptoticGM.K, AsymptoticGM.a, AsymptoticGM.b.
    replace ((2 * 4 - 2) / 4) with 1.5 by lra.
    set (P := Rpower 3.28125 (1 / 4)). set (Q := Rpower r 1.5). field.
  - assert (Hc : 0 <= 2 * Rpower 3.28125 (1 / 4)).
    { assert (H := Rpower_pos 3.28125 (1 / 4)). lra. }
    destruct (root_between _ 4 52.5 2.691781635477645 2.691781635477655
                ltac:(lia) Hc ltac:(lra) ltac:(lra) E4) as [H1 H2]; [lra | lra |].
    apply Rabs_def1; lra.
Qed.

Lemma asym_Richardson_K_coefficient :
  exists c, (forall beta r, AsymptoticRichardson.K beta r = c * beta * Rpower r (4 / 3)) /\
            c ^ 3 = 17.777775375 /\ Rabs (c - 2.60991164319727) < 0.000000000000005.
Proof.
  exists (1.5 * Rpower 5.267489 (1 / 3)).
  assert (Ha : 0 < 5.267489) by lra.
  assert (E3 : (1.5 * Rpower 5.267489 (1 / 3)) ^ 3 = 17.777775375).
  { destruct (Rpower_third 5.267489 Ha) as (_ & E).
    set (P := Rpower 5.267489 (1 / 3)) in *.
    replace 1.5 with (3 / 2) by lra.
    transitivity (27 / 8 * (P * P * P)); [field|].
    rewrite <- E. lra. }
  split; [|split; [exact E3|]].
  - intros beta r. unfold AsymptoticRichardson.K, AsymptoticRichardson.a, AsymptoticRichardson.b.
    replace ((2 * 3 - 2) / 3) with (4 / 3) by lra.
    replace 1.5 with (3 / 2) by lra.
    set (P := Rpower 5.267489 (1 / 3)). set (Q := Rpower r (4 / 3)). field.
  - assert (Hc : 0 <= 1.5 * Rpower 5.267489 (1 / 3)).
    { assert (H := Rpower_pos 5.267489 (1 / 3)). lra. }
    destruct (root_between _ 3 17.777775375 2.609911643197265 2.609911643197275
                ltac:(lia) Hc ltac:(lra) ltac:(lra) E3) as [H1 H2]; [lra | lra |].
    apply Rabs_def1; lra.
Qed.

(** ** The dtype downcast: dictionaries *)

Section DowncastLemmas.
Import Downcast.
Local Open Scope string_scope.
Local Open Scope list_scope.

Lemma lookup_app {A} k (l l' : list (string * A)) :
  lookup k (l ++ l') = match lookup k l with Some v => Some v | None => lookup k l' end.
Proof.
  induction l as [|[k' v] l IH]; simpl; [reflexivity|].
  destruct (String.eqb k k'); [reflexivity | apply IH].
Qed.

Lemma lookup_In {A} k (v : A) l : lookup k l = Some v -> In (k, v) l.
Proof.
  induction l as [|[k' v'] l IH]; simpl; [discriminate|].
  destruct (String.eqb k k') eqn:E.
  - intros H. injection H as ->. apply String.eqb_eq in E. subst. left. reflexivity.
  - intros H. right. apply IH. exact H.
Qed.

Lemma lookup_None_notin {A} k (l : list (string * A)) :
  lookup k l = None -> ~ In k (map fst l).
Proof.
  induction l as [|[k' v'] l IH]; simpl; [tauto|].
  destruct (String.eqb k k') eqn:E; [discriminate|].
  intros H [H1 | H1].
  - subst. rewrite String.eqb_refl in E. discriminate.
  - apply IH; assumption.
Qed.

Lemma In_lookup {A} k (v : A) l :
  NoDup (map fst l) -> In (k, v) l -> lookup k l = Some v.
Proof.
  induction l as [|[k' v'] l IH]; simpl; [tauto|].
  intros Hnd [H | H].
  - injection H as -> ->. rewrite String.eqb_refl. reflexivity.
  - inversion Hnd as [|? ? Hni Hnd']; subst.
    destruct (String.eqb k k') eqn:E.
    + apply String.eqb_eq in E. subst. exfalso. apply Hni.
      apply (in_map fst) in H. exact H.
    + apply IH; assumption.
Qed.

Lemma lookup_set_item {A} k k' (v : A) l :
  lookup k' (set_item k v l) = if String.eqb k' k then Some v else lookup k' l.
Proof.
  induction l as [|[k0 v0] l IH]; simpl.
  - destruct (String.eqb k' k); reflexivity.
  - destruct (String.eqb k k0) eqn:E; simpl.
    + apply String.eqb_eq in E. subst k0.
      destruct (String.eqb k' k); reflexivity.
    + destruct (String.eqb k' k0) eqn:E0.
      * apply String.eqb_eq in E0. subst k0.
        rewrite String.eqb_sym in E. rewrite E. reflexivity.
      * apply IH.
Qed.

Lemma set_item_same {A} k (v : A) l : lookup k l = Some v -> set_item k v l = l.
Proof.
  induction l as [|[k0 v0] l IH]; simpl; [discriminate|].
  destruct (String.eqb k k0) eqn:E.
  - intros H. injection H as ->. apply String.eqb_eq in E. subst. reflexivity.
  - intros H. rewrite IH by assumption. reflexivity.
Qed.

Lemma mem_In k l : mem k l = true <-> In k l.
Proof.
  unfold mem. rewrite existsb_exists. split.
  - intros [x [Hx E]]. apply String.eqb_eq in E. subst. exact Hx.
  - intros H. exists k. split; [exact H | apply String.eqb_refl].
Qed.

(** *** Equality tests are reflexive *)

Lemma list_eqb_refl {A} (eqb : A -> A -> bool) l :
  (forall x, eqb x x = true) -> list_eqb eqb l l = true.
Proof.
  intros H. induction l as [|x l IH]; simpl; [reflexivity|].
  rewrite H, IH. reflexivity.
Qed.

Lemma scalar_eqb_refl x : scalar_eqb x x = true.
Proof.
  destruct x as [z | f]; simpl; [apply Z.eqb_refl|].
  destruct f as [s | s | | s m e]; simpl;
    rewrite ?Bool.eqb_reflx, ?Pos.eqb_refl, ?Z.eqb_refl; reflexivity.
Qed.

Lemma var_eqb_refl v : var_eqb v v = true.
Proof.
  unfold var_eqb.
  rewrite !list_eqb_refl.
  - destruct (dtype_of v); reflexivity.
  - intros [a b]. unfold pair_eqb. simpl. rewrite !String.eqb_refl. reflexivity.
  - apply scalar_eqb_refl.
  - intros [a b]. unfold pair_eqb. simpl. rewrite String.eqb_refl, Nat.eqb_refl. reflexivity.
Qed.

Lemma dtype_eqb_refl T : dtype_eqb T T = true.
Proof. destruct T; reflexivity. Qed.

Lemma dtype_eqb_eq T U : dtype_eqb T U = true -> T = U.
Proof. destruct T, U; simpl; intros H; try discriminate; reflexivity. Qed.

Lemma dtype_of_astype T v : dtype_of (astype T v) = T.
Proof.
  unfold astype. destruct (dtype_eqb (dtype_of v) T) eqn:E; [|reflexivity].
  apply dtype_eqb_eq. exact E.
Qed.

Lemma astype_idem T v : astype T (astype T v) = astype T v.
Proof.
  unfold astype at 1. rewrite dtype_of_astype, dtype_eqb_refl. reflexivity.
Qed.

(** *** Merging dictionaries that agree with a reference *)


Lemma merge_variables_agree ref acc new :
  agrees ref acc -> agrees ref new ->
  exists res, merge_variables acc new = Ok res /\ agrees ref res /\
    (forall k v, lookup k acc = Some v -> lookup k res = Some v) /\
    (forall k v, In (k, v) new -> lookup k res = Some v).
Proof.
  revert acc. induction new as [|[k v] rest IH]; intros acc Hacc Hnew; simpl.
  - exists acc. repeat split; try assumption; auto. intros k v [].
  - assert (Hrest : agrees ref rest).
    { intros k' v' H. apply Hnew. right. exact H. }
    assert (Hkv : ref k = Some v) by (apply Hnew; left; reflexivity).
    destruct (lookup k acc) as [v'|] eqn:El.
    + assert (v' = v).
      { apply lookup_In in El. apply Hacc in El. congruence. }
      subst v'. rewrite var_eqb_refl.
      destruct (IH acc Hacc Hrest) as (res & Hm & Hag & Hkeep & Hin).
      exists res. repeat split; try assumption.
      intros k' v' [H | H]; [|apply Hin; exact H].
      injection H as <- <-. apply Hkeep. exact El.
    + assert (Hacc' : agrees ref (acc ++ (k, v) :: nil)).
      { intros k' v' H. apply in_app_or in H. destruct H as [H | [H | []]].
        - apply Hacc; exact H.
        - injection H as <- <-. exact Hkv. }
      destruct (IH _ Hacc' Hrest) as (res & Hm & Hag & Hkeep & Hin).
      exists res. repeat split; try assumption.
      * intros k' v' H. apply Hkeep. rewrite lookup_app, H. reflexivity.
      * intros k' v' [H | H]; [|apply Hin; exact H].
        injection H as <- <-. apply Hkeep.
        rewrite lookup_app, El. simpl. rewrite String.eqb_refl. reflexivity.
Qed.
End DowncastLemmas.

Section DowncastMerge.
Import Downcast.
Local Open Scope string_scope.
Local Open Scope list_scope.

Lemma union_names_In a b c : In c (union_names a b) <-> In c a \/ In c b.
Proof.
  unfold union_names. rewrite in_app_iff, filter_In. split.
  - intros [H | [H _]]; auto.
  - intros [H | H]; [left; exact H|].
    destruct (mem c a) eqn:E.
    + left. apply mem_In. exact E.
    + right. split; [exact H | reflexivity].
Qed.

Lemma union_names_absorb a b : (forall c, In c b -> In c a) -> union_names a b = a.
Proof.
  intros H. unfold union_names.
  replace (filter (fun k => negb (mem k a)) b) with (@nil string); [apply app_nil_r|].
  symmetry. induction b as [|x b IH]; simpl; [reflexivity|].
  assert (Hx : mem x a = true) by (apply mem_In, H; left; reflexivity).
  rewrite Hx. simpl. apply IH. intros c Hc. apply H. right. exact Hc.
Qed.

Lemma fold_union_In ls : forall init c,
  In c (fold_left union_names ls init) <-> In c init \/ exists l, In l ls /\ In c l.
Proof.
  induction ls as [|l ls IH]; intros init c; simpl.
  - split; [auto | intros [H | (l & [] & _)]; exact H].
  - rewrite IH, union_names_In. split.
    + intros [[H | H] | (l' & Hl' & Hc)]; eauto.
    + intros [H | (l' & [<- | Hl'] & Hc)]; eauto.
Qed.

Lemma lookup_keys {A} k (l : list (string * A)) : lookup k l <> None <-> In k (map fst l).
Proof.
  induction l as [|[k' v'] l IH]; simpl; [tauto|].
  destruct (String.eqb k k') eqn:E.
  - apply String.eqb_eq in E. subst. split; [auto | discriminate].
  - rewrite IH. split; [auto|]. intros [H | H]; [|exact H].
    subst. rewrite String.eqb_refl in E. discriminate.
Qed.

Lemma coords_In d c : In c (coords d) <-> In c (map fst (variables d)) /\ mem c (coord_names d) = true.
Proof. unfold coords. apply filter_In. Qed.

Lemma data_vars_In d c :
  In c (data_vars d) <-> In c (map fst (variables d)) /\ mem c (coord_names d) = false.
Proof. unfold data_vars. rewrite filter_In, negb_true_iff. tauto. Qed.

(** A name is among the variables named after a dimension when it is a
    variable and some variable lies along it. *)
Lemma dimension_variables_In vars k :
  In k (dimension_variables vars) <->
  In k (map fst vars) /\ exists k' v, In (k', v) vars /\ In k (map fst (dims v)).
Proof.
  unfold dimension_variables. rewrite filter_In, mem_In. split.
  - intros [Hk Hd]. split; [exact Hk|].
    apply in_map_iff in Hd. destruct Hd as ([d n] & Ed & Hd). simpl in Ed. subst d.
    apply in_flat_map in Hd. destruct Hd as ([k' v] & Hv & Hd). simpl in Hd.
    exists k', v. split; [exact Hv|]. apply (in_map fst) in Hd. exact Hd.
  - intros [Hk (k' & v & Hv & Hd)]. split; [exact Hk|].
    apply in_map_iff in Hd. destruct Hd as ([d n] & Ed & Hd). simpl in Ed. subst d.
    apply in_map_iff. exists (k, n). split; [reflexivity|].
    apply in_flat_map. exists (k', v). auto.
Qed.

(** *** Equal variables *)

Lemma list_eqb_eq {A} (eqb : A -> A -> bool) :
  (forall x y, eqb x y = true -> x = y) ->
  forall l l', list_eqb eqb l l' = true -> l = l'.
Proof.
  intros H. induction l as [|x l IH]; intros [|y l']; simpl; try discriminate; [reflexivity|].
  intros E. apply andb_true_iff in E. destruct E as [E1 E2].
  rewrite (H _ _ E1), (IH _ E2). reflexivity.
Qed.

Lemma var_eqb_dims v w : var_eqb v w = true -> dims v = dims w.
Proof.
  unfold var_eqb. intros H.
  apply andb_true_iff in H. destruct H as [H _].
  apply andb_true_iff in H. destruct H as [H _].
  apply andb_true_iff in H. destruct H as [H _].
  revert H. apply list_eqb_eq. intros [a n] [b m]. unfold pair_eqb. simpl.
  intros E. apply andb_true_iff in E. destruct E as [E1 E2].
  apply String.eqb_eq in E1. apply Nat.eqb_eq in E2. congruence.
Qed.

Lemma var_eqb_dtype v w : var_eqb v w = true -> dtype_of v = dtype_of w.
Proof.
  unfold var_eqb. intros H.
  apply andb_true_iff in H. destruct H as [H _].
  apply andb_true_iff in H. destruct H as [H _].
  apply andb_true_iff in H. destruct H as [_ H].
  apply dtype_eqb_eq. exact H.
Qed.

Lemma spec_float_eqb_eq a b : spec_float_eqb a b = true -> a = b.
Proof.
  destruct a as [s | s | | s m e], b as [s' | s' | | s' m' e']; simpl;
    intros H; try discriminate; try reflexivity.
  - apply Bool.eqb_prop in H. congruence.
  - apply Bool.eqb_prop in H. congruence.
  - apply andb_true_iff in H. destruct H as [H H3].
    apply andb_true_iff in H. destruct H as [H1 H2].
    apply Bool.eqb_prop in H1. apply Pos.eqb_eq in H2. apply Z.eqb_eq in H3. congruence.
Qed.

Lemma scalar_eqb_eq a b : scalar_eqb a b = true -> a = b.
Proof.
  destruct a as [x | x], b as [y | y]; simpl; intros H; try discriminate.
  - apply Z.eqb_eq in H. congruence.
  - apply spec_float_eqb_eq in H. congruence.
Qed.

(** The test of identity decides equality. *)
Lemma var_eqb_eq v w : var_eqb v w = true -> v = w.
Proof.
  intros H. assert (Hd := var_eqb_dims _ _ H). assert (Ht := var_eqb_dtype _ _ H).
  unfold var_eqb in H.
  apply andb_true_iff in H. destruct H as [H Ha].
  apply andb_true_iff in H. destruct H as [_ Hv].
  apply (list_eqb_eq _ scalar_eqb_eq) in Hv.
  assert (Ha' : vattrs v = vattrs w).
  { revert Ha. apply list_eqb_eq. intros [a x] [b y]. unfold pair_eqb. simpl.
    intros E. apply andb_true_iff in E. destruct E as [E1 E2].
    apply String.eqb_eq in E1. apply String.eqb_eq in E2. congruence. }
  destruct v, w. simpl in *. congruence.
Qed.

(** *** Merging variables *)

Lemma merge_variables_keep new : forall acc r k v,
  merge_variables acc new = Ok r -> lookup k acc = Some v -> lookup k r = Some v.
Proof.
  induction new as [|[k0 v0] rest IH]; intros acc r k v H Hk; simpl in H.
  - injection H as <-. exact Hk.
  - destruct (lookup k0 acc) as [v'|] eqn:E0.
    + destruct (var_eqb v0 v'); [|discriminate]. apply (IH _ _ _ _ H Hk).
    + apply (IH _ _ _ _ H). rewrite lookup_app, Hk. reflexivity.
Qed.

Lemma merge_variables_bound new : forall acc r k v,
  merge_variables acc new = Ok r -> lookup k new = Some v ->
  exists w, lookup k r = Some w /\ var_eqb v w = true.
Proof.
  induction new as [|[k0 v0] rest IH]; intros acc r k v H Hk; simpl in H, Hk; [discriminate|].
  destruct (String.eqb k k0) eqn:E.
  - apply String.eqb_eq in E. subst k0. injection Hk as ->.
    destruct (lookup k acc) as [v'|] eqn:E0.
    + destruct (var_eqb v v') eqn:Ev; [|discriminate].
      exists v'. split; [apply (merge_variables_keep _ _ _ _ _ H E0) | exact Ev].
    + exists v. split; [|apply var_eqb_refl].
      apply (merge_variables_keep _ _ _ _ _ H).
      rewrite lookup_app, E0. simpl. rewrite String.eqb_refl. reflexivity.
  - destruct (lookup k0 acc) as [v'|] eqn:E0.
    + destruct (var_eqb v0 v'); [|discriminate]. apply (IH _ _ _ _ H Hk).
    + apply (IH _ _ _ _ H Hk).
Qed.

Lemma merge_collected_keep ds : forall acc r k v,
  merge_collected acc ds = Ok r -> lookup k acc = Some v -> lookup k r = Some v.
Proof.
  induction ds as [|d rest IH]; intros acc r k v H Hk; simpl in H.
  - injection H as <-. exact Hk.
  - destruct (merge_variables acc (variables d)) as [vars|e] eqn:Em; simpl in H; [|discriminate].
    apply (IH _ _ _ _ H). apply (merge_variables_keep _ _ _ _ _ Em Hk).
Qed.

Lemma merge_collected_bound ds : forall acc r d k v,
  merge_collected acc ds = Ok r -> In d ds -> lookup k (variables d) = Some v ->
  exists w, lookup k r = Some w /\ var_eqb v w = true.
Proof.
  induction ds as [|d0 rest IH]; intros acc r d k v H Hd Hk; simpl in H; [destruct Hd|].
  destruct (merge_variables acc (variables d0)) as [vars|e] eqn:Em; simpl in H; [|discriminate].
  destruct Hd as [-> | Hd].
  - destruct (merge_variables_bound _ _ _ _ _ Em Hk) as (w & Hw & Ev).
    exists w. split; [apply (merge_collected_keep _ _ _ _ _ H Hw) | exact Ev].
  - apply (IH _ _ _ _ _ H Hd Hk).
Qed.

Lemma merge_collected_agree ref ds : forall acc,
  agrees ref acc ->
  (forall d, In d ds -> agrees ref (variables d)) ->
  exists res, merge_collected acc ds = Ok res /\ agrees ref res /\
    (forall d k v, In d ds -> In (k, v) (variables d) -> lookup k res = Some v).
Proof.
  induction ds as [|d0 rest IH]; intros acc Hacc Hds; simpl.
  - exists acc. split; [reflexivity|]. split; [exact Hacc|]. intros ? ? ? [].
  - destruct (merge_variables_agree ref acc (variables d0) Hacc (Hds d0 (or_introl eq_refl)))
      as (vars & Hm & Hag & Hkeep & Hin).
    rewrite Hm. simpl.
    destruct (IH vars Hag) as (res & Hres & Hag' & Hin').
    { intros d Hd. apply Hds. right. exact Hd. }
    exists res. split; [exact Hres|]. split; [exact Hag'|].
    intros d k v [<- | Hd] Hkv.
    + apply (merge_collected_keep _ _ _ _ _ Hres). apply Hin. exact Hkv.
    + apply (Hin' d k v Hd Hkv).
Qed.

(** *** The loop over the arguments *)

Lemma to_datasets_Ok objs : forall ds,
  to_datasets objs = Ok ds -> Forall2 (fun o d => as_dataset o = Ok d) objs ds.
Proof.
  induction objs as [|o rest IH]; intros ds H; simpl in H.
  - injection H as <-. constructor.
  - destruct (as_dataset o) as [d|e] eqn:Ed; simpl in H; [|discriminate].
    destruct (to_datasets rest) as [ds'|e] eqn:Er; simpl in H; [|discriminate].
    injection H as <-. constructor; [exact Ed | apply IH; reflexivity].
Qed.

Lemma to_datasets_all objs :
  (forall o, In o objs -> exists d, as_dataset o = Ok d) ->
  exists ds, to_datasets objs = Ok ds.
Proof.
  induction objs as [|o rest IH]; intros H; simpl; [eauto|].
  destruct (H o (or_introl eq_refl)) as [d ->]. simpl.
  destruct IH as [ds ->]; [intros o' Ho'; apply H; right; exact Ho'|].
  simpl. eauto.
Qed.

Lemma Forall2_In_l {A B} (R : A -> B -> Prop) l l' a :
  Forall2 R l l' -> In a l -> exists b, In b l' /\ R a b.
Proof.
  induction 1 as [|x y l l' Hxy _ IH]; intros Hin; [destruct Hin|].
  destruct Hin as [<- | Hin].
  - exists y. split; [left; reflexivity | exact Hxy].
  - destruct (IH Hin) as (b & Hb & Hab). exists b. split; [right; exact Hb | exact Hab].
Qed.

Lemma Forall2_In_r {A B} (R : A -> B -> Prop) l l' b :
  Forall2 R l l' -> In b l' -> exists a, In a l /\ R a b.
Proof.
  induction 1 as [|x y l l' Hxy _ IH]; intros Hin; [destruct Hin|].
  destruct Hin as [<- | Hin].
  - exists x. split; [left; reflexivity | exact Hxy].
  - destruct (IH Hin) as (a & Ha & Hab). exists a. split; [right; exact Ha | exact Hab].
Qed.

(** *** [merge_core] *)

(** What a successful merge returns. *)
Lemma merge_core_Ok ds res :
  merge_core ds = Ok res ->
  merge_collected nil ds = Ok (variables res) /\
  coord_names res = union_names (fst (determine_coords ds))
                                (dimension_variables (variables res)) /\
  attrs res = match ds with d :: _ => attrs d | nil => nil end /\
  forall k, In k (coord_names res) -> ~ In k (snd (determine_coords ds)).
Proof.
  unfold merge_core. intros H.
  destruct (merge_collected nil ds) as [vars|e]; cbv beta iota delta [bind] in H; [|discriminate].
  cbv zeta in H.
  destruct (existsb _ _) eqn:E; [discriminate|].
  injection H as <-. simpl. repeat split.
  intros k Hk Hn.
  assert (Ht : existsb (fun k => mem k (snd (determine_coords ds)))
                 (union_names (fst (determine_coords ds)) (dimension_variables vars)) = true).
  { apply existsb_exists. exists k. split; [exact Hk | apply mem_In; exact Hn]. }
  congruence.
Qed.

(** The coordinates of the merged dataset hold every variable of it that
    is named after a dimension. *)
Lemma merge_core_dimension_variables ds res :
  merge_core ds = Ok res ->
  forall k, In k (dimension_variables (variables res)) -> In k (coord_names res).
Proof.
  intros H k Hk. destruct (merge_core_Ok _ _ H) as (_ & -> & _).
  apply union_names_In. right. exact Hk.
Qed.

(** A data variable that lies along a dimension of its own name cannot be
    merged. *)
Lemma merge_core_ambiguous ds d k v :
  In d ds -> lookup k (variables d) = Some v -> mem k (coord_names d) = false ->
  In k (map fst (dims v)) ->
  exists e, merge_core ds = Raise e.
Proof.
  intros Hd Hk Hc Hdim.
  destruct (merge_core ds) as [res|e] eqn:E; [|eauto].
  exfalso.
  destruct (merge_core_Ok _ _ E) as (Hm & Hcn & _ & Hamb).
  destruct (merge_collected_bound _ _ _ _ _ _ Hm Hd Hk) as (w & Hw & Ev).
  apply (Hamb k).
  - rewrite Hcn. apply union_names_In. right. apply dimension_variables_In. split.
    + apply lookup_keys. congruence.
    + exists k, w. split; [apply lookup_In; exact Hw|].
      rewrite <- (var_eqb_dims _ _ Ev). exact Hdim.
  - unfold determine_coords. simpl. apply fold_union_In. right.
    exists (data_vars d). split; [apply in_map; exact Hd|].
    apply data_vars_In. split; [apply lookup_keys; congruence | exact Hc].
Qed.

(** Merging datasets that agree with a reference, when no data variable
    is a coordinate elsewhere or the name of a dimension. *)
Lemma merge_core_agree ref ds :
  (forall d, In d ds -> agrees ref (variables d)) ->
  (forall d d' k, In d ds -> In d' ds -> In k (data_vars d) -> ~ In k (coords d')) ->
  (forall d k k' v, In d ds -> In k (data_vars d) -> ref k' = Some v ->
     ~ In k (map fst (dims v))) ->
  exists res, merge_core ds = Ok res /\
    agrees ref (variables res) /\
    attrs res = match ds with d :: _ => attrs d | nil => nil end /\
    (forall d k v, In d ds -> In (k, v) (variables d) -> lookup k (variables res) = Some v) /\
    (forall d c, In d ds -> In c (coords d) -> In c (coord_names res)).
Proof.
  intros Hag Hco Hdim.
  destruct (merge_collected_agree ref ds nil) as (vars & Hm & Hagv & Hin).
  { intros k v []. }
  { exact Hag. }
  unfold merge_core. rewrite Hm. cbv beta iota delta [bind]. cbv zeta.
  destruct (existsb _ _) eqn:E.
  - exfalso. apply existsb_exists in E. destruct E as (k & Hk & Hn).
    apply mem_In in Hn. unfold determine_coords in Hn, Hk. simpl in Hn, Hk.
    apply fold_union_In in Hn. destruct Hn as [[] | (l & Hl & Hkl)].
    apply in_map_iff in Hl. destruct Hl as (d & <- & Hd).
    apply union_names_In in Hk. destruct Hk as [Hk | Hk].
    + apply fold_union_In in Hk. destruct Hk as [[] | (l' & Hl' & Hkl')].
      apply in_map_iff in Hl'. destruct Hl' as (d' & <- & Hd').
      apply (Hco d d' k Hd Hd' Hkl Hkl').
    + apply dimension_variables_In in Hk. destruct Hk as (_ & k' & v & Hv & Hkd).
      apply (Hdim d k k' v Hd Hkl (Hagv _ _ Hv) Hkd).
  - eexists. split; [reflexivity|]. simpl. split; [exact Hagv|]. split; [reflexivity|].
    split; [exact Hin|].
    intros d c Hd Hc. apply union_names_In. left.
    unfold determine_coords. simpl. apply fold_union_In. right.
    exists (coords d). split; [apply in_map; exact Hd | exact Hc].
Qed.

(** *** What the cell hands to [xr.merge] *)

Lemma narrowed_data_var dset nm T v :
  lookup nm (variables dset) = Some v ->
  narrowed dset nm T = Ok (PDataArray (narrowed_array dset nm T v)).
Proof.
  intros H. unfold narrowed, getattr. rewrite H. reflexivity.
Qed.

Lemma attached_coords_In dset v k cv :
  In (k, cv) (attached_coords dset v) <->
  In (k, cv) (variables dset) /\ mem k (coord_names dset) = true /\ subset_dims cv v = true.
Proof.
  unfold attached_coords. rewrite filter_In. simpl. rewrite andb_true_iff. tauto.
Qed.

Lemma targets_lookup nm T : In (nm, T) targets -> lookup nm targets = Some T.
Proof.
  intros H. apply In_lookup; [|exact H].
  unfold targets. simpl.
  repeat (constructor; [simpl; intuition discriminate|]). constructor.
Qed.

Lemma vattrs_astype T v : vattrs (astype T v) = vattrs v.
Proof. unfold astype. destruct (dtype_eqb (dtype_of v) T); reflexivity. Qed.

Lemma dims_astype T v : dims (astype T v) = dims v.
Proof. unfold astype. destruct (dtype_eqb (dtype_of v) T); reflexivity. Qed.

(** A dataset that has been opened holds its dimension variables among
    its coordinates. *)
Lemma open_dataset_dimension_variables fs path dset k :
  open_dataset fs path = Ok dset ->
  In k (dimension_variables (variables dset)) -> mem k (coord_names dset) = true.
Proof.
  unfold open_dataset. destruct (lookup path fs) as [f|]; [|discriminate].
  intros H. injection H as <-. simpl. intros Hk.
  apply mem_In, union_names_In. right. exact Hk.
Qed.

(** What is stored with its dimension variables among the coordinates
    reads back as it is. *)
Lemma open_dataset_set_item fs path d :
  (forall k, In k (dimension_variables (variables d)) -> In k (coord_names d)) ->
  open_dataset (set_item path d fs) path = Ok d.
Proof.
  intros H. unfold open_dataset. rewrite lookup_set_item, String.eqb_refl.
  rewrite (union_names_absorb _ _ H). destruct d; reflexivity.
Qed.

Section OneDataset.
Variable dset : Dataset.
Hypothesis Hnodup : NoDup (map fst (variables dset)).
Hypothesis Hdata : forall nm T, In (nm, T) targets ->
  exists v, lookup nm (variables dset) = Some v /\ mem nm (coord_names dset) = false.

Lemma coord_not_target k : mem k (coord_names dset) = true -> lookup k targets = None.
Proof.
  intros Hk. destruct (lookup k targets) as [T|] eqn:E; [|reflexivity].
  apply lookup_In in E. destruct (Hdata _ _ E) as (v & _ & Hm). congruence.
Qed.

Lemma to_dataset_narrowed nm T v :
  In (nm, T) targets -> lookup nm (variables dset) = Some v ->
  exists d, as_dataset (PDataArray (narrowed_array dset nm T v)) = Ok d /\
    variables d = attached_coords dset v ++ (nm, astype T v) :: nil /\
    coord_names d = map fst (attached_coords dset v) /\
    attrs d = map (fun kv => (fst kv, AStr (snd kv))) (vattrs (astype T v)) /\
    agrees (expected dset) (variables d).
Proof.
  intros Hin Hv. simpl. unfold to_dataset. simpl.
  destruct (Hdata _ _ Hin) as (v' & Hv' & Hm).
  destruct (mem nm (map fst (attached_coords dset v))) eqn:E.
  - exfalso. apply mem_In in E. apply in_map_iff in E.
    destruct E as [[k cv] [Ek Hk]]. simpl in Ek. subst k.
    apply attached_coords_In in Hk. destruct Hk as (_ & Hc & _). congruence.
  - eexists. split; [reflexivity|]. simpl. repeat split.
    intros k w H. apply in_app_or in H. destruct H as [H | [H | []]].
    + apply attached_coords_In in H. destruct H as (H1 & H2 & _).
      unfold expected. rewrite (coord_not_target k H2), H2.
      apply In_lookup; assumption.
    + injection H as <- <-. unfold expected.
      rewrite (targets_lookup _ _ Hin), Hv. reflexivity.
Qed.

(** The data variable of such a dataset is the targeted one; its
    coordinates are coordinates of the source. *)
Lemma narrowed_data_vars nm T v d k :
  In (nm, T) targets -> lookup nm (variables dset) = Some v ->
  as_dataset (PDataArray (narrowed_array dset nm T v)) = Ok d ->
  (In k (data_vars d) -> k = nm) /\
  (In k (coords d) -> mem k (coord_names dset) = true).
Proof.
  intros Hin Hv Hd.
  destruct (to_dataset_narrowed nm T v Hin Hv) as (d' & Hd' & Hvd & Hcd & _ & _).
  rewrite Hd in Hd'. injection Hd' as <-.
  assert (Hatt : forall c, In c (map fst (attached_coords dset v)) ->
            mem c (coord_names dset) = true).
  { intros c Hc. apply in_map_iff in Hc. destruct Hc as ([c' cv] & <- & Hc).
    apply attached_coords_In in Hc. simpl. tauto. }
  split.
  - intros Hk. apply data_vars_In in Hk. destruct Hk as [Hk Hm].
    rewrite Hvd, map_app, in_app_iff in Hk. simpl in Hk.
    destruct Hk as [Hk | [Hk | []]]; [|symmetry; exact Hk].
    rewrite Hcd in Hm. apply mem_In in Hk. congruence.
  - intros Hk. apply coords_In in Hk. destruct Hk as [_ Hm].
    rewrite Hcd in Hm. apply mem_In in Hm. apply Hatt. exact Hm.
Qed.

(** What the reference prescribes lies along dimensions of the source. *)
Lemma expected_dims k v d :
  expected dset k = Some v -> In d (map fst (dims v)) ->
  In d (map fst (flat_map (fun kv => dims (snd kv)) (variables dset))).
Proof.
  unfold expected. intros H Hd.
  assert (Hsrc : exists v0, lookup k (variables dset) = Some v0 /\ dims v = dims v0).
  { destruct (lookup k targets) as [T|].
    - destruct (lookup k (variables dset)) as [v0|]; simpl in H; [|discriminate].
      injection H as <-. exists v0. split; [reflexivity | apply dims_astype].
    - destruct (mem k (coord_names dset)); [|discriminate].
      exists v. split; [exact H | reflexivity]. }
  destruct Hsrc as (v0 & Hv0 & Ed). rewrite Ed in Hd.
  apply in_map_iff in Hd. destruct Hd as ([d' n] & <- & Hd).
  apply in_map_iff. exists (d', n). split; [reflexivity|].
  apply in_flat_map. exists (k, v0). split; [apply lookup_In; exact Hv0 | exact Hd].
Qed.
End OneDataset.
End DowncastMerge.

Section DowncastCell.
Import Downcast.
Local Open Scope string_scope.
Local Open Scope list_scope.

Lemma encode_present enc vars :
  (forall k T, In (k, T) enc -> exists v, lookup k vars = Some (astype T v)) ->
  encode enc vars = Ok vars.
Proof.
  induction enc as [|[k T] rest IH]; intros H; simpl; [reflexivity|].
  destruct (H k T (or_introl eq_refl)) as [v Hv].
  rewrite Hv, astype_idem, (set_item_same _ _ _ Hv).
  apply IH. intros k' T' H'. apply H. right. exact H'.
Qed.

Lemma encoding_targets k T : In (k, T) encoding -> In (k, T) targets.
Proof. unfold encoding, targets. simpl. intuition. Qed.

Lemma title_text :
  (dname ++ " experiment" = lower (upper dname) ++ " experiment")%string.
Proof. reflexivity. Qed.

End DowncastCell.
(** ** The dtype downcast: what the cell writes, for every file system *)

Section DowncastFailure.
Import Downcast.
Local Open Scope string_scope.
Local Open Scope list_scope.

(** [dset.NAME.astype(T)] for a name that is not a variable: it raises;
    or an attribute answers with a bare numpy array; or a dimension
    answers, with a data array over its index. *)
Lemma narrowed_absent dset nm T :
  lookup nm (variables dset) = None ->
  (exists e, narrowed dset nm T = Raise e) \/
  (exists dt xs, narrowed dset nm T = Ok (PNdarray dt xs)) \/
  (exists n, narrowed dset nm T
             = Ok (PDataArray (narrowed_array dset nm T (virtual_variable nm n)))).
Proof.
  intros Hv. unfold narrowed, getattr. rewrite Hv.
  destruct (lookup nm (sizes dset)) as [n|].
  - right. right. exists n. reflexivity.
  - destruct (lookup nm (attrs dset)) as [[s | dt xs]|]; simpl.
    + left. eauto.
    + right. left. eauto.
    + left. eauto.
Qed.

Lemma to_datasets_ndarray objs dt xs :
  In (PNdarray dt xs) objs -> exists e, to_datasets objs = Raise e.
Proof.
  induction objs as [|o rest IH]; intros Hin; [destruct Hin|].
  simpl. destruct Hin as [-> | Hin].
  - simpl. eauto.
  - destruct (as_dataset o) as [d|e]; simpl; [|eauto].
    destruct (IH Hin) as [e ->]. simpl. eauto.
Qed.

Lemma merge_ndarray objs dt xs :
  In (PNdarray dt xs) objs -> exists e, merge objs = Raise e.
Proof.
  intros Hin. unfold merge.
  destruct (to_datasets_ndarray objs dt xs Hin) as [e ->]. simpl. eauto.
Qed.

(** The index of a dimension, handed to [xr.merge] under the name of the
    dimension, is a data variable named after a dimension: the merge
    raises. *)
Lemma merge_virtual objs dset nm T n :
  In (PDataArray (narrowed_array dset nm T (virtual_variable nm n))) objs ->
  exists e, merge objs = Raise e.
Proof.
  intros Hin. unfold merge.
  destruct (to_datasets objs) as [ds|e] eqn:E; cbv beta iota delta [bind]; [|eauto].
  destruct (Forall2_In_l _ _ _ _ (to_datasets_Ok _ _ E) Hin) as (d & Hd & Ho).
  simpl in Ho. unfold to_dataset in Ho. simpl in Ho.
  destruct (mem nm (map fst (attached_coords dset (virtual_variable nm n)))) eqn:Em;
    [discriminate|].
  injection Ho as Ho.
  apply (merge_core_ambiguous ds d nm (astype T (virtual_variable nm n)) Hd).
  - rewrite <- Ho. simpl. rewrite lookup_app.
    destruct (lookup nm (attached_coords dset (virtual_variable nm n))) as [w|] eqn:El.
    + exfalso. apply lookup_In in El. apply (in_map fst) in El. simpl in El.
      apply mem_In in El. congruence.
    + simpl. rewrite String.eqb_refl. reflexivity.
  - rewrite <- Ho. simpl. exact Em.
  - rewrite dims_astype. simpl. left. reflexivity.
Qed.

Lemma make_dset2_absent dset nm T :
  In (nm, T) targets ->
  lookup nm (variables dset) = None ->
  exists e, make_dset2 dset = Raise e.
Proof.
  intros Hin Hv.
  destruct (narrowed_absent dset nm T Hv) as [[e He] | [(dt & xs & He) | (n & He)]];
    unfold make_dset2, merge_arguments;
    unfold targets in Hin; simpl in Hin;
    destruct Hin as [E|[E|[E|[E|[E|[E|[]]]]]]]; injection E; intros; subst nm T;
    destruct (narrowed dset "ID" int32) as [a1|e1];
      cbv beta iota delta [bind]; eauto;
    destruct (narrowed dset "rowsize" int32) as [a2|e2];
      cbv beta iota delta [bind]; eauto;
    destruct (narrowed dset "ve" float32) as [a3|e3];
      cbv beta iota delta [bind]; eauto;
    destruct (narrowed dset "vn" float32) as [a4|e4];
      cbv beta iota delta [bind]; eauto;
    destruct (narrowed dset "longitude" float32) as [a5|e5];
      cbv beta iota delta [bind]; eauto;
    destruct (narrowed dset "latitude" float32) as [a6|e6];
      cbv beta iota delta [bind]; eauto;
    try discriminate;
    injection He as ->;
    match goal with
    | |- exists e, match merge ?objs with _ => _ end = _ =>
        let H := fresh in
        assert (H : exists e, merge objs = Raise e)
          by (first [ apply (merge_ndarray _ dt xs); simpl; tauto
                    | eapply merge_virtual; simpl; tauto ]);
        destruct H as [e' ->]; eauto
    end.
Qed.

(** The two ways a missing [rowsize] shows: no such name at all, or a
    dimension of that name. *)
Lemma missing_rowsize_raises :
  cell example_fs_incomplete = (Raise AttributeError, example_fs_incomplete) /\
  cell example_fs_dimension = (Raise MergeError, example_fs_dimension).
Proof. split; vm_compute; reflexivity. Qed.

End DowncastFailure.

Section DowncastKeys.
Import Downcast.
Local Open Scope string_scope.
Local Open Scope list_scope.

(** Every variable of every argument is bound in the merged dataset, to
    an identical variable. *)
Lemma merge_bound objs res :
  merge objs = Ok res ->
  forall o, In o objs -> exists d, as_dataset o = Ok d /\
    forall k v, lookup k (variables d) = Some v ->
      exists w, lookup k (variables res) = Some w /\ var_eqb v w = true.
Proof.
  unfold merge. intros H o Ho.
  destruct (to_datasets objs) as [ds|e] eqn:E; cbv beta iota delta [bind] in H; [|discriminate].
  destruct (Forall2_In_l _ _ _ _ (to_datasets_Ok _ _ E) Ho) as (d & Hd & Hod).
  exists d. split; [exact Hod|]. intros k v Hk.
  destruct (merge_core_Ok _ _ H) as (Hm & _).
  apply (merge_collected_bound _ _ _ _ _ _ Hm Hd Hk).
Qed.

Lemma merge_dimension_variables objs res :
  merge objs = Ok res ->
  forall k, In k (dimension_variables (variables res)) -> In k (coord_names res).
Proof.
  unfold merge. intros H.
  destruct (to_datasets objs) as [ds|e]; cbv beta iota delta [bind] in H; [|discriminate].
  apply (merge_core_dimension_variables _ _ H).
Qed.

(** The dataset the cell builds holds each of the six targeted names,
    bound to the variable of the source cast to the target type; its
    dimension variables are coordinates; it has the title. *)
Lemma make_dset2_targets dset d2 :
  make_dset2 dset = Ok d2 ->
  (forall nm T, In (nm, T) targets ->
     exists v, lookup nm (variables dset) = Some v /\
       lookup nm (variables d2) = Some (astype T v)) /\
  (forall k, In k (dimension_variables (variables d2)) -> In k (coord_names d2)) /\
  lookup "title" (attrs d2) = Some (AStr "laser experiment").
Proof.
  intros H.
  assert (Hpresent : forall nm T, In (nm, T) targets ->
            exists v, lookup nm (variables dset) = Some v).
  { intros nm T Hin. destruct (lookup nm (variables dset)) as [v|] eqn:E; [eauto|].
    destruct (make_dset2_absent dset nm T Hin E) as [e He]. congruence. }
  unfold make_dset2, merge_arguments in H.
  destruct (narrowed dset "ID" int32) as [a1|] eqn:E1; cbv beta iota delta [bind] in H; [|discriminate].
  destruct (narrowed dset "rowsize" int32) as [a2|] eqn:E2; cbv beta iota delta [bind] in H; [|discriminate].
  destruct (narrowed dset "ve" float32) as [a3|] eqn:E3; cbv beta iota delta [bind] in H; [|discriminate].
  destruct (narrowed dset "vn" float32) as [a4|] eqn:E4; cbv beta iota delta [bind] in H; [|discriminate].
  destruct (narrowed dset "longitude" float32) as [a5|] eqn:E5; cbv beta iota delta [bind] in H; [|discriminate].
  destruct (narrowed dset "latitude" float32) as [a6|] eqn:E6; cbv beta iota delta [bind] in H; [|discriminate].
  destruct (merge (a1 :: a2 :: a3 :: a4 :: a5 :: a6 :: nil)) as [d|] eqn:Em;
    cbv beta iota delta [bind] in H; [|discriminate].
  injection H as <-. simpl. split; [|split].
  - intros nm T Hin. destruct (Hpresent nm T Hin) as [v Hv].
    exists v. split; [exact Hv|].
    assert (Hk := merge_bound _ _ Em).
    assert (Hgen : forall a, In a (a1 :: a2 :: a3 :: a4 :: a5 :: a6 :: nil) ->
              narrowed dset nm T = Ok a ->
              lookup nm (variables d) = Some (astype T v)).
    { intros a Ha Ea. destruct (Hk a Ha) as (d' & Hd' & Hsub).
      rewrite (narrowed_data_var _ _ _ _ Hv) in Ea. injection Ea as <-.
      simpl in Hd'. unfold to_dataset in Hd'. simpl in Hd'.
      destruct (mem nm (map fst (attached_coords dset v))) eqn:Ec; [discriminate|].
      injection Hd' as <-.
      destruct (Hsub nm (astype T v)) as (w & Hw & Ev).
      { simpl. rewrite lookup_app.
        destruct (lookup nm (attached_coords dset v)) as [w|] eqn:El.
        - exfalso. apply lookup_In in El. apply (in_map fst) in El. simpl in El.
          apply mem_In in El. congruence.
        - simpl. rewrite String.eqb_refl. reflexivity. }
      rewrite (var_eqb_eq _ _ Ev). exact Hw. }
    unfold targets in Hin. simpl in Hin.
    destruct Hin as [E|[E|[E|[E|[E|[E|[]]]]]]]; injection E; intros; subst nm T.
    + apply (Hgen a1); [simpl; tauto | exact E1].
    + apply (Hgen a2); [simpl; tauto | exact E2].
    + apply (Hgen a3); [simpl; tauto | exact E3].
    + apply (Hgen a4); [simpl; tauto | exact E4].
    + apply (Hgen a5); [simpl; tauto | exact E5].
    + apply (Hgen a6); [simpl; tauto | exact E6].
  - apply (merge_dimension_variables _ _ Em).
  - rewrite lookup_set_item. reflexivity.
Qed.

Lemma encode_total enc : forall vars,
  (forall k T, In (k, T) enc -> lookup k vars <> None) ->
  exists vars', encode enc vars = Ok vars'.
Proof.
  induction enc as [|[k T] rest IH]; intros vars H; simpl; [eauto|].
  destruct (lookup k vars) as [v|] eqn:E.
  - apply IH. intros k' T' Hin. rewrite lookup_set_item.
    destruct (String.eqb k' k); [discriminate|]. apply (H k' T'). right. exact Hin.
  - exfalso. apply (H k T); [left; reflexivity | exact E].
Qed.

(** Encoding leaves a variable as it is when it has the type the
    encoding asks for. *)
Lemma encode_fixed enc : forall vars vars' k T v,
  encode enc vars = Ok vars' -> lookup k vars = Some (astype T v) ->
  (forall T', In (k, T') enc -> T' = T) ->
  lookup k vars' = Some (astype T v).
Proof.
  induction enc as [|[k0 T0] rest IH]; intros vars vars' k T v H Hk HT; simpl in H.
  - injection H as <-. exact Hk.
  - destruct (lookup k0 vars) as [v0|] eqn:E0; [|discriminate].
    apply (IH _ _ k T v H).
    + rewrite lookup_set_item. destruct (String.eqb k k0) eqn:E; [|exact Hk].
      apply String.eqb_eq in E. subst k0.
      rewrite (HT T0 (or_introl eq_refl)).
      assert (v0 = astype T v) by congruence. subst v0.
      rewrite astype_idem. reflexivity.
    + intros T' HT'. apply HT. right. exact HT'.
Qed.

(** Encoding keeps the names and the dimensions, in their order. *)
Lemma set_item_dims k v v' (l : list (string * Var)) :
  lookup k l = Some v -> dims v' = dims v ->
  map fst (set_item k v' l) = map fst l /\
  flat_map (fun kv => dims (snd kv)) (set_item k v' l)
  = flat_map (fun kv => dims (snd kv)) l.
Proof.
  induction l as [|[k0 v0] l IH]; simpl; [discriminate|].
  destruct (String.eqb k k0) eqn:E.
  - intros H Hd. injection H as ->. apply String.eqb_eq in E. subst k0.
    simpl. rewrite Hd. split; reflexivity.
  - intros H Hd. destruct (IH H Hd) as [H1 H2]. simpl. rewrite H1, H2. split; reflexivity.
Qed.

Lemma encode_dimension_variables enc : forall vars vars',
  encode enc vars = Ok vars' -> dimension_variables vars' = dimension_variables vars.
Proof.
  induction enc as [|[k0 T0] rest IH]; intros vars vars' H; simpl in H.
  - injection H as <-. reflexivity.
  - destruct (lookup k0 vars) as [v0|] eqn:E0; [|discriminate].
    rewrite (IH _ _ H). unfold dimension_variables.
    destruct (set_item_dims k0 v0 (astype T0 v0) vars E0 (dims_astype T0 v0)) as [-> ->].
    reflexivity.
Qed.

Lemma paths_differ : String.eqb input_path output_path = false.
Proof. reflexivity. Qed.

Lemma set_item_idem {A} k (v : A) l : set_item k v (set_item k v l) = set_item k v l.
Proof.
  apply set_item_same. rewrite lookup_set_item, String.eqb_refl. reflexivity.
Qed.

(** The cell, for every file system: it raises and changes nothing, or it
    returns and has bound the output path, and only that path. *)
Lemma cell_cases fs :
  (exists e, cell fs = (Raise e, fs)) \/
  (exists dset dset2 vars,
     open_dataset fs input_path = Ok dset /\ make_dset2 dset = Ok dset2 /\
     encode encoding (variables dset2) = Ok vars /\
     cell fs = (Ok tt, set_item output_path
                         (mkDataset vars (coord_names dset2) (attrs dset2)) fs)).
Proof.
  unfold cell.
  destruct (open_dataset fs input_path) as [dset|e] eqn:Eo; [|left; eauto].
  destruct (make_dset2 dset) as [d2|e] eqn:Em; [|left; eauto].
  destruct (encode_total encoding (variables d2)) as [vars Hv].
  { intros k T Hin. destruct (make_dset2_targets dset d2 Em) as (Ht & _).
    destruct (Ht k T (encoding_targets _ _ Hin)) as (w & _ & Hw). congruence. }
  right. exists dset, d2, vars. unfold to_netcdf. rewrite Hv. auto.
Qed.

(** What a successful run has written: each of the six targeted
    variables of the source, cast to its target type, and the title, in a
    file that reads back as written. *)
Lemma cell_written fs :
  (exists e, cell fs = (Raise e, fs)) \/
  (exists dset out,
     open_dataset fs input_path = Ok dset /\
     cell fs = (Ok tt, set_item output_path out fs) /\
     open_dataset (set_item output_path out fs) output_path = Ok out /\
     (forall nm T, In (nm, T) targets ->
        exists v, lookup nm (variables dset) = Some v /\
          lookup nm (variables out) = Some (astype T v)) /\
     lookup "title" (attrs out) = Some (AStr "laser experiment")).
Proof.
  destruct (cell_cases fs) as [H | (dset & d2 & vars & Ho & Hm & He & Hc)]; [left; exact H|].
  right. destruct (make_dset2_targets dset d2 Hm) as (Ht & Hdv & Htitle).
  exists dset. eexists. split; [exact Ho|]. split; [exact Hc|]. split; [|split].
  - apply open_dataset_set_item. simpl.
    rewrite (encode_dimension_variables _ _ _ He). exact Hdv.
  - intros nm T Hin. simpl.
    destruct (Ht nm T Hin) as (v & Hv & Hw).
    exists v. split; [exact Hv|].
    apply (encode_fixed _ _ _ _ _ _ He Hw).
    intros T' HT'.
    assert (E1 := targets_lookup _ _ Hin).
    assert (E2 := targets_lookup _ _ (encoding_targets _ _ HT')). congruence.
  - exact Htitle.
Qed.
End DowncastKeys.

Section DowncastResult.
Import Downcast.
Local Open Scope string_scope.
Local Open Scope list_scope.

(** Running the cell again on the file system it has produced changes
    nothing more. *)
Lemma cell_again fs fs' : cell fs = (Ok tt, fs') -> cell fs' = (Ok tt, fs').
Proof.
  intros H.
  destruct (cell_cases fs) as [[e He] | (dset & d2 & vars & Ho & Hm & He & Hc)].
  - rewrite He in H. discriminate.
  - rewrite Hc in H. injection H as <-.
    assert (Ho' : open_dataset (set_item output_path
                    (mkDataset vars (coord_names d2) (attrs d2)) fs) input_path = Ok dset).
    { unfold open_dataset. rewrite lookup_set_item, paths_differ. exact Ho. }
    unfold cell. rewrite Ho', Hm. unfold to_netcdf. rewrite He.
    rewrite set_item_idem. reflexivity.
Qed.

(** The result of the cell on a dataset whose targeted names are data
    variables. *)
Lemma cell_success fs dset :
  open_dataset fs input_path = Ok dset ->
  NoDup (map fst (variables dset)) ->
  (forall nm T, In (nm, T) targets ->
     exists v, lookup nm (variables dset) = Some v /\ mem nm (coord_names dset) = false) ->
  exists res v1,
    lookup "ID" (variables dset) = Some v1 /\
    attrs res = map (fun kv => (fst kv, AStr (snd kv))) (vattrs v1) /\
    agrees (expected dset) (variables res) /\
    (forall nm T v, In (nm, T) targets -> lookup nm (variables dset) = Some v ->
       lookup nm (variables res) = Some (astype T v)) /\
    (forall c cv nm T v, In (nm, T) targets -> lookup nm (variables dset) = Some v ->
       mem c (coord_names dset) = true -> lookup c (variables dset) = Some cv ->
       subset_dims cv v = true ->
       lookup c (variables res) = Some cv /\ mem c (coord_names res) = true) /\
    open_dataset (set_item output_path (set_title res) fs) output_path = Ok (set_title res) /\
    cell fs = (Ok tt, set_item output_path (set_title res) fs).
Proof.
  intros Hopen Hnd Hdata.
  destruct (Hdata "ID" int32) as (v1 & H1 & _); [simpl; auto|].
  destruct (Hdata "rowsize" int32) as (v2 & H2 & _); [simpl; auto|].
  destruct (Hdata "ve" float32) as (v3 & H3 & _); [simpl; auto 10|].
  destruct (Hdata "vn" float32) as (v4 & H4 & _); [simpl; auto 10|].
  destruct (Hdata "longitude" float32) as (v5 & H5 & _); [simpl; auto 10|].
  destruct (Hdata "latitude" float32) as (v6 & H6 & _); [simpl; auto 10|].
  set (objs := PDataArray (narrowed_array dset "ID" int32 v1)
                :: PDataArray (narrowed_array dset "rowsize" int32 v2)
                :: PDataArray (narrowed_array dset "ve" float32 v3)
                :: PDataArray (narrowed_array dset "vn" float32 v4)
                :: PDataArray (narrowed_array dset "longitude" float32 v5)
                :: PDataArray (narrowed_array dset "latitude" float32 v6) :: nil).
  assert (Hargs : merge_arguments dset = Ok objs).
  { unfold merge_arguments.
    rewrite (narrowed_data_var _ _ _ _ H1), (narrowed_data_var _ _ _ _ H2),
      (narrowed_data_var _ _ _ _ H3), (narrowed_data_var _ _ _ _ H4),
      (narrowed_data_var _ _ _ _ H5), (narrowed_data_var _ _ _ _ H6).
    reflexivity. }
  assert (Hall : forall nm T v, In (nm, T) targets -> lookup nm (variables dset) = Some v ->
            In (PDataArray (narrowed_array dset nm T v)) objs).
  { intros nm T v Hin Hv. unfold targets in Hin. simpl in Hin. unfold objs.
    destruct Hin as [E|[E|[E|[E|[E|[E|[]]]]]]]; injection E; intros; subst nm T.
    - replace v with v1 by congruence; simpl; tauto.
    - replace v with v2 by congruence; simpl; tauto.
    - replace v with v3 by congruence; simpl; tauto.
    - replace v with v4 by congruence; simpl; tauto.
    - replace v with v5 by congruence; simpl; tauto.
    - replace v with v6 by congruence; simpl; tauto. }
  assert (Hobjs : forall o, In o objs -> exists nm T v,
            In (nm, T) targets /\ lookup nm (variables dset) = Some v /\
            o = PDataArray (narrowed_array dset nm T v)).
  { intros o Ho. unfold objs in Ho. simpl in Ho.
    destruct Ho as [E|[E|[E|[E|[E|[E|[]]]]]]]; subst o;
      do 3 eexists; (split; [|split; [|reflexivity]]); simpl; eauto 10. }
  destruct (to_datasets_all objs) as [ds Hds].
  { intros o Ho. destruct (Hobjs o Ho) as (nm & T & v & Hin & Hv & ->).
    destruct (to_dataset_narrowed dset Hnd Hdata nm T v Hin Hv) as (d & Hd & _). eauto. }
  assert (HF := to_datasets_Ok _ _ Hds).
  assert (Hsrc : forall d, In d ds -> exists nm T v,
            In (nm, T) targets /\ lookup nm (variables dset) = Some v /\
            as_dataset (PDataArray (narrowed_array dset nm T v)) = Ok d).
  { intros d Hd. destruct (Forall2_In_r _ _ _ _ HF Hd) as (o & Ho & Hod).
    destruct (Hobjs o Ho) as (nm & T & v & Hin & Hv & ->). eauto 10. }
  assert (Htarget : forall nm T, In (nm, T) targets ->
            ~ In nm (map fst (flat_map (fun kv => dims (snd kv)) (variables dset)))).
  { intros nm T Hin Hdim. destruct (Hdata nm T Hin) as (v & Hv & Hm).
    assert (Hc : mem nm (coord_names dset) = true).
    { apply (open_dataset_dimension_variables _ _ _ _ Hopen).
      unfold dimension_variables. apply filter_In. split.
      - apply lookup_keys. congruence.
      - apply mem_In. exact Hdim. }
    congruence. }
  destruct (merge_core_agree (expected dset) ds) as (res & Hres & Hag & Hat & Hin & Hco).
  { intros d Hd. destruct (Hsrc d Hd) as (nm & T & v & Hi & Hv & Ed).
    destruct (to_dataset_narrowed dset Hnd Hdata nm T v Hi Hv) as (d' & Hd' & _ & _ & _ & Hagd).
    assert (d' = d) by congruence. subst d'. exact Hagd. }
  { intros d d' k Hd Hd' Hk Hk'.
    destruct (Hsrc d Hd) as (nm & T & v & Hi & Hv & Ed).
    destruct (Hsrc d' Hd') as (nm' & T' & v' & Hi' & Hv' & Ed').
    destruct (narrowed_data_vars dset Hnd Hdata nm T v d k Hi Hv Ed) as [Hk1 _].
    destruct (narrowed_data_vars dset Hnd Hdata nm' T' v' d' k Hi' Hv' Ed') as [_ Hk2].
    specialize (Hk1 Hk). subst k. specialize (Hk2 Hk').
    destruct (Hdata nm T Hi) as (? & _ & Hm). congruence. }
  { intros d k k' v Hd Hk Hr Hdim.
    destruct (Hsrc d Hd) as (nm & T & v0 & Hi & Hv & Ed).
    destruct (narrowed_data_vars dset Hnd Hdata nm T v0 d k Hi Hv Ed) as [Hk1 _].
    specialize (Hk1 Hk). subst k.
    apply (Htarget nm T Hi). apply (expected_dims dset k' v nm Hr Hdim). }
  assert (Hds1 : exists d1 rest, ds = d1 :: rest /\
            as_dataset (PDataArray (narrowed_array dset "ID" int32 v1)) = Ok d1).
  { unfold objs in HF. inversion HF as [|? d1 ? rest Hd1 _]; subst. eauto. }
  destruct Hds1 as (d1 & rest & Eds & Hd1).
  assert (Hmerge : merge objs = Ok res).
  { unfold merge. rewrite Hds. exact Hres. }
  assert (Hobj : forall nm T v, In (nm, T) targets -> lookup nm (variables dset) = Some v ->
            exists d, In d ds /\ as_dataset (PDataArray (narrowed_array dset nm T v)) = Ok d).
  { intros nm T v Hi Hv.
    destruct (Forall2_In_l _ _ _ _ HF (Hall nm T v Hi Hv)) as (d & Hd & Hod). eauto. }
  assert (Hvar : forall nm T v, In (nm, T) targets -> lookup nm (variables dset) = Some v ->
            lookup nm (variables res) = Some (astype T v)).
  { intros nm T v Hi Hv. destruct (Hobj nm T v Hi Hv) as (d & Hd & Hod).
    destruct (to_dataset_narrowed dset Hnd Hdata nm T v Hi Hv) as (d' & Hd' & Hvd & _).
    assert (d' = d) by congruence. subst d'.
    apply (Hin d); [exact Hd|]. rewrite Hvd. apply in_or_app. right. left. reflexivity. }
  assert (Hcell : cell fs = (Ok tt, set_item output_path (set_title res) fs)).
  { unfold cell. rewrite Hopen. unfold make_dset2. rewrite Hargs.
    cbv beta iota delta [bind]. rewrite Hmerge.
    cbv beta iota. unfold to_netcdf.
    rewrite encode_present; [reflexivity|].
    intros k T Hi. apply encoding_targets in Hi.
    destruct (Hdata k T Hi) as (v & Hv & _).
    exists v. simpl. apply Hvar; assumption. }
  exists res, v1. split; [exact H1|]. split.
  { destruct (to_dataset_narrowed dset Hnd Hdata "ID" int32 v1) as (d & Hd & _ & _ & Had & _);
      [simpl; tauto | exact H1 |].
    rewrite Hd in Hd1. injection Hd1 as <-. rewrite Hat, Eds, Had, vattrs_astype. reflexivity. }
  split; [exact Hag|]. split; [exact Hvar|]. split.
  { intros c cv nm T v Hi Hv Hc Hcv Hsub.
    destruct (Hobj nm T v Hi Hv) as (d & Hd & Hod).
    destruct (to_dataset_narrowed dset Hnd Hdata nm T v Hi Hv) as (d' & Hd' & Hvd & Hcd & _).
    assert (d' = d) by congruence. subst d'.
    assert (Hatt : In (c, cv) (attached_coords dset v)).
    { apply attached_coords_In. split; [apply lookup_In; exact Hcv|]. split; assumption. }
    split.
    - apply (Hin d); [exact Hd|]. rewrite Hvd. apply in_or_app. left. exact Hatt.
    - apply mem_In. apply (Hco d); [exact Hd|]. apply coords_In.
      apply (in_map fst) in Hatt. simpl in Hatt. split.
      + rewrite Hvd, map_app. apply in_or_app. left. exact Hatt.
      + rewrite Hcd. apply mem_In. exact Hatt. }
  split; [|exact Hcell].
  apply open_dataset_set_item. simpl. apply (merge_dimension_variables _ _ Hmerge).
Qed.

Lemma wrap32_range z : (- 2 ^ 31 <= wrap32 z < 2 ^ 31)%Z.
Proof.
  unfold wrap32. assert (H := Z.mod_pos_bound (z + 2 ^ 31) (2 ^ 32) ltac:(lia)). lia.
Qed.

Lemma wrap32_congruent z : ((wrap32 z - z) mod 2 ^ 32 = 0)%Z.
Proof.
  unfold wrap32. rewrite (Z.mod_eq (z + 2 ^ 31) (2 ^ 32)) by lia.
  replace (z + 2 ^ 31 - 2 ^ 32 * ((z + 2 ^ 31) / 2 ^ 32) - 2 ^ 31 - z)%Z
    with (- ((z + 2 ^ 31) / 2 ^ 32) * 2 ^ 32)%Z by ring.
  apply Z.mod_mul. lia.
Qed.

Lemma wrap32_small z : (- 2 ^ 31 <= z < 2 ^ 31)%Z -> wrap32 z = z.
Proof.
  intros H. unfold wrap32. rewrite Z.mod_small by lia. lia.
Qed.

(** The narrowing of an integer variable, element by element. *)
Lemma astype_int32_nth v i z :
  dtype_of v = int64 ->
  nth_error (values v) i = Some (SInt z) ->
  nth_error (values (astype int32 v)) i = Some (SInt (wrap32 z)).
Proof.
  intros Hd Hn. unfold astype. rewrite Hd. simpl.
  rewrite nth_error_map, Hn. reflexivity.
Qed.

(** What the cell writes for [ID] and [rowsize]. *)
Lemma cell_integers fs dset nm v :
  open_dataset fs input_path = Ok dset ->
  NoDup (map fst (variables dset)) ->
  (forall nm T, In (nm, T) targets ->
     exists v, lookup nm (variables dset) = Some v /\ mem nm (coord_names dset) = false) ->
  nm = "ID" \/ nm = "rowsize" ->
  lookup nm (variables dset) = Some v ->
  dtype_of v = int64 ->
  exists out w,
    cell fs = (Ok tt, set_item output_path out fs) /\
    lookup nm (variables out) = Some w /\
    dtype_of w = int32 /\ dims w = dims v /\
    List.length (values w) = List.length (values v) /\
    forall i z, nth_error (values v) i = Some (SInt z) ->
      exists z', nth_error (values w) i = Some (SInt z') /\
        (- 2 ^ 31 <= z' < 2 ^ 31)%Z /\ ((z' - z) mod 2 ^ 32 = 0)%Z /\
        ((- 2 ^ 31 <= z < 2 ^ 31)%Z -> z' = z).
Proof.
  intros Hopen Hnd Hdata Hnm Hv Hd.
  destruct (cell_success fs dset Hopen Hnd Hdata) as (res & v1 & _ & _ & _ & Hvar & _ & _ & Hcell).
  exists (set_title res), (astype int32 v).
  split; [exact Hcell|]. split.
  { simpl. apply Hvar; [|exact Hv]. destruct Hnm as [-> | ->]; simpl; tauto. }
  split; [apply dtype_of_astype|]. split; [apply dims_astype|]. split.
  { unfold astype. rewrite Hd. simpl. apply length_map. }
  intros i z Hn. exists (wrap32 z). split; [apply astype_int32_nth; assumption|].
  split; [apply wrap32_range|]. split; [apply wrap32_congruent | apply wrap32_small].
Qed.

(** The attributes of the dataset the cell writes. *)
Lemma cell_attributes fs dset :
  open_dataset fs input_path = Ok dset ->
  NoDup (map fst (variables dset)) ->
  (forall nm T, In (nm, T) targets ->
     exists v, lookup nm (variables dset) = Some v /\ mem nm (coord_names dset) = false) ->
  exists out v1,
    lookup "ID" (variables dset) = Some v1 /\
    cell fs = (Ok tt, set_item output_path out fs) /\
    attrs out = set_item "title" (AStr "laser experiment")
                  (map (fun kv => (fst kv, AStr (snd kv))) (vattrs v1)).
Proof.
  intros Hopen Hnd Hdata.
  destruct (cell_success fs dset Hopen Hnd Hdata) as (res & v1 & H1 & Hat & _ & _ & _ & _ & Hcell).
  exists (set_title res), v1. split; [exact H1|]. split; [exact Hcell|].
  simpl. rewrite Hat. reflexivity.
Qed.
End DowncastResult.

(** ** Results on the asymptotic regimes *)

(** C2.  Asymptotic diffusive regime, density
    [p(r) = 1/(4*pi*k2*t) * exp(-r^2/(4*k2*t))]: for all positive [k2] and
    [t] the second moment is [4*k2*t], the fourth moment is
    [32*k2^2*t^2] and the kurtosis is exactly [2]. *)
Theorem asymptotic_diffusive_moments (k2 t : R) :
  0 < k2 -> 0 < t ->
  (forall r, AsymptoticDiffusive.p k2 t r
             = 1 / (4 * PI * k2 * t) * exp (- (r ^ 2) / (4 * k2 * t))) /\
  AsymptoticDiffusive.r2 k2 t = 4 * k2 * t /\
  AsymptoticDiffusive.r4 k2 t = 32 * k2 ^ 2 * t ^ 2 /\
  AsymptoticDiffusive.Ku k2 t = 2.
Proof.
  intros Hk Ht. split; [reflexivity|]. split; [|split].
  - apply asym_diffusive_r2; assumption.
  - apply asym_diffusive_r4; assumption.
  - apply asym_diffusive_Ku; assumption.
Qed.

Lemma asymptotic_diffusive_moments_witness :
  (forall r, AsymptoticDiffusive.p 1 3 r
             = 1 / (4 * PI * 1 * 3) * exp (- (r ^ 2) / (4 * 1 * 3))) /\
  AsymptoticDiffusive.r2 1 3 = 4 * 1 * 3 /\
  AsymptoticDiffusive.r4 1 3 = 32 * 1 ^ 2 * 3 ^ 2 /\
  AsymptoticDiffusive.Ku 1 3 = 2.
Proof. apply (asymptotic_diffusive_moments 1 3); lra. Defined.

(** C3.  Asymptotic diffusive regime: the effective diffusivity
    [K2 = diff(r2, t) / 2] equals [2*k2] for all positive [k2] and [t];
    it does not depend on [t]. *)
Theorem asymptotic_diffusive_K2 (k2 t : R) :
  0 < k2 -> 0 < t -> AsymptoticDiffusive.K2 k2 t = 2 * k2.
Proof. apply asym_diffusive_K2. Qed.

Lemma asymptotic_diffusive_K2_witness : AsymptoticDiffusive.K2 5 7 = 2 * 5.
Proof. apply (asymptotic_diffusive_K2 5 7); lra. Defined.

(** C5.  Asymptotic Garrett-Munk regime, density
    [p(r) = 2^5/(3*pi*(lambda*t)^4) * exp(-4*sqrt(r)/(lambda*t))]: for all
    positive [lambda] and [t] the second moment is [3.28125*lambda^4*t^4]
    and the kurtosis is exactly [66/7]. *)
Theorem asymptotic_GM_moments (lmbd t : R) :
  0 < lmbd -> 0 < t ->
  (forall r, AsymptoticGM.p lmbd t r
             = 2 ^ 5 / (3 * PI * Rpower (lmbd * t) 4)
               * exp (- 4 * Rpower r (1 / 2) / (lmbd * t))) /\
  AsymptoticGM.r2 lmbd t = 3.28125 * lmbd ^ 4 * t ^ 4 /\
  AsymptoticGM.Ku lmbd t = 66 / 7.
Proof.
  intros Hl Ht. split; [reflexivity|]. split.
  - apply asym_GM_r2; assumption.
  - apply asym_GM_Ku; assumption.
Qed.

Lemma asymptotic_GM_moments_witness :
  (forall r, AsymptoticGM.p 2 1 r
             = 2 ^ 5 / (3 * PI * Rpower (2 * 1) 4)
               * exp (- 4 * Rpower r (1 / 2) / (2 * 1))) /\
  AsymptoticGM.r2 2 1 = 3.28125 * 2 ^ 4 * 1 ^ 4 /\
  AsymptoticGM.Ku 2 1 = 66 / 7.
Proof. apply (asymptotic_GM_moments 2 1); lra. Defined.

(** C6.  Asymptotic Richardson regime, density
    [p(r) = 1.5^5/(4*pi*(beta*t)^3) * exp(-9*r^(2/3)/(4*beta*t))]: for all
    positive [beta] and [t] the second moment is [c*beta^3*t^3] with the
    coefficient [c = 1280/243], which is [5.26748971193416] to the fifteen
    significant digits the notebook prints (the moment and
    [5.26748971193416*beta^3*t^3] differ by less than
    [5e-15*beta^3*t^3]); and the kurtosis is exactly [5.6], whatever
    [beta] and [t]. *)
Theorem asymptotic_Richardson_moments (beta t : R) :
  0 < beta -> 0 < t ->
  (forall r, AsymptoticRichardson.p beta t r
             = 1.5 ^ 5 / (4 * PI * Rpower (beta * t) 3)
               * exp (- 9 * Rpower r (2 / 3) / (4 * beta * t))) /\
  AsymptoticRichardson.r2 beta t = 1280 / 243 * beta ^ 3 * t ^ 3 /\
  Rabs (AsymptoticRichardson.r2 beta t - 5.26748971193416 * beta ^ 3 * t ^ 3)
    < 0.000000000000005 * (beta ^ 3 * t ^ 3) /\
  AsymptoticRichardson.Ku beta t = 5.6.
Proof.
  intros Hb Ht. split; [reflexivity|]. split; [|split].
  - apply asym_Richardson_r2; assumption.
  - rewrite asym_Richardson_r2 by assumption.
    assert (Hp : 0 < beta ^ 3 * t ^ 3).
    { apply Rmult_lt_0_compat; apply pow_lt; assumption. }
    replace (1280 / 243 * beta ^ 3 * t ^ 3 - 5.26748971193416 * beta ^ 3 * t ^ 3)
      with ((1280 / 243 - 5.26748971193416) * (beta ^ 3 * t ^ 3)) by ring.
    rewrite Rabs_mult, (Rabs_pos_eq (beta ^ 3 * t ^ 3)) by lra.
    apply Rmult_lt_compat_r; [exact Hp|].
    apply Rabs_def1; lra.
  - apply asym_Richardson_Ku; assumption.
Qed.

Lemma asymptotic_Richardson_moments_witness :
  (forall r, AsymptoticRichardson.p 1 2 r
             = 1.5 ^ 5 / (4 * PI * Rpower (1 * 2) 3)
               * exp (- 9 * Rpower r (2 / 3) / (4 * 1 * 2))) /\
  AsymptoticRichardson.r2 1 2 = 1280 / 243 * 1 ^ 3 * 2 ^ 3 /\
  Rabs (AsymptoticRichardson.r2 1 2 - 5.26748971193416 * 1 ^ 3 * 2 ^ 3)
    < 0.000000000000005 * (1 ^ 3 * 2 ^ 3) /\
  AsymptoticRichardson.Ku 1 2 = 5.6.
Proof. apply (asymptotic_Richardson_moments 1 2); lra. Defined.

(** C10.  The generalized asymptotic regime with [a = 2] (so [b = 1]) has
    the density of the asymptotic Garrett-Munk regime, hence the same
    normalization, second and fourth moments, general moment, kurtosis and
    [K2], with the values [1], [3.28125*lambda^4*t^4],
    [101.513671875*lambda^8*t^8], [66/7] and [6.5625*lambda^4*t^3]. *)
Theorem generalized_a2_is_GM (lmbd t : R) :
  0 < lmbd -> 0 < t ->
  GeneralizedAsymptotic.a = 2 /\ GeneralizedAsymptotic.b = 1 /\
  (forall r, GeneralizedAsymptotic.p lmbd t r = AsymptoticGM.p lmbd t r) /\
  (GeneralizedAsymptotic.ra lmbd t = AsymptoticGM.ra lmbd t /\
   GeneralizedAsymptotic.ra lmbd t = 1) /\
  (GeneralizedAsymptotic.r2 lmbd t = AsymptoticGM.r2 lmbd t /\
   GeneralizedAsymptotic.r2 lmbd t = 3.28125 * lmbd ^ 4 * t ^ 4) /\
  (GeneralizedAsymptotic.r4 lmbd t = AsymptoticGM.r4 lmbd t /\
   GeneralizedAsymptotic.r4 lmbd t = 101.513671875 * lmbd ^ 8 * t ^ 8) /\
  (forall n, 0 < n ->
     GeneralizedAsymptotic.rn lmbd t n = AsymptoticGM.rn lmbd t n) /\
  (GeneralizedAsymptotic.Ku lmbd t = AsymptoticGM.Ku lmbd t /\
   GeneralizedAsymptotic.Ku lmbd t = 66 / 7) /\
  (GeneralizedAsymptotic.K2 lmbd t = AsymptoticGM.K2 lmbd t /\
   GeneralizedAsymptotic.K2 lmbd t = 6.5625 * lmbd ^ 4 * t ^ 3).
Proof.
  intros Hl Ht.
  assert (Ep := generalized_p_eq_GM lmbd t Hl Ht).
  assert (Era : GeneralizedAsymptotic.ra lmbd t = AsymptoticGM.ra lmbd t).
  { unfold GeneralizedAsymptotic.ra, AsymptoticGM.ra. rewrite Ep. reflexivity. }
  assert (Er2 : forall s, 0 < s ->
            GeneralizedAsymptotic.r2 lmbd s = AsymptoticGM.r2 lmbd s).
  { intros s Hs. unfold GeneralizedAsymptotic.r2, AsymptoticGM.r2.
    rewrite (generalized_p_eq_GM lmbd s Hl Hs). reflexivity. }
  assert (Er4 : GeneralizedAsymptotic.r4 lmbd t = AsymptoticGM.r4 lmbd t).
  { unfold GeneralizedAsymptotic.r4, AsymptoticGM.r4. rewrite Ep. reflexivity. }
  assert (EKu : GeneralizedAsymptotic.Ku lmbd t = AsymptoticGM.Ku lmbd t).
  { unfold GeneralizedAsymptotic.Ku, AsymptoticGM.Ku. rewrite Er4, Er2 by assumption.
    reflexivity. }
  assert (EK2 : GeneralizedAsymptotic.K2 lmbd t = 6.5625 * lmbd ^ 4 * t ^ 3).
  { unfold GeneralizedAsymptotic.K2.
    rewrite (diff_locally _ (fun t => 3.28125 * lmbd ^ 4 * t ^ 4) t
               (3.28125 * lmbd ^ 4 * (INR 4 * t ^ pred 4)) 0 (t + 1)).
    - simpl. replace 3.28125 with (105 / 32) by lra.
      replace 6.5625 with (105 / 16) by lra. field.
    - lra.
    - intros z Hz. rewrite Er2 by lra. symmetry. apply asym_GM_r2; lra.
    - apply (derivable_pt_lim_scal (fun t => t ^ 4) (3.28125 * lmbd ^ 4) t).
      apply derivable_pt_lim_pow. }
  split; [reflexivity|]. split; [unfold GeneralizedAsymptotic.b, GeneralizedAsymptotic.a; ring|].
  split; [intros r; rewrite Ep; reflexivity|].
  split; [split; [exact Era | rewrite Era; apply asym_GM_ra; assumption]|].
  split; [split; [apply Er2; assumption | rewrite Er2 by assumption; apply asym_GM_r2; assumption]|].
  split; [split; [exact Er4 | rewrite Er4; apply asym_GM_r4; assumption]|].
  split.
  { intros n _. unfold GeneralizedAsymptotic.rn, AsymptoticGM.rn. rewrite Ep. reflexivity. }
  split; [split; [exact EKu | rewrite EKu; apply asym_GM_Ku; assumption]|].
  split; [rewrite EK2; symmetry; apply asym_GM_K2; assumption | exact EK2].
Qed.

Lemma generalized_a2_is_GM_witness :
  GeneralizedAsymptotic.a = 2 /\ GeneralizedAsymptotic.b = 1 /\
  (forall r, GeneralizedAsymptotic.p 1 2 r = AsymptoticGM.p 1 2 r) /\
  (GeneralizedAsymptotic.ra 1 2 = AsymptoticGM.ra 1 2 /\
   GeneralizedAsymptotic.ra 1 2 = 1) /\
  (GeneralizedAsymptotic.r2 1 2 = AsymptoticGM.r2 1 2 /\
   GeneralizedAsymptotic.r2 1 2 = 3.28125 * 1 ^ 4 * 2 ^ 4) /\
  (GeneralizedAsymptotic.r4 1 2 = AsymptoticGM.r4 1 2 /\
   GeneralizedAsymptotic.r4 1 2 = 101.513671875 * 1 ^ 8 * 2 ^ 8) /\
  (forall n, 0 < n ->
     GeneralizedAsymptotic.rn 1 2 n = AsymptoticGM.rn 1 2 n) /\
  (GeneralizedAsymptotic.Ku 1 2 = AsymptoticGM.Ku 1 2 /\
   GeneralizedAsymptotic.Ku 1 2 = 66 / 7) /\
  (GeneralizedAsymptotic.K2 1 2 = AsymptoticGM.K2 1 2 /\
   GeneralizedAsymptotic.K2 1 2 = 6.5625 * 1 ^ 4 * 2 ^ 3).
Proof. apply (generalized_a2_is_GM 1 2); lra. Defined.
(** ** Results on the dtype downcast *)

Section DowncastClaims.
Import Downcast.
Local Open Scope string_scope.
Local Open Scope list_scope.

(** C8, as stated, fails on the example dataset: its data variable [depth]
    is not one of the six targeted variables, and the written file does not
    hold it, so the non-targeted variables are not all found unchanged in
    the output. *)
Lemma downcast_drops_untargeted_variable :
  ~ (forall k v out,
       lookup k (variables example_dataset) = Some v ->
       lookup k targets = None ->
       open_dataset (snd (cell example_fs)) output_path = Ok out ->
       lookup k (variables out) = Some v).
Proof.
  intros H.
  assert (Hout : exists out, open_dataset (snd (cell example_fs)) output_path = Ok out /\
                   lookup "depth" (variables out) = None).
  { eexists. split; vm_compute; reflexivity. }
  destruct Hout as (out & Hopen & Hnone).
  assert (Hsrc : exists v, lookup "depth" (variables example_dataset) = Some v).
  { eexists. vm_compute. reflexivity. }
  destruct Hsrc as [v Hv].
  specialize (H "depth" v out Hv eq_refl Hopen). congruence.
Qed.

(** C8, amended.  When the six targeted names are data variables of the
    dataset read from the input path, the cell succeeds and writes one
    dataset to the output path; reading that file back, each targeted
    variable is the original cast to its target type ([ID], [rowsize] to
    int32; [ve], [vn], [longitude], [latitude] to float32); every
    coordinate whose dimensions are among those of a targeted variable (as
    [ids] and [time] are) is there unchanged, bit for bit, and no
    coordinate is changed; the data variables that are not targeted are
    not carried over; and the attribute [title] is the lowercased
    experiment name followed by " experiment". *)
Theorem downcast_output (fs : filesystem) (dset : Dataset) :
  open_dataset fs input_path = Ok dset ->
  NoDup (map fst (variables dset)) ->
  (forall nm T, In (nm, T) targets ->
     exists v, lookup nm (variables dset) = Some v /\ mem nm (coord_names dset) = false) ->
  exists out,
    cell fs = (Ok tt, set_item output_path out fs) /\
    open_dataset (set_item output_path out fs) output_path = Ok out /\
    (forall nm T v, In (nm, T) targets -> lookup nm (variables dset) = Some v ->
       lookup nm (variables out) = Some (astype T v)) /\
    (forall c cv nm T v, In (nm, T) targets -> lookup nm (variables dset) = Some v ->
       mem c (coord_names dset) = true -> lookup c (variables dset) = Some cv ->
       subset_dims cv v = true ->
       lookup c (variables out) = Some cv /\ mem c (coord_names out) = true) /\
    (forall k w, mem k (coord_names dset) = true ->
       lookup k (variables out) = Some w -> lookup k (variables dset) = Some w) /\
    (forall k, lookup k targets = None -> mem k (coord_names dset) = false ->
       lookup k (variables out) = None) /\
    lookup "title" (attrs out) = Some (AStr (lower (upper dname) ++ " experiment")%string).
Proof.
  intros Hopen Hnd Hdata.
  destruct (cell_success fs dset Hopen Hnd Hdata)
    as (res & v1 & _ & _ & Hag & Hvar & Hco & Hback & Hcell).
  exists (set_title res).
  split; [exact Hcell|]. split; [exact Hback|]. split; [exact Hvar|].
  split; [exact Hco|]. split.
  { intros k w Hc Hw. simpl in Hw. apply lookup_In in Hw. apply Hag in Hw.
    unfold expected in Hw. rewrite (coord_not_target dset Hdata k Hc), Hc in Hw. exact Hw. }
  split.
  { intros k Hk Hc. simpl. destruct (lookup k (variables res)) as [w|] eqn:E; [|reflexivity].
    apply lookup_In in E. apply Hag in E. unfold expected in E.
    rewrite Hk, Hc in E. discriminate. }
  simpl. rewrite lookup_set_item. simpl. reflexivity.
Qed.

Lemma downcast_output_witness :
  exists out,
    cell example_fs = (Ok tt, set_item output_path out example_fs) /\
    open_dataset (set_item output_path out example_fs) output_path = Ok out /\
    (forall nm T v, In (nm, T) targets -> lookup nm (variables example_dataset) = Some v ->
       lookup nm (variables out) = Some (astype T v)) /\
    (forall c cv nm T v, In (nm, T) targets -> lookup nm (variables example_dataset) = Some v ->
       mem c (coord_names example_dataset) = true -> lookup c (variables example_dataset) = Some cv ->
       subset_dims cv v = true ->
       lookup c (variables out) = Some cv /\ mem c (coord_names out) = true) /\
    (forall k w, mem k (coord_names example_dataset) = true ->
       lookup k (variables out) = Some w -> lookup k (variables example_dataset) = Some w) /\
    (forall k, lookup k targets = None -> mem k (coord_names example_dataset) = false ->
       lookup k (variables out) = None) /\
    lookup "title" (attrs out) = Some (AStr (lower (upper dname) ++ " experiment")%string).
Proof.
  apply (downcast_output example_fs example_dataset).
  - reflexivity.
  - simpl. repeat (constructor; [simpl; intuition discriminate|]). constructor.
  - intros nm T Hin. unfold targets in Hin. simpl in Hin.
    destruct Hin as [E|[E|[E|[E|[E|[E|[]]]]]]]; injection E; intros; subst nm T;
      eexists; split; reflexivity.
Defined.

(** C9.  When one of the six targeted names is not a variable of the
    dataset, the cell raises an exception and leaves the file system as it
    was: nothing is written to the output path and the source file is
    untouched.  (The name may still be an attribute or a dimension of the
    dataset: then [dset.NAME] answers, and it is [astype] or [xr.merge]
    that raises.) *)
Theorem downcast_missing_variable (fs : filesystem) (dset : Dataset) (nm : string) (T : dtype) :
  open_dataset fs input_path = Ok dset ->
  In (nm, T) targets ->
  lookup nm (variables dset) = None ->
  exists e, cell fs = (Raise e, fs).
Proof.
  intros Hopen Hin Hv.
  destruct (make_dset2_absent dset nm T Hin Hv) as [e He].
  exists e. unfold cell. rewrite Hopen, He. reflexivity.
Qed.

Lemma downcast_missing_variable_witness :
  exists e, cell example_fs_dimension = (Raise e, example_fs_dimension).
Proof.
  apply (downcast_missing_variable example_fs_dimension example_dataset_dimension
           "rowsize" int32).
  - reflexivity.
  - simpl. tauto.
  - reflexivity.
Defined.

End DowncastClaims.
(** ** Results on the full regimes *)

(** C4.  Full diffusive regime, density
    [p(r) = 1/(4*pi*k2*t) * exp(-(r0^2+r^2)/(4*k2*t)) * I0(r0*r/(2*k2*t))]:
    for all positive [k2], [t], [r0] the second moment is
    [4*k2*t + r0^2]; as [r0] tends to [0] it tends to [4*k2*t], the second
    moment of the asymptotic regime. *)
Theorem full_diffusive_second_moment (k2 t r0 : R) :
  0 < k2 -> 0 < t -> 0 < r0 ->
  (forall r, FullDiffusive.p k2 t r0 r
             = 1 / (4 * PI * k2 * t) * exp (- (r0 ^ 2 + r ^ 2) / (4 * k2 * t))
               * besseli 0 ((r0 * r) / (2 * k2 * t))) /\
  FullDiffusive.r2 k2 t r0 = 4 * k2 * t + r0 ^ 2 /\
  tends_lower (Finite 0) (fun r0 => FullDiffusive.r2 k2 t r0) (4 * k2 * t) /\
  AsymptoticDiffusive.r2 k2 t = 4 * k2 * t.
Proof.
  intros Hk Ht Hr0. split; [reflexivity|]. split; [|split].
  - apply full_diffusive_r2; assumption.
  - apply full_diffusive_r2_limit; assumption.
  - apply asym_diffusive_r2; assumption.
Qed.

Lemma full_diffusive_second_moment_witness :
  (forall r, FullDiffusive.p 1 2 3 r
             = 1 / (4 * PI * 1 * 2) * exp (- (3 ^ 2 + r ^ 2) / (4 * 1 * 2))
               * besseli 0 ((3 * r) / (2 * 1 * 2))) /\
  FullDiffusive.r2 1 2 3 = 4 * 1 * 2 + 3 ^ 2 /\
  tends_lower (Finite 0) (fun r0 => FullDiffusive.r2 1 2 r0) (4 * 1 * 2) /\
  AsymptoticDiffusive.r2 1 2 = 4 * 1 * 2.
Proof. apply (full_diffusive_second_moment 1 2 3); lra. Defined.

(** C1, the regimes whose density is normalized: the zeroth moment
    [2*pi*integrate(p*r, (r, 0, oo))] is [1] for the asymptotic and the full
    diffusive regime, the asymptotic and the full Garrett-Munk regime, the
    generalized asymptotic regime, the asymptotic and the full Richardson
    regime and the Lundgren regime in the raw radius, and the zeroth moment
    [2*pi*integrate(p*(r0*exp(x))^2, (x, -oo, oo))] of the Lundgren regime
    after the change of variable is [1], for all positive values of their
    parameters. *)
Lemma normalized_regimes (k2 lmbd beta t r0 T : R) :
  0 < k2 -> 0 < lmbd -> 0 < beta -> 0 < t -> 0 < r0 -> 0 < T ->
  AsymptoticDiffusive.ra k2 t = 1 /\
  FullDiffusive.ra k2 t r0 = 1 /\
  AsymptoticGM.ra lmbd t = 1 /\
  FullGM.ra lmbd t r0 = 1 /\
  GeneralizedAsymptotic.ra lmbd t = 1 /\
  AsymptoticRichardson.ra beta t = 1 /\
  FullRichardson.ra beta t r0 = 1 /\
  FullLundgrenRaw.ra t = 1 /\
  FullLundgren.ra r0 T t = 1.
Proof.
  intros Hk Hl Hb Ht Hr0 HT. repeat split.
  - apply asym_diffusive_ra; assumption.
  - apply full_diffusive_ra; assumption.
  - apply asym_GM_ra; assumption.
  - apply full_GM_ra; assumption.
  - unfold GeneralizedAsymptotic.ra. rewrite (generalized_p_eq_GM lmbd t Hl Ht).
    apply asym_GM_ra; assumption.
  - apply asym_Richardson_ra; assumption.
  - apply full_Richardson_ra; assumption.
  - apply full_Lundgren_raw_ra; assumption.
  - apply full_Lundgren_ra; assumption.
Qed.

(** C1 fails on the generalized full regime (cell 2.7, [a = 1]): with the
    prefactor [1/(4*pi*kappa*t*r^(a/2)*r0^(a/2))] of the notebook the
    zeroth moment is [1/2], not [1], for all positive [kappa], [t], [r0]. *)
Theorem generalized_full_normalization (kappa t r0 : R) :
  0 < kappa -> 0 < t -> 0 < r0 ->
  (forall r, GeneralizedFull.p kappa t r0 r
             = 1 / (4 * PI * kappa * t * Rpower r (1 / 2) * Rpower r0 (1 / 2))
               * exp (- (1 / (1 - 2) ^ 2) * (Rpower r (2 - 1) + Rpower r0 (2 - 1))
                      / (kappa * t))
               * besseli (1 / (2 - 1))
                   (2 / (1 - 2) ^ 2 * Rpower (r * r0) (1 - 1 / 2) / (kappa * t))) /\
  GeneralizedFull.ra kappa t r0 = 1 / 2.
Proof.
  intros Hk Ht Hr0. split; [reflexivity|].
  apply generalized_full_ra; assumption.
Qed.

Lemma generalized_full_normalization_witness :
  (forall r, GeneralizedFull.p 1 1 1 r
             = 1 / (4 * PI * 1 * 1 * Rpower r (1 / 2) * Rpower 1 (1 / 2))
               * exp (- (1 / (1 - 2) ^ 2) * (Rpower r (2 - 1) + Rpower 1 (2 - 1))
                      / (1 * 1))
               * besseli (1 / (2 - 1))
                   (2 / (1 - 2) ^ 2 * Rpower (r * 1) (1 - 1 / 2) / (1 * 1))) /\
  GeneralizedFull.ra 1 1 1 = 1 / 2.
Proof. apply (generalized_full_normalization 1 1 1); lra. Defined.
(** ** Further results on the moments *)

(** X1.  Asymptotic diffusive regime: for all positive [k2], [t] and [n]
    the general moment [rn] is [1.0*2^n*k2^(n/2)*t^(n/2)*gamma(n/2+1)], as
    the notebook displays it, and it gives back the second and the fourth
    moment at [n = 2] and [n = 4]. *)
Theorem asymptotic_diffusive_general_moment (k2 t : R) :
  0 < k2 -> 0 < t ->
  (forall n, 0 < n ->
     AsymptoticDiffusive.rn k2 t n
     = 1 * Rpower 2 n * Rpower k2 (n / 2) * Rpower t (n / 2) * gamma (n / 2 + 1)) /\
  AsymptoticDiffusive.rn k2 t 2 = AsymptoticDiffusive.r2 k2 t /\
  AsymptoticDiffusive.rn k2 t 4 = AsymptoticDiffusive.r4 k2 t.
Proof.
  intros Hk Ht. split.
  - intros n Hn. apply asym_diffusive_rn; assumption.
  - apply asym_diffusive_rn_nat; assumption.
Qed.

Lemma asymptotic_diffusive_general_moment_witness :
  (forall n, 0 < n ->
     AsymptoticDiffusive.rn 1 3 n
     = 1 * Rpower 2 n * Rpower 1 (n / 2) * Rpower 3 (n / 2) * gamma (n / 2 + 1)) /\
  AsymptoticDiffusive.rn 1 3 2 = AsymptoticDiffusive.r2 1 3 /\
  AsymptoticDiffusive.rn 1 3 4 = AsymptoticDiffusive.r4 1 3.
Proof. apply (asymptotic_diffusive_general_moment 1 3); lra. Defined.

(** X2.  Full diffusive regime: for all positive [k2], [t], [r0] the
    density is normalized, the fourth moment is
    [32*k2^2*t^2 + 16*k2*r0^2*t + r0^4], the kurtosis is the quotient of
    that by [(4*k2*t + r0^2)^2], [K2] is [2*k2] as in the asymptotic
    regime, and the general moment gives back the second and the fourth
    moment at [n = 2] and [n = 4]. *)
Theorem full_diffusive_moments (k2 t r0 : R) :
  0 < k2 -> 0 < t -> 0 < r0 ->
  FullDiffusive.ra k2 t r0 = 1 /\
  FullDiffusive.r4 k2 t r0 = 32 * k2 ^ 2 * t ^ 2 + 16 * k2 * r0 ^ 2 * t + r0 ^ 4 /\
  FullDiffusive.Ku k2 t r0
  = (32 * k2 ^ 2 * t ^ 2 + 16 * k2 * r0 ^ 2 * t + r0 ^ 4) / (4 * k2 * t + r0 ^ 2) ^ 2 /\
  FullDiffusive.K2 k2 t r0 = 2 * k2 /\
  FullDiffusive.rn k2 t r0 2 = FullDiffusive.r2 k2 t r0 /\
  FullDiffusive.rn k2 t r0 4 = FullDiffusive.r4 k2 t r0.
Proof.
  intros Hk Ht Hr0.
  split; [apply full_diffusive_ra; assumption|].
  split; [apply full_diffusive_r4; assumption|].
  split; [apply full_diffusive_Ku; assumption|].
  split; [apply full_diffusive_K2; assumption|].
  apply full_diffusive_rn_nat; assumption.
Qed.

Lemma full_diffusive_moments_witness :
  FullDiffusive.ra 1 2 3 = 1 /\
  FullDiffusive.r4 1 2 3 = 32 * 1 ^ 2 * 2 ^ 2 + 16 * 1 * 3 ^ 2 * 2 + 3 ^ 4 /\
  FullDiffusive.Ku 1 2 3
  = (32 * 1 ^ 2 * 2 ^ 2 + 16 * 1 * 3 ^ 2 * 2 + 3 ^ 4) / (4 * 1 * 2 + 3 ^ 2) ^ 2 /\
  FullDiffusive.K2 1 2 3 = 2 * 1 /\
  FullDiffusive.rn 1 2 3 2 = FullDiffusive.r2 1 2 3 /\
  FullDiffusive.rn 1 2 3 4 = FullDiffusive.r4 1 2 3.
Proof. apply (full_diffusive_moments 1 2 3); lra. Defined.

(** X3.  Asymptotic Garrett-Munk regime: for all positive [lambda], [t]
    the density is normalized, the fourth moment is
    [101.513671875*lambda^8*t^8], [K2] is [6.5625*lambda^4*t^3], and for
    every positive [n] the general moment is
    [(1/6)*(0.25*lambda*t)^(2n)*gamma(2n+4)]; it gives back the second and
    the fourth moment at [n = 2] and [n = 4]. *)
Theorem asymptotic_GM_general_moment (lmbd t : R) :
  0 < lmbd -> 0 < t ->
  AsymptoticGM.ra lmbd t = 1 /\
  AsymptoticGM.r4 lmbd t = 101.513671875 * lmbd ^ 8 * t ^ 8 /\
  AsymptoticGM.K2 lmbd t = 6.5625 * lmbd ^ 4 * t ^ 3 /\
  (forall n, 0 < n ->
     AsymptoticGM.rn lmbd t n
     = 1 / 6 * Rpower (0.25 * lmbd * t) (2 * n) * gamma (2 * n + 4)) /\
  AsymptoticGM.rn lmbd t 2 = AsymptoticGM.r2 lmbd t /\
  AsymptoticGM.rn lmbd t 4 = AsymptoticGM.r4 lmbd t.
Proof.
  intros Hl Ht.
  split; [apply asym_GM_ra; assumption|].
  split; [apply asym_GM_r4; assumption|].
  split; [apply asym_GM_K2; assumption|].
  split; [intros n Hn; apply asym_GM_rn; assumption|].
  apply asym_GM_rn_nat; assumption.
Qed.

Lemma asymptotic_GM_general_moment_witness :
  AsymptoticGM.ra 2 1 = 1 /\
  AsymptoticGM.r4 2 1 = 101.513671875 * 2 ^ 8 * 1 ^ 8 /\
  AsymptoticGM.K2 2 1 = 6.5625 * 2 ^ 4 * 1 ^ 3 /\
  (forall n, 0 < n ->
     AsymptoticGM.rn 2 1 n
     = 1 / 6 * Rpower (0.25 * 2 * 1) (2 * n) * gamma (2 * n + 4)) /\
  AsymptoticGM.rn 2 1 2 = AsymptoticGM.r2 2 1 /\
  AsymptoticGM.rn 2 1 4 = AsymptoticGM.r4 2 1.
Proof. apply (asymptotic_GM_general_moment 2 1); lra. Defined.

(** X4.  The diffusivity law of the Garrett-Munk cell,
    [K = 1/2 * a^(1/b) * b * lambda * r^((2b-2)/b)] with [a = 3.28125] and
    [b = 4]: it is [c*lambda*r^1.5] with [c^4 = 52.5], displayed as
    [2.69178163547765], and at the root-mean-square separation
    [r = sqrt(r2)] it equals [K2 = diff(r2, t)/2], for all positive
    [lambda] and [t]. *)
Theorem asymptotic_GM_K_law (lmbd t : R) :
  0 < lmbd -> 0 < t ->
  AsymptoticGM.K lmbd (sqrt (AsymptoticGM.r2 lmbd t)) = AsymptoticGM.K2 lmbd t /\
  exists c, (forall l r, AsymptoticGM.K l r = c * l * Rpower r 1.5) /\
            c ^ 4 = 52.5 /\ Rabs (c - 2.69178163547765) < 0.000000000000005.
Proof.
  intros Hl Ht. split; [apply asym_GM_K_at_rms; assumption|].
  exact asym_GM_K_coefficient.
Qed.

Lemma asymptotic_GM_K_law_witness :
  AsymptoticGM.K 2 (sqrt (AsymptoticGM.r2 2 3)) = AsymptoticGM.K2 2 3 /\
  exists c, (forall l r, AsymptoticGM.K l r = c * l * Rpower r 1.5) /\
            c ^ 4 = 52.5 /\ Rabs (c - 2.69178163547765) < 0.000000000000005.
Proof. apply (asymptotic_GM_K_law 2 3); lra. Defined.

(** X5.  Asymptotic Richardson regime: for all positive [beta], [t] the
    density is normalized, the fourth moment is
    [(82575360/531441)*beta^6*t^6] (displayed as [155.38010804586]),
    [K2] is [(640/81)*beta^3*t^2] (displayed as [7.90123456790123]), and
    for every positive [n] the general moment is
    [(1/2)*((4/9)*beta*t)^(1.5n)*gamma(1.5n+3)]; it gives back the second
    and the fourth moment at [n = 2] and [n = 4]. *)
Theorem asymptotic_Richardson_general_moment (beta t : R) :
  0 < beta -> 0 < t ->
  AsymptoticRichardson.ra beta t = 1 /\
  AsymptoticRichardson.r4 beta t = 82575360 / 531441 * beta ^ 6 * t ^ 6 /\
  Rabs (82575360 / 531441 - 155.38010804586) < 0.0000000000005 /\
  AsymptoticRichardson.K2 beta t = 640 / 81 * beta ^ 3 * t ^ 2 /\
  Rabs (640 / 81 - 7.90123456790123) < 0.000000000000005 /\
  (forall n, 0 < n ->
     AsymptoticRichardson.rn beta t n
     = 1 / 2 * Rpower (4 / 9 * beta * t) (1.5 * n) * gamma (1.5 * n + 3)) /\
  AsymptoticRichardson.rn beta t 2 = AsymptoticRichardson.r2 beta t /\
  AsymptoticRichardson.rn beta t 4 = AsymptoticRichardson.r4 beta t.
Proof.
  intros Hb Ht.
  split; [apply asym_Richardson_ra; assumption|].
  split; [apply asym_Richardson_r4; assumption|].
  split; [apply Rabs_def1; lra|].
  split; [apply asym_Richardson_K2; assumption|].
  split; [apply Rabs_def1; lra|].
  split; [intros n Hn; apply asym_Richardson_rn; assumption|].
  apply asym_Richardson_rn_nat; assumption.
Qed.

Lemma asymptotic_Richardson_general_moment_witness :
  AsymptoticRichardson.ra 1 2 = 1 /\
  AsymptoticRichardson.r4 1 2 = 82575360 / 531441 * 1 ^ 6 * 2 ^ 6 /\
  Rabs (82575360 / 531441 - 155.38010804586) < 0.0000000000005 /\
  AsymptoticRichardson.K2 1 2 = 640 / 81 * 1 ^ 3 * 2 ^ 2 /\
  Rabs (640 / 81 - 7.90123456790123) < 0.000000000000005 /\
  (forall n, 0 < n ->
     AsymptoticRichardson.rn 1 2 n
     = 1 / 2 * Rpower (4 / 9 * 1 * 2) (1.5 * n) * gamma (1.5 * n + 3)) /\
  AsymptoticRichardson.rn 1 2 2 = AsymptoticRichardson.r2 1 2 /\
  AsymptoticRichardson.rn 1 2 4 = AsymptoticRichardson.r4 1 2.
Proof. apply (asymptotic_Richardson_general_moment 1 2); lra. Defined.

(** X6.  The diffusivity law of the Richardson cell,
    [K = 1/2 * a^(1/b) * b * beta * r^((2b-2)/b)] with [a = 5.267489] and
    [b = 3]: it is [c*beta*r^(4/3)] with [c^3 = 17.777775375], displayed
    as [2.60991164319727]; at the root-mean-square separation it is [K2]
    times [(a / (1280/243))^(1/3)], a factor between [0.9999998] and [1],
    since the cell's [a] is the coefficient [1280/243] of [r2] cut after
    six decimals. *)
Theorem asymptotic_Richardson_K_law (beta t : R) :
  0 < beta -> 0 < t ->
  AsymptoticRichardson.K beta (sqrt (AsymptoticRichardson.r2 beta t))
  = Rpower (5.267489 / (1280 / 243)) (1 / 3) * AsymptoticRichardson.K2 beta t /\
  0.9999998 < Rpower (5.267489 / (1280 / 243)) (1 / 3) < 1 /\
  exists c, (forall b r, AsymptoticRichardson.K b r = c * b * Rpower r (4 / 3)) /\
            c ^ 3 = 17.777775375 /\ Rabs (c - 2.60991164319727) < 0.000000000000005.
Proof.
  intros Hb Ht. split; [apply asym_Richardson_K_at_rms; assumption|].
  split; [apply Richardson_K_factor | exact asym_Richardson_K_coefficient].
Qed.

Lemma asymptotic_Richardson_K_law_witness :
  AsymptoticRichardson.K 1 (sqrt (AsymptoticRichardson.r2 1 2))
  = Rpower (5.267489 / (1280 / 243)) (1 / 3) * AsymptoticRichardson.K2 1 2 /\
  0.9999998 < Rpower (5.267489 / (1280 / 243)) (1 / 3) < 1 /\
  exists c, (forall b r, AsymptoticRichardson.K b r = c * b * Rpower r (4 / 3)) /\
            c ^ 3 = 17.777775375 /\ Rabs (c - 2.60991164319727) < 0.000000000000005.
Proof. apply (asymptotic_Richardson_K_law 1 2); lra. Defined.

(** X7.  Full Garrett-Munk regime (no result from the computer-algebra
    system): for all positive [lambda], [t], [r0] the density is
    normalized; the second moment is
    [r0^2 + 7*(lambda*t)*r0^(3/2) + (63/4)*(lambda*t)^2*r0
     + (105/8)*(lambda*t)^3*r0^(1/2) + (105/32)*(lambda*t)^4]
    and [K2] is half its derivative in [t]; the fourth moment is
    [(lambda*t/4)^8] times a polynomial of degree eight in
    [w = 4*r0^(1/2)/(lambda*t)]; as [r0] tends to [0] the second and the
    fourth moment tend to [3.28125*lambda^4*t^4] and
    [101.513671875*lambda^8*t^8], the moments of the asymptotic regime. *)
Theorem full_GM_moments (lmbd t r0 : R) :
  0 < lmbd -> 0 < t -> 0 < r0 ->
  FullGM.ra lmbd t r0 = 1 /\
  FullGM.r2 lmbd t r0
  = r0 ^ 2 + 7 * (lmbd * t) * Rpower r0 (3 / 2) + 63 / 4 * (lmbd * t) ^ 2 * r0
    + 105 / 8 * (lmbd * t) ^ 3 * Rpower r0 (1 / 2) + 105 / 32 * (lmbd * t) ^ 4 /\
  FullGM.K2 lmbd t r0
  = (7 * lmbd * Rpower r0 (3 / 2) + 63 / 2 * lmbd ^ 2 * t * r0
     + 315 / 8 * lmbd ^ 3 * t ^ 2 * Rpower r0 (1 / 2) + 105 / 8 * lmbd ^ 4 * t ^ 3) / 2 /\
  (let w := 4 / (lmbd * t) * Rpower r0 (1 / 2) in
   FullGM.r4 lmbd t r0
   = (lmbd * t / 4) ^ 8
     * (w ^ 8 + 88 * w ^ 7 + 3080 * w ^ 6 + 55440 * w ^ 5 + 554400 * w ^ 4
        + 3104640 * w ^ 3 + 9313920 * w ^ 2 + 13305600 * w + 6652800)) /\
  tends_lower (Finite 0) (fun r0 => FullGM.r2 lmbd t r0) (3.28125 * lmbd ^ 4 * t ^ 4) /\
  tends_lower (Finite 0) (fun r0 => FullGM.r4 lmbd t r0) (101.513671875 * lmbd ^ 8 * t ^ 8) /\
  AsymptoticGM.r2 lmbd t = 3.28125 * lmbd ^ 4 * t ^ 4 /\
  AsymptoticGM.r4 lmbd t = 101.513671875 * lmbd ^ 8 * t ^ 8.
Proof.
  intros Hl Ht Hr0.
  split; [apply full_GM_ra; assumption|].
  split; [apply full_GM_r2; assumption|].
  split; [apply full_GM_K2; assumption|].
  split; [cbv zeta; rewrite full_GM_r4 by assumption; ring|].
  split; [apply full_GM_r2_limit; assumption|].
  split; [apply full_GM_r4_limit; assumption|].
  split; [apply asym_GM_r2; assumption | apply asym_GM_r4; assumption].
Qed.

Lemma full_GM_moments_witness :
  FullGM.ra 1 2 3 = 1 /\
  FullGM.r2 1 2 3
  = 3 ^ 2 + 7 * (1 * 2) * Rpower 3 (3 / 2) + 63 / 4 * (1 * 2) ^ 2 * 3
    + 105 / 8 * (1 * 2) ^ 3 * Rpower 3 (1 / 2) + 105 / 32 * (1 * 2) ^ 4 /\
  FullGM.K2 1 2 3
  = (7 * 1 * Rpower 3 (3 / 2) + 63 / 2 * 1 ^ 2 * 2 * 3
     + 315 / 8 * 1 ^ 3 * 2 ^ 2 * Rpower 3 (1 / 2) + 105 / 8 * 1 ^ 4 * 2 ^ 3) / 2 /\
  (let w := 4 / (1 * 2) * Rpower 3 (1 / 2) in
   FullGM.r4 1 2 3
   = (1 * 2 / 4) ^ 8
     * (w ^ 8 + 88 * w ^ 7 + 3080 * w ^ 6 + 55440 * w ^ 5 + 554400 * w ^ 4
        + 3104640 * w ^ 3 + 9313920 * w ^ 2 + 13305600 * w + 6652800)) /\
  tends_lower (Finite 0) (fun r0 => FullGM.r2 1 2 r0) (3.28125 * 1 ^ 4 * 2 ^ 4) /\
  tends_lower (Finite 0) (fun r0 => FullGM.r4 1 2 r0) (101.513671875 * 1 ^ 8 * 2 ^ 8) /\
  AsymptoticGM.r2 1 2 = 3.28125 * 1 ^ 4 * 2 ^ 4 /\
  AsymptoticGM.r4 1 2 = 101.513671875 * 1 ^ 8 * 2 ^ 8.
Proof. apply (full_GM_moments 1 2 3); lra. Defined.

(** X8.  Full Richardson regime (no result from the computer-algebra
    system): for all positive [beta], [t], [r0] the density is normalized;
    the second moment is
    [r0^2 + (20/3)*(beta*t)*r0^(4/3) + (320/27)*(beta*t)^2*r0^(2/3)
     + (1280/243)*(beta*t)^3]
    and [K2] is half its derivative in [t]; the fourth moment is
    [(4*beta*t/9)^6] times a polynomial of degree six in
    [w = 9*r0^(2/3)/(4*beta*t)]; as [r0] tends to [0] the second and the
    fourth moment tend to [(1280/243)*beta^3*t^3] and
    [(82575360/531441)*beta^6*t^6], the moments of the asymptotic
    regime. *)
Theorem full_Richardson_moments (beta t r0 : R) :
  0 < beta -> 0 < t -> 0 < r0 ->
  FullRichardson.ra beta t r0 = 1 /\
  FullRichardson.r2 beta t r0
  = r0 ^ 2 + 20 / 3 * (beta * t) * Rpower r0 (4 / 3)
    + 320 / 27 * (beta * t) ^ 2 * Rpower r0 (2 / 3) + 1280 / 243 * (beta * t) ^ 3 /\
  FullRichardson.K2 beta t r0
  = (20 / 3 * beta * Rpower r0 (4 / 3) + 640 / 27 * beta ^ 2 * t * Rpower r0 (2 / 3)
     + 1280 / 81 * beta ^ 3 * t ^ 2) / 2 /\
  (let w := 9 / (4 * beta * t) * Rpower r0 (2 / 3) in
   FullRichardson.r4 beta t r0
   = (4 * beta * t / 9) ^ 6
     * (w ^ 6 + 48 * w ^ 5 + 840 * w ^ 4 + 6720 * w ^ 3 + 25200 * w ^ 2 + 40320 * w
        + 20160)) /\
  tends_lower (Finite 0) (fun r0 => FullRichardson.r2 beta t r0)
    (1280 / 243 * beta ^ 3 * t ^ 3) /\
  tends_lower (Finite 0) (fun r0 => FullRichardson.r4 beta t r0)
    (82575360 / 531441 * beta ^ 6 * t ^ 6) /\
  AsymptoticRichardson.r2 beta t = 1280 / 243 * beta ^ 3 * t ^ 3 /\
  AsymptoticRichardson.r4 beta t = 82575360 / 531441 * beta ^ 6 * t ^ 6.
Proof.
  intros Hb Ht Hr0.
  split; [apply full_Richardson_ra; assumption|].
  split; [apply full_Richardson_r2; assumption|].
  split; [apply full_Richardson_K2; assumption|].
  split; [cbv zeta; rewrite full_Richardson_r4 by assumption; ring|].
  split; [apply full_Richardson_r2_limit; assumption|].
  split; [apply full_Richardson_r4_limit; assumption|].
  split; [apply asym_Richardson_r2; assumption | apply asym_Richardson_r4; assumption].
Qed.

Lemma full_Richardson_moments_witness :
  FullRichardson.ra 1 2 3 = 1 /\
  FullRichardson.r2 1 2 3
  = 3 ^ 2 + 20 / 3 * (1 * 2) * Rpower 3 (4 / 3)
    + 320 / 27 * (1 * 2) ^ 2 * Rpower 3 (2 / 3) + 1280 / 243 * (1 * 2) ^ 3 /\
  FullRichardson.K2 1 2 3
  = (20 / 3 * 1 * Rpower 3 (4 / 3) + 640 / 27 * 1 ^ 2 * 2 * Rpower 3 (2 / 3)
     + 1280 / 81 * 1 ^ 3 * 2 ^ 2) / 2 /\
  (let w := 9 / (4 * 1 * 2) * Rpower 3 (2 / 3) in
   FullRichardson.r4 1 2 3
   = (4 * 1 * 2 / 9) ^ 6
     * (w ^ 6 + 48 * w ^ 5 + 840 * w ^ 4 + 6720 * w ^ 3 + 25200 * w ^ 2 + 40320 * w
        + 20160)) /\
  tends_lower (Finite 0) (fun r0 => FullRichardson.r2 1 2 r0)
    (1280 / 243 * 1 ^ 3 * 2 ^ 3) /\
  tends_lower (Finite 0) (fun r0 => FullRichardson.r4 1 2 r0)
    (82575360 / 531441 * 1 ^ 6 * 2 ^ 6) /\
  AsymptoticRichardson.r2 1 2 = 1280 / 243 * 1 ^ 3 * 2 ^ 3 /\
  AsymptoticRichardson.r4 1 2 = 82575360 / 531441 * 1 ^ 6 * 2 ^ 6.
Proof. apply (full_Richardson_moments 1 2 3); lra. Defined.

(** X9.  Generalized full regime (cell 2.7, [a = 1]; no result from the
    computer-algebra system): with the density as the cell writes it, for
    all positive [kappa], [t], [r0], the second moment is
    [(r0^2 + 6*kappa*t*r0 + 6*kappa^2*t^2) / 2], the fourth moment is
    [(r0^4 + 20*kappa*t*r0^3 + 120*(kappa*t)^2*r0^2 + 240*(kappa*t)^3*r0
      + 120*(kappa*t)^4) / 2], the kurtosis is their quotient
    [r4 / r2^2] and [K2] is [(3*kappa*r0 + 6*kappa^2*t) / 2]. *)
Theorem generalized_full_moments (kappa t r0 : R) :
  0 < kappa -> 0 < t -> 0 < r0 ->
  GeneralizedFull.r2 kappa t r0
  = (r0 ^ 2 + 6 * (kappa * t) * r0 + 6 * (kappa * t) ^ 2) / 2 /\
  GeneralizedFull.r4 kappa t r0
  = (r0 ^ 4 + 20 * (kappa * t) * r0 ^ 3 + 120 * (kappa * t) ^ 2 * r0 ^ 2
     + 240 * (kappa * t) ^ 3 * r0 + 120 * (kappa * t) ^ 4) / 2 /\
  GeneralizedFull.Ku kappa t r0
  = 2 * (r0 ^ 4 + 20 * (kappa * t) * r0 ^ 3 + 120 * (kappa * t) ^ 2 * r0 ^ 2
         + 240 * (kappa * t) ^ 3 * r0 + 120 * (kappa * t) ^ 4)
    / (r0 ^ 2 + 6 * (kappa * t) * r0 + 6 * (kappa * t) ^ 2) ^ 2 /\
  GeneralizedFull.K2 kappa t r0 = (3 * kappa * r0 + 6 * kappa ^ 2 * t) / 2.
Proof.
  intros Hk Ht Hr0.
  split; [apply generalized_full_r2; assumption|].
  split; [apply generalized_full_r4; assumption|].
  split; [apply generalized_full_Ku; assumption|].
  apply generalized_full_K2; assumption.
Qed.

Lemma generalized_full_moments_witness :
  GeneralizedFull.r2 1 2 3
  = (3 ^ 2 + 6 * (1 * 2) * 3 + 6 * (1 * 2) ^ 2) / 2 /\
  GeneralizedFull.r4 1 2 3
  = (3 ^ 4 + 20 * (1 * 2) * 3 ^ 3 + 120 * (1 * 2) ^ 2 * 3 ^ 2
     + 240 * (1 * 2) ^ 3 * 3 + 120 * (1 * 2) ^ 4) / 2 /\
  GeneralizedFull.Ku 1 2 3
  = 2 * (3 ^ 4 + 20 * (1 * 2) * 3 ^ 3 + 120 * (1 * 2) ^ 2 * 3 ^ 2
         + 240 * (1 * 2) ^ 3 * 3 + 120 * (1 * 2) ^ 4)
    / (3 ^ 2 + 6 * (1 * 2) * 3 + 6 * (1 * 2) ^ 2) ^ 2 /\
  GeneralizedFull.K2 1 2 3 = (3 * 1 * 3 + 6 * 1 ^ 2 * 2) / 2.
Proof. apply (generalized_full_moments 1 2 3); lra. Defined.

(** X10.  Lundgren regime after the change of variable [x = ln(r/r0)]:
    for all positive [r0], [T], [t] the moments are those the notebook
    displays, [r2 = r0^2*exp(8t/T)], [r4 = r0^4*exp(24t/T)],
    [Ku = exp(8t/T)] and [K2 = 4*r0^2*exp(8t/T)/T]. *)
Theorem full_Lundgren_moments (r0 T t : R) :
  0 < r0 -> 0 < T -> 0 < t ->
  FullLundgren.r2 r0 T t = r0 ^ 2 * exp (8 * t / T) /\
  FullLundgren.r4 r0 T t = r0 ^ 4 * exp (24 * t / T) /\
  FullLundgren.Ku r0 T t = exp (8 * t / T) /\
  FullLundgren.K2 r0 T t = 4 * r0 ^ 2 * exp (8 * t / T) / T.
Proof.
  intros Hr0 HT Ht. repeat split.
  - apply full_Lundgren_r2; assumption.
  - apply full_Lundgren_r4; assumption.
  - apply full_Lundgren_Ku; assumption.
  - apply full_Lundgren_K2; assumption.
Qed.

Lemma full_Lundgren_moments_witness :
  FullLundgren.r2 2 3 1 = 2 ^ 2 * exp (8 * 1 / 3) /\
  FullLundgren.r4 2 3 1 = 2 ^ 4 * exp (24 * 1 / 3) /\
  FullLundgren.Ku 2 3 1 = exp (8 * 1 / 3) /\
  FullLundgren.K2 2 3 1 = 4 * 2 ^ 2 * exp (8 * 1 / 3) / 3.
Proof. apply (full_Lundgren_moments 2 3 1); lra. Defined.

(** X11.  Lundgren regime in the raw radius (the integrals the
    computer-algebra system leaves unevaluated): for every positive [t]
    the density is normalized over [(0, oo)], [r2 = exp(8t)],
    [r4 = exp(24t)], [Ku = exp(8t)] and [K2 = 4*exp(8t)]; these are the
    moments after the change of variable at [r0 = 1] and [T = 1]. *)
Theorem full_Lundgren_raw_moments (t : R) :
  0 < t ->
  FullLundgrenRaw.ra t = 1 /\
  FullLundgrenRaw.r2 t = exp (8 * t) /\
  FullLundgrenRaw.r4 t = exp (24 * t) /\
  FullLundgrenRaw.Ku t = exp (8 * t) /\
  FullLundgrenRaw.K2 t = 4 * exp (8 * t) /\
  FullLundgrenRaw.ra t = FullLundgren.ra 1 1 t /\
  FullLundgrenRaw.r2 t = FullLundgren.r2 1 1 t /\
  FullLundgrenRaw.r4 t = FullLundgren.r4 1 1 t.
Proof.
  intros Ht.
  split; [apply full_Lundgren_raw_ra; assumption|].
  split; [apply full_Lundgren_raw_r2; assumption|].
  split; [apply full_Lundgren_raw_r4; assumption|].
  split; [apply full_Lundgren_raw_Ku; assumption|].
  split; [apply full_Lundgren_raw_K2; assumption|].
  rewrite full_Lundgren_raw_ra, full_Lundgren_raw_r2, full_Lundgren_raw_r4 by assumption.
  rewrite full_Lundgren_ra, full_Lundgren_r2, full_Lundgren_r4 by lra.
  repeat split.
  - replace (8 * t / 1) with (8 * t) by field. ring.
  - replace (24 * t / 1) with (24 * t) by field. ring.
Qed.

Lemma full_Lundgren_raw_moments_witness :
  FullLundgrenRaw.ra 2 = 1 /\
  FullLundgrenRaw.r2 2 = exp (8 * 2) /\
  FullLundgrenRaw.r4 2 = exp (24 * 2) /\
  FullLundgrenRaw.Ku 2 = exp (8 * 2) /\
  FullLundgrenRaw.K2 2 = 4 * exp (8 * 2) /\
  FullLundgrenRaw.ra 2 = FullLundgren.ra 1 1 2 /\
  FullLundgrenRaw.r2 2 = FullLundgren.r2 1 1 2 /\
  FullLundgrenRaw.r4 2 = FullLundgren.r4 1 1 2.
Proof. apply (full_Lundgren_raw_moments 2); lra. Defined.
(** ** Further results on the dtype downcast *)

Section DowncastExtras.
Import Downcast.
Local Open Scope string_scope.
Local Open Scope list_scope.

(** X12.  The cell is all or nothing, whatever the file system holds: it
    raises and leaves every file as it was ([FileNotFoundError] when the
    input file is missing), or it returns and has written the output file
    in full: the file reads back as written; each of the six targeted
    names is a variable of the source, and the file holds it cast to its
    target type ([ID], [rowsize] to int32; [ve], [vn], [longitude],
    [latitude] to float32); the title is "laser experiment"; and no other
    path is touched.  It never leaves an empty or half-written output file
    behind. *)
Theorem downcast_all_or_nothing (fs : filesystem) :
  (lookup input_path fs = None -> cell fs = (Raise FileNotFoundError, fs)) /\
  ((exists e, cell fs = (Raise e, fs)) \/
   (exists dset out,
      open_dataset fs input_path = Ok dset /\
      cell fs = (Ok tt, set_item output_path out fs) /\
      open_dataset (snd (cell fs)) output_path = Ok out /\
      (forall nm T, In (nm, T) targets ->
         exists v, lookup nm (variables dset) = Some v /\
           lookup nm (variables out) = Some (astype T v)) /\
      lookup "title" (attrs out) = Some (AStr "laser experiment") /\
      forall p, p <> output_path -> lookup p (snd (cell fs)) = lookup p fs)).
Proof.
  split.
  - intros H. unfold cell, open_dataset. rewrite H. reflexivity.
  - destruct (cell_written fs) as [H | (dset & out & Ho & Hc & Hback & Ht & Htitle)];
      [left; exact H|].
    right. exists dset, out. split; [exact Ho|]. split; [exact Hc|]. rewrite Hc. simpl.
    split; [exact Hback|]. split; [exact Ht|]. split; [exact Htitle|].
    intros p Hp. rewrite lookup_set_item.
    destruct (String.eqb p output_path) eqn:E; [|reflexivity].
    apply String.eqb_eq in E. contradiction.
Qed.

(** X13.  Running the cell a second time, on the file system the first
    run has left, succeeds and changes nothing: the input file is still
    there and the output file is rewritten with the same content. *)
Theorem downcast_rerun (fs fs' : filesystem) :
  cell fs = (Ok tt, fs') -> cell fs' = (Ok tt, fs').
Proof. apply cell_again. Qed.

Lemma downcast_rerun_witness :
  cell (snd (cell example_fs)) = (Ok tt, snd (cell example_fs)).
Proof.
  apply (downcast_rerun example_fs (snd (cell example_fs))).
  vm_compute. reflexivity.
Defined.

(** X14.  When the six targeted names are data variables, the attributes
    of the written dataset are the attributes of the variable [ID], the
    first array handed to [xr.merge], with [title] set to
    "laser experiment" (as in the notebook's print-out: [long_name],
    [units], [title]); the attributes of the source dataset are not
    carried over. *)
Theorem downcast_attributes (fs : filesystem) (dset : Dataset) :
  open_dataset fs input_path = Ok dset ->
  NoDup (map fst (variables dset)) ->
  (forall nm T, In (nm, T) targets ->
     exists v, lookup nm (variables dset) = Some v /\ mem nm (coord_names dset) = false) ->
  exists out v1,
    lookup "ID" (variables dset) = Some v1 /\
    cell fs = (Ok tt, set_item output_path out fs) /\
    attrs out = set_item "title" (AStr "laser experiment")
                  (map (fun kv => (fst kv, AStr (snd kv))) (vattrs v1)).
Proof. apply cell_attributes. Qed.

Lemma downcast_attributes_witness :
  exists out v1,
    lookup "ID" (variables example_dataset) = Some v1 /\
    cell example_fs = (Ok tt, set_item output_path out example_fs) /\
    attrs out = set_item "title" (AStr "laser experiment")
                  (map (fun kv => (fst kv, AStr (snd kv))) (vattrs v1)).
Proof.
  apply (downcast_attributes example_fs example_dataset).
  - reflexivity.
  - simpl. repeat (constructor; [simpl; intuition discriminate|]). constructor.
  - intros nm T Hin. unfold targets in Hin. simpl in Hin.
    destruct Hin as [E|[E|[E|[E|[E|[E|[]]]]]]]; injection E; intros; subst nm T;
      eexists; split; reflexivity.
Defined.

(** X15.  When the six targeted names are data variables and [ID] (or
    [rowsize]) is an int64 variable, the written variable is int32 with
    the same dimensions and as many elements; each element lies in the
    int32 range and is congruent to the source element modulo [2^32], so
    that a source element within the int32 range is written unchanged and
    one outside it wraps around. *)
Theorem downcast_integers (fs : filesystem) (dset : Dataset) (nm : string) (v : Var) :
  open_dataset fs input_path = Ok dset ->
  NoDup (map fst (variables dset)) ->
  (forall nm T, In (nm, T) targets ->
     exists v, lookup nm (variables dset) = Some v /\ mem nm (coord_names dset) = false) ->
  nm = "ID" \/ nm = "rowsize" ->
  lookup nm (variables dset) = Some v ->
  dtype_of v = int64 ->
  exists out w,
    cell fs = (Ok tt, set_item output_path out fs) /\
    lookup nm (variables out) = Some w /\
    dtype_of w = int32 /\ dims w = dims v /\
    List.length (values w) = List.length (values v) /\
    forall i z, nth_error (values v) i = Some (SInt z) ->
      exists z', nth_error (values w) i = Some (SInt z') /\
        (- 2 ^ 31 <= z' < 2 ^ 31)%Z /\ ((z' - z) mod 2 ^ 32 = 0)%Z /\
        ((- 2 ^ 31 <= z < 2 ^ 31)%Z -> z' = z).
Proof. apply cell_integers. Qed.

Lemma downcast_integers_witness :
  exists out w,
    cell example_fs = (Ok tt, set_item output_path out example_fs) /\
    lookup "ID" (variables out) = Some w /\
    dtype_of w = int32 /\
    dims w = dims (mkVar (("traj", 2%nat) :: nil) int64
                     (SInt 4 :: SInt 4294967301 :: nil)
                     (("long_name", "Buoy ID") :: ("units", "-") :: nil)) /\
    List.length (values w)
    = List.length (values (mkVar (("traj", 2%nat) :: nil) int64
                             (SInt 4 :: SInt 4294967301 :: nil)
                             (("long_name", "Buoy ID") :: ("units", "-") :: nil))) /\
    forall i z,
      nth_error (values (mkVar (("traj", 2%nat) :: nil) int64
                           (SInt 4 :: SInt 4294967301 :: nil)
                           (("long_name", "Buoy ID") :: ("units", "-") :: nil))) i
      = Some (SInt z) ->
      exists z', nth_error (values w) i = Some (SInt z') /\
        (- 2 ^ 31 <= z' < 2 ^ 31)%Z /\ ((z' - z) mod 2 ^ 32 = 0)%Z /\
        ((- 2 ^ 31 <= z < 2 ^ 31)%Z -> z' = z).
Proof.
  apply (downcast_integers example_fs example_dataset "ID").
  - reflexivity.
  - simpl. repeat (constructor; [simpl; intuition discriminate|]). constructor.
  - intros nm T Hin. unfold targets in Hin. simpl in Hin.
    destruct Hin as [E|[E|[E|[E|[E|[E|[]]]]]]]; injection E; intros; subst nm T;
      eexists; split; reflexivity.
  - left. reflexivity.
  - reflexivity.
  - reflexivity.
Defined.

End DowncastExtras.
